(** * Resilient batch-translation engine of the vocabulary plugin

    A shallow embedding of the orchestration core of [src/main.ts]:
    [ErrorClassifier], [CircuitBreaker], [ExponentialBackoff],
    [AdaptiveBatchController], [AdvancedRateLimiter], the plugin's result
    cache and [ProfessionalBatchManager] (endpoint failover and the batch
    loop), followed by the properties of the specification.

    Conventions of the embedding.
    - A JavaScript string is the list of its UTF-16 code units ([list N]);
      [js "..."] turns an ASCII literal into one.
    - Integer-valued JavaScript numbers (counters, milliseconds, HTTP status
      codes) are [Z].
    - [Date.now()] is read from the world; the clock moves only at the
      suspension points that the code awaits on purpose ([setTimeout] and
      [fetch]).
    - A thrown value is a [JsError]; code that may throw returns a [Result];
      a loop of the source that need not end runs on fuel and answers
      [Diverge] when the fuel is used up.
    - A plain object used as a dictionary is the [gmap] of its own
      properties; the result cache, which is indexed with the words of the
      user, comes with what it inherits from its prototype ([Cache.Store]).
      A [Map] whose iteration order the code relies on is an association
      list in insertion order. *)

From stdpp Require Import base list strings gmap.
From Stdlib Require Import ZArith NArith Lia.
From Stdlib Require DecimalString Ascii String.

Local Open Scope Z_scope.

(* ===================================================================== *)
(** ** JavaScript strings                                                 *)
(* ===================================================================== *)

Abbreviation jsstring := (list N) (only parsing).

Definition js (s : string) : jsstring :=
  Ascii.N_of_ascii <$> String.list_ascii_of_string s.
Arguments js s%_string : simpl never.

(** Template-literal rendering of an integer-valued number. *)
Definition showZ (z : Z) : jsstring :=
  js (DecimalString.NilZero.string_of_int (Z.to_int z)).
Arguments showZ z : simpl never.

Fixpoint startsWith (s prefix : jsstring) : bool :=
  match prefix, s with
  | [], _ => true
  | _ :: _, [] => false
  | a :: prefix', b :: s' => N.eqb a b && startsWith s' prefix'
  end.

(** [s.includes(needle)] *)
Fixpoint includes (s needle : jsstring) : bool :=
  startsWith s needle ||
  match s with
  | [] => false
  | _ :: s' => includes s' needle
  end.

(** *** Lower case

    [String.prototype.toLowerCase] works on the code points of the string
    and follows the case mappings of the Unicode Character Database, which
    the host brings along.  The three tables below are those of Unicode
    14.0.0: the simple lower-case mappings, and the properties Cased and
    Case_Ignorable that decide the one mapping that looks at its
    neighbours, that of the capital sigma. *)

(** The code points [lo, lo + step, ..., hi] go to [to, to + step, ...]. *)
Definition lowerRanges : list (N * N * N * N) :=
  [
   (65, 90, 1, 97); (192, 214, 1, 224); (216, 222, 1, 248); (256, 302, 2, 257);
   (306, 310, 2, 307); (313, 327, 2, 314); (330, 374, 2, 331); (376, 376, 1, 255);
   (377, 381, 2, 378); (385, 385, 1, 595); (386, 388, 2, 387); (390, 390, 1, 596);
   (391, 391, 1, 392); (393, 394, 1, 598); (395, 395, 1, 396); (398, 398, 1, 477);
   (399, 399, 1, 601); (400, 400, 1, 603); (401, 401, 1, 402); (403, 403, 1, 608);
   (404, 404, 1, 611); (406, 406, 1, 617); (407, 407, 1, 616); (408, 408, 1, 409);
   (412, 412, 1, 623); (413, 413, 1, 626); (415, 415, 1, 629); (416, 420, 2, 417);
   (422, 422, 1, 640); (423, 423, 1, 424); (425, 425, 1, 643); (428, 428, 1, 429);
   (430, 430, 1, 648); (431, 431, 1, 432); (433, 434, 1, 650); (435, 437, 2, 436);
   (439, 439, 1, 658); (440, 440, 1, 441); (444, 444, 1, 445); (452, 452, 1, 454);
   (453, 453, 1, 454); (455, 455, 1, 457); (456, 456, 1, 457); (458, 458, 1, 460);
   (459, 475, 2, 460); (478, 494, 2, 479); (497, 497, 1, 499); (498, 500, 2, 499);
   (502, 502, 1, 405); (503, 503, 1, 447); (504, 542, 2, 505); (544, 544, 1, 414);
   (546, 562, 2, 547); (570, 570, 1, 11365); (571, 571, 1, 572); (573, 573, 1, 410);
   (574, 574, 1, 11366); (577, 577, 1, 578); (579, 579, 1, 384); (580, 580, 1, 649);
   (581, 581, 1, 652); (582, 590, 2, 583); (880, 882, 2, 881); (886, 886, 1, 887);
   (895, 895, 1, 1011); (902, 902, 1, 940); (904, 906, 1, 941); (908, 908, 1, 972);
   (910, 911, 1, 973); (913, 929, 1, 945); (931, 939, 1, 963); (975, 975, 1, 983);
   (984, 1006, 2, 985); (1012, 1012, 1, 952); (1015, 1015, 1, 1016); (1017, 1017, 1, 1010);
   (1018, 1018, 1, 1019); (1021, 1023, 1, 891); (1024, 1039, 1, 1104); (1040, 1071, 1, 1072);
   (1120, 1152, 2, 1121); (1162, 1214, 2, 1163); (1216, 1216, 1, 1231); (1217, 1229, 2, 1218);
   (1232, 1326, 2, 1233); (1329, 1366, 1, 1377); (4256, 4293, 1, 11520); (4295, 4295, 1, 11559);
   (4301, 4301, 1, 11565); (5024, 5103, 1, 43888); (5104, 5109, 1, 5112); (7312, 7354, 1, 4304);
   (7357, 7359, 1, 4349); (7680, 7828, 2, 7681); (7838, 7838, 1, 223); (7840, 7934, 2, 7841);
   (7944, 7951, 1, 7936); (7960, 7965, 1, 7952); (7976, 7983, 1, 7968); (7992, 7999, 1, 7984);
   (8008, 8013, 1, 8000); (8025, 8031, 2, 8017); (8040, 8047, 1, 8032); (8072, 8079, 1, 8064);
   (8088, 8095, 1, 8080); (8104, 8111, 1, 8096); (8120, 8121, 1, 8112); (8122, 8123, 1, 8048);
   (8124, 8124, 1, 8115); (8136, 8139, 1, 8050); (8140, 8140, 1, 8131); (8152, 8153, 1, 8144);
   (8154, 8155, 1, 8054); (8168, 8169, 1, 8160); (8170, 8171, 1, 8058); (8172, 8172, 1, 8165);
   (8184, 8185, 1, 8056); (8186, 8187, 1, 8060); (8188, 8188, 1, 8179); (8486, 8486, 1, 969);
   (8490, 8490, 1, 107); (8491, 8491, 1, 229); (8498, 8498, 1, 8526); (8544, 8559, 1, 8560);
   (8579, 8579, 1, 8580); (9398, 9423, 1, 9424); (11264, 11311, 1, 11312); (11360, 11360, 1, 11361);
   (11362, 11362, 1, 619); (11363, 11363, 1, 7549); (11364, 11364, 1, 637); (11367, 11371, 2, 11368);
   (11373, 11373, 1, 593); (11374, 11374, 1, 625); (11375, 11375, 1, 592); (11376, 11376, 1, 594);
   (11378, 11378, 1, 11379); (11381, 11381, 1, 11382); (11390, 11391, 1, 575); (11392, 11490, 2, 11393);
   (11499, 11501, 2, 11500); (11506, 11506, 1, 11507); (42560, 42604, 2, 42561); (42624, 42650, 2, 42625);
   (42786, 42798, 2, 42787); (42802, 42862, 2, 42803); (42873, 42875, 2, 42874); (42877, 42877, 1, 7545);
   (42878, 42886, 2, 42879); (42891, 42891, 1, 42892); (42893, 42893, 1, 613); (42896, 42898, 2, 42897);
   (42902, 42920, 2, 42903); (42922, 42922, 1, 614); (42923, 42923, 1, 604); (42924, 42924, 1, 609);
   (42925, 42925, 1, 620); (42926, 42926, 1, 618); (42928, 42928, 1, 670); (42929, 42929, 1, 647);
   (42930, 42930, 1, 669); (42931, 42931, 1, 43859); (42932, 42946, 2, 42933); (42948, 42948, 1, 42900);
   (42949, 42949, 1, 642); (42950, 42950, 1, 7566); (42951, 42953, 2, 42952); (42960, 42960, 1, 42961);
   (42966, 42968, 2, 42967); (42997, 42997, 1, 42998); (65313, 65338, 1, 65345); (66560, 66599, 1, 66600);
   (66736, 66771, 1, 66776); (66928, 66938, 1, 66967); (66940, 66954, 1, 66979); (66956, 66962, 1, 66995);
   (66964, 66965, 1, 67003); (68736, 68786, 1, 68800); (71840, 71871, 1, 71872); (93760, 93791, 1, 93792);
   (125184, 125217, 1, 125218)
  ]%N.

(** The code points with the property Cased, as intervals. *)
Definition casedRanges : list (N * N) :=
  [
   (65, 90); (97, 122); (170, 170); (181, 181); (186, 186); (192, 214);
   (216, 246); (248, 442); (444, 447); (452, 659); (661, 696); (704, 705);
   (736, 740); (837, 837); (880, 883); (886, 887); (890, 893); (895, 895);
   (902, 902); (904, 906); (908, 908); (910, 929); (931, 1013); (1015, 1153);
   (1162, 1327); (1329, 1366); (1376, 1416); (4256, 4293); (4295, 4295); (4301, 4301);
   (4304, 4346); (4349, 4351); (5024, 5109); (5112, 5117); (7296, 7304); (7312, 7354);
   (7357, 7359); (7424, 7615); (7680, 7957); (7960, 7965); (7968, 8005); (8008, 8013);
   (8016, 8023); (8025, 8025); (8027, 8027); (8029, 8029); (8031, 8061); (8064, 8116);
   (8118, 8124); (8126, 8126); (8130, 8132); (8134, 8140); (8144, 8147); (8150, 8155);
   (8160, 8172); (8178, 8180); (8182, 8188); (8305, 8305); (8319, 8319); (8336, 8348);
   (8450, 8450); (8455, 8455); (8458, 8467); (8469, 8469); (8473, 8477); (8484, 8484);
   (8486, 8486); (8488, 8488); (8490, 8493); (8495, 8500); (8505, 8505); (8508, 8511);
   (8517, 8521); (8526, 8526); (8544, 8575); (8579, 8580); (9398, 9449); (11264, 11492);
   (11499, 11502); (11506, 11507); (11520, 11557); (11559, 11559); (11565, 11565); (42560, 42605);
   (42624, 42653); (42786, 42887); (42891, 42894); (42896, 42954); (42960, 42961); (42963, 42963);
   (42965, 42969); (42997, 42998); (43000, 43002); (43824, 43866); (43868, 43880); (43888, 43967);
   (64256, 64262); (64275, 64279); (65313, 65338); (65345, 65370); (66560, 66639); (66736, 66771);
   (66776, 66811); (66928, 66938); (66940, 66954); (66956, 66962); (66964, 66965); (66967, 66977);
   (66979, 66993); (66995, 67001); (67003, 67004); (67456, 67456); (67459, 67461); (67463, 67504);
   (67506, 67514); (68736, 68786); (68800, 68850); (71840, 71903); (93760, 93823); (119808, 119892);
   (119894, 119964); (119966, 119967); (119970, 119970); (119973, 119974); (119977, 119980); (119982, 119993);
   (119995, 119995); (119997, 120003); (120005, 120069); (120071, 120074); (120077, 120084); (120086, 120092);
   (120094, 120121); (120123, 120126); (120128, 120132); (120134, 120134); (120138, 120144); (120146, 120485);
   (120488, 120512); (120514, 120538); (120540, 120570); (120572, 120596); (120598, 120628); (120630, 120654);
   (120656, 120686); (120688, 120712); (120714, 120744); (120746, 120770); (120772, 120779); (122624, 122633);
   (122635, 122654); (125184, 125251); (127280, 127305); (127312, 127337); (127344, 127369)
  ]%N.

(** The code points with the property Case_Ignorable, as intervals. *)
Definition caseIgnorableRanges : list (N * N) :=
  [
   (39, 39); (46, 46); (58, 58); (94, 94); (96, 96); (168, 168);
   (173, 173); (175, 175); (180, 180); (183, 184); (688, 879); (884, 885);
   (890, 890); (900, 901); (903, 903); (1155, 1161); (1369, 1369); (1375, 1375);
   (1425, 1469); (1471, 1471); (1473, 1474); (1476, 1477); (1479, 1479); (1524, 1524);
   (1536, 1541); (1552, 1562); (1564, 1564); (1600, 1600); (1611, 1631); (1648, 1648);
   (1750, 1757); (1759, 1768); (1770, 1773); (1807, 1807); (1809, 1809); (1840, 1866);
   (1958, 1968); (2027, 2037); (2042, 2042); (2045, 2045); (2070, 2093); (2137, 2139);
   (2184, 2184); (2192, 2193); (2200, 2207); (2249, 2306); (2362, 2362); (2364, 2364);
   (2369, 2376); (2381, 2381); (2385, 2391); (2402, 2403); (2417, 2417); (2433, 2433);
   (2492, 2492); (2497, 2500); (2509, 2509); (2530, 2531); (2558, 2558); (2561, 2562);
   (2620, 2620); (2625, 2626); (2631, 2632); (2635, 2637); (2641, 2641); (2672, 2673);
   (2677, 2677); (2689, 2690); (2748, 2748); (2753, 2757); (2759, 2760); (2765, 2765);
   (2786, 2787); (2810, 2815); (2817, 2817); (2876, 2876); (2879, 2879); (2881, 2884);
   (2893, 2893); (2901, 2902); (2914, 2915); (2946, 2946); (3008, 3008); (3021, 3021);
   (3072, 3072); (3076, 3076); (3132, 3132); (3134, 3136); (3142, 3144); (3146, 3149);
   (3157, 3158); (3170, 3171); (3201, 3201); (3260, 3260); (3263, 3263); (3270, 3270);
   (3276, 3277); (3298, 3299); (3328, 3329); (3387, 3388); (3393, 3396); (3405, 3405);
   (3426, 3427); (3457, 3457); (3530, 3530); (3538, 3540); (3542, 3542); (3633, 3633);
   (3636, 3642); (3654, 3662); (3761, 3761); (3764, 3772); (3782, 3782); (3784, 3789);
   (3864, 3865); (3893, 3893); (3895, 3895); (3897, 3897); (3953, 3966); (3968, 3972);
   (3974, 3975); (3981, 3991); (3993, 4028); (4038, 4038); (4141, 4144); (4146, 4151);
   (4153, 4154); (4157, 4158); (4184, 4185); (4190, 4192); (4209, 4212); (4226, 4226);
   (4229, 4230); (4237, 4237); (4253, 4253); (4348, 4348); (4957, 4959); (5906, 5908);
   (5938, 5939); (5970, 5971); (6002, 6003); (6068, 6069); (6071, 6077); (6086, 6086);
   (6089, 6099); (6103, 6103); (6109, 6109); (6155, 6159); (6211, 6211); (6277, 6278);
   (6313, 6313); (6432, 6434); (6439, 6440); (6450, 6450); (6457, 6459); (6679, 6680);
   (6683, 6683); (6742, 6742); (6744, 6750); (6752, 6752); (6754, 6754); (6757, 6764);
   (6771, 6780); (6783, 6783); (6823, 6823); (6832, 6862); (6912, 6915); (6964, 6964);
   (6966, 6970); (6972, 6972); (6978, 6978); (7019, 7027); (7040, 7041); (7074, 7077);
   (7080, 7081); (7083, 7085); (7142, 7142); (7144, 7145); (7149, 7149); (7151, 7153);
   (7212, 7219); (7222, 7223); (7288, 7293); (7376, 7378); (7380, 7392); (7394, 7400);
   (7405, 7405); (7412, 7412); (7416, 7417); (7468, 7530); (7544, 7544); (7579, 7679);
   (8125, 8125); (8127, 8129); (8141, 8143); (8157, 8159); (8173, 8175); (8189, 8190);
   (8203, 8207); (8216, 8217); (8228, 8228); (8231, 8231); (8234, 8238); (8288, 8292);
   (8294, 8303); (8305, 8305); (8319, 8319); (8336, 8348); (8400, 8432); (11388, 11389);
   (11503, 11505); (11631, 11631); (11647, 11647); (11744, 11775); (11823, 11823); (12293, 12293);
   (12330, 12333); (12337, 12341); (12347, 12347); (12441, 12446); (12540, 12542); (40981, 40981);
   (42232, 42237); (42508, 42508); (42607, 42610); (42612, 42621); (42623, 42623); (42652, 42655);
   (42736, 42737); (42752, 42785); (42864, 42864); (42888, 42890); (42994, 42996); (43000, 43001);
   (43010, 43010); (43014, 43014); (43019, 43019); (43045, 43046); (43052, 43052); (43204, 43205);
   (43232, 43249); (43263, 43263); (43302, 43309); (43335, 43345); (43392, 43394); (43443, 43443);
   (43446, 43449); (43452, 43453); (43471, 43471); (43493, 43494); (43561, 43566); (43569, 43570);
   (43573, 43574); (43587, 43587); (43596, 43596); (43632, 43632); (43644, 43644); (43696, 43696);
   (43698, 43700); (43703, 43704); (43710, 43711); (43713, 43713); (43741, 43741); (43756, 43757);
   (43763, 43764); (43766, 43766); (43867, 43871); (43881, 43883); (44005, 44005); (44008, 44008);
   (44013, 44013); (64286, 64286); (64434, 64450); (65024, 65039); (65043, 65043); (65056, 65071);
   (65106, 65106); (65109, 65109); (65279, 65279); (65287, 65287); (65294, 65294); (65306, 65306);
   (65342, 65342); (65344, 65344); (65392, 65392); (65438, 65439); (65507, 65507); (65529, 65531);
   (66045, 66045); (66272, 66272); (66422, 66426); (67456, 67461); (67463, 67504); (67506, 67514);
   (68097, 68099); (68101, 68102); (68108, 68111); (68152, 68154); (68159, 68159); (68325, 68326);
   (68900, 68903); (69291, 69292); (69446, 69456); (69506, 69509); (69633, 69633); (69688, 69702);
   (69744, 69744); (69747, 69748); (69759, 69761); (69811, 69814); (69817, 69818); (69821, 69821);
   (69826, 69826); (69837, 69837); (69888, 69890); (69927, 69931); (69933, 69940); (70003, 70003);
   (70016, 70017); (70070, 70078); (70089, 70092); (70095, 70095); (70191, 70193); (70196, 70196);
   (70198, 70199); (70206, 70206); (70367, 70367); (70371, 70378); (70400, 70401); (70459, 70460);
   (70464, 70464); (70502, 70508); (70512, 70516); (70712, 70719); (70722, 70724); (70726, 70726);
   (70750, 70750); (70835, 70840); (70842, 70842); (70847, 70848); (70850, 70851); (71090, 71093);
   (71100, 71101); (71103, 71104); (71132, 71133); (71219, 71226); (71229, 71229); (71231, 71232);
   (71339, 71339); (71341, 71341); (71344, 71349); (71351, 71351); (71453, 71455); (71458, 71461);
   (71463, 71467); (71727, 71735); (71737, 71738); (71995, 71996); (71998, 71998); (72003, 72003);
   (72148, 72151); (72154, 72155); (72160, 72160); (72193, 72202); (72243, 72248); (72251, 72254);
   (72263, 72263); (72273, 72278); (72281, 72283); (72330, 72342); (72344, 72345); (72752, 72758);
   (72760, 72765); (72767, 72767); (72850, 72871); (72874, 72880); (72882, 72883); (72885, 72886);
   (73009, 73014); (73018, 73018); (73020, 73021); (73023, 73029); (73031, 73031); (73104, 73105);
   (73109, 73109); (73111, 73111); (73459, 73460); (78896, 78904); (92912, 92916); (92976, 92982);
   (92992, 92995); (94031, 94031); (94095, 94111); (94176, 94177); (94179, 94180); (110576, 110579);
   (110581, 110587); (110589, 110590); (113821, 113822); (113824, 113827); (118528, 118573); (118576, 118598);
   (119143, 119145); (119155, 119170); (119173, 119179); (119210, 119213); (119362, 119364); (121344, 121398);
   (121403, 121452); (121461, 121461); (121476, 121476); (121499, 121503); (121505, 121519); (122880, 122886);
   (122888, 122904); (122907, 122913); (122915, 122916); (122918, 122922); (123184, 123197); (123566, 123566);
   (123628, 123631); (125136, 125142); (125252, 125259); (127995, 127999); (917505, 917505); (917536, 917631);
   (917760, 917999)
  ]%N.

(** The image of [c] in a table of mappings sorted by [lo]. *)
Fixpoint lowerIn (table : list (N * N * N * N)) (c : N) : option N :=
  match table with
  | [] => None
  | (lo, hi, step, to) :: rest =>
      if (c <? lo)%N then None
      else if (c <=? hi)%N then
        if ((c - lo) mod step =? 0)%N then Some (to + (c - lo))%N else None
      else lowerIn rest c
  end.

(** Whether [c] lies in one of the intervals of a table sorted by [lo]. *)
Fixpoint inRanges (table : list (N * N)) (c : N) : bool :=
  match table with
  | [] => false
  | (lo, hi) :: rest =>
      if (c <? lo)%N then false
      else if (c <=? hi)%N then true
      else inRanges rest c
  end.

Definition isCased (c : N) : bool := inRanges casedRanges c.
Definition isCaseIgnorable (c : N) : bool := inRanges caseIgnorableRanges c.

(** The lower case of a code point that is not a capital sigma: U+0130 is
    the one code point with a mapping of two code points. *)
Definition lowerPoint (c : N) : list N :=
  if (c =? 304)%N then [105; 775]%N
  else match lowerIn lowerRanges c with
       | Some image => [image]
       | None => [c]
       end.

(** Whether the first code point of [s] that is not Case_Ignorable is
    Cased. *)
Fixpoint casedNext (s : list N) : bool :=
  match s with
  | [] => false
  | c :: rest => if isCaseIgnorable c then casedNext rest else isCased c
  end.

(** The condition Final_Sigma: a cased letter comes before, case-ignorable
    code points apart, and none comes after.  [before] holds the code points
    before the sigma, the nearest first. *)
Definition finalSigma (before after : list N) : bool :=
  casedNext before && negb (casedNext after).

Definition capitalSigma : N := 931%N.

(** The lower case of the code points [s] that come after [before]. *)
Fixpoint lowerFrom (before s : list N) : list N :=
  match s with
  | [] => []
  | c :: rest =>
      (if (c =? capitalSigma)%N
       then (if finalSigma before rest then [962%N] else [963%N])
       else lowerPoint c)
      ++ lowerFrom (c :: before) rest
  end.

Definition isHighSurrogate (c : N) : bool := ((55296 <=? c) && (c <=? 56319))%N.
Definition isLowSurrogate (c : N) : bool := ((56320 <=? c) && (c <=? 57343))%N.

(** The code points of a string of code units: a high surrogate and the low
    surrogate after it make one code point, and a surrogate on its own
    stands for itself. *)
Fixpoint codePoints (s : jsstring) : list N :=
  match s with
  | [] => []
  | c :: s' =>
      match s' with
      | d :: s'' =>
          if isHighSurrogate c && isLowSurrogate d
          then (65536 + (c - 55296) * 1024 + (d - 56320))%N :: codePoints s''
          else c :: codePoints s'
      | [] => [c]
      end
  end.

(** The code units of a code point. *)
Definition codeUnits (c : N) : jsstring :=
  if (c <? 65536)%N then [c]
  else [(55296 + (c - 65536) / 1024)%N; (56320 + (c - 65536) mod 1024)%N].

(** [s.toLowerCase()] *)
Definition toLowerCase (s : jsstring) : jsstring :=
  flat_map codeUnits (lowerFrom [] (codePoints s)).

(** White space and line terminators, as [trim] and the regular expression
    class [\s] see them. *)
Definition isWhiteSpace (c : N) : bool :=
  (((9 <=? c) && (c <=? 13)) || (c =? 32) || (c =? 160) || (c =? 5760)
   || ((8192 <=? c) && (c <=? 8202)) || (c =? 8232) || (c =? 8233)
   || (c =? 8239) || (c =? 8287) || (c =? 12288) || (c =? 65279))%N.

Fixpoint trimStart (s : jsstring) : jsstring :=
  match s with
  | [] => []
  | c :: s' => if isWhiteSpace c then trimStart s' else s
  end.

Definition trimEnd (s : jsstring) : jsstring := rev (trimStart (rev s)).

Definition trim (s : jsstring) : jsstring := trimEnd (trimStart s).

(** The code unit of the double quote, as a one-unit string. *)
Definition dquote : jsstring := [34%N].

(** [!s] for a string: only the empty string is falsy. *)
Definition falsy (s : jsstring) : bool :=
  match s with [] => true | _ => false end.

(** [a || b] on strings. *)
Definition orElse (a b : jsstring) : jsstring :=
  if falsy a then b else a.

(** [parts.join(sep)] *)
Fixpoint join (sep : jsstring) (parts : list jsstring) : jsstring :=
  match parts with
  | [] => []
  | [p] => p
  | p :: rest => p ++ sep ++ join sep rest
  end.

(* ===================================================================== *)
(** ** Thrown values and results                                          *)
(* ===================================================================== *)

(** An [Error] object: its [name], its [message] and the optional [status]
    property that the failover client attaches. *)
Record JsError : Type := mkJsError {
  errName : jsstring;
  errMessage : jsstring;
  errStatus : option Z
}.

(** [new Error(message)] *)
Definition newError (message : jsstring) : JsError :=
  mkJsError (js "Error") message None.

(** [Error.prototype.toString] *)
Definition errToString (e : JsError) : jsstring :=
  if falsy (errName e) then errMessage e
  else if falsy (errMessage e) then errName e
  else errName e ++ js ": " ++ errMessage e.

(** How a call ends: it returns, it throws, or it never comes back (a loop
    of the source that does not end). *)
Inductive Result (A : Type) : Type :=
| Return (a : A)
| Throw (e : JsError)
| Diverge.
Arguments Return {A} a.
Arguments Throw {A} e.
Arguments Diverge {A}.

(* ===================================================================== *)
(** ** ErrorClassifier                                                    *)
(* ===================================================================== *)

Inductive ErrorCategory : Type :=
| MODEL | JSON | RATE_LIMIT | NETWORK | SERVER | PARSE | VALIDATION
| CAPACITY | MODEL_CAPACITY.

#[global] Instance ErrorCategory_eq_dec : EqDecision ErrorCategory.
Proof. solve_decision. Defined.

(** The string constants of [ERROR_CATEGORIES]. *)
Definition categoryName (c : ErrorCategory) : jsstring :=
  match c with
  | MODEL => js "model"
  | JSON => js "json"
  | RATE_LIMIT => js "rate_limit"
  | NETWORK => js "network"
  | SERVER => js "server"
  | PARSE => js "parse"
  | VALIDATION => js "validation"
  | CAPACITY => js "capacity"
  | MODEL_CAPACITY => js "model_capacity"
  end.

Module ErrorClassifier.

Definition statusIs (status : option Z) (n : Z) : bool :=
  match status with Some s => s =? n | None => false end.

Definition categorizeError (error : JsError) : ErrorCategory :=
  let errorMessage :=
    if falsy (errMessage error) then toLowerCase (errToString error)
    else toLowerCase (errMessage error) in
  let statusCode := errStatus error in
  let has := fun needle => includes errorMessage (js needle) in
  if has "over capacity" || has "currently over capacity"
     || has "capacity exceeded" || has "is currently over capacity"
  then CAPACITY
  else if (has "model" && has "capacity") || (has "llama" && has "capacity")
  then MODEL_CAPACITY
  else if has "model" || has "does not exist" || has "not available"
          || has "you do not have access" || has "model_not_available"
          || has "model_required"
  then MODEL
  else if has "rate limit" || has "too many requests" || has "rate_limit"
          || statusIs statusCode 429
  then RATE_LIMIT
  else if has "json" || has "parse" || has "invalid json"
          || has "json_validate_failed"
  then JSON
  else if has "network" || has "timeout" || has "fetch"
          || has "connection" || has "aborted"
  then NETWORK
  else if match statusCode with
          | Some s => (500 <=? s) && (s <? 600)
          | None => false
          end
  then SERVER
  else if has "parsing" || has "invalid response" || has "unexpected token"
  then PARSE
  else if has "valid" || has "validation" || has "invalid"
  then VALIDATION
  else SERVER.

(** [backoffMultiplier] is kept in tenths, so that SERVER's 1.5 is [15]. *)
Record Policy : Type := mkPolicy {
  retryable : bool;
  maxRetries : Z;
  backoffMultiplierTenths : Z
}.

Definition getErrorPolicy (category : ErrorCategory) : Policy :=
  match category with
  | MODEL => mkPolicy false 0 10
  | RATE_LIMIT => mkPolicy true 2 20
  | JSON => mkPolicy true 1 10
  | NETWORK => mkPolicy true 3 20
  | SERVER => mkPolicy true 2 15
  | PARSE => mkPolicy true 1 10
  | VALIDATION => mkPolicy false 0 10
  | CAPACITY => mkPolicy true 2 30
  | MODEL_CAPACITY => mkPolicy true 1 50
  end.

(** [getSuggestion(category, context)]; [model] is [context.model], empty
    when the context has none. *)
Definition getSuggestion (category : ErrorCategory) (contextModel : jsstring)
  : jsstring :=
  let model := orElse contextModel (js "current model") in
  match category with
  | MODEL =>
      js "Switch to a different model. " ++ dquote ++ model ++ dquote
         ++ js " is not available."
  | RATE_LIMIT => js "Reduce request rate or switch to a high-limit model."
  | JSON => js "Try reducing batch size or disabling JSON format temporarily."
  | NETWORK => js "Check internet connection and try again."
  | SERVER => js "Service temporarily unavailable. Try again in a few minutes."
  | PARSE => js "Response format issue. Try simplifying the request."
  | VALIDATION => js "Check input data format and requirements."
  | CAPACITY =>
      js "Service is currently at capacity. Wait a moment and try again."
  | MODEL_CAPACITY =>
      js "The model " ++ dquote ++ model ++ dquote
         ++ js " is currently overloaded. Try a different model or wait."
  end.

End ErrorClassifier.

(* ===================================================================== *)
(** ** CircuitBreaker                                                     *)
(* ===================================================================== *)

Module CircuitBreaker.

Inductive State : Type := CLOSED | OPEN | HALF_OPEN.

#[global] Instance State_eq_dec : EqDecision State.
Proof. solve_decision. Defined.

Record t : Type := mk {
  name : jsstring;
  failureCount : Z;
  lastFailureTime : Z;
  state : State
}.

Definition failureThreshold : Z := 3.
Definition resetTimeout : Z := 30000.

(** [new CircuitBreaker(name)] *)
Definition create (name : jsstring) : t := mk name 0 0 CLOSED.

Definition openError (cb : t) : JsError :=
  newError (js "Circuit breaker OPEN for " ++ name cb
            ++ js ". Too many failures.").

(** The guard at the top of [execute]: an open breaker either becomes
    half-open or rejects the call. *)
Definition enter (now : Z) (cb : t) : Result t :=
  match state cb with
  | OPEN =>
      if now - lastFailureTime cb >? resetTimeout
      then Return (mk (name cb) (failureCount cb) (lastFailureTime cb) HALF_OPEN)
      else Throw (openError cb)
  | _ => Return cb
  end.

Definition onSuccess (cb : t) : t :=
  mk (name cb) 0 (lastFailureTime cb) CLOSED.

Definition onFailure (now : Z) (cb : t) : t :=
  let failureCount' := failureCount cb + 1 in
  mk (name cb) failureCount' now
     (if failureCount' >=? failureThreshold then OPEN else state cb).

(** [execute(operation)] over a world [W] whose clock is [clock]; the
    operation is a world transformer that returns or throws.  A rejected
    call hands the world back untouched: the operation was not run. *)
Definition execute {W A : Type} (clock : W -> Z)
    (operation : W -> Result A * W) (cb : t) (w : W) : Result A * t * W :=
  match enter (clock w) cb with
  | Throw e => (Throw e, cb, w)
  | Diverge => (Diverge, cb, w)
  | Return cb1 =>
      match operation w with
      | (Return result, w') => (Return result, onSuccess cb1, w')
      | (Throw error, w') => (Throw error, onFailure (clock w') cb1, w')
      | (Diverge, w') => (Diverge, cb1, w')
      end
  end.

Definition getState (cb : t) : State := state cb.

(** The atomic steps by which a breaker's fields change: the guard letting
    a call through, and the two callbacks. *)
Inductive step : t -> t -> Prop :=
| step_enter now cb cb' : enter now cb = Return cb' -> step cb cb'
| step_success cb : step cb (onSuccess cb)
| step_failure now cb : step cb (onFailure now cb).

Inductive reachable (name : jsstring) : t -> Prop :=
| reach_create : reachable name (create name)
| reach_step cb cb' : reachable name cb -> step cb cb' -> reachable name cb'.

End CircuitBreaker.

(* ===================================================================== *)
(** ** ExponentialBackoff                                                 *)
(* ===================================================================== *)

Module ExponentialBackoff.

Record t : Type := mk { attemptCount : Z }.

Definition baseDelay : Z := 1000.
Definition maxDelay : Z := 30000.
Definition maxAttempts : Z := 5.

Definition create : t := mk 0.

Definition getCurrentDelay (b : t) : Z :=
  Z.min (baseDelay * 2 ^ attemptCount b) maxDelay.

(** [wait()]: throws once the attempts are used up; otherwise counts the
    attempt and yields the delay the caller then sleeps for. *)
Definition wait (b : t) : Result Z * t :=
  if attemptCount b >=? maxAttempts
  then (Throw (newError (js "Maximum backoff attempts reached")), b)
  else (Return (getCurrentDelay b), mk (attemptCount b + 1)).

Definition reset (b : t) : t := mk 0.

End ExponentialBackoff.

(* ===================================================================== *)
(** ** AdaptiveBatchController                                            *)
(* ===================================================================== *)

Module AdaptiveBatchController.

Record t : Type := mk {
  currentBatchSize : Z;
  recentSuccesses : Z;
  recentFailures : Z;
  windowSize : Z;
  minBatchSize : Z;
  maxBatchSize : Z;
  baselineBatchSize : Z
}.

(** [new AdaptiveBatchController(initialSize, maxSize)] *)
Definition create (initialSize maxSize : Z) : t :=
  mk initialSize 0 0 5 1 maxSize initialSize.

(** [Math.floor(n * 0.7)].  For the sizes the controller holds (at most
    its cap of 20) the double product [n * 0.7] has the same floor as the
    exact [7n/10]: the product is exact to within half a unit in the last
    place and ties (n = 10, 20) round to the even neighbour, the integer. *)
Definition floorSeventy (n : Z) : Z := 7 * n / 10.

Definition onSuccess (c : t) : t :=
  let recentSuccesses' := recentSuccesses c + 1 in
  if (recentSuccesses' >=? windowSize c)
     && (currentBatchSize c <? maxBatchSize c)
  then mk (Z.min (currentBatchSize c + 1) (maxBatchSize c)) 0
          (recentFailures c) (windowSize c) (minBatchSize c)
          (maxBatchSize c) (baselineBatchSize c)
  else mk (currentBatchSize c) recentSuccesses'
          (recentFailures c) (windowSize c) (minBatchSize c)
          (maxBatchSize c) (baselineBatchSize c).

Definition onFailure (c : t) : t :=
  let recentFailures' := recentFailures c + 1 in
  if (recentFailures' >=? 2) && (currentBatchSize c >? minBatchSize c)
  then mk (Z.max (floorSeventy (currentBatchSize c)) (minBatchSize c)) 0
          0 (windowSize c) (minBatchSize c)
          (maxBatchSize c) (baselineBatchSize c)
  else mk (currentBatchSize c) 0
          recentFailures' (windowSize c) (minBatchSize c)
          (maxBatchSize c) (baselineBatchSize c).

Definition getBatchSize (c : t) : Z := currentBatchSize c.

Definition reset (c : t) : t :=
  mk (baselineBatchSize c) 0 0 (windowSize c) (minBatchSize c)
     (maxBatchSize c) (baselineBatchSize c).

(** The states a controller created with [initialSize] and [maxSize] can
    be in after any sequence of calls. *)
Inductive reachable (initialSize maxSize : Z) : t -> Prop :=
| reach_create : reachable initialSize maxSize (create initialSize maxSize)
| reach_success c :
    reachable initialSize maxSize c ->
    reachable initialSize maxSize (onSuccess c)
| reach_failure c :
    reachable initialSize maxSize c ->
    reachable initialSize maxSize (onFailure c)
| reach_reset c :
    reachable initialSize maxSize c ->
    reachable initialSize maxSize (reset c).

End AdaptiveBatchController.

(* ===================================================================== *)
(** ** AdvancedRateLimiter                                                *)
(* ===================================================================== *)

Module AdvancedRateLimiter.

(** [requests]: the timestamps of the admitted requests, oldest first
    (they are pushed in call order). *)
Record t : Type := mk { requests : list Z }.

Definition windowMs : Z := 60000.
Definition safetyMarginMs : Z := 100.

Definition create : t := mk [].

Definition cleanupOldRequests (now : Z) (rl : t) : t :=
  mk (filter (fun time => now - time < windowMs) (requests rl)).

Definition calculateWaitTime (now : Z) (rl : t) : Z :=
  match requests rl with
  | [] => 0
  | oldestRequest :: _ => windowMs - (now - oldestRequest)
  end.

(** [acquireSlot()] over a world [W] with a clock, a [delay] that suspends
    and the [getMaxRequests] callback.  The source retries by calling
    itself after the delay; [fuel] bounds the number of rounds and [None]
    means they were used up. *)
Fixpoint acquireSlot {W : Type} (clock : W -> Z) (delay : Z -> W -> W)
    (getMaxRequests : W -> Z) (fuel : nat) (rl : t) (w : W)
  : option (t * W) :=
  match fuel with
  | O => None
  | S fuel' =>
      let now := clock w in
      let rl1 := cleanupOldRequests now rl in
      let maxRequests := getMaxRequests w in
      if Z.of_nat (length (requests rl1)) >=? maxRequests
      then
        let waitTime := calculateWaitTime now rl1 in
        acquireSlot clock delay getMaxRequests fuel' rl1
                    (delay (waitTime + safetyMarginMs) w)
      else Some (mk (requests rl1 ++ [now]), w)
  end.

End AdvancedRateLimiter.

(* ===================================================================== *)
(** ** Translation results and the plugin's cache                         *)
(* ===================================================================== *)

(** [GroqTranslationResult].  A field that is missing at run time behaves,
    in every test below, like the empty string. *)
Record GroqTranslationResult : Type := mkResult {
  translation : jsstring;
  definition : jsstring;
  exampleSource : jsstring;
  exampleTarget : jsstring
}.

#[global] Instance GroqTranslationResult_eq_dec : EqDecision GroqTranslationResult.
Proof. solve_decision. Defined.

Definition blank (s : jsstring) : bool :=
  falsy s || bool_decide (trim s = []).

(** [isEmptyTranslation] of the plugin; [isEmptyCacheEntry] of the batch
    manager has the same body. *)
Definition isEmptyTranslation (result : GroqTranslationResult) : bool :=
  blank (translation result) && blank (definition result)
  && blank (exampleSource result) && blank (exampleTarget result).

Definition createEmptyCacheEntry : GroqTranslationResult :=
  mkResult [] [] [] [].

(** The class [[\s\.,;:!?\-()]] that [isValidTranslation] strips. *)
Definition isSymbolUnit (c : N) : bool :=
  isWhiteSpace c
  || bool_decide (c ∈ [46; 44; 59; 58; 33; 63; 45; 40; 41]%N).

(** The Arabic comma U+060C. *)
Definition arabicComma : N := 1548%N.

Definition jsLength (s : jsstring) : Z := Z.of_nat (length s).

Definition isValidTranslation (result : GroqTranslationResult) : bool :=
  if falsy (translation result) || (jsLength (trim (translation result)) <? 1)
  then false
  else if falsy (definition result)
          || (jsLength (trim (definition result)) <? 10)
  then false
  else
    let cleanDefinition :=
      filter (fun c => isSymbolUnit c = false) (definition result) in
    if jsLength cleanDefinition <? 5 then false
    else if includes (definition result) (arabicComma :: js " .")
            || includes (definition result) (js ", .")
            || bool_decide (trim (definition result) = js ",")
            || bool_decide (trim (definition result) = [arabicComma])
    then false
    else if falsy (exampleSource result)
            || (jsLength (trim (exampleSource result)) <? 3)
            || falsy (exampleTarget result)
            || (jsLength (trim (exampleTarget result)) <? 3)
    then false
    else true.

Module Cache.

Record Entry : Type := mkEntry { ts : Z; data : GroqTranslationResult }.

(** [cacheStore]: a plain object.  [own] holds its own properties.
    [proto] is [None] as long as its prototype is [Object.prototype], and
    [Some e] once an assignment to the key [__proto__] has put the entry
    object [e] in its place. *)
Record Store : Type := mkStore {
  own : gmap (list N) Entry;
  proto : option Entry
}.

(** The object that has the properties [properties] and the prototype it
    was made with: [{}], or what [JSON.parse] gives. *)
Definition plain (properties : gmap (list N) Entry) : Store :=
  mkStore properties None.

(** The names of the properties of [Object.prototype]. *)
Definition objectPrototypeNames : list (list N) :=
  [js "constructor"; js "__defineGetter__"; js "__defineSetter__";
   js "hasOwnProperty"; js "__lookupGetter__"; js "__lookupSetter__";
   js "isPrototypeOf"; js "propertyIsEnumerable"; js "toString"; js "valueOf";
   js "__proto__"; js "toLocaleString"].

(** What [cacheStore[key]] can be. *)
Inductive Found : Type :=
| FoundEntry (entry : Entry)
  (** the number [ts] of the entry that is the prototype *)
| FoundNumber (n : Z)
  (** the object [data] of the entry that is the prototype *)
| FoundResult (result : GroqTranslationResult)
  (** a method of [Object.prototype], or [Object.prototype] itself *)
| FoundBuiltin
| NotFound.

(** What an object with the prototype [proto] and no property of its own
    has under the name [key].  The key [__proto__] is an accessor of
    [Object.prototype] that gives the prototype; an entry that has become
    the prototype lends its two fields and what it inherits itself. *)
Definition inherited (proto : option Entry) (key : jsstring) : Found :=
  let builtin :=
    if bool_decide (key ∈ objectPrototypeNames) then FoundBuiltin else NotFound in
  match proto with
  | Some entry =>
      if bool_decide (key = js "__proto__") then FoundEntry entry
      else if bool_decide (key = js "ts") then FoundNumber (ts entry)
      else if bool_decide (key = js "data") then FoundResult (data entry)
      else builtin
  | None => builtin
  end.

(** [cacheStore[key]]: an own property, or else what the chain of
    prototypes has under that name. *)
Definition get (cacheStore : Store) (key : jsstring) : Found :=
  match own cacheStore !! key with
  | Some entry => FoundEntry entry
  | None => inherited (proto cacheStore) key
  end.

(** [delete cacheStore[key]]: only an own property goes. *)
Definition remove (cacheStore : Store) (key : jsstring) : Store :=
  mkStore (delete key (own cacheStore)) (proto cacheStore).

(** [cacheStore[key] = entry]: an own property is made or changed, but for
    the key [__proto__] when it is not an own property: then the setter of
    [Object.prototype] makes [entry] the prototype. *)
Definition set (cacheStore : Store) (key : jsstring) (entry : Entry) : Store :=
  if bool_decide (key = js "__proto__")
     && bool_decide (own cacheStore !! key = None)
  then mkStore (own cacheStore) (Some entry)
  else mkStore (<[key := entry]> (own cacheStore)) (proto cacheStore).

(** [(settings.cacheTTLHours ?? 24) * 3600_000] *)
Definition ttlMs (cacheTTLHours : option Z) : Z :=
  default 24 cacheTTLHours * 3600000.

(** The [TypeError] of [isEmptyTranslation(undefined)], which reads
    [result.translation]; the message is the one of V8. *)
Definition undefinedResult : JsError :=
  mkJsError (js "TypeError")
            (js "Cannot read properties of undefined (reading 'translation')")
            None.

(** [getCachedResult(word)] at time [now]: how the call ends, and the store,
    from which an expired own entry has been deleted.  What is found but is
    no entry has neither [ts] nor [data]: [Date.now() - undefined] is [NaN],
    which is not above the time to live, and [isEmptyTranslation(undefined)]
    throws. *)
Definition getCachedResult (cacheTTLHours : option Z) (now : Z)
    (cacheStore : Store) (word : jsstring)
  : Result (option GroqTranslationResult) * Store :=
  let key := toLowerCase word in
  match get cacheStore key with
  | NotFound => (Return None, cacheStore)
  | FoundNumber n =>
      if n =? 0 then (Return None, cacheStore)
      else (Throw undefinedResult, cacheStore)
  | FoundResult _ | FoundBuiltin => (Throw undefinedResult, cacheStore)
  | FoundEntry entry =>
      if now - ts entry >? ttlMs cacheTTLHours
      then (Return None, remove cacheStore key)
      else if isEmptyTranslation (data entry)
      then (Return None, cacheStore)
      else (Return (Some (data entry)), cacheStore)
  end.

(** [setCachedResult(word, data)] at time [now]. *)
Definition setCachedResult (now : Z) (cacheStore : Store)
    (word : jsstring) (data : GroqTranslationResult) : Store :=
  set cacheStore (toLowerCase word) (mkEntry now data).

End Cache.

#[warning="-uniform-inheritance"]
Coercion Cache.plain : gmap >-> Cache.Store.

(** For the states of the examples: the empty object, and an object with
    one more own property. *)
#[global] Instance store_empty : Empty Cache.Store := Cache.plain ∅.
#[global] Instance store_insert : Insert (list N) Cache.Entry Cache.Store :=
  fun key entry cacheStore =>
    Cache.mkStore (<[key := entry]> (Cache.own cacheStore)) (Cache.proto cacheStore).

(* ===================================================================== *)
(** ** [Map] objects                                                      *)
(* ===================================================================== *)

(** A JavaScript [Map]: an association list in insertion order; setting an
    existing key keeps its place. *)
Section JsMap.
Context {K V : Type} `{EqDecision K}.

Fixpoint mapGet (k : K) (m : list (K * V)) : option V :=
  match m with
  | [] => None
  | (k', v) :: m' => if decide (k = k') then Some v else mapGet k m'
  end.

Fixpoint mapSet (k : K) (v : V) (m : list (K * V)) : list (K * V) :=
  match m with
  | [] => [(k, v)]
  | (k', v') :: m' =>
      if decide (k = k') then (k, v) :: m' else (k', v') :: mapSet k v m'
  end.

(** [new Map(entries)] and, generally, setting entries one after another. *)
Definition mapSetAll (entries : list (K * V)) (m : list (K * V))
  : list (K * V) :=
  foldl (fun acc kv => mapSet kv.1 kv.2 acc) m entries.

Definition mapSize (m : list (K * V)) : Z := Z.of_nat (length m).
End JsMap.

(* ===================================================================== *)
(** ** OperationSummaryManager                                            *)
(* ===================================================================== *)

Module OperationSummaryManager.

Inductive Status : Type := completed | cancelled | failed.

(** [OperationSummary], without its two dates. *)
Record Summary : Type := mkSummary {
  operationId : jsstring;
  totalWords : Z;
  processedWords : Z;
  successCount : Z;
  failureCount : Z;
  errorCategories : list (ErrorCategory * Z);
  finalStatus : Status;
  suggestions : list jsstring;
  failureReason : option jsstring
}.

(** [currentSummary], [None] for [null]. *)
Definition t : Type := option Summary.

Definition startOperation (operationId : jsstring) (totalWords : Z) : t :=
  Some (mkSummary operationId totalWords 0 0 0 [] completed [] None).

Definition recordSuccess (words : Z) (m : t) : t :=
  match m with
  | None => None
  | Some s =>
      Some (mkSummary (operationId s) (totalWords s) (processedWords s + words)
              (successCount s + 1) (failureCount s) (errorCategories s)
              (finalStatus s) (suggestions s) (failureReason s))
  end.

Definition recordFailure (error : JsError) (words : Z) (m : t) : t :=
  match m with
  | None => None
  | Some s =>
      let category := ErrorClassifier.categorizeError error in
      let currentCount := default 0 (mapGet category (errorCategories s)) in
      (* the context passed to [getSuggestion] is the error, which has no
         [model] property *)
      let suggestion := ErrorClassifier.getSuggestion category [] in
      Some (mkSummary (operationId s) (totalWords s) (processedWords s + words)
              (successCount s) (failureCount s + 1)
              (mapSet category (currentCount + 1) (errorCategories s))
              (finalStatus s)
              (if bool_decide (suggestion ∈ suggestions s) then suggestions s
               else suggestions s ++ [suggestion])
              (failureReason s))
  end.

(** [completeOperation(status, failureReason)]: the finished summary, and
    the manager without a current one. *)
Definition completeOperation (status : Status) (reason : jsstring) (m : t)
  : Result Summary * t :=
  match m with
  | None => (Throw (newError (js "No operation in progress")), None)
  | Some s =>
      (Return (mkSummary (operationId s) (totalWords s) (processedWords s)
                 (successCount s) (failureCount s) (errorCategories s)
                 status (suggestions s)
                 (if falsy reason then failureReason s else Some reason)),
       None)
  end.

End OperationSummaryManager.

(* ===================================================================== *)
(** ** The world of the batch manager                                     *)
(* ===================================================================== *)

(** The body that [callCloudflareWorkerDirect] posts.  Of its [settings]
    only [useJSONFormat] is ever looked at; the others are passed through. *)
Record RequestBody : Type := mkRequestBody {
  words : list (list N);
  sourceLang : jsstring;
  targetLang : jsstring;
  model : jsstring;
  bodyUseJSONFormat : bool
}.

Record Request : Type := mkRequest {
  reqUrl : jsstring;
  reqBody : RequestBody
}.

(** What [JSON.parse] makes of a response text, as far as the client looks:
    the [error] and [errorCategory] of a failure envelope (empty when
    missing), its [JSON.stringify] rendering, and the [success] flag and the
    entries of [translations] of a success envelope. *)
Record Envelope : Type := mkEnvelope {
  envError : jsstring;
  envErrorCategory : jsstring;
  envStringified : jsstring;
  envSuccess : bool;
  envTranslations : list (list N * GroqTranslationResult)
}.

(** A [Response] read to its end: status, text, and the parsed text or the
    [SyntaxError] that [JSON.parse] throws on it. *)
Record Response : Type := mkResponse {
  status : Z;
  responseText : jsstring;
  parsed : Envelope + JsError
}.

Definition ok (res : Response) : bool :=
  (200 <=? status res) && (status res <=? 299).

(** What a [fetch] comes to, and the milliseconds it took. *)
Inductive FetchOutcome : Type :=
| Responded (res : Response)
| Rejected (e : JsError).

Record Reply : Type := mkReply { outcome : FetchOutcome; elapsed : N }.

(** The [level] argument of [logEvent]. *)
Inductive LogLevel : Type := Info | Success | Warning | Error.

(** The calls the manager makes to its collaborators, in order. *)
Inductive Event : Type :=
| ELog (message : jsstring) (level : LogLevel)
| EFetch (req : Request)
| ESleep (ms : Z)
| ESaveTable (results : list (list N * GroqTranslationResult))
| ESaveCacheStore
| ESaveSettings
| EUsageStats (words : Z) (ok : bool)
| EProgress (doneBatches totalBatches doneWords totalWords : Z)
| EClearProgress.

(** The parts of the host that the manager cannot see into. *)
Record Host : Type := mkHost {
  (** the network: the requests made so far (newest first) and the new one *)
  fetch : list Request -> Request -> Reply;
  (** how much longer than asked a timer sleeps, from the time it is set *)
  timerLag : Z -> Z -> N;
  (** whether the user asks to cancel between two instants *)
  cancelClicked : Z -> Z -> bool;
  (** [new URL(u).protocol === 'https:'], false when [u] does not parse *)
  isValidHttps : jsstring -> bool;
  (** [Math.round(parseFloat(m[1]) * 1000)] for the match of
      [/try again in\s+([\d.]+)s/i] in the text; [None] without a match or
      when the number is [NaN] *)
  tryAgainMs : jsstring -> option Z;
  (** whether writing the vocabulary table fails, given all earlier events *)
  tableWriteError : list Event -> option JsError;
  isMobileEnv : bool;
  hasStatusBar : bool
}.

Record Endpoints : Type := mkEndpoints {
  primary : jsstring;
  backups : list (list N)
}.

(** The settings the manager reads. *)
Record Settings : Type := mkSettings {
  logLevel : jsstring;
  groqModel : jsstring;
  batchSize : Z;
  useJSONFormat : bool;
  requestsPerMinute : Z;
  enableRateLimiting : bool;
  translationQuality : jsstring;
  cacheTTLHours : option Z;
  smartAutoMode : bool;
  enableAdaptiveBatching : bool;
  highLimitModels : list (list N);
  activeWorkerUrl : jsstring;
  backupWorkerUrls : list (list N);
  autoEndpointSwitch : bool;
  maxNonModelFailures : option Z;
  remoteConfig : option Endpoints
}.

Definition set_requestsPerMinute (v : Z) (s : Settings) : Settings :=
  mkSettings (logLevel s) (groqModel s) (batchSize s) (useJSONFormat s) v
    (enableRateLimiting s) (translationQuality s) (cacheTTLHours s)
    (smartAutoMode s) (enableAdaptiveBatching s) (highLimitModels s)
    (activeWorkerUrl s) (backupWorkerUrls s) (autoEndpointSwitch s)
    (maxNonModelFailures s) (remoteConfig s).

Definition set_workerUrls (active : jsstring) (backupUrls : list (list N))
    (s : Settings) : Settings :=
  mkSettings (logLevel s) (groqModel s) (batchSize s) (useJSONFormat s)
    (requestsPerMinute s)
    (enableRateLimiting s) (translationQuality s) (cacheTTLHours s)
    (smartAutoMode s) (enableAdaptiveBatching s) (highLimitModels s)
    active backupUrls (autoEndpointSwitch s)
    (maxNonModelFailures s) (remoteConfig s).

(** The plugin's fields that the manager reads and writes. *)
Record Plugin : Type := mkPlugin {
  settings : Settings;
  cacheStore : Cache.Store;
  cancelRequested : bool;
  failedWordsInCurrentOperation : gset (list N);
  operationSummaryManager : OperationSummaryManager.t
}.

(** The fields of [ProfessionalBatchManager]. *)
Record Manager : Type := mkManager {
  rateLimiter : AdvancedRateLimiter.t;
  adaptiveBatchController : option AdaptiveBatchController.t;
  consecutiveNonModelFailures : Z;
  lastBackoffUntilTs : Z;
  jsonErrorCount : Z;
  rateLimitErrorCount : Z;
  circuitBreaker : CircuitBreaker.t;
  networkBackoff : ExponentialBackoff.t;
  errorRetryCounts : list (ErrorCategory * Z)
}.

(** The whole state: plugin, manager, the clock, the trace of calls (newest
    first) and the [allResults] map of the run in progress. *)
Record St : Type := mkSt {
  plugin : Plugin;
  manager : Manager;
  now : Z;
  events : list Event;
  allResults : list (list N * GroqTranslationResult)
}.

Definition set_plugin (f : Plugin -> Plugin) (s : St) : St :=
  mkSt (f (plugin s)) (manager s) (now s) (events s) (allResults s).
Definition set_manager (f : Manager -> Manager) (s : St) : St :=
  mkSt (plugin s) (f (manager s)) (now s) (events s) (allResults s).
Definition set_allResults
    (f : list (list N * GroqTranslationResult)
         -> list (list N * GroqTranslationResult)) (s : St) : St :=
  mkSt (plugin s) (manager s) (now s) (events s) (f (allResults s)).
Definition emit (ev : Event) (s : St) : St :=
  mkSt (plugin s) (manager s) (now s) (ev :: events s) (allResults s).

Definition with_settings (f : Settings -> Settings) (p : Plugin) : Plugin :=
  mkPlugin (f (settings p)) (cacheStore p) (cancelRequested p)
    (failedWordsInCurrentOperation p) (operationSummaryManager p).
Definition with_cacheStore
    (f : Cache.Store -> Cache.Store) (p : Plugin)
  : Plugin :=
  mkPlugin (settings p) (f (cacheStore p)) (cancelRequested p)
    (failedWordsInCurrentOperation p) (operationSummaryManager p).
Definition with_cancelRequested (v : bool) (p : Plugin) : Plugin :=
  mkPlugin (settings p) (cacheStore p) v
    (failedWordsInCurrentOperation p) (operationSummaryManager p).
Definition with_failedWords (f : gset (list N) -> gset (list N)) (p : Plugin)
  : Plugin :=
  mkPlugin (settings p) (cacheStore p) (cancelRequested p)
    (f (failedWordsInCurrentOperation p)) (operationSummaryManager p).
Definition with_summary
    (f : OperationSummaryManager.t -> OperationSummaryManager.t) (p : Plugin)
  : Plugin :=
  mkPlugin (settings p) (cacheStore p) (cancelRequested p)
    (failedWordsInCurrentOperation p) (f (operationSummaryManager p)).

Definition with_rateLimiter (v : AdvancedRateLimiter.t) (m : Manager) : Manager :=
  mkManager v (adaptiveBatchController m) (consecutiveNonModelFailures m)
    (lastBackoffUntilTs m) (jsonErrorCount m) (rateLimitErrorCount m)
    (circuitBreaker m) (networkBackoff m) (errorRetryCounts m).
Definition with_adaptive (v : option AdaptiveBatchController.t) (m : Manager)
  : Manager :=
  mkManager (rateLimiter m) v (consecutiveNonModelFailures m)
    (lastBackoffUntilTs m) (jsonErrorCount m) (rateLimitErrorCount m)
    (circuitBreaker m) (networkBackoff m) (errorRetryCounts m).
Definition with_consecutive (v : Z) (m : Manager) : Manager :=
  mkManager (rateLimiter m) (adaptiveBatchController m) v
    (lastBackoffUntilTs m) (jsonErrorCount m) (rateLimitErrorCount m)
    (circuitBreaker m) (networkBackoff m) (errorRetryCounts m).
Definition with_lastBackoff (v : Z) (m : Manager) : Manager :=
  mkManager (rateLimiter m) (adaptiveBatchController m)
    (consecutiveNonModelFailures m) v (jsonErrorCount m)
    (rateLimitErrorCount m) (circuitBreaker m) (networkBackoff m)
    (errorRetryCounts m).
Definition with_jsonErrorCount (v : Z) (m : Manager) : Manager :=
  mkManager (rateLimiter m) (adaptiveBatchController m)
    (consecutiveNonModelFailures m) (lastBackoffUntilTs m) v
    (rateLimitErrorCount m) (circuitBreaker m) (networkBackoff m)
    (errorRetryCounts m).
Definition with_rateLimitErrorCount (v : Z) (m : Manager) : Manager :=
  mkManager (rateLimiter m) (adaptiveBatchController m)
    (consecutiveNonModelFailures m) (lastBackoffUntilTs m) (jsonErrorCount m)
    v (circuitBreaker m) (networkBackoff m) (errorRetryCounts m).
Definition with_circuitBreaker (v : CircuitBreaker.t) (m : Manager) : Manager :=
  mkManager (rateLimiter m) (adaptiveBatchController m)
    (consecutiveNonModelFailures m) (lastBackoffUntilTs m) (jsonErrorCount m)
    (rateLimitErrorCount m) v (networkBackoff m) (errorRetryCounts m).
Definition with_networkBackoff (v : ExponentialBackoff.t) (m : Manager)
  : Manager :=
  mkManager (rateLimiter m) (adaptiveBatchController m)
    (consecutiveNonModelFailures m) (lastBackoffUntilTs m) (jsonErrorCount m)
    (rateLimitErrorCount m) (circuitBreaker m) v (errorRetryCounts m).
Definition with_errorRetryCounts (v : list (ErrorCategory * Z)) (m : Manager)
  : Manager :=
  mkManager (rateLimiter m) (adaptiveBatchController m)
    (consecutiveNonModelFailures m) (lastBackoffUntilTs m) (jsonErrorCount m)
    (rateLimitErrorCount m) (circuitBreaker m) (networkBackoff m) v.

(** The requests made so far, newest first. *)
Definition requestsOf (evs : list Event) : list Request :=
  omap (fun ev => match ev with EFetch req => Some req | _ => None end) evs.

(* ===================================================================== *)
(** ** The state-and-exception monad of the manager                       *)
(* ===================================================================== *)

Definition M (A : Type) : Type := St -> Result A * St.

Definition ret {A : Type} (a : A) : M A := fun s => (Return a, s).

Definition bind {A B : Type} (m : M A) (k : A -> M B) : M B :=
  fun s =>
    match m s with
    | (Return a, s') => k a s'
    | (Throw e, s') => (Throw e, s')
    | (Diverge, s') => (Diverge, s')
    end.

Definition throw {A : Type} (e : JsError) : M A := fun s => (Throw e, s).

Definition diverge {A : Type} : M A := fun s => (Diverge, s).

(** [try { m } catch (e) { handler e }] *)
Definition tryCatch {A : Type} (m : M A) (handler : JsError -> M A) : M A :=
  fun s =>
    match m s with
    | (Throw e, s') => handler e s'
    | other => other
    end.

(** [try { m } catch { }], telling whether [m] threw. *)
Definition attempt {A : Type} (m : M A) : M (option A) :=
  fun s =>
    match m s with
    | (Return a, s') => (Return (Some a), s')
    | (Throw _, s') => (Return None, s')
    | (Diverge, s') => (Diverge, s')
    end.

Definition get : M St := fun s => (Return s, s).
Definition gets {A : Type} (f : St -> A) : M A := fun s => (Return (f s), s).
Definition modify (f : St -> St) : M unit := fun s => (Return tt, f s).

Declare Scope m_scope.
Delimit Scope m_scope with M.
Bind Scope m_scope with M.
Notation "x ← y ; z" := (bind y (fun x => z))
  (at level 20, y at level 100, z at level 200, only parsing) : m_scope.
Notation "y ;; z" := (bind y (fun _ => z))
  (at level 100, z at level 200, only parsing, right associativity) : m_scope.

(** [if (b) { m }] *)
Definition when (b : bool) (m : M unit) : M unit := if b then m else ret tt.
Local Open Scope m_scope.

Fixpoint forEach {A : Type} (l : list A) (f : A -> M unit) : M unit :=
  match l with
  | [] => ret tt
  | x :: rest => f x ;; forEach rest f
  end.

Definition logEvent (message : jsstring) (level : LogLevel) : M unit :=
  modify (emit (ELog message level)).

(** [logEvent] guarded by [settings.logLevel === 'detailed']. *)
Definition logDetailed (message : jsstring) (level : LogLevel) : M unit :=
  s ← get;
  when (bool_decide (logLevel (settings (plugin s)) = js "detailed"))
       (logEvent message level).

(* ===================================================================== *)
(** ** ProfessionalBatchManager: the failover client                      *)
(* ===================================================================== *)

(** One entry of the [errors] array of [postToWorkerWithFailover]. *)
Record EndpointError : Type := mkEndpointError {
  eeUrl : jsstring;
  eeMessage : jsstring;
  eeCategory : ErrorCategory
}.

Definition newline : jsstring := [10%N].
Definition rightArrow : jsstring := [8594%N].

(** The line of the failure summary for the entry at index [idx]. *)
Definition summaryLine (idx : nat) (er : EndpointError) : jsstring :=
  showZ (Z.of_nat idx + 1) ++ js ") " ++ eeUrl er ++ js " -> " ++ eeMessage er
  ++ js " [" ++ categoryName (eeCategory er) ++ js "]".

Definition summaryText (errors : list EndpointError) : jsstring :=
  join newline (imap summaryLine errors).

(** [for (const u of l) { if (!urls.includes(u)) urls.push(u); }] *)
Definition dedupe (l : list (list N)) : list (list N) :=
  foldl (fun urls u => if bool_decide (u ∈ urls) then urls else urls ++ [u]) [] l.

Definition truthy (s : jsstring) : bool := negb (falsy s).

Definition httpPrefix (res : Response) : jsstring :=
  js "HTTP " ++ showZ (status res).

(** [Math.round(ms / 1000)] for a non-negative whole number of ms. *)
Definition roundSeconds (ms : Z) : Z := (ms + 500) / 1000.

Definition isEscalation (category : ErrorCategory) (msg : jsstring) : bool :=
  bool_decide (category = MODEL) || bool_decide (category = CAPACITY)
  || bool_decide (category = MODEL_CAPACITY)
  || includes msg (js "RATE_LIMIT_THRESHOLD")
  || includes msg (js "JSON_THRESHOLD").

Section FailoverClient.
Variable host : Host.
Local Open Scope m_scope.

(** The clock moves on to [to]; a cancel click in between sets the flag. *)
Definition advance (to : Z) (s : St) : St :=
  let clicked := cancelClicked host (now s) to in
  mkSt (with_cancelRequested (cancelRequested (plugin s) || clicked) (plugin s))
       (manager s) to (events s) (allResults s).

(** [await new Promise(resolve => setTimeout(resolve, ms))] *)
Definition delay (ms : Z) : M unit :=
  fun s =>
    let wake := now s + Z.max 0 ms + Z.of_N (timerLag host (now s) ms) in
    (Return tt, advance wake (emit (ESleep ms) s)).

Definition saveSettings : M unit := modify (emit ESaveSettings).

(** [doRequest]: the POST of [currentBody] to [url] and the reading of the
    response text. *)
Definition doRequest (url : jsstring) (currentBody : RequestBody) : M Response :=
  fun s =>
    let req := mkRequest url currentBody in
    let reply := fetch host (requestsOf (events s)) req in
    let s' := advance (now s + Z.of_N (elapsed reply)) (emit (EFetch req) s) in
    match outcome reply with
    | Responded res => (Return res, s')
    | Rejected e => (Throw e, s')
    end.

Definition updateEndpointConfig (successfulUrl : jsstring) (currentIndex : nat)
    (allUrls : list (list N)) : M unit :=
  s ← get;
  let prevActive := activeWorkerUrl (settings (plugin s)) in
  let originalBackups :=
    List.filter (isValidHttps host) (backupWorkerUrls (settings (plugin s))) in
  let k := (currentIndex - 1)%nat in
  let rotated :=
    List.filter
      (fun u => truthy u && negb (bool_decide (u = successfulUrl)))
      (drop (k + 1) originalBackups ++ take k originalBackups ++ [prevActive]) in
  let dedup := dedupe rotated in
  modify (set_plugin (with_settings (set_workerUrls successfulUrl (take 3 dedup))));;
  saveSettings;;
  logEvent (js "Failover: active => " ++ successfulUrl ++ js "; backups => ["
            ++ join (js ", ") (take 3 dedup) ++ js "]") Warning.

Definition promoteIfBackup (url : jsstring) (i : nat) (urls : list (list N))
  : M unit :=
  s ← get;
  when ((0 <? i)%nat && autoEndpointSwitch (settings (plugin s)))
       (updateEndpointConfig url i urls).

(** The second request of an in-place retry and what follows it inside the
    [try { ... } catch { }] of the source.  [inl data]: the client returns
    [data].  [inr (res, errorData)]: control falls out of the block with
    these values of the two variables; an exception inside the block is
    swallowed after the assignments made before it. *)
Definition retryInPlace (url : jsstring) (i : nat) (urls : list (list N))
    (currentBody : RequestBody) (res : Response) (errorData : Envelope)
  : M (Envelope + Response * Envelope) :=
  r ← attempt (doRequest url currentBody);
  match r with
  | None => ret (inr (res, errorData))
  | Some res' =>
      if negb (ok res') then
        match parsed res' with
        | inl errorData' => ret (inr (res', errorData'))
        | inr _ => ret (inr (res', errorData))
        end
      else
        match parsed res' with
        | inl data => promoteIfBackup url i urls;; ret (inl data)
        | inr _ => ret (inr (res', errorData))
        end
  end.

Definition modelNotAvailable (errorData : Envelope) : JsError :=
  newError (js "Model Not Available: "
            ++ orElse (envError errorData)
                      (js "The selected model is not accessible")).

(** The JSON remediation: HTTP 400 with the structured category [json]. *)
Definition jsonRemediation (url : jsstring) (i : nat) (urls : list (list N))
    (currentBody : RequestBody) (res : Response) (errorData : Envelope)
  : M (Envelope + Response * Envelope * RequestBody) :=
  if (status res =? 400)
     && bool_decide (envErrorCategory errorData = categoryName JSON)
  then
    modify (set_manager (fun m => with_jsonErrorCount (jsonErrorCount m + 1) m));;
    s ← get;
    if jsonErrorCount (manager s) >=? 2 then
      logEvent (js "JSON errors reached threshold (2). Stopping operation.") Error;;
      throw (newError (js "JSON_THRESHOLD"))
    else if bodyUseJSONFormat currentBody then
      logEvent (js "JSON validate failed " ++ rightArrow
                ++ js " retrying without JSON response_format for this attempt")
               Warning;;
      let currentBody' :=
        mkRequestBody (words currentBody) (sourceLang currentBody)
          (targetLang currentBody) (model currentBody) false in
      r ← retryInPlace url i urls currentBody' res errorData;
      match r with
      | inl data => ret (inl data)
      | inr (res', errorData') => ret (inr (res', errorData', currentBody'))
      end
    else ret (inr (res, errorData, currentBody))
  else ret (inr (res, errorData, currentBody)).

(** The rate-limit remediation: HTTP 429. *)
Definition rateLimitRemediation (url : jsstring) (i : nat) (urls : list (list N))
    (currentBody : RequestBody) (res : Response) (errorData : Envelope)
  : M (Envelope + Response * Envelope) :=
  if status res =? 429 then
    modify (set_manager
              (fun m => with_rateLimitErrorCount (rateLimitErrorCount m + 1) m));;
    s ← get;
    if rateLimitErrorCount (manager s) >=? 1 then
      logEvent (js "Rate limit errors reached threshold (1). Stopping operation.")
               Error;;
      throw (newError (js "RATE_LIMIT_THRESHOLD"))
    else
      let waitMs :=
        match tryAgainMs host (envStringified errorData) with
        | Some rounded => Z.max 500 (Z.min 10000 rounded)
        | None => 2000
        end in
      let oldRpm := requestsPerMinute (settings (plugin s)) in
      let newRpm := Z.max 1 (4 * oldRpm / 5) in
      (if newRpm <? oldRpm then
         modify (set_plugin (with_settings (set_requestsPerMinute newRpm)));;
         saveSettings;;
         logEvent (js "Rate limit signal: reducing RPM " ++ showZ oldRpm
                   ++ js " " ++ rightArrow ++ js " " ++ showZ newRpm
                   ++ js "; waiting ~" ++ showZ (roundSeconds waitMs) ++ js "s")
                  Warning
       else
         logEvent (js "Rate limit signal: waiting ~"
                   ++ showZ (roundSeconds waitMs) ++ js "s") Warning);;
      delay waitMs;;
      retryInPlace url i urls currentBody res errorData
  else ret (inr (res, errorData)).

(** The end of the non-2xx branch: the late model check and the generic
    [HTTP status: text] error. *)
Definition failWith (res : Response) (errorData : Envelope) : M Envelope :=
  if (status res =? 404)
     && bool_decide (envErrorCategory errorData = categoryName MODEL)
  then
    s ← get;
    logEvent (js "Model " ++ dquote ++ groqModel (settings (plugin s)) ++ dquote
              ++ js " is not available. Stopping operation immediately.")
             Error;;
    throw (modelNotAvailable errorData)
  else
    throw (newError (httpPrefix res ++ js ": "
                     ++ orElse (envError errorData) (responseText res))).

(** The two remediations in the order of the source, then [failWith]. *)
Definition remediate (url : jsstring) (i : nat) (urls : list (list N))
    (body : RequestBody) (res : Response) (errorData : Envelope) : M Envelope :=
  r1 ← jsonRemediation url i urls body res errorData;
  match r1 with
  | inl data => ret data
  | inr (res1, errorData1, currentBody) =>
      r2 ← rateLimitRemediation url i urls currentBody res1 errorData1;
      match r2 with
      | inl data => ret data
      | inr (res2, errorData2) => failWith res2 errorData2
      end
  end.

(** What the [try] for the endpoint [url] does with the first response. *)
Definition handleResponse (body : RequestBody) (urls : list (list N)) (i : nat)
    (url : jsstring) (res : Response) : M Envelope :=
  if negb (ok res) then
    match parsed res with
    | inr _ => throw (newError (httpPrefix res ++ js ": " ++ responseText res))
    | inl errorData =>
        let error :=
          mkJsError (js "Error") (orElse (envError errorData) (httpPrefix res))
                    (Some (status res)) in
        let errorCategory := ErrorClassifier.categorizeError error in
        if bool_decide (errorCategory = CAPACITY)
           || bool_decide (errorCategory = MODEL_CAPACITY)
        then
          logEvent (js "Capacity error from " ++ url ++ js " - "
                    ++ orElse (envError errorData) (js "Model over capacity"))
                   Warning;;
          throw (newError (orElse (envError errorData)
                                  (httpPrefix res ++ js ": " ++ responseText res)))
        else if bool_decide (envErrorCategory errorData = categoryName MODEL)
        then
          s ← get;
          logEvent (js "Model " ++ dquote ++ groqModel (settings (plugin s))
                    ++ dquote ++ js " is not available (worker). Stopping operation.")
                   Error;;
          throw (modelNotAvailable errorData)
        else remediate url i urls body res errorData
    end
  else
    match parsed res with
    | inr syntaxError => throw syntaxError
    | inl data => promoteIfBackup url i urls;; ret data
    end.

(** The body of the [try] for the endpoint [url] at index [i]. *)
Definition tryEndpoint (body : RequestBody) (urls : list (list N)) (i : nat)
    (url : jsstring) : M Envelope :=
  res ← doRequest url body;
  handleResponse body urls i url res.

(** What the [catch] of the endpoint loop records for a thrown [e]. *)
Definition endpointError (url : jsstring) (e : JsError) : EndpointError :=
  mkEndpointError url (orElse (errMessage e) (errToString e))
                  (ErrorClassifier.categorizeError e).

(** The loop over [urls] from index [i] on ([rest] is what is left of
    them).  [inl data]: an endpoint answered.  [inr errors]: the list is
    used up.  An escalated failure is rethrown. *)
Fixpoint failoverLoop (body : RequestBody) (urls : list (list N)) (i : nat)
    (rest : list (list N)) (errors : list EndpointError)
  : M (Envelope + list EndpointError) :=
  match rest with
  | [] => ret (inr errors)
  | url :: rest' =>
      tryCatch
        (data ← tryEndpoint body urls i url; ret (inl data))
        (fun e =>
           let er := endpointError url e in
           logEvent (js "Endpoint failed (" ++ url ++ js "): " ++ eeMessage er
                     ++ js " (" ++ categoryName (eeCategory er) ++ js ")")
                    Warning;;
           if isEscalation (eeCategory er) (eeMessage er) then throw e
           else failoverLoop body urls (S i) rest' (errors ++ [er]))
  end.

(** The ordered endpoint list: primary and backups, https only, without
    repetitions. *)
Definition endpointUrls (config : Endpoints) : list (list N) :=
  let raw := List.filter truthy (primary config :: backups config) in
  dedupe (List.filter (isValidHttps host) raw).

Definition allEndpointsFailed : JsError :=
  newError (js "All worker endpoints failed").

Definition postToWorkerWithFailover (body : RequestBody) : M Envelope :=
  s ← get;
  match remoteConfig (settings (plugin s)) with
  | None => throw (newError (js "Remote configuration not loaded"))
  | Some config =>
      let urls := endpointUrls config in
      r ← failoverLoop body urls 0 urls [];
      match r with
      | inl data => ret data
      | inr errors =>
          logEvent (js "All worker endpoints failed. Summary:" ++ newline
                    ++ summaryText errors) Error;;
          throw allEndpointsFailed
      end
  end.

End FailoverClient.

(* ===================================================================== *)
(** ** ProfessionalBatchManager: the batch loop                           *)
(* ===================================================================== *)

Definition checkMark : jsstring := [9989%N].
Definition warningSign : jsstring := [9888%N; 65039%N].
Definition floppyDisk : jsstring := [55357%N; 56510%N].
Definition crossMark : jsstring := [10060%N].
Definition policeLight : jsstring := [55357%N; 57000%N].
Definition redCircle : jsstring := [55357%N; 56628%N].
Definition noEntry : jsstring := [55357%N; 57003%N].
Definition partyPopper : jsstring := [55356%N; 57225%N].

(** The score of [prioritizeWords]: 1000 for a word with a code unit above
    0x7F, plus its length up to 100. *)
Definition score (w : jsstring) : Z :=
  (if existsb (fun c => (127 <? c)%N) w then 1 else 0) * 1000
  + Z.min 100 (jsLength w).

(** One step of a stable sort by descending score: [w] stood before every
    element of [sorted] and stays before those that do not beat it. *)
Fixpoint insertByScore (w : jsstring) (sorted : list (list N)) : list (list N) :=
  match sorted with
  | [] => [w]
  | x :: rest =>
      if score w <? score x then x :: insertByScore w rest else w :: sorted
  end.

(** [[...words].sort((a, b) => score(b) - score(a))] *)
Definition prioritizeWords (words : list (list N)) : list (list N) :=
  foldr insertByScore [] words.

(** [words.slice(i, i + batchSize)] for [i = 0, batchSize, ...]; [fuel]
    bounds the number of slices by the number of words. *)
Fixpoint slices (fuel : nat) (batchSize : nat) (words : list (list N))
  : list (list (list N)) :=
  match fuel, words with
  | _, [] => []
  | O, _ => []
  | S fuel', _ => take batchSize words :: slices fuel' batchSize (drop batchSize words)
  end.

(** What the [catch] of the batch loop decides when it does not abort. *)
Inductive Next : Type := NextBatch | SameBatch.

Section BatchLoop.
Variable host : Host.
Local Open Scope m_scope.

Definition getMaxRequestsPerMinute (st : Settings) : Z :=
  if bool_decide (groqModel st ∈ highLimitModels st) then 60 else 30.

(** The callback that the manager's constructor gives the rate limiter. *)
Definition getMaxRequests (s : St) : Z :=
  let desired := requestsPerMinute (settings (plugin s)) in
  let cap := getMaxRequestsPerMinute (settings (plugin s)) in
  Z.max 1 (Z.min desired cap).

(** [rateLimiter.acquireSlot()], with as many rounds as it has timestamps to
    outlive, plus one. *)
Definition acquireSlot : M unit :=
  fun s =>
    let rl := rateLimiter (manager s) in
    match AdvancedRateLimiter.acquireSlot now (fun ms w => (delay host ms w).2)
            getMaxRequests (S (length (AdvancedRateLimiter.requests rl))) rl s with
    | Some (rl', s') => (Return tt, set_manager (with_rateLimiter rl') s')
    | None => (Diverge, s)
    end.

Definition getCachedResult (word : jsstring) : M (option GroqTranslationResult) :=
  fun s =>
    let answer :=
      Cache.getCachedResult (cacheTTLHours (settings (plugin s))) (now s)
        (cacheStore (plugin s)) word in
    (answer.1, set_plugin (with_cacheStore (fun _ => answer.2)) s).

Definition setCachedResult (word : jsstring) (data : GroqTranslationResult)
  : M unit :=
  modify (fun s =>
    set_plugin (with_cacheStore
                  (fun store => Cache.setCachedResult (now s) store word data)) s).

Definition recordUsageStats (batchLength : Z) (ok : bool) : M unit :=
  modify (emit (EUsageStats batchLength ok)).

Definition saveCacheStore : M unit := modify (emit ESaveCacheStore).

Definition updateProgress (doneBatches totalBatches doneWords totalWords : Z)
  : M unit :=
  when (hasStatusBar host)
       (modify (emit (EProgress doneBatches totalBatches doneWords totalWords))).

Definition clearProgress : M unit :=
  when (hasStatusBar host)
       (modify (emit EClearProgress);;
        modify (set_plugin (with_cancelRequested false))).

(** [savePartialResultsToTable(allResults, ...)].  Finding and reading
    the file, rewriting its table and writing it back are left to the host,
    which says whether they fail: [ESaveTable] stands for a write that has
    succeeded, of the table updated from the map (together with the line
    that the rewriting logs, at most one, about the rows it changed). *)
Definition savePartialResultsToTable : M unit :=
  s ← get;
  match tableWriteError host (events s) with
  | None =>
      modify (emit (ESaveTable (allResults s)));;
      logEvent (floppyDisk ++ js " Successfully saved "
                ++ showZ (mapSize (allResults s)) ++ js " translations to table")
               Success
  | Some error =>
      logEvent (crossMark ++ js " Failed to save partial results to table: "
                ++ errMessage error) Error;;
      throw error
  end.

Definition completeOperation (status : OperationSummaryManager.Status)
    (failureReason : jsstring) : M unit :=
  fun s =>
    let done :=
      OperationSummaryManager.completeOperation status failureReason
        (operationSummaryManager (plugin s)) in
    let s' := set_plugin (with_summary (fun _ => done.2)) s in
    match done.1 with
    | Return _ => (Return tt, s')
    | Throw e => (Throw e, s')
    | Diverge => (Diverge, s')
    end.

(** The loop that sorts words into those the cache answers validly and the
    others: [hits] is the map being filled, [misses] the list. *)
Fixpoint partitionByCache (words : list (list N))
    (hits : list (list N * GroqTranslationResult)) (misses : list (list N))
  : M (list (list N * GroqTranslationResult) * list (list N)) :=
  match words with
  | [] => ret (hits, misses)
  | w :: rest =>
      cached ← getCachedResult w;
      match cached with
      | Some result =>
          if isValidTranslation result
          then partitionByCache rest (mapSet w result hits) misses
          else partitionByCache rest hits (misses ++ [w])
      | None => partitionByCache rest hits (misses ++ [w])
      end
  end.

Definition callCloudflareWorkerDirect (words : list (list N))
    (sourceLang targetLang : jsstring)
  : M (list (list N * GroqTranslationResult)) :=
  logEvent (js "Sending " ++ showZ (Z.of_nat (length words))
            ++ js " word(s) to Cloudflare Worker") Info;;
  s ← get;
  let requestBody :=
    mkRequestBody words sourceLang targetLang (groqModel (settings (plugin s)))
                  (useJSONFormat (settings (plugin s))) in
  tryCatch
    (data ← postToWorkerWithFailover host requestBody;
     let results :=
       if envSuccess data then mapSetAll (envTranslations data) [] else [] in
     if mapSize results =? 0 then
       throw (newError (js "No translations returned from Cloudflare Worker"))
     else
       logEvent (js "Cloudflare Worker returned " ++ showZ (mapSize results)
                 ++ js " translation(s)") Success;;
       ret results)
    (fun error =>
       let errorCategory := ErrorClassifier.categorizeError error in
       logEvent (js "Cloudflare Worker error: " ++ errMessage error
                 ++ js " (Category: " ++ categoryName errorCategory ++ js ")") Error;;
       when (bool_decide (errorCategory = CAPACITY)
             || bool_decide (errorCategory = MODEL_CAPACITY))
            (logEvent (js "Model capacity issue detected - will follow smart retry policy")
                      Warning);;
       throw error).

Definition processSingleBatchWithRetry (batch : list (list N))
    (sourceLang targetLang : jsstring)
  : M (list (list N * GroqTranslationResult)) :=
  split ← partitionByCache batch [] [];
  let cachedResults := split.1 in
  let uncachedWords := split.2 in
  if bool_decide (length uncachedWords = 0%nat) then ret cachedResults
  else
    newResults ← callCloudflareWorkerDirect uncachedWords sourceLang targetLang;
    forEach newResults
      (fun entry => when (isValidTranslation entry.2)
                         (setCachedResult entry.1 entry.2));;
    ret (mapSetAll (cachedResults ++ newResults) []).

Definition getSmartBatchSize (st : Settings) : Z :=
  if bool_decide (translationQuality st = js "comprehensive") then 3
  else if bool_decide (translationQuality st = js "professional") then 5
  else if bool_decide (translationQuality st = js "standard") then 8
  else 6.

(** [createOptimizedBatches(words)]; [None] when the batch size is not
    positive and there are words, for then the source's loop never ends. *)
Definition createOptimizedBatches (s : St) (words : list (list N))
  : option (list (list (list N))) :=
  let batchSize :=
    match adaptiveBatchController (manager s) with
    | Some controller => AdaptiveBatchController.getBatchSize controller
    | None => batchSize (settings (plugin s))
    end in
  match words with
  | [] => Some []
  | _ => if batchSize <=? 0 then None
         else Some (slices (length words) (Z.to_nat batchSize) words)
  end.

(** [Math.ceil(ms / 1000)] for a positive whole number of ms. *)
Definition ceilSeconds (ms : Z) : Z := (ms + 999) / 1000.

(** The closure that the batch loop passes to [circuitBreaker.execute] for
    the batch at index [i]. *)
Definition batchOperation (batch : list (list N)) (i totalBatches : nat)
    (wordsLength : Z) (sourceLang targetLang : jsstring) : M unit :=
  s ← get;
  when (lastBackoffUntilTs (manager s) >? now s)
       (let waitMs := lastBackoffUntilTs (manager s) - now s in
        logDetailed (js "Global backoff in effect, waiting "
                     ++ showZ (ceilSeconds waitMs) ++ js "s") Warning;;
        delay host waitMs);;
  s ← get;
  if cancelRequested (plugin s) then
    logDetailed (js "Cancellation requested - stopping batch processing") Warning;;
    throw (newError (js "OPERATION_CANCELLED"))
  else
    when (enableRateLimiting (settings (plugin s))) acquireSlot;;
    batchResults ← processSingleBatchWithRetry batch sourceLang targetLang;
    forEach batchResults
      (fun entry => modify (set_allResults (mapSet entry.1 entry.2));;
                    setCachedResult entry.1 entry.2);;
    modify (set_manager (with_consecutive 0));;
    recordUsageStats (Z.of_nat (length batch)) true;;
    modify (set_plugin (with_summary
              (OperationSummaryManager.recordSuccess (Z.of_nat (length batch)))));;
    tryCatch
      (savePartialResultsToTable;;
       s ← get;
       logDetailed (checkMark ++ js " Saved partial results: "
                    ++ showZ (mapSize (allResults s)) ++ js "/" ++ showZ wordsLength
                    ++ js " words completed") Success)
      (fun saveError =>
         logDetailed (warningSign ++ js " Could not save partial results: "
                      ++ errToString saveError) Warning);;
    saveCacheStore;;
    s ← get;
    updateProgress (Z.of_nat i + 1) (Z.of_nat totalBatches)
                   (mapSize (allResults s)) wordsLength;;
    when (Z.of_nat i <? Z.of_nat totalBatches - 1)
         (delay host (if isMobileEnv host then 3000 else 2000)).

(** [circuitBreaker.execute(operation)] on the manager's breaker. *)
Definition guarded {A : Type} (operation : M A) : M A :=
  fun s =>
    let done :=
      CircuitBreaker.execute now operation (circuitBreaker (manager s)) s in
    (done.1.1, set_manager (with_circuitBreaker done.1.2) done.2).

(** [networkBackoff.wait()] *)
Definition networkBackoffWait : M unit :=
  s ← get;
  let waited := ExponentialBackoff.wait (networkBackoff (manager s)) in
  match waited.1 with
  | Return ms =>
      modify (set_manager (with_networkBackoff waited.2));;
      delay host ms
  | Throw e => throw e
  | Diverge => diverge
  end.

Definition isMixedScriptError (message : jsstring) : bool :=
  includes message (js "mixed-script validation")
  || (includes message (js "All worker endpoints failed")
      && includes message (js "mixed-script validation")).

Definition isThresholdAbort (message : jsstring) : bool :=
  truthy message
  && (includes message (js "JSON_THRESHOLD")
      || includes message (js "RATE_LIMIT_THRESHOLD")).

Definition isOperationWideFailure (errorCategory : ErrorCategory)
    (message : jsstring) : bool :=
  bool_decide (errorCategory = SERVER)
  || includes message (js "Circuit breaker")
  || (includes message (js "All worker endpoints failed")
      && negb (isMixedScriptError message)).

(** The part of the [catch] that comes before any decision: the log line,
    the statistics and the flush of what has been gathered so far. *)
Definition reportBatchFailure (batch : list (list N)) (i : nat) (error : JsError)
  : M unit :=
  let errorCategory := ErrorClassifier.categorizeError error in
  logEvent (js "Batch " ++ showZ (Z.of_nat i + 1) ++ js " failed: "
            ++ errMessage error ++ js " (Category: " ++ categoryName errorCategory
            ++ js ")") Error;;
  recordUsageStats (Z.of_nat (length batch)) false;;
  modify (set_plugin (with_summary
            (OperationSummaryManager.recordFailure error (Z.of_nat (length batch)))));;
  s ← get;
  when (mapSize (allResults s) >? 0)
       (tryCatch
          (savePartialResultsToTable;;
           logDetailed (floppyDisk ++ js " Saved "
                        ++ showZ (mapSize (allResults s))
                        ++ js " partial results before failure") Warning)
          (fun saveError =>
             logEvent (crossMark ++ js " Failed to save partial results: "
                       ++ errToString saveError) Error)).

(** The retry in place that a category's policy still allows. *)
Definition retrySameBatch (i : nat) (errorCategory : ErrorCategory)
    (currentRetryCount : Z) : M Next :=
  let policy := ErrorClassifier.getErrorPolicy errorCategory in
  modify (set_manager (fun m =>
            with_errorRetryCounts
              (mapSet errorCategory (currentRetryCount + 1) (errorRetryCounts m)) m));;
  (if bool_decide (errorCategory = NETWORK) then
     networkBackoffWait;;
     s ← get;
     logDetailed (js "Network error - retrying after "
                  ++ showZ (ExponentialBackoff.getCurrentDelay
                              (networkBackoff (manager s)))
                  ++ js "ms (attempt " ++ showZ (currentRetryCount + 1) ++ js "/"
                  ++ showZ (ErrorClassifier.maxRetries policy) ++ js ")") Warning
   else if bool_decide (errorCategory = RATE_LIMIT) then
     let backoffMs := 5000 * ErrorClassifier.backoffMultiplierTenths policy / 10 in
     modify (fun s =>
               set_manager
                 (with_lastBackoff
                    (Z.max (lastBackoffUntilTs (manager s)) (now s + backoffMs))) s);;
     logDetailed (js "Rate limit - waiting " ++ showZ backoffMs
                  ++ js "ms before retry") Warning;;
     delay host backoffMs
   else ret tt);;
  logDetailed (js "Retrying batch " ++ showZ (Z.of_nat i + 1) ++ js " ("
               ++ categoryName errorCategory ++ js ")") Info;;
  ret SameBatch.

(** The end of the [catch]: the failure counts against the cap. *)
Definition countNonModelFailure (i : nat) : M Next :=
  modify (set_manager (fun m =>
            with_adaptive
              (AdaptiveBatchController.onFailure <$> adaptiveBatchController m) m));;
  s ← get;
  let cap := Z.max 1 (default 3 (maxNonModelFailures (settings (plugin s)))) in
  modify (set_manager (fun m =>
            with_consecutive (consecutiveNonModelFailures m + 1) m));;
  s ← get;
  if consecutiveNonModelFailures (manager s) >=? cap then
    logEvent (redCircle ++ js " NON-MODEL FAILURE CAP REACHED (" ++ showZ cap
              ++ js "). Aborting.") Error;;
    completeOperation OperationSummaryManager.failed
      (js "Non-model failure limit reached ("
       ++ showZ (consecutiveNonModelFailures (manager s)) ++ js " failures)");;
    throw (newError (js "Non-model failure limit reached"))
  else
    logDetailed (noEntry ++ js " Skipping failed batch " ++ showZ (Z.of_nat i + 1)
                 ++ js ", continuing with next batches") Info;;
    ret NextBatch.

(** The decision of the [catch], after [reportBatchFailure]. *)
Definition decideBatchFailure (batch : list (list N)) (i : nat) (error : JsError)
  : M Next :=
  let errorCategory := ErrorClassifier.categorizeError error in
  let message := errMessage error in
  if isMixedScriptError message then
    logDetailed (warningSign
                 ++ js " Mixed-script validation failed for batch - skipping and continuing")
                Warning;;
    modify (set_plugin (with_failedWords
              (fun failedWords =>
                 foldl (fun acc word => {[toLowerCase word]} ∪ acc) failedWords batch)));;
    ret NextBatch
  else if bool_decide (errorCategory = MODEL) then
    logEvent (policeLight ++ js " MODEL ERROR - Stopping all operations immediately")
             Error;;
    completeOperation OperationSummaryManager.failed (js "Model error: " ++ message);;
    throw error
  else if isThresholdAbort message then
    let reason :=
      if includes message (js "JSON_THRESHOLD")
      then js "Repeated JSON response errors (3 times)"
      else js "Repeated rate-limit errors (2 times)" in
    logEvent (redCircle ++ js " ABORT THRESHOLD: " ++ reason ++ js ".") Error;;
    completeOperation OperationSummaryManager.failed (js "Threshold abort: " ++ reason);;
    throw error
  else if isOperationWideFailure errorCategory message then
    logEvent (redCircle
              ++ js " OPERATION-WIDE FAILURE - Stopping all operations immediately")
             Error;;
    completeOperation OperationSummaryManager.failed
      (js "Infrastructure error: " ++ message);;
    throw error
  else
    s ← get;
    let policy := ErrorClassifier.getErrorPolicy errorCategory in
    let currentRetryCount :=
      default 0 (mapGet errorCategory (errorRetryCounts (manager s))) in
    if ErrorClassifier.retryable policy
       && (currentRetryCount <? ErrorClassifier.maxRetries policy)
    then retrySameBatch i errorCategory currentRetryCount
    else countNonModelFailure i.

(** The [catch] of the batch loop. *)
Definition handleBatchFailure (batch : list (list N)) (i : nat) (error : JsError)
  : M Next :=
  reportBatchFailure batch i error;;
  decideBatchFailure batch i error.

(** The [for] loop over [batches] from index [i] on.  A retry comes back to
    the same index; [fuel] bounds the number of iterations. *)
Fixpoint batchLoop (fuel : nat) (batches : list (list (list N))) (i : nat)
    (wordsLength : Z) (sourceLang targetLang : jsstring) : M unit :=
  match fuel with
  | O => diverge
  | S fuel' =>
      match batches !! i with
      | None => ret tt
      | Some batch =>
          next ← tryCatch
                   (guarded (batchOperation batch i (length batches) wordsLength
                                            sourceLang targetLang);;
                    ret NextBatch)
                   (handleBatchFailure batch i);
          match next with
          | NextBatch =>
              batchLoop fuel' batches (S i) wordsLength sourceLang targetLang
          | SameBatch =>
              batchLoop fuel' batches i wordsLength sourceLang targetLang
          end
      end
  end.

(** The resets at the top of [processWordsInBatches]. *)
Definition resetRun (s : St) : St :=
  set_allResults (fun _ => [])
    (set_manager
       (fun m =>
          with_networkBackoff (ExponentialBackoff.reset (networkBackoff m))
            (with_errorRetryCounts []
               (with_rateLimitErrorCount 0 (with_jsonErrorCount 0 m)))) s).

(** What [processWordsInBatches] does once the words that the cache does not
    answer, [uncached], are known.  [fuel] bounds the iterations of the
    batch loop. *)
Definition runBatches (fuel : nat) (words uncached : list (list N))
    (sourceLang targetLang : jsstring)
  : M (list (list N * GroqTranslationResult)) :=
  let prioritized := prioritizeWords uncached in
  s ← get;
  match createOptimizedBatches s prioritized with
  | None => diverge
  | Some batches =>
      let wordsLength := Z.of_nat (length words) in
      logDetailed (js "Processing " ++ showZ wordsLength ++ js " words ("
                   ++ showZ (Z.of_nat (length uncached)) ++ js " new, "
                   ++ showZ (mapSize (allResults s)) ++ js " from cache) in "
                   ++ showZ (Z.of_nat (length batches)) ++ js " batches") Info;;
      batchLoop fuel batches 0 wordsLength sourceLang targetLang;;
      s ← get;
      when (mapSize (allResults s) >? 0)
           (tryCatch
              (savePartialResultsToTable;;
               logDetailed (partyPopper ++ js " Final results saved: "
                            ++ showZ (mapSize (allResults s)) ++ js "/"
                            ++ showZ wordsLength ++ js " words completed") Success)
              (fun finalError =>
                 logEvent (crossMark ++ js " Final save failed: "
                           ++ errToString finalError) Error));;
      logEvent (checkMark ++ js " Processing completed: "
                ++ showZ (mapSize (allResults s)) ++ js "/" ++ showZ wordsLength
                ++ js " words translated successfully") Success;;
      clearProgress;;
      saveCacheStore;;
      gets allResults
  end.

(** The start of [processWordsInBatches]: the resets and, in smart mode, a
    new adaptive controller. *)
Definition startRun : M unit :=
  modify resetRun;;
  s ← get;
  when (smartAutoMode (settings (plugin s))
        && enableAdaptiveBatching (settings (plugin s)))
       (let initialSize := getSmartBatchSize (settings (plugin s)) in
        modify (set_manager
                  (with_adaptive (Some (AdaptiveBatchController.create initialSize 20))));;
        logDetailed (js "Smart Auto Mode: Adaptive batching enabled (starting: "
                     ++ showZ initialSize ++ js ")") Info).

Definition processWordsInBatches (fuel : nat) (words : list (list N))
    (sourceLang targetLang : jsstring)
  : M (list (list N * GroqTranslationResult)) :=
  startRun;;
  split ← partitionByCache words [] [];
  modify (set_allResults (fun _ => split.1));;
  runBatches fuel words split.2 sourceLang targetLang.

End BatchLoop.


(* ===================================================================== *)
(** ** The vocabulary of the properties                                   *)
(* ===================================================================== *)

(** What every reachable breaker satisfies: the count is never negative,
    and a breaker that is not closed has reached the threshold. *)
Definition cb_inv (cb : CircuitBreaker.t) : Prop :=
  0 <= CircuitBreaker.failureCount cb /\
  (CircuitBreaker.state cb <> CircuitBreaker.CLOSED ->
   CircuitBreaker.failureThreshold <= CircuitBreaker.failureCount cb).

(** What holds of a controller made by the batch manager (cap 20). *)
Definition abc_inv (c : AdaptiveBatchController.t) : Prop :=
  AdaptiveBatchController.windowSize c = 5 /\
  AdaptiveBatchController.minBatchSize c = 1 /\
  AdaptiveBatchController.maxBatchSize c = 20 /\
  1 <= AdaptiveBatchController.currentBatchSize c <= 20 /\
  1 <= AdaptiveBatchController.baselineBatchSize c <= 20 /\
  0 <= AdaptiveBatchController.recentSuccesses c /\
  (AdaptiveBatchController.currentBatchSize c < 20 ->
   AdaptiveBatchController.recentSuccesses c <= 4) /\
  0 <= AdaptiveBatchController.recentFailures c.

(** [m] takes every state to one that is [R]-related to it, however it
    ends. *)
Definition preserves {A : Type} (R : relation St) (m : M A) : Prop :=
  forall s, R s (m s).2.

(** [s'] continues the trace of [s] with events that satisfy [P]. *)
Definition extends (P : Event -> Prop) (s s' : St) : Prop :=
  exists new, events s' = new ++ events s /\ Forall P new.

(** Every run of [m] adds only events that satisfy [P]. *)
Abbreviation emits P m := (preserves (extends P) m).

(** The events that are not requests. *)
Definition quiet (ev : Event) : Prop :=
  match ev with EFetch _ => False | _ => True end.

(** The events that are neither requests nor timer waits nor settings
    writes: logging only. *)
Definition isLog (ev : Event) : Prop :=
  match ev with ELog _ _ => True | _ => False end.

(** Requests, if any, go to one of [urls] and carry the words [ws]. *)
Definition fetchesOnly (urls : list (list N)) (ws : list (list N)) (ev : Event)
  : Prop :=
  match ev with
  | EFetch req => reqUrl req ∈ urls /\ words (reqBody req) = ws
  | _ => True
  end.

(** The error object that the client classifies for a failure envelope. *)
Definition classifiedError (res : Response) (errorData : Envelope) : JsError :=
  mkJsError (js "Error") (orElse (envError errorData) (httpPrefix res))
            (Some (status res)).

(** The envelope reaches the remediations: it is not a capacity error and
    does not carry the structured category [model]. *)
Definition reachesRemediation (res : Response) (errorData : Envelope) : Prop :=
  ErrorClassifier.categorizeError (classifiedError res errorData) <> CAPACITY /\
  ErrorClassifier.categorizeError (classifiedError res errorData) <> MODEL_CAPACITY /\
  envErrorCategory errorData <> categoryName MODEL.

Definition thresholdLog : Event :=
  ELog (js "Rate limit errors reached threshold (1). Stopping operation.") Error.

Definition rateLimitThreshold : JsError := newError (js "RATE_LIMIT_THRESHOLD").

(** The manager's fields are left alone. *)
Definition sameManager (s s' : St) : Prop := manager s' = manager s.

Definition jsonThreshold : JsError := newError (js "JSON_THRESHOLD").

Definition jsonThresholdLog : Event :=
  ELog (js "JSON errors reached threshold (2). Stopping operation.") Error.

(** The log line of the [catch] of the endpoint loop. *)
Definition endpointFailedLog (url : list N) (e : JsError) : Event :=
  ELog (js "Endpoint failed (" ++ url ++ js "): " ++ eeMessage (endpointError url e)
        ++ js " (" ++ categoryName (eeCategory (endpointError url e)) ++ js ")")
       Warning.

Definition withoutJSONFormat (body : RequestBody) : RequestBody :=
  mkRequestBody (words body) (sourceLang body) (targetLang body) (model body) false.

(** The events that are neither a request nor a hand-over to the table. *)
Definition silent (ev : Event) : Prop :=
  match ev with
  | EFetch _ | ESaveTable _ => False
  | _ => True
  end.

(** The cache holds [entry] for [W], as an own property under the key of
    [W], and it has not expired. *)
Definition servedBy (W : list N) (entry : Cache.Entry) (s : St) : Prop :=
  Cache.own (cacheStore (plugin s)) !! toLowerCase W = Some entry /\
  now s - Cache.ts entry <= Cache.ttlMs (cacheTTLHours (settings (plugin s))).

(** The requests that do not carry [W]. *)
Definition notRequested (W : list N) (ev : Event) : Prop :=
  match ev with
  | EFetch req => W ∉ words (reqBody req)
  | _ => True
  end.

(** [W] stays a key of [allResults]. *)
Definition keepsKey (W : list N) (s s' : St) : Prop :=
  is_Some (mapGet W (allResults s)) -> is_Some (mapGet W (allResults s')).

(** What [m] returns, when it returns, is the [allResults] map it leaves. *)
Definition returnsAllResults (m : M (list (list N * GroqTranslationResult))) : Prop :=
  forall s results, (m s).1 = Return results -> results = allResults (m s).2.

(** The line that [savePartialResultsToTable] logs when it fails. *)
Definition saveFailedLog (error : JsError) : Event :=
  ELog (crossMark ++ js " Failed to save partial results to table: "
        ++ errMessage error) Error.

(** There are no results; or the last thing the trace shows, later log lines
    apart, is the write of the table updated from the whole of [allResults];
    or it is the line that tells that this write has failed. *)
Definition flushed (host : Host) (s : St) : Prop :=
  allResults s = [] \/
  exists after before,
    Forall isLog after /\
    (events s = after ++ ESaveTable (allResults s) :: before
     \/ exists error,
          tableWriteError host before = Some error /\
          events s = after ++ saveFailedLog error :: before).

(** Nothing but log lines is added, and [allResults] is as it was. *)
Definition onlyLogs (s s' : St) : Prop :=
  allResults s' = allResults s /\ extends isLog s s'.

(** [m] does not throw. *)
Definition noThrow {A} (m : M A) : Prop := forall s e s', m s <> (Throw e, s').


(** No key is lost from [allResults], and every map handed to the table in
    between has its keys in the [allResults] of the end. *)
Definition keepsSaved (s s' : St) : Prop :=
  (forall k, keepsKey k s s') /\
  exists new,
    events s' = new ++ events s /\
    forall r k, ESaveTable r ∈ new -> is_Some (mapGet k r) ->
                is_Some (mapGet k (allResults s')).


(* ===================================================================== *)
(** ** Inputs of the examples                                             *)
(* ===================================================================== *)

(** The world of the examples is the clock itself; the failing operation
    takes one millisecond. *)
Definition failingOp (w : Z) : Result unit * Z :=
  (Throw (newError (js "fetch failed")), w + 1).

Definition countingOp (w : Z) : Result unit * Z := (Return tt, w + 1).

(** A breaker opened by three failures at times 1, 2 and 3. *)
Definition openedBreaker : CircuitBreaker.t :=
  CircuitBreaker.mk (js "TranslationService") 3 3 CircuitBreaker.OPEN.

Definition halfOpenBreaker : CircuitBreaker.t :=
  CircuitBreaker.mk (js "TranslationService") 3 3 CircuitBreaker.HALF_OPEN.

Definition helloResult : GroqTranslationResult :=
  mkResult (js "bonjour") (js "a word of greeting") (js "Hello there")
           (js "Bonjour la").

Definition helloStore : gmap (list N) Cache.Entry :=
  <[js "hello" := Cache.mkEntry 1000 helloResult]> ∅.

(** A state to run examples from: the default settings with the endpoint
    list [config], an empty cache and trace, the clock at 0. *)
Definition settingsWith (config : option Endpoints) (jsonFormat : bool) : Settings :=
  mkSettings (js "detailed") (js "llama-3.1-8b-instant") 8 jsonFormat 15 true
    (js "professional") (Some 24) true true [] [] [] true (Some 3) config.

Definition freshManager : Manager :=
  mkManager AdvancedRateLimiter.create None 0 0 0 0
    (CircuitBreaker.create (js "TranslationService"))
    ExponentialBackoff.create [].

Definition stateWith (config : option Endpoints) (jsonFormat : bool) : St :=
  mkSt (mkPlugin (settingsWith config jsonFormat) ∅ false ∅ None)
       freshManager 0 [] [].

(** A host whose network answers by [answer]; timers are exact, nobody
    cancels, a URL is https when it starts with [https://], and the table
    can be written. *)
Definition hostWith (answer : list Request -> Request -> FetchOutcome) : Host :=
  mkHost (fun earlier req => mkReply (answer earlier req) 0)
         (fun _ _ => 0%N) (fun _ _ => false)
         (fun u => startsWith u (js "https://"))
         (fun _ => None) (fun _ => None) false true.

Definition failureEnvelope (message category : list N) : Envelope :=
  mkEnvelope message category [] false [].

Definition failureResponse (code : Z) (message category : list N) : Response :=
  mkResponse code [] (inl (failureEnvelope message category)).

Definition urlA : list N := js "https://a.example/".
Definition urlB : list N := js "https://b.example/".

Definition bodyOf (ws : list (list N)) (jsonFormat : bool) : RequestBody :=
  mkRequestBody ws (js "en") (js "ar") (js "llama-3.1-8b-instant") jsonFormat.

Definition twoEndpoints : option Endpoints := Some (mkEndpoints urlA [urlB]).

Definition helloBody (jsonFormat : bool) : RequestBody :=
  bodyOf [js "hello"] jsonFormat.

(** Every request is answered 429 with a retry hint. *)
Definition rateLimitedHost : Host :=
  hostWith (fun _ _ =>
    Responded (failureResponse 429 (js "Rate limit reached, try again in 2s") [])).

Definition rateLimitedRun : Result Envelope * St :=
  postToWorkerWithFailover rateLimitedHost (helloBody true) (stateWith twoEndpoints true).

(** Every request is answered 400 with the structured category [json]. *)
Definition jsonFailingHost : Host :=
  hostWith (fun _ _ =>
    Responded (failureResponse 400 (js "json_validate_failed") (js "json"))).

(** The same answer, but the error text speaks of capacity. *)
Definition jsonCapacityHost : Host :=
  hostWith (fun _ _ =>
    Responded (failureResponse 400 (js "model is over capacity") (js "json"))).

(** Every request is answered 500. *)
Definition serverDownHost : Host :=
  hostWith (fun _ _ => Responded (failureResponse 500 (js "boom") [])).

Definition serverDownErrors : list EndpointError :=
  [mkEndpointError urlA (js "HTTP 500: boom") SERVER;
   mkEndpointError urlB (js "HTTP 500: boom") SERVER].

Definition serverDownRun : Result Envelope * St :=
  postToWorkerWithFailover serverDownHost (helloBody true) (stateWith twoEndpoints true).

Definition goodResult (w : list N) : GroqTranslationResult :=
  mkResult (js "tr-" ++ w) (js "a definition of " ++ w) (js "example one")
           (js "example two").

Definition successResponse (ws : list (list N)) : Response :=
  mkResponse 200 []
    (inl (mkEnvelope [] [] [] true ((fun w => (w, goodResult w)) <$> ws))).

(** Every request is answered with a translation of each of its words. *)
Definition echoHost : Host :=
  hostWith (fun _ req => Responded (successResponse (words (reqBody req)))).

(** The cache knows "hello" since time 1000; it is now 2000. *)
Definition cachedState : St :=
  mkSt (mkPlugin (settingsWith twoEndpoints true)
                 (<[js "hello" := Cache.mkEntry 1000 (goodResult (js "hello"))]> ∅)
                 false ∅ None)
       freshManager 2000 [] [].

(** One word per batch, no adaptive sizing, an operation in progress. *)
Definition oneWordBatches : St :=
  mkSt (mkPlugin
          (mkSettings (js "detailed") (js "llama-3.1-8b-instant") 1 true 15 true
             (js "professional") (Some 24) false false [] [] [] true (Some 3)
             twoEndpoints)
          ∅ false ∅
          (OperationSummaryManager.startOperation (js "op-1") 2))
       freshManager 0 [] [].

(** The first request is answered; every later one is told that the model
    does not exist. *)
Definition modelGoneHost : Host :=
  hostWith (fun earlier req =>
    match earlier with
    | [] => Responded (successResponse (words (reqBody req)))
    | _ => Responded (failureResponse 404 (js "The model does not exist")
                                      (js "model"))
    end).

Definition modelGoneRun : Result (list (list N * GroqTranslationResult)) * St :=
  processWordsInBatches modelGoneHost 5 [js "hello"; js "world"] (js "en") (js "ar")
    oneWordBatches.



(** A run over a cached word and a word that names a member of
    [Object.prototype]. *)
Definition inheritedWordRun : Result (list (list N * GroqTranslationResult)) * St :=
  processWordsInBatches echoHost 5 [js "hello"; js "constructor"] (js "en") (js "ar")
    cachedState.

(* ===================================================================== *)
(** ** More of JavaScript's strings and arrays                            *)
(* ===================================================================== *)

Definition pipe : N := 124%N.
Definition backslash : N := 92%N.
Definition hyphen : N := 45%N.
Definition colon : N := 58%N.
Definition space : N := 32%N.
Definition lineFeed : N := 10%N.
Definition fullStop : N := 46%N.

(** [s.endsWith(suffix)] *)
Definition endsWith (s suffix : jsstring) : bool :=
  startsWith (rev s) (rev suffix).

(** [s.split(sep)] for a separator of one code unit: there is always a
    first part, the empty string when [s] is empty. *)
Fixpoint splitOn (sep : N) (s : jsstring) : list (list N) :=
  match s with
  | [] => [[]]
  | c :: s' =>
      if (c =? sep)%N then [] :: splitOn sep s'
      else
        match splitOn sep s' with
        | [] => [[c]]
        | part :: parts => (c :: part) :: parts
        end
  end.

(** [x.slice(1, -1)], of a string or of an array. *)
Definition sliceInner {A : Type} (x : list A) : list A :=
  take (length x - 2) (drop 1 x).

(** The run of hyphens at the head of [s]: its length and what follows. *)
Fixpoint skipHyphens (s : jsstring) : nat * jsstring :=
  match s with
  | [] => (O, [])
  | c :: rest =>
      if (c =? hyphen)%N
      then let run := skipHyphens rest in (S run.1, run.2)
      else (O, s)
  end.

(** [/^:?-{3,}:?$/.test(cell)] *)
Definition isSeparatorCell (cell : jsstring) : bool :=
  let afterColon :=
    match cell with
    | c :: rest => if (c =? colon)%N then rest else cell
    | [] => []
    end in
  let run := skipHyphens afterColon in
  (3 <=? run.1)%nat
  && (bool_decide (run.2 = []) || bool_decide (run.2 = [colon])).

(** [/^\d+$/.test(s)] *)
Definition isDigits (s : jsstring) : bool :=
  truthy s && forallb (fun c => (48 <=? c)%N && (c <=? 57)%N) s.

(* ===================================================================== *)
(** ** The vocabulary table                                               *)
(* ===================================================================== *)

(** [escapeTableCell(text)], the same in the batch manager and in the
    plugin: pipes are escaped, line feeds become spaces, and the result is
    trimmed. *)
Definition escapeTableCell (text : jsstring) : jsstring :=
  if falsy text then []
  else
    let escaped :=
      flat_map (fun c => if (c =? pipe)%N then [backslash; pipe] else [c]) text in
    let escaped :=
      (fun c => if (c =? lineFeed)%N then space else c) <$> escaped in
    trim escaped.

(** The six-cell row that both table writers build with a template
    literal. *)
Definition tableRow (num sourceWord translation' definition' exampleSource'
                     exampleTarget' : jsstring) : jsstring :=
  js "| " ++ escapeTableCell num ++ js " | " ++ escapeTableCell sourceWord
  ++ js " | " ++ escapeTableCell translation'
  ++ js " | " ++ escapeTableCell definition'
  ++ js " | " ++ escapeTableCell exampleSource'
  ++ js " | " ++ escapeTableCell exampleTarget' ++ js " |".

(** [!s || s.trim() === '' || s.trim() === '---'] *)
Definition unfilled (s : jsstring) : bool :=
  falsy s || bool_decide (trim s = []) || bool_decide (trim s = js "---").

(** [s && s.trim() !== '' && s.trim() !== '---'] *)
Definition filled (s : jsstring) : bool :=
  truthy s && negb (bool_decide (trim s = []))
  && negb (bool_decide (trim s = js "---")).

(** [isAlreadyComplete], as the extraction and the table writer compute it. *)
Definition isAlreadyComplete (translation' definition' exampleSource'
                              exampleTarget' : jsstring) : bool :=
  filled translation' && filled definition' && filled exampleSource'
  && filled exampleTarget'.

(** The new content of a cell: the found text when the cell is unfilled and
    the found text is not blank, the old text otherwise. *)
Definition fillField (old found : jsstring) : jsstring :=
  if unfilled old && truthy found && truthy (trim found) then found else old.

(** The result for [sourceWord]: under that very key, or else under the
    first key, in the order of the map, that equals it up to case. *)
Definition findResult (results : list (list N * GroqTranslationResult))
    (sourceWord : jsstring) : option GroqTranslationResult :=
  match mapGet sourceWord results with
  | Some found => Some found
  | None =>
      snd <$> List.find
                (fun kv => bool_decide (toLowerCase kv.1 = toLowerCase sourceWord))
                results
  end.

(** [cell?.includes(indicator)], [None] for a cell that is missing. *)
Definition cellIncludes (cell : option (list N)) (indicator : jsstring) : bool :=
  match cell with
  | Some c => includes c indicator
  | None => false
  end.

(** The private table helpers of [ProfessionalBatchManager]. *)
Module ManagerTable.

Definition splitTableRow (row : jsstring) : list (list N) :=
  let trimmed := trim row in
  if negb (startsWith trimmed [pipe]) || negb (endsWith trimmed [pipe]) then []
  else
    let content := trim (sliceInner trimmed) in
    trim <$> splitOn pipe content.

Definition isSeparatorRow (row : jsstring) : bool :=
  let trimmed := trim row in
  if negb (startsWith trimmed [pipe]) then false
  else
    let cells := trim <$> sliceInner (splitOn pipe trimmed) in
    existsb isSeparatorCell cells.

Definition headerIndicators : list (list N) :=
  [js "#"; js "number"; js "num"; js "no."; js "word"; js "source";
   js "original"].

Definition isHeaderRow (row : jsstring) : bool :=
  let cells := splitTableRow row in
  if bool_decide (length cells = 0%nat) then false
  else
    let firstCell := (fun c => trim (toLowerCase c)) <$> cells !! 0%nat in
    let secondCell := (fun c => trim (toLowerCase c)) <$> cells !! 1%nat in
    existsb (fun indicator =>
               cellIncludes firstCell indicator
               || cellIncludes secondCell indicator) headerIndicators
    || isSeparatorRow row.

End ManagerTable.

Definition barChart : jsstring := [55357%N; 56522%N].

(** One turn of the loop of [updateTableWithPartialResults]: the row that
    is pushed, and whether the turn counts in [updatedCount]. *)
Definition updateRowWithPartialResults
    (results : list (list N * GroqTranslationResult)) (row : jsstring)
  : jsstring * bool :=
  if falsy (trim row) then (row, false)
  else if negb (includes row [pipe]) then (row, false)
  else
    let parts := ManagerTable.splitTableRow row in
    if (length parts <? 2)%nat then (row, false)
    else
      let num := default [] (parts !! 0%nat) in
      let sourceWord := trim (default [] (parts !! 1%nat)) in
      if falsy sourceWord || ManagerTable.isSeparatorRow row
         || ManagerTable.isHeaderRow row
      then (row, false)
      else
        let translation' := default [] (parts !! 2%nat) in
        let definition' := default [] (parts !! 3%nat) in
        let exampleSource' := default [] (parts !! 4%nat) in
        let exampleTarget' := default [] (parts !! 5%nat) in
        match findResult results sourceWord with
        | Some foundResult =>
            let newTranslation := fillField translation' (translation foundResult) in
            let newDefinition := fillField definition' (definition foundResult) in
            let newExampleSource :=
              fillField exampleSource' (exampleSource foundResult) in
            let newExampleTarget :=
              fillField exampleTarget' (exampleTarget foundResult) in
            (tableRow num sourceWord newTranslation newDefinition
                      newExampleSource newExampleTarget,
             negb (bool_decide (newTranslation = translation'))
             || negb (bool_decide (newDefinition = definition'))
             || negb (bool_decide (newExampleSource = exampleSource'))
             || negb (bool_decide (newExampleTarget = exampleTarget')))
        | None =>
            (tableRow num sourceWord translation' definition' exampleSource'
                      exampleTarget', false)
        end.

(** [updateTableWithPartialResults(originalRows, results, ...)]: every row
    gives one row; the rows that changed are counted for the log line. *)
Definition updateTableWithPartialResults (originalRows : list (list N))
    (results : list (list N * GroqTranslationResult))
    (sourceLang targetLang : jsstring) : M jsstring :=
  let rewritten := updateRowWithPartialResults results <$> originalRows in
  let updatedCount := Z.of_nat (length (List.filter snd rewritten)) in
  when (updatedCount >? 0)
       (logEvent (barChart ++ js " Table updated: " ++ showZ updatedCount
                  ++ js " rows modified with partial results") Info);;
  ret (join newline (fst <$> rewritten)).

(** The table helpers of the plugin class. *)
Module PluginTable.

(** The loop of [splitTableRow] over what is left of [content]: a backslash
    escapes the code unit after it, an unescaped pipe ends a cell. *)
Fixpoint splitCells (content : jsstring) (cells : list (list N))
    (current : jsstring) (inEscape : bool) : list (list N) * jsstring :=
  match content with
  | [] => (cells, current)
  | ch :: rest =>
      if inEscape then splitCells rest cells (current ++ [ch]) false
      else if (ch =? backslash)%N then splitCells rest cells current true
      else if (ch =? pipe)%N then splitCells rest (cells ++ [trim current]) [] false
      else splitCells rest cells (current ++ [ch]) false
  end.

Definition splitTableRow (row : jsstring) : list (list N) :=
  let trimmed := trim row in
  if negb (startsWith trimmed [pipe]) || negb (endsWith trimmed [pipe]) then []
  else
    let content := trim (sliceInner trimmed) in
    let done := splitCells content [] [] false in
    if (0 <? length done.2)%nat then done.1 ++ [trim done.2] else done.1.

Definition isSeparatorRow (row : jsstring) : bool :=
  let trimmed := trim row in
  if negb (startsWith trimmed [pipe]) then false
  else existsb (fun cell => isSeparatorCell (trim cell)) (splitTableRow row).

Definition headerIndicators : list (list N) :=
  [js "#"; js "number"; js "num"; js "no.";
   js "word"; js "source"; js "original";
   js "translation"; js "trans"; js "meaning";
   js "definition"; js "def"; js "explanation";
   js "example"; js "ex"; js "sentence";
   js "translated example"; js "translation ex"].

Definition isHeaderRow (row : jsstring) : bool :=
  let cells := splitTableRow row in
  if bool_decide (length cells = 0%nat) then false
  else
    let firstCell := (fun c => trim (toLowerCase c)) <$> cells !! 0%nat in
    let secondCell := (fun c => trim (toLowerCase c)) <$> cells !! 1%nat in
    let isHeader :=
      existsb (fun indicator =>
                 cellIncludes firstCell indicator
                 || cellIncludes secondCell indicator) headerIndicators in
    isHeader || isSeparatorRow row.

Definition needsProcessing (sourceWord translation' definition' exampleSource'
                            exampleTarget' sourceLang targetLang : jsstring)
  : bool :=
  if falsy sourceWord || bool_decide (trim sourceWord = [])
     || includes sourceWord (js "---") || includes sourceWord (js "#")
  then false
  else if isAlreadyComplete translation' definition' exampleSource'
                            exampleTarget'
  then false
  else
    let hasEmptyField :=
      unfilled translation' || unfilled definition'
      || unfilled exampleSource' || unfilled exampleTarget' in
    hasEmptyField.

(** [cells[i]?.trim() || ""] *)
Definition trimmedCell (cells : list (list N)) (i : nat) : jsstring :=
  default [] (trim <$> cells !! i).

(** The loop of [extractWordsNeedingProcessing] over what is left of
    [rows], with its flag and the words gathered so far. *)
Fixpoint extractRows (rows : list (list N)) (isFirstDataRow : bool)
    (words : list (list N)) (sourceLang targetLang : jsstring)
  : M (list (list N)) :=
  match rows with
  | [] => ret words
  | row :: rest =>
      if falsy (trim row) || negb (includes row [pipe])
      then extractRows rest isFirstDataRow words sourceLang targetLang
      else if isSeparatorRow row
      then extractRows rest isFirstDataRow words sourceLang targetLang
      else
        let cells := splitTableRow row in
        if (length cells <? 2)%nat
        then extractRows rest isFirstDataRow words sourceLang targetLang
        else if isFirstDataRow && isHeaderRow row then
          logDetailed (js "Skipping table header row") Info;;
          extractRows rest false words sourceLang targetLang
        else
          let sourceWord := trimmedCell cells 1 in
          if falsy sourceWord || isSeparatorRow row || isHeaderRow row
             || bool_decide (sourceWord = []) || includes sourceWord (js "#")
             || isDigits sourceWord
          then extractRows rest false words sourceLang targetLang
          else
            s ← get;
            if bool_decide (toLowerCase sourceWord
                            ∈ failedWordsInCurrentOperation (plugin s))
            then
              logDetailed (js "Skipping word that failed in current operation: "
                           ++ dquote ++ sourceWord ++ dquote) Info;;
              extractRows rest false words sourceLang targetLang
            else
              let translation' := trimmedCell cells 2 in
              let definition' := trimmedCell cells 3 in
              let exampleSource' := trimmedCell cells 4 in
              let exampleTarget' := trimmedCell cells 5 in
              if isAlreadyComplete translation' definition' exampleSource'
                                   exampleTarget'
              then extractRows rest false words sourceLang targetLang
              else if needsProcessing sourceWord translation' definition'
                        exampleSource' exampleTarget' sourceLang targetLang
              then extractRows rest false (words ++ [sourceWord])
                               sourceLang targetLang
              else extractRows rest false words sourceLang targetLang
  end.

Definition extractWordsNeedingProcessing (rows : list (list N))
    (sourceLang targetLang : jsstring) : M (list (list N)) :=
  words ← extractRows rows true [] sourceLang targetLang;
  logDetailed (js "Total words needing processing: "
               ++ showZ (Z.of_nat (length words))) Info;;
  ret words.

End PluginTable.

(* ===================================================================== *)
(** ** The hourly cache cleanup                                           *)
(* ===================================================================== *)

(** The body of the interval that [setupCacheCleanup] installs, at time
    [now]: the store without its expired entries, and how many went.  The
    loop runs over [Object.keys], the own properties. *)
Definition removeExpired (cacheTTLHours : option Z) (now : Z)
    (cacheStore : Cache.Store)
  : Cache.Store * Z :=
  let ttlMs := Cache.ttlMs cacheTTLHours in
  let kept :=
    filter (fun kv => ~ (now - Cache.ts kv.2 > ttlMs)) (Cache.own cacheStore) in
  (Cache.mkStore kept (Cache.proto cacheStore),
   Z.of_nat (size (Cache.own cacheStore) - size kept)).


(* ===================================================================== *)
(** ** Version comparison                                                 *)
(* ===================================================================== *)

(** [compareVersions(a, b)].  The numbers are the host's: [Number] gives
    the value of a part ([None] for [NaN]), [isZero] tells the two zeros
    from the other values and [lt] is [<] on values that are not [NaN]. *)
Section Versions.
Context {num : Type}.
Variable Number : jsstring -> option num.
Variable zero : num.
Variable isZero : num -> bool.
Variable lt : num -> num -> bool.

(** [parts[i] || 0] *)
Definition partOrZero (parts : list (option num)) (i : nat) : num :=
  match parts !! i with
  | Some (Some v) => if isZero v then zero else v
  | _ => zero
  end.

(** The [for] loop from index [i] on, with [turns] turns left. *)
Fixpoint compareFrom (aParts bParts : list (option num)) (i turns : nat) : Z :=
  match turns with
  | O => 0
  | S turns' =>
      let aVal := partOrZero aParts i in
      let bVal := partOrZero bParts i in
      if lt bVal aVal then 1
      else if lt aVal bVal then -1
      else compareFrom aParts bParts (S i) turns'
  end.

Definition compareVersions (a b : jsstring) : Z :=
  let aParts := Number <$> splitOn fullStop a in
  let bParts := Number <$> splitOn fullStop b in
  compareFrom aParts bParts 0 (Nat.max (length aParts) (length bParts)).

End Versions.

(* ===================================================================== *)
(** ** The vocabulary of the further properties                           *)
(* ===================================================================== *)

(** The two calls by which the batch loop records the outcome of a batch
    in the operation summary. *)
Inductive RecordCall : Type :=
| RecordSuccess (words : Z)
| RecordFailure (error : JsError) (words : Z).

Definition recordCall (call : RecordCall) (m : OperationSummaryManager.t)
  : OperationSummaryManager.t :=
  match call with
  | RecordSuccess words => OperationSummaryManager.recordSuccess words m
  | RecordFailure error words =>
      OperationSummaryManager.recordFailure error words m
  end.

Definition recordCalls (calls : list RecordCall) (m : OperationSummaryManager.t)
  : OperationSummaryManager.t :=
  foldl (fun m call => recordCall call m) m calls.

Definition isSuccessCall (call : RecordCall) : bool :=
  match call with RecordSuccess _ => true | RecordFailure _ _ => false end.

Definition callWords (call : RecordCall) : Z :=
  match call with RecordSuccess words | RecordFailure _ words => words end.

(** Whether [call] records a failure that is classified as [category]. *)
Definition failsWith (category : ErrorCategory) (call : RecordCall) : bool :=
  match call with
  | RecordSuccess _ => false
  | RecordFailure error _ =>
      bool_decide (ErrorClassifier.categorizeError error = category)
  end.

Definition sumZ (l : list Z) : Z := foldr Z.add 0 l.

(** A list of words in which no word is followed, anywhere after it, by one
    of a higher score. *)
Fixpoint descending (l : list (list N)) : Prop :=
  match l with
  | [] => True
  | w :: rest => Forall (fun later => score later <= score w) rest /\ descending rest
  end.

(** A state in which [urlA] is active and the backups are [urlB], [urlA]
    again and a URL that is not https. *)
Definition promotionState : St :=
  mkSt (mkPlugin
          (mkSettings (js "detailed") (js "llama-3.1-8b-instant") 8 true 15 true
             (js "professional") (Some 24) true true [] urlA
             [urlB; urlA; js "http://c.example/"] true (Some 3) twoEndpoints)
          ∅ false ∅ None)
       freshManager 0 [] [].

(** What [extractWordsNeedingProcessing] requires of a word that it
    returns, given the words that failed earlier in the operation: it is the
    trimmed second cell of one of the rows, which is neither a separator
    nor a header row; it is not empty, not a number, and free of [#] and of
    [---]; it has not failed before; and one of the four cells after it is
    not filled in. *)
Definition extractable (failedWords : gset (list N)) (rows : list (list N))
    (w : list N) : Prop :=
  exists row,
    row ∈ rows /\
    let cells := PluginTable.splitTableRow row in
    (2 <= length cells)%nat /\
    w = PluginTable.trimmedCell cells 1 /\
    PluginTable.isSeparatorRow row = false /\
    PluginTable.isHeaderRow row = false /\
    w <> [] /\
    isDigits w = false /\
    includes w (js "#") = false /\
    includes w (js "---") = false /\
    (toLowerCase w ∉ failedWords) /\
    isAlreadyComplete (PluginTable.trimmedCell cells 2)
                      (PluginTable.trimmedCell cells 3)
                      (PluginTable.trimmedCell cells 4)
                      (PluginTable.trimmedCell cells 5) = false.

(** [s'] is [s] with informational log lines added, and nothing else. *)
Definition onlyInfoLogged (s s' : St) : Prop :=
  plugin s' = plugin s /\ manager s' = manager s /\ now s' = now s /\
  allResults s' = allResults s /\
  exists new,
    events s' = new ++ events s /\
    Forall (fun ev => exists message, ev = ELog message Info) new.

(** A small vocabulary table: the header, the separator, a row whose word
    contains [ex], a row to translate and a row that is complete. *)
Definition vocabularyRows : list (list N) :=
  [js "| # | Word | Translation | Definition | Example | Translated |";
   js "|---|---|---|---|---|---|";
   js "| 1 | Next |  |  |  |  |";
   js "| 2 | cat |  |  |  |  |";
   js "| 3 | dog | chien | a domestic animal | The dog barks | Le chien aboie |"].

(** A number reader for the examples: the value of a run of decimal
    digits, [NaN] for anything else that is not empty, zero for the empty
    string. *)
Definition digitsValue (s : jsstring) : Z :=
  foldl (fun acc c => 10 * acc + (Z.of_N c - 48)) 0 s.

Definition decimalNumber (s : jsstring) : option Z :=
  if falsy s then Some 0
  else if isDigits s then Some (digitsValue s) else None.

(** Every request is told, with the structured category [model], that the
    model does not exist. *)
Definition modelDeniedHost : Host :=
  hostWith (fun _ _ =>
    Responded (failureResponse 404 (js "The model does not exist") (js "model"))).

(** Whenever [m] throws, the error and the state it leaves satisfy [P]. *)
Definition throwsOnly {A : Type} (P : JsError -> St -> Prop) (m : M A) : Prop :=
  forall s e s', m s = (Throw e, s') -> P e s'.

Definition backoffExhausted : JsError :=
  newError (js "Maximum backoff attempts reached").

(** No operation summary is open any more; or the error is the one of an
    exhausted network backoff. *)
Definition noOperationLeft (e : JsError) (s' : St) : Prop :=
  operationSummaryManager (plugin s') = None \/ e = backoffExhausted.

Definition operationCancelled : JsError := newError (js "OPERATION_CANCELLED").

(** An operation is in progress and the user has asked to cancel. *)
Definition cancelledState : St :=
  mkSt (mkPlugin (settingsWith twoEndpoints true) ∅ true ∅
          (OperationSummaryManager.startOperation (js "op-2") 1))
       freshManager 0 [] [].

(** The text of a cell as the table shows it: line feeds turned into
    spaces, and trimmed. *)
Definition cellText (c : jsstring) : jsstring :=
  trim ((fun u => if (u =? lineFeed)%N then space else u) <$> c).

(** [text.replace(/\|/g, '\\|')] *)
Definition escapePipes (text : jsstring) : jsstring :=
  flat_map (fun c => if (c =? pipe)%N then [backslash; pipe] else [c]) text.

(** What stands between the outer pipes of a row whose cells, already
    escaped, are [cells] followed by [last]: every cell with a space on
    each side, and a pipe between two cells. *)
Fixpoint rowInside (cells : list jsstring) (last : jsstring) : jsstring :=
  match cells with
  | [] => [space] ++ last ++ [space]
  | cell :: cells' => ([space] ++ cell ++ [space]) ++ pipe :: rowInside cells' last
  end.

(** A cell that is read back, unless it is empty. *)
Definition unlessEmpty (cell : jsstring) : list jsstring :=
  if falsy cell then [] else [cell].

(** How many times the code unit [u] stands in [s]. *)
Definition countUnit (u : N) (s : jsstring) : nat :=
  length (filter (fun c => c = u) s).

(** A cell as the manager reads it from a line of the file: trimmed, with
    no pipe and no line feed in it. *)
Definition readCell (p : jsstring) : Prop :=
  trim p = p /\ (pipe ∉ p) /\ (lineFeed ∉ p).

(** A result none of whose fields holds a pipe. *)
Definition pipeFree (r : GroqTranslationResult) : Prop :=
  (pipe ∉ translation r) /\ (pipe ∉ definition r)
  /\ (pipe ∉ exampleSource r) /\ (pipe ∉ exampleTarget r).

(* ===================================================================== *)
(** ** The Anki sync: which lines become notes                            *)
(* ===================================================================== *)

Definition isDataRow (line : jsstring) : bool :=
  let trimmedLine := trim line in
  startsWith trimmedLine [pipe] && negb (includes trimmedLine (js "---"))
  && (10 <? length trimmedLine)%nat.

(** [parseTableRow(line)]; [None] is [null]. *)
Definition parseTableRow (line : jsstring) : option (list jsstring) :=
  let trimmedLine := trim line in
  if includes trimmedLine (js "---") then None
  else
    let cells := trim <$> splitOn pipe trimmedLine in
    Some (sliceInner cells).

Definition isValidFront (front : jsstring) : bool :=
  if falsy front then false
  else
    let f := trim front in
    if falsy f then false
    else if includes f (js "---") then false
    else if isDigits f then false
    else true.

(** [cells[i]] for a number [i] of the settings: [undefined] below zero and
    from the length on. *)
Definition cellAt (cells : list jsstring) (i : Z) : option jsstring :=
  if i <? 0 then None else cells !! Z.to_nat i.

(** One turn of the loop of [syncWithAnki] over the lines, with [dryRun]
    off: the arguments of the call of [updateOrAddNote] that the line leads
    to, if it leads to one.  An [undefined] front is falsy, hence not valid. *)
Definition noteOfLine (frontColumn : Z) (line : jsstring)
  : option (jsstring * jsstring * jsstring * jsstring * jsstring) :=
  if negb (isDataRow line) then None
  else
    match parseTableRow line with
    | None => None
    | Some cells =>
        if Z.of_nat (length cells) >=? frontColumn then
          match cellAt cells (frontColumn - 1) with
          | None => None
          | Some frontValue =>
              let validFront := isValidFront frontValue in
              if truthy frontValue && validFront then
                Some (trim frontValue,
                      orElse (default [] (cells !! 2%nat)) [],
                      orElse (default [] (cells !! 3%nat)) [],
                      orElse (default [] (cells !! 4%nat)) [],
                      orElse (default [] (cells !! 5%nat)) [])
              else None
          end
        else None
    end.

(* ===================================================================== *)
(** ** Numbering the rows of the tables                                   *)
(* ===================================================================== *)

(** The two local tests of [renumberTable]. *)
Definition isTableLine (line : jsstring) : bool :=
  startsWith (trim line) [pipe].

Definition isSeparatorLine (line : jsstring) : bool :=
  let trimmed := trim line in
  if negb (startsWith trimmed [pipe]) then false
  else
    let cells := trim <$> sliceInner (splitOn pipe trimmed) in
    if bool_decide (length cells = 0%nat) then false
    else forallb (fun c => (0 <? length c)%nat && isSeparatorCell c) cells.

(** [row.trim().split('|').map(c => c.trim()).slice(1, -1)] *)
Definition rowCells (row : jsstring) : list jsstring :=
  sliceInner (trim <$> splitOn pipe (trim row)).

(** The row that is pushed for [cells], once [cells[0]] is the number. *)
Definition numberedRow (rowNumber : Z) (cells : list jsstring) : jsstring :=
  js "| " ++ join (js " | ") (<[0%nat := showZ rowNumber]> cells) ++ js " |".

(** The loops of [renumberTable] over the lines that are left.  With
    [rowNumber = None] the next turn is one of the outer loop; with
    [Some n] it is one of the inner loop, over the rows of a table whose
    header and separator have been pushed, and the next number is [n].
    The result is what is pushed onto [newLines], and [totalRenumbered]. *)
Fixpoint renumberFrom (lines : list jsstring) (rowNumber : option Z)
    (totalRenumbered : Z) : list jsstring * Z :=
  match lines with
  | [] => ([], totalRenumbered)
  | line :: rest =>
      let outerTurn :=
        match rest with
        | next :: rest' =>
            if isTableLine line && isTableLine next && isSeparatorLine next then
              let after := renumberFrom rest' (Some 1) totalRenumbered in
              (line :: next :: after.1, after.2)
            else
              let after := renumberFrom rest None totalRenumbered in
              (line :: after.1, after.2)
        | [] =>
            (* [next] is the empty string, and no line is left after it *)
            let next := [] in
            if isTableLine line && isTableLine next && isSeparatorLine next then
              ([line; next], totalRenumbered)
            else ([line], totalRenumbered)
        end in
      match rowNumber with
      | Some n =>
          if isTableLine line then
            if isSeparatorLine line then
              let after := renumberFrom rest (Some n) totalRenumbered in
              (line :: after.1, after.2)
            else
              let cells := rowCells line in
              if (6 <=? length cells)%nat then
                let after := renumberFrom rest (Some (n + 1)) (totalRenumbered + 1) in
                (numberedRow n cells :: after.1, after.2)
              else
                let after := renumberFrom rest (Some n) totalRenumbered in
                (line :: after.1, after.2)
          else outerTurn
      | None => outerTurn
      end
  end.

(** A row of the body of a table that [renumberTable] numbers. *)
Definition numberedKind (row : jsstring) : Prop :=
  isTableLine row = true /\ isSeparatorLine row = false
  /\ (6 <= length (rowCells row))%nat.

(** A cell as [renumberTable] reads it: trimmed, with no pipe in it. *)
Definition tidy (cell : jsstring) : Prop := trim cell = cell /\ (pipe ∉ cell).

(* ===================================================================== *)
(** * Properties                                                          *)
(* ===================================================================== *)

(** ** CircuitBreaker *)

Section CircuitBreakerFacts.
Import CircuitBreaker.

Lemma cb_inv_create n : cb_inv (create n).
Proof. split; simpl; [lia | congruence]. Qed.

Lemma cb_inv_step cb cb' : cb_inv cb -> step cb cb' -> cb_inv cb'.
Proof.
  intros [Hnn Hopen] Hstep. destruct Hstep as [now cb cb' He | cb | now cb].
  - unfold enter in He. destruct (state cb) eqn:Hs.
    + inversion He; subst. split; [done | congruence].
    + destruct (now - lastFailureTime cb >? resetTimeout); inversion He; subst.
      split; simpl; [done | intros _; apply Hopen; congruence].
    + inversion He; subst. split; [done | intros _; apply Hopen; congruence].
  - split; simpl; [lia | congruence].
  - unfold onFailure; split; simpl; [lia |].
    destruct (failureCount cb + 1 >=? failureThreshold) eqn:Hge; [lia |].
    intros Hne. specialize (Hopen Hne). lia.
Qed.

Lemma cb_reachable_inv n cb : reachable n cb -> cb_inv cb.
Proof. induction 1; eauto using cb_inv_create, cb_inv_step. Qed.

Lemma cb_execute_reachable {W A} n (clock : W -> Z) (op : W -> Result A * W)
    cb w :
  reachable n cb -> reachable n (execute clock op cb w).1.2.
Proof.
  intros Hr. unfold execute.
  destruct (enter (clock w) cb) as [cb1 | e |] eqn:He; [| done | done].
  assert (reachable n cb1) by (eapply reach_step; [done | by eapply step_enter]).
  destruct (op w) as [[v | e |] w']; simpl.
  - eapply reach_step; [done | apply step_success].
  - eapply reach_step; [done | apply step_failure].
  - done.
Qed.

(** A failed call leaves a breaker that is open or has counted one more
    failure. *)
Lemma cb_execute_throw {W A} (clock : W -> Z) (op : W -> Result A * W)
    cb w e cb' w' :
  cb_inv cb ->
  execute clock op cb w = (Throw e, cb', w') ->
  cb_inv cb' /\
  (state cb' = OPEN \/
   (failureCount cb' = failureCount cb + 1 /\ failureCount cb' < failureThreshold)).
Proof.
  intros Hinv Hex. unfold execute in Hex.
  destruct (enter (clock w) cb) as [cb1 | e1 |] eqn:He; [| | discriminate].
  - assert (Hinv1 : cb_inv cb1) by (eapply cb_inv_step; [done | by eapply step_enter]).
    assert (Hfc : failureCount cb1 = failureCount cb).
    { unfold enter in He. destruct (state cb); try (inversion He; subst; done).
      destruct (_ >? _); inversion He; subst; done. }
    destruct (op w) as [[v | e2 |] w2]; inversion Hex; subst.
    split; [eapply cb_inv_step; [done | apply step_failure] |].
    unfold onFailure; simpl.
    destruct (failureCount cb1 + 1 >=? failureThreshold) eqn:Hge; [by left |].
    right. lia.
  - inversion Hex; subst. split; [done |]. left.
    unfold enter in He. destruct (state cb') eqn:Hs; try discriminate. done.
Qed.

End CircuitBreakerFacts.

(** C2, as the code has it.  For a breaker in any reachable state: three
    failed calls in a row leave it open; an open breaker whose last failure
    is at most 30000 ms old rejects the call without running the operation
    (the world comes back untouched); an open breaker whose last failure is
    more than 30000 ms old becomes half-open and runs the operation; and a
    call that succeeds leaves failureCount = 0 and the state closed. *)
Theorem C2_circuit_breaker {W A : Type} (n : list N) (clock : W -> Z)
    (op1 op2 op3 : W -> Result A * W) (cb : CircuitBreaker.t) (w : W) :
  CircuitBreaker.reachable n cb ->
  (* three consecutive failures *)
  (forall e1 cb1 w1 e2 cb2 w2 e3 cb3 w3,
      CircuitBreaker.execute clock op1 cb w = (Throw e1, cb1, w1) ->
      CircuitBreaker.execute clock op2 cb1 w1 = (Throw e2, cb2, w2) ->
      CircuitBreaker.execute clock op3 cb2 w2 = (Throw e3, cb3, w3) ->
      CircuitBreaker.state cb3 = CircuitBreaker.OPEN) /\
  (* open and still cooling down *)
  (CircuitBreaker.state cb = CircuitBreaker.OPEN ->
   clock w - CircuitBreaker.lastFailureTime cb <= 30000 ->
   CircuitBreaker.execute clock op1 cb w
   = (Throw (CircuitBreaker.openError cb), cb, w)) /\
  (* open and cooled down *)
  (CircuitBreaker.state cb = CircuitBreaker.OPEN ->
   clock w - CircuitBreaker.lastFailureTime cb > 30000 ->
   exists half,
     CircuitBreaker.enter (clock w) cb = Return half /\
     CircuitBreaker.state half = CircuitBreaker.HALF_OPEN /\
     CircuitBreaker.execute clock op1 cb w
     = match op1 w with
       | (Return v, w') => (Return v, CircuitBreaker.onSuccess half, w')
       | (Throw e, w') =>
           (Throw e, CircuitBreaker.onFailure (clock w') half, w')
       | (Diverge, w') => (Diverge, half, w')
       end) /\
  (* any success *)
  (forall v cb' w',
      CircuitBreaker.execute clock op1 cb w = (Return v, cb', w') ->
      CircuitBreaker.failureCount cb' = 0 /\
      CircuitBreaker.state cb' = CircuitBreaker.CLOSED).
Proof.
  intros Hr. pose proof (cb_reachable_inv _ _ Hr) as Hinv.
  split; [| split; [| split]].
  - intros e1 cb1 w1 e2 cb2 w2 e3 cb3 w3 H1 H2 H3.
    destruct (cb_execute_throw _ _ _ _ _ _ _ Hinv H1) as [Hi1 F1].
    destruct (cb_execute_throw _ _ _ _ _ _ _ Hi1 H2) as [Hi2 F2].
    destruct (cb_execute_throw _ _ _ _ _ _ _ Hi2 H3) as [Hi3 F3].
    destruct Hinv as [Hnn _], Hi1 as [_ Hi1], Hi2 as [_ Hi2].
    unfold CircuitBreaker.failureThreshold in *.
    destruct F3 as [? | [Hc3 Hlt3]]; [done |].
    assert (Hn2 : CircuitBreaker.state cb2 <> CircuitBreaker.OPEN).
    { intros Ho. assert (3 <= CircuitBreaker.failureCount cb2)
        by (apply Hi2; congruence). lia. }
    destruct F2 as [? | [Hc2 Hlt2]]; [done |].
    assert (Hn1 : CircuitBreaker.state cb1 <> CircuitBreaker.OPEN).
    { intros Ho. assert (3 <= CircuitBreaker.failureCount cb1)
        by (apply Hi1; congruence). lia. }
    destruct F1 as [? | [Hc1 Hlt1]]; [done |]. lia.
  - intros Hs Hel. unfold CircuitBreaker.execute, CircuitBreaker.enter.
    rewrite Hs. unfold CircuitBreaker.resetTimeout.
    destruct (Z.gtb_spec (clock w - CircuitBreaker.lastFailureTime cb) 30000);
      [lia | done].
  - intros Hs Hel.
    exists (CircuitBreaker.mk (CircuitBreaker.name cb) (CircuitBreaker.failureCount cb)
              (CircuitBreaker.lastFailureTime cb) CircuitBreaker.HALF_OPEN).
    unfold CircuitBreaker.execute, CircuitBreaker.enter.
    rewrite Hs. unfold CircuitBreaker.resetTimeout.
    destruct (Z.gtb_spec (clock w - CircuitBreaker.lastFailureTime cb) 30000);
      [| lia].
    split; [done |]. split; [done |].
    destruct (op1 w) as [[v | e |] w']; done.
  - intros v cb' w' Hex. unfold CircuitBreaker.execute in Hex.
    destruct (CircuitBreaker.enter (clock w) cb); [| discriminate | discriminate].
    destruct (op1 w) as [[v0 | e0 |] w0]; inversion Hex; subst; done.
Qed.

Lemma openedBreaker_reachable :
  CircuitBreaker.reachable (js "TranslationService") openedBreaker.
Proof.
  pose (c0 := CircuitBreaker.create (js "TranslationService")).
  change openedBreaker with
    (CircuitBreaker.onFailure 3 (CircuitBreaker.onFailure 2 (CircuitBreaker.onFailure 1 c0))).
  repeat (eapply CircuitBreaker.reach_step; [| apply CircuitBreaker.step_failure]).
  apply CircuitBreaker.reach_create.
Qed.

Lemma C2_circuit_breaker_witness :
  CircuitBreaker.reachable (js "TranslationService")
    (CircuitBreaker.create (js "TranslationService")) /\
  (CircuitBreaker.execute id failingOp
     (CircuitBreaker.execute id failingOp
        (CircuitBreaker.execute id failingOp
           (CircuitBreaker.create (js "TranslationService")) 0).1.2 1).1.2 2).1.2
  = openedBreaker /\
  CircuitBreaker.execute id countingOp openedBreaker 30003
  = (Throw (CircuitBreaker.openError openedBreaker), openedBreaker, 30003) /\
  (CircuitBreaker.execute id countingOp openedBreaker 30004).1.2
  = CircuitBreaker.mk (js "TranslationService") 0 3 CircuitBreaker.CLOSED.
Proof.
  split; [apply CircuitBreaker.reach_create |].
  split; [reflexivity |].
  split.
  - apply (C2_circuit_breaker (js "TranslationService") id countingOp countingOp
             countingOp openedBreaker 30003 openedBreaker_reachable);
      [reflexivity | simpl; lia].
  - destruct (C2_circuit_breaker (js "TranslationService") id countingOp countingOp
                countingOp openedBreaker 30004 openedBreaker_reachable)
      as (_ & _ & _ & Hok).
    reflexivity.
Defined.

(** C2 as the claim words it fails at the boundary: with exactly 30000 ms
    elapsed since the last failure the open breaker still rejects the call,
    does not become half-open and does not run the operation. *)
Lemma C2_counterexample :
  CircuitBreaker.state openedBreaker = CircuitBreaker.OPEN /\
  30003 - CircuitBreaker.lastFailureTime openedBreaker >= 30000 /\
  CircuitBreaker.execute id countingOp openedBreaker 30003
  = (Throw (CircuitBreaker.openError openedBreaker), openedBreaker, 30003).
Proof. repeat split; vm_compute; congruence. Qed.

(** C10.  In every reachable half-open state the failure count is at or
    above the threshold of 3, so one failure of the probe puts the breaker
    straight back to open. *)
Theorem C10_half_open_keeps_count (n : list N) (cb : CircuitBreaker.t) (now : Z) :
  CircuitBreaker.reachable n cb ->
  CircuitBreaker.state cb = CircuitBreaker.HALF_OPEN ->
  CircuitBreaker.failureThreshold <= CircuitBreaker.failureCount cb /\
  CircuitBreaker.state (CircuitBreaker.onFailure now cb) = CircuitBreaker.OPEN.
Proof.
  intros Hr Hs. destruct (cb_reachable_inv _ _ Hr) as [_ Hopen].
  assert (Hge : CircuitBreaker.failureThreshold <= CircuitBreaker.failureCount cb)
    by (apply Hopen; congruence).
  split; [done |]. unfold CircuitBreaker.onFailure; simpl.
  destruct (Z.geb_spec (CircuitBreaker.failureCount cb + 1)
              CircuitBreaker.failureThreshold); [done | lia].
Qed.

Lemma C10_half_open_keeps_count_witness :
  CircuitBreaker.reachable (js "TranslationService") halfOpenBreaker /\
  CircuitBreaker.state halfOpenBreaker = CircuitBreaker.HALF_OPEN /\
  3 <= CircuitBreaker.failureCount halfOpenBreaker /\
  CircuitBreaker.state (CircuitBreaker.onFailure 30005 halfOpenBreaker)
  = CircuitBreaker.OPEN.
Proof.
  assert (Hr : CircuitBreaker.reachable (js "TranslationService") halfOpenBreaker).
  { eapply CircuitBreaker.reach_step; [apply openedBreaker_reachable |].
    apply (CircuitBreaker.step_enter 30004). reflexivity. }
  split; [exact Hr |]. split; [reflexivity |].
  exact (C10_half_open_keeps_count (js "TranslationService") halfOpenBreaker
           30005 Hr eq_refl).
Defined.

(** ** AdaptiveBatchController *)

Ltac bool_to_Z :=
  repeat match goal with
    | H : (_ && _) = true |- _ => apply andb_true_iff in H; destruct H
    | H : (_ && _) = false |- _ => apply andb_false_iff in H; destruct H
    | H : (_ >=? _) = true |- _ => apply Z.geb_le in H
    | H : (_ >=? _) = false |- _ => rewrite Z.geb_leb in H; apply Z.leb_gt in H
    | H : (_ >? _) = true |- _ => rewrite Z.gtb_ltb in H; apply Z.ltb_lt in H
    | H : (_ >? _) = false |- _ => rewrite Z.gtb_ltb in H; apply Z.ltb_ge in H
    | H : (_ <? _) = true |- _ => apply Z.ltb_lt in H
    | H : (_ <? _) = false |- _ => apply Z.ltb_ge in H
    | H : (_ <=? _) = true |- _ => apply Z.leb_le in H
    | H : (_ <=? _) = false |- _ => apply Z.leb_gt in H
    | H : (_ =? _) = true |- _ => apply Z.eqb_eq in H
    | H : (_ =? _) = false |- _ => apply Z.eqb_neq in H
    end.

Ltac split_ifs :=
  repeat match goal with
    | |- context [if ?b then _ else _] => destruct b eqn:?; simpl
    end.

Section AdaptiveFacts.
Import AdaptiveBatchController.

Lemma abc_inv_reachable s0 c :
  1 <= s0 <= 20 -> reachable s0 20 c -> abc_inv c.
Proof.
  intros Hs0 Hr. induction Hr as [| c Hr IH | c Hr IH | c Hr IH].
  - unfold abc_inv; simpl. lia.
  - destruct c; unfold abc_inv, onSuccess in *; simpl in *.
    destruct IH as (-> & -> & -> & ? & ? & ? & ? & ?).
    split_ifs; bool_to_Z; lia.
  - destruct c; unfold abc_inv, onFailure, floorSeventy in *; simpl in *.
    destruct IH as (-> & -> & -> & ? & ? & ? & ? & ?).
    split_ifs; bool_to_Z; repeat split; try lia;
      Z.div_mod_to_equations; lia.
  - destruct c; unfold abc_inv, reset in *; simpl in *. lia.
Qed.

Lemma onSuccess_cases c :
  windowSize c = 5 -> maxBatchSize c = 20 ->
  windowSize (onSuccess c) = 5 /\ maxBatchSize (onSuccess c) = 20 /\
  ((5 <= recentSuccesses c + 1 /\ currentBatchSize c < 20 /\
    currentBatchSize (onSuccess c) = currentBatchSize c + 1 /\
    recentSuccesses (onSuccess c) = 0) \/
   ((recentSuccesses c + 1 < 5 \/ 20 <= currentBatchSize c) /\
    currentBatchSize (onSuccess c) = currentBatchSize c /\
    recentSuccesses (onSuccess c) = recentSuccesses c + 1)).
Proof.
  intros Hw Hm. unfold onSuccess. rewrite Hw, Hm.
  destruct (_ && _) eqn:Hb; simpl; bool_to_Z; (split; [done |]);
    (split; [done |]); lia.
Qed.

Lemma onFailure_cases c :
  minBatchSize c = 1 ->
  minBatchSize (onFailure c) = 1 /\
  recentSuccesses (onFailure c) = 0 /\
  ((2 <= recentFailures c + 1 /\ 1 < currentBatchSize c /\
    currentBatchSize (onFailure c) = Z.max (floorSeventy (currentBatchSize c)) 1 /\
    recentFailures (onFailure c) = 0) \/
   ((recentFailures c + 1 < 2 \/ currentBatchSize c <= 1) /\
    currentBatchSize (onFailure c) = currentBatchSize c /\
    recentFailures (onFailure c) = recentFailures c + 1)).
Proof.
  intros Hm. unfold onFailure. rewrite Hm.
  destruct (_ && _) eqn:Hb; simpl; bool_to_Z; (split; [done |]);
    (split; [done |]); lia.
Qed.

End AdaptiveFacts.

(** C8.  For a controller created with a size in [1,20] and the cap 20, in
    any state it can reach: the size stays in [1,20]; five onSuccess calls in
    a row raise the size by exactly 1, or leave it at the cap 20; two
    onFailure calls in a row bring it to floor(size * 0.7), or to 1 where
    that would be 0; and onFailure zeroes the success counter. *)
Theorem C8_adaptive_batch (initialSize : Z) (c : AdaptiveBatchController.t) :
  1 <= initialSize <= 20 ->
  AdaptiveBatchController.reachable initialSize 20 c ->
  let size := AdaptiveBatchController.currentBatchSize c in
  let five :=
    AdaptiveBatchController.onSuccess (AdaptiveBatchController.onSuccess
      (AdaptiveBatchController.onSuccess (AdaptiveBatchController.onSuccess
        (AdaptiveBatchController.onSuccess c)))) in
  let two := AdaptiveBatchController.onFailure (AdaptiveBatchController.onFailure c) in
  1 <= size <= 20 /\
  (size < 20 -> AdaptiveBatchController.currentBatchSize five = size + 1) /\
  (size = 20 -> AdaptiveBatchController.currentBatchSize five = 20) /\
  AdaptiveBatchController.currentBatchSize two
  = Z.max (AdaptiveBatchController.floorSeventy size) 1 /\
  (2 <= size -> AdaptiveBatchController.currentBatchSize two
                = AdaptiveBatchController.floorSeventy size) /\
  1 <= AdaptiveBatchController.currentBatchSize two /\
  AdaptiveBatchController.recentSuccesses (AdaptiveBatchController.onFailure c) = 0.
Proof.
  intros Hs0 Hr size five two.
  destruct (abc_inv_reachable _ _ Hs0 Hr)
    as (Hw & Hmn & Hmx & Hsize & Hbl & Hrs & Hrs4 & Hrf).
  fold size in Hsize, Hrs4.
  destruct (onSuccess_cases c Hw Hmx) as (Hw1 & Hmx1 & S1).
  destruct (onSuccess_cases _ Hw1 Hmx1) as (Hw2 & Hmx2 & S2).
  destruct (onSuccess_cases _ Hw2 Hmx2) as (Hw3 & Hmx3 & S3).
  destruct (onSuccess_cases _ Hw3 Hmx3) as (Hw4 & Hmx4 & S4).
  destruct (onSuccess_cases _ Hw4 Hmx4) as (_ & _ & S5).
  destruct (onFailure_cases c Hmn) as (Hmn1 & Hz & F1).
  destruct (onFailure_cases _ Hmn1) as (_ & _ & F2).
  fold five in S5. fold two in F2. fold size in S1, F1.
  assert (Hfl : size < 2 \/ 1 <= AdaptiveBatchController.floorSeventy size < size).
  { unfold AdaptiveBatchController.floorSeventy.
    Z.div_mod_to_equations. lia. }
  assert (Hfl1 : AdaptiveBatchController.floorSeventy 1 = 0) by reflexivity.
  set (f := AdaptiveBatchController.floorSeventy) in *.
  assert (Hsz1 : size = 1 -> f size = 0) by (intros ->; done).
  split; [lia |]. split; [lia |]. split; [lia |].
  split; [| split; [| split; [| done]]].
  - destruct F1 as [(? & ? & E1 & ?) | (? & E1 & ?)];
      destruct F2 as [(? & ? & E2 & ?) | (? & E2 & ?)]; rewrite E2, ?E1 in *; try lia.
  - intros H2.
    destruct F1 as [(? & ? & E1 & ?) | (? & E1 & ?)];
      destruct F2 as [(? & ? & E2 & ?) | (? & E2 & ?)]; rewrite E2, ?E1 in *; try lia.
  - destruct F1 as [(? & ? & E1 & ?) | (? & E1 & ?)];
      destruct F2 as [(? & ? & E2 & ?) | (? & E2 & ?)]; rewrite E2, ?E1 in *; try lia.
Qed.

Lemma C8_adaptive_batch_witness :
  let c := AdaptiveBatchController.onSuccess
             (AdaptiveBatchController.onSuccess
                (AdaptiveBatchController.create 8 20)) in
  AdaptiveBatchController.currentBatchSize
    (AdaptiveBatchController.onSuccess (AdaptiveBatchController.onSuccess
      (AdaptiveBatchController.onSuccess (AdaptiveBatchController.onSuccess
        (AdaptiveBatchController.onSuccess c))))) = 9 /\
  AdaptiveBatchController.currentBatchSize
    (AdaptiveBatchController.onFailure (AdaptiveBatchController.onFailure c)) = 5.
Proof.
  intros c.
  assert (Hr : AdaptiveBatchController.reachable 8 20 c)
    by (do 2 apply AdaptiveBatchController.reach_success;
        apply AdaptiveBatchController.reach_create).
  destruct (C8_adaptive_batch 8 c ltac:(lia) Hr) as (_ & H5 & _ & _ & H2 & _).
  split; [apply H5; vm_compute; reflexivity | apply H2; vm_compute; congruence].
Defined.

(** ** AdvancedRateLimiter *)

Section RateLimiterFacts.
Import AdvancedRateLimiter.
Context {W : Type} (clock : W -> Z) (delay : Z -> W -> W)
        (getMaxRequests : W -> Z).

(** One round of [acquireSlot], read off the code: purge, then either
    sleep [windowMs - (now - oldest) + 100] and go round again, or record
    [now]. *)
Lemma acquireSlot_round fuel rl w :
  acquireSlot clock delay getMaxRequests (S fuel) rl w
  = let now := clock w in
    let rl1 := cleanupOldRequests now rl in
    if Z.of_nat (length (requests rl1)) >=? getMaxRequests w
    then acquireSlot clock delay getMaxRequests fuel rl1
           (delay (calculateWaitTime now rl1 + 100) w)
    else Some (mk (requests rl1 ++ [now]), w).
Proof. reflexivity. Qed.

Lemma cleanup_within now rl :
  Forall (fun time => now - time < windowMs) (requests (cleanupOldRequests now rl)).
Proof.
  unfold cleanupOldRequests; simpl. apply Forall_forall.
  intros x Hx. apply list_elem_of_filter in Hx. tauto.
Qed.

Lemma cleanup_length now rl :
  (length (requests (cleanupOldRequests now rl)) <= length (requests rl))%nat.
Proof. unfold cleanupOldRequests; simpl. apply length_filter. Qed.

Lemma cleanup_drops_head now oldest rest :
  windowMs <= now - oldest ->
  (length (requests (cleanupOldRequests now (mk (oldest :: rest))))
   <= length rest)%nat.
Proof.
  intros Hold. unfold cleanupOldRequests; simpl.
  rewrite filter_cons_False by lia. apply length_filter.
Qed.

Hypothesis delay_sleeps : forall ms w, clock w + ms <= clock (delay ms w).
Hypothesis max_stable : forall ms w, getMaxRequests (delay ms w) = getMaxRequests w.

(** With a ceiling of at least one request, [acquireSlot] returns: each
    round that has to wait outlives the oldest timestamp it was waiting
    for.  The slot is recorded at the time of the world it returns, which
    is no earlier than the call. *)
Lemma acquireSlot_returns fuel rl w :
  1 <= getMaxRequests w ->
  (length (requests (cleanupOldRequests (clock w) rl)) < fuel)%nat ->
  exists rl' w',
    acquireSlot clock delay getMaxRequests fuel rl w = Some (rl', w') /\
    clock w <= clock w' /\
    last (requests rl') = Some (clock w') /\
    Forall (fun time => clock w' - time < windowMs) (requests rl') /\
    (Z.of_nat (length (requests (cleanupOldRequests (clock w) rl)))
     >= getMaxRequests w ->
     forall oldest,
       head (requests (cleanupOldRequests (clock w) rl)) = Some oldest ->
       oldest + windowMs + safetyMarginMs <= clock w').
Proof.
  revert rl w. induction fuel as [| fuel IH]; intros rl w Hmax Hlen; [lia |].
  rewrite acquireSlot_round. cbv zeta.
  set (now := clock w). set (rl1 := cleanupOldRequests now rl).
  fold now rl1 in Hlen.
  destruct (Z.geb_spec (Z.of_nat (length (requests rl1))) (getMaxRequests w))
    as [Hfull | Hfree].
  - destruct (requests rl1) as [| oldest rest] eqn:Hreq; [simpl in Hfull; lia |].
    pose proof (cleanup_within now rl) as Hwithin. fold rl1 in Hwithin.
    rewrite Hreq in Hwithin. apply Forall_cons in Hwithin as [Hold _].
    unfold calculateWaitTime. rewrite Hreq.
    set (w1 := delay (windowMs - (now - oldest) + 100) w).
    assert (Hw1 : oldest + windowMs + 100 <= clock w1).
    { unfold w1. pose proof (delay_sleeps (windowMs - (now - oldest) + 100) w).
      fold now in H. lia. }
    assert (Hrl1 : rl1 = mk (oldest :: rest)) by (destruct rl1; simpl in *; congruence).
    destruct (IH rl1 w1) as (rl' & w' & Hrun & Hclk & Hlast & Hall & _).
    + unfold w1. rewrite max_stable. done.
    + rewrite Hrl1. eapply Nat.le_lt_trans; [apply cleanup_drops_head; lia |].
      simpl in Hlen. lia.
    + exists rl', w'. split; [done |]. unfold windowMs in *.
      split; [lia |]. split; [done |]. split; [done |].
      intros _ o Ho. simpl in Ho. inversion Ho; subst.
      unfold safetyMarginMs. lia.
  - exists (mk (requests rl1 ++ [now])), w.
    split; [done |]. split; [lia |]. split; [simpl; apply last_snoc |].
    split.
    + simpl. apply Forall_app. split; [apply cleanup_within |].
      apply Forall_singleton. fold now. unfold windowMs. lia.
    + intros Hge. lia.
Qed.

End RateLimiterFacts.

(** C9.  With a ceiling N >= 1 that does not change while the limiter
    sleeps, and a delay that sleeps at least as long as asked:
    [acquireSlot] first purges the timestamps that are 60000 ms old or older;
    if N or more remain it sleeps 60000 - (now - oldest) + 100 ms and starts
    over, otherwise it records [now] and returns.  When it had to wait, it
    does return, and the timestamp it records lies at least 60100 ms after
    the oldest one it found: that one has left the window. *)
Theorem C9_rate_limiter {W : Type} (clock : W -> Z) (delay : Z -> W -> W)
    (getMaxRequests : W -> Z) (rl : AdvancedRateLimiter.t) (w : W) (fuel : nat) :
  (forall ms w, clock w + ms <= clock (delay ms w)) ->
  (forall ms w, getMaxRequests (delay ms w) = getMaxRequests w) ->
  1 <= getMaxRequests w ->
  (length (AdvancedRateLimiter.requests rl) < S fuel)%nat ->
  let now := clock w in
  let purged := AdvancedRateLimiter.cleanupOldRequests now rl in
  let full :=
    Z.of_nat (length (AdvancedRateLimiter.requests purged)) >=? getMaxRequests w in
  (* the round *)
  AdvancedRateLimiter.acquireSlot clock delay getMaxRequests (S fuel) rl w
  = (if full
     then AdvancedRateLimiter.acquireSlot clock delay getMaxRequests fuel purged
            (delay (match AdvancedRateLimiter.requests purged with
                    | [] => 0
                    | oldest :: _ => 60000 - (now - oldest)
                    end + 100) w)
     else Some (AdvancedRateLimiter.mk
                  (AdvancedRateLimiter.requests purged ++ [now]), w)) /\
  AdvancedRateLimiter.requests purged
  = filter (fun time => now - time < 60000) (AdvancedRateLimiter.requests rl) /\
  (* the outcome *)
  exists rl' w',
    AdvancedRateLimiter.acquireSlot clock delay getMaxRequests (S fuel) rl w
    = Some (rl', w') /\
    last (AdvancedRateLimiter.requests rl') = Some (clock w') /\
    (full = false -> w' = w) /\
    (full = true ->
     forall oldest,
       head (AdvancedRateLimiter.requests purged) = Some oldest ->
       oldest + 60100 <= clock w' /\
       oldest ∉ AdvancedRateLimiter.requests rl').
Proof.
  intros Hdelay Hstable Hmax Hlen now purged full.
  split; [reflexivity |]. split; [reflexivity |].
  destruct (acquireSlot_returns clock delay getMaxRequests Hdelay Hstable
              (S fuel) rl w Hmax) as (rl' & w' & Hrun & Hclk & Hlast & Hall & Hold).
  { eapply Nat.le_lt_trans; [apply cleanup_length | done]. }
  exists rl', w'. split; [done |]. split; [done |]. split.
  - intros Hfree. rewrite acquireSlot_round in Hrun. cbv zeta in Hrun.
    fold now purged full in Hrun. rewrite Hfree in Hrun. congruence.
  - intros Hfull oldest Hhead. fold now purged in Hold.
    assert (Hge : oldest + 60100 <= clock w').
    { unfold full in Hfull. apply Z.geb_le in Hfull.
      specialize (Hold ltac:(lia) oldest Hhead).
      unfold AdvancedRateLimiter.windowMs, AdvancedRateLimiter.safetyMarginMs in Hold.
      lia. }
    split; [done |]. intros Hin.
    rewrite Forall_forall in Hall. specialize (Hall _ Hin).
    unfold AdvancedRateLimiter.windowMs in Hall. lia.
Qed.

(** Three slots taken at time 0 under a ceiling of 3; the fourth call, at
    time 5, sleeps 60095 ms and records its slot at 60100. *)
Lemma C9_rate_limiter_witness :
  AdvancedRateLimiter.acquireSlot id (fun ms w => w + ms) (fun _ => 3) 4
    (AdvancedRateLimiter.mk [0; 0; 0]) 5
  = Some (AdvancedRateLimiter.mk [60100], 60100) /\
  exists rl' w',
    AdvancedRateLimiter.acquireSlot id (fun ms w => w + ms) (fun _ => 3) 4
      (AdvancedRateLimiter.mk [0; 0; 0]) 5 = Some (rl', w') /\
    0 + 60100 <= w'.
Proof.
  split; [reflexivity |].
  destruct (C9_rate_limiter id (fun ms w => w + ms) (fun _ => 3)
              (AdvancedRateLimiter.mk [0; 0; 0]) 5 3)
    as (_ & _ & rl' & w' & Hrun & _ & _ & Hfull).
  - intros ms w. unfold id. lia.
  - reflexivity.
  - lia.
  - simpl. lia.
  - exists rl', w'. split; [exact Hrun |].
    apply (Hfull eq_refl 0). reflexivity.
Defined.
(** ** The result cache *)

(** C7.  A lookup of a word whose lower-cased form names a property of
    [Object.prototype] does not miss when the store has no entry for it:
    [cacheStore[key]] then is the inherited member, which is truthy and has
    neither [ts] nor [data], and [isEmptyTranslation(undefined)] throws a
    [TypeError].  So it is for [constructor], however it is capitalised, and
    for [__proto__]; a word such as [world] misses. *)
Theorem C7_inherited_key_lookup :
  Cache.getCachedResult (Some 24) 0 ∅ (js "constructor")
  = (Throw Cache.undefinedResult, ∅) /\
  Cache.getCachedResult (Some 24) 0 ∅ (js "Constructor")
  = (Throw Cache.undefinedResult, ∅) /\
  Cache.getCachedResult (Some 24) 0 ∅ (js "__proto__")
  = (Throw Cache.undefinedResult, ∅) /\
  Cache.getCachedResult (Some 24) 0 ∅ (js "world") = (Return None, ∅).
Proof. repeat split; vm_compute; reflexivity. Qed.

(** Apart from such names, [getCachedResult] looks [word] up under its
    lower-cased form.  It misses when the store has nothing under the key,
    own or inherited; when its own entry is older than cacheTTLHours *
    3600000 ms, and then the entry is gone from the store; and when the
    stored result is the all-empty one.  Otherwise it returns the stored
    result.  Only the expired case changes the store. *)
Lemma getCachedResult_cases (cacheTTLHours : option Z) (now : Z)
    (cacheStore : Cache.Store) (word : list N) :
  let key := toLowerCase word in
  let ttl := default 24 cacheTTLHours * 3600000 in
  let answer := Cache.getCachedResult cacheTTLHours now cacheStore word in
  (Cache.own cacheStore !! key = None ->
   Cache.inherited (Cache.proto cacheStore) key = Cache.NotFound ->
   answer = (Return None, cacheStore)) /\
  (forall entry,
      Cache.own cacheStore !! key = Some entry ->
      (now - Cache.ts entry > ttl ->
       answer = (Return None, Cache.remove cacheStore key) /\
       Cache.own answer.2 !! key = None) /\
      (now - Cache.ts entry <= ttl ->
       isEmptyTranslation (Cache.data entry) = true ->
       answer = (Return None, cacheStore)) /\
      (now - Cache.ts entry <= ttl ->
       isEmptyTranslation (Cache.data entry) = false ->
       answer = (Return (Some (Cache.data entry)), cacheStore))).
Proof.
  intros key ttl answer. subst answer. unfold Cache.getCachedResult, Cache.get.
  fold key. unfold Cache.ttlMs. fold ttl.
  split; [intros -> ->; done |].
  intros entry ->. split; [| split].
  - intros Hexp. destruct (Z.gtb_spec (now - Cache.ts entry) ttl); [| lia].
    split; [done |]. simpl. apply lookup_delete_eq.
  - intros Hfresh ->. destruct (Z.gtb_spec (now - Cache.ts entry) ttl); [lia | done].
  - intros Hfresh ->. destruct (Z.gtb_spec (now - Cache.ts entry) ttl); [lia | done].
Qed.

(** ** The failover client *)

(** *** Running the monad *)

Lemma run_bind {A B} (m : M A) (k : A -> M B) s :
  bind m k s = match m s with
               | (Return a, s') => k a s'
               | (Throw e, s') => (Throw e, s')
               | (Diverge, s') => (Diverge, s')
               end.
Proof. reflexivity. Qed.

Lemma run_bind_return {A B} (m : M A) (k : A -> M B) s a s' :
  m s = (Return a, s') -> bind m k s = k a s'.
Proof. intros H. unfold bind. by rewrite H. Qed.

(** *** Relations that every step of a computation respects *)

Section Preserves.
Context (R : relation St) `{!PreOrder R}.

Lemma preserves_ret {A} (a : A) : preserves R (ret a).
Proof. intros s. reflexivity. Qed.

Lemma preserves_throw {A} e : preserves R (@throw A e).
Proof. intros s. reflexivity. Qed.

Lemma preserves_diverge {A} : preserves R (@diverge A).
Proof. intros s. reflexivity. Qed.

Lemma preserves_get : preserves R get.
Proof. intros s. reflexivity. Qed.

Lemma preserves_gets {A} (f : St -> A) : preserves R (gets f).
Proof. intros s. reflexivity. Qed.

Lemma preserves_bind {A B} (m : M A) (k : A -> M B) :
  preserves R m -> (forall a, preserves R (k a)) -> preserves R (bind m k).
Proof.
  intros Hm Hk s. unfold bind. specialize (Hm s).
  destruct (m s) as [[a | e |] s1]; simpl in *; [| done | done].
  etrans; [exact Hm | apply Hk].
Qed.

Lemma preserves_tryCatch {A} (m : M A) (h : JsError -> M A) :
  preserves R m -> (forall e, preserves R (h e)) -> preserves R (tryCatch m h).
Proof.
  intros Hm Hh s. unfold tryCatch. specialize (Hm s).
  destruct (m s) as [[a | e |] s1]; simpl in *; [done | | done].
  etrans; [exact Hm | apply Hh].
Qed.

Lemma preserves_attempt {A} (m : M A) : preserves R m -> preserves R (attempt m).
Proof.
  intros Hm s. unfold attempt. specialize (Hm s).
  destruct (m s) as [[a | e |] s1]; done.
Qed.

Lemma preserves_modify (f : St -> St) :
  (forall s, R s (f s)) -> preserves R (modify f).
Proof. intros Hf s. apply Hf. Qed.

Lemma preserves_when b (m : M unit) : preserves R m -> preserves R (when b m).
Proof. intros Hm. destruct b; [done | apply preserves_ret]. Qed.

Lemma preserves_forEach {A} (l : list A) (f : A -> M unit) :
  (forall x, preserves R (f x)) -> preserves R (forEach l f).
Proof.
  intros Hf. induction l as [| x l IH]; simpl; [apply preserves_ret |].
  apply preserves_bind; [apply Hf | intros _; exact IH].
Qed.

End Preserves.

Lemma preserves_weaken {A} (R R' : relation St) (m : M A) :
  (forall s s', R s s' -> R' s s') -> preserves R m -> preserves R' m.
Proof. intros HR Hm s. apply HR, Hm. Qed.

(** *** What a computation adds to the trace *)

#[global] Instance extends_preorder P : PreOrder (extends P).
Proof.
  split.
  - intros s. exists []. split; [done | constructor].
  - intros s1 s2 s3 (n1 & E1 & F1) (n2 & E2 & F2). exists (n2 ++ n1).
    split; [by rewrite E2, E1, app_assoc | by apply Forall_app].
Qed.

Lemma extends_trans P s1 s2 s3 :
  extends P s1 s2 -> extends P s2 s3 -> extends P s1 s3.
Proof. intros. by etrans. Qed.

Lemma extends_same_events P s s' : events s' = events s -> extends P s s'.
Proof. intros E. exists []. split; [done | constructor]. Qed.

Lemma extends_emit (P : Event -> Prop) ev s : P ev -> extends P s (emit ev s).
Proof. intros H. exists [ev]. split; [done | by constructor]. Qed.

Lemma extends_weaken (P Q : Event -> Prop) s s' :
  (forall ev, P ev -> Q ev) -> extends P s s' -> extends Q s s'.
Proof.
  intros HPQ (new & E & F). exists new. split; [done |].
  eapply Forall_impl; eauto.
Qed.

Lemma emits_weaken {A} (P Q : Event -> Prop) (m : M A) :
  (forall ev, P ev -> Q ev) -> emits P m -> emits Q m.
Proof. intros HPQ. apply preserves_weaken. intros s s'. by apply extends_weaken. Qed.

Lemma emits_ret {A} P (a : A) : emits P (ret a).
Proof. apply preserves_ret; apply _. Qed.

Lemma emits_throw {A} P e : emits P (@throw A e).
Proof. apply preserves_throw; apply _. Qed.

Lemma emits_get P : emits P get.
Proof. apply preserves_get; apply _. Qed.

Lemma emits_bind {A B} P (m : M A) (k : A -> M B) :
  emits P m -> (forall a, emits P (k a)) -> emits P (bind m k).
Proof. apply preserves_bind; apply _. Qed.

Lemma emits_tryCatch {A} P (m : M A) (h : JsError -> M A) :
  emits P m -> (forall e, emits P (h e)) -> emits P (tryCatch m h).
Proof. apply preserves_tryCatch; apply _. Qed.

Lemma emits_attempt {A} P (m : M A) : emits P m -> emits P (attempt m).
Proof. apply preserves_attempt; apply _. Qed.

Lemma emits_modify P (f : St -> St) :
  (forall s, extends P s (f s)) -> emits P (modify f).
Proof. apply preserves_modify. Qed.

Lemma emits_logEvent (P : Event -> Prop) message level :
  P (ELog message level) -> emits P (logEvent message level).
Proof. intros H. apply emits_modify. intros s. by apply extends_emit. Qed.

Lemma emits_when P b (m : M unit) : emits P m -> emits P (when b m).
Proof. apply preserves_when; apply _. Qed.

Lemma extends_set_plugin P f s : extends P s (set_plugin f s).
Proof. by apply extends_same_events. Qed.

Lemma extends_set_manager P f s : extends P s (set_manager f s).
Proof. by apply extends_same_events. Qed.

Lemma extends_set_allResults P f s : extends P s (set_allResults f s).
Proof. by apply extends_same_events. Qed.

Lemma extends_advance P host to s : extends P s (advance host to s).
Proof. by apply extends_same_events. Qed.

Lemma fetchesOnly_mono urls urls' ws ev :
  urls ⊆ urls' -> fetchesOnly urls ws ev -> fetchesOnly urls' ws ev.
Proof. intros Hsub. destruct ev; simpl; try done. intros [? ?]. split; auto. Qed.

Section FailoverFootprint.
Variable host : Host.

Ltac step_emits :=
  first
    [ apply emits_ret | apply emits_throw | apply emits_get
    | apply emits_logEvent; exact I
    | apply emits_modify; intros ?;
      first [ apply extends_set_plugin | apply extends_set_manager
            | apply extends_emit; exact I ]
    | apply emits_when
    | apply emits_attempt
    | apply emits_bind; [| intros ?] ].

Lemma emits_delay ms : emits quiet (delay host ms).
Proof.
  intros s. unfold delay; simpl.
  eapply extends_trans; [apply (extends_emit quiet (ESleep ms)); exact I |].
  apply extends_advance.
Qed.

Lemma emits_saveSettings : emits quiet saveSettings.
Proof. apply emits_modify. intros s. by apply extends_emit. Qed.

Lemma emits_updateEndpointConfig url i urls :
  emits quiet (updateEndpointConfig host url i urls).
Proof.
  unfold updateEndpointConfig.
  repeat first [apply emits_saveSettings | step_emits].
Qed.

Lemma emits_promoteIfBackup url i urls :
  emits quiet (promoteIfBackup host url i urls).
Proof.
  unfold promoteIfBackup. apply emits_bind; [apply emits_get | intros s].
  apply emits_when. apply emits_updateEndpointConfig.
Qed.

Lemma emits_doRequest url body :
  emits (fetchesOnly [url] (words body)) (doRequest host url body).
Proof.
  intros s. unfold doRequest.
  assert (extends (fetchesOnly [url] (words body)) s
            (advance host (now s + Z.of_N (elapsed (fetch host (requestsOf (events s))
                                                     (mkRequest url body))))
               (emit (EFetch (mkRequest url body)) s))).
  { eapply extends_trans; [apply extends_emit | apply extends_advance].
    simpl. split; [by apply list_elem_of_singleton | done]. }
  destruct (outcome _); done.
Qed.

Lemma quiet_fetchesOnly urls ws ev : quiet ev -> fetchesOnly urls ws ev.
Proof. destruct ev; simpl; done. Qed.

Ltac emits_go :=
  repeat match goal with
    | |- emits _ (bind _ _) => apply emits_bind; [| intros ?]
    | |- emits _ (ret _) => apply emits_ret
    | |- emits _ (throw _) => apply emits_throw
    | |- emits _ get => apply emits_get
    | |- emits _ (when _ _) => apply emits_when
    | |- emits _ (attempt _) => apply emits_attempt
    | |- emits _ (logEvent _ _) => apply emits_logEvent; exact I
    | |- emits _ (modify (set_manager _)) =>
        apply emits_modify; intros ?; apply extends_set_manager
    | |- emits _ (modify (set_plugin _)) =>
        apply emits_modify; intros ?; apply extends_set_plugin
    | |- emits _ (delay _ _) =>
        eapply emits_weaken; [apply quiet_fetchesOnly | apply emits_delay]
    | |- emits _ saveSettings =>
        eapply emits_weaken; [apply quiet_fetchesOnly | apply emits_saveSettings]
    | |- emits _ (promoteIfBackup _ _ _ _) =>
        eapply emits_weaken; [apply quiet_fetchesOnly | apply emits_promoteIfBackup]
    | |- emits _ (if ?b then _ else _) => destruct b
    | |- emits _ (match ?x with _ => _ end) => destruct x
    | |- emits _ _ => progress cbv zeta
    end.

Lemma emits_retryInPlace url i urls body res errorData :
  emits (fetchesOnly [url] (words body))
        (retryInPlace host url i urls body res errorData).
Proof.
  unfold retryInPlace. emits_go. apply emits_doRequest.
Qed.

Lemma emits_jsonRemediation url i urls body res errorData :
  emits (fetchesOnly [url] (words body))
        (jsonRemediation host url i urls body res errorData).
Proof.
  unfold jsonRemediation. emits_go.
  apply (emits_retryInPlace url i urls
           (mkRequestBody (words body) (sourceLang body) (targetLang body)
                          (model body) false)).
Qed.

Lemma emits_rateLimitRemediation url i urls body res errorData :
  emits (fetchesOnly [url] (words body))
        (rateLimitRemediation host url i urls body res errorData).
Proof.
  unfold rateLimitRemediation. emits_go; apply emits_retryInPlace.
Qed.

(** What [jsonRemediation] hands on still carries the words of the body. *)
Lemma jsonRemediation_words url i urls body res errorData s res' ed' body' s' :
  jsonRemediation host url i urls body res errorData s
  = (Return (inr (res', ed', body')), s') ->
  words body' = words body.
Proof.
  unfold jsonRemediation. destruct (_ && _); [| by inversion 1].
  rewrite run_bind. simpl.
  rewrite run_bind. simpl.
  destruct (_ >=? 2); [by rewrite run_bind |].
  destruct (bodyUseJSONFormat body); [| by inversion 1].
  rewrite run_bind. simpl. rewrite run_bind.
  destruct (retryInPlace _ _ _ _ _ _ _ _) as [[[d | [r e]] | e |] s1];
    simpl; inversion 1; subst; done.
Qed.

Lemma emits_failWith urls ws res errorData :
  emits (fetchesOnly urls ws) (failWith res errorData).
Proof. unfold failWith. emits_go. Qed.

Lemma emits_remediate url i urls body res errorData :
  emits (fetchesOnly [url] (words body))
        (remediate host url i urls body res errorData).
Proof.
  intros s. unfold remediate. rewrite run_bind.
  pose proof (emits_jsonRemediation url i urls body res errorData s) as H1.
  destruct (jsonRemediation host url i urls body res errorData s)
    as [[[d | [[res1 ed1] body1]] | e |] s1] eqn:Hj; simpl in *; try done.
  eapply extends_trans; [exact H1 |].
  apply jsonRemediation_words in Hj. rewrite <- Hj.
  clear H1. revert s1.
  apply emits_bind; [apply emits_rateLimitRemediation | intros r2].
  destruct r2 as [d | [res2 ed2]]; [apply emits_ret | apply emits_failWith].
Qed.

Lemma emits_handleResponse body urls i url res :
  emits (fetchesOnly [url] (words body)) (handleResponse host body urls i url res).
Proof.
  unfold handleResponse.
  destruct (negb (ok res)); [| emits_go].
  destruct (parsed res) as [errorData | syn]; [| emits_go].
  cbv zeta. destruct (_ || _); [emits_go |].
  destruct (bool_decide _); [emits_go |].
  apply emits_remediate.
Qed.

Lemma emits_tryEndpoint body urls i url :
  emits (fetchesOnly [url] (words body)) (tryEndpoint host body urls i url).
Proof.
  unfold tryEndpoint.
  apply emits_bind; [apply emits_doRequest | intros res].
  apply emits_handleResponse.
Qed.

Lemma emits_failoverLoop body urls i rest errors :
  emits (fetchesOnly rest (words body)) (failoverLoop host body urls i rest errors).
Proof.
  revert i errors. induction rest as [| url rest IH]; intros i errors; simpl.
  - apply emits_ret.
  - apply emits_tryCatch.
    + apply emits_bind; [| intros ?; apply emits_ret].
      eapply emits_weaken; [| apply emits_tryEndpoint].
      intros ev. apply fetchesOnly_mono.
      intros x Hx. apply list_elem_of_singleton in Hx as ->.
      apply elem_of_cons. by left.
    + intros e. apply emits_bind; [apply emits_logEvent; exact I | intros _].
      destruct (isEscalation _ _); [apply emits_throw |].
      eapply emits_weaken; [| apply IH].
      intros ev. apply fetchesOnly_mono.
      intros x Hx. apply elem_of_cons. by right.
Qed.

Lemma emits_postToWorkerWithFailover body :
  emits (fun ev => match ev with
                   | EFetch req => words (reqBody req) = words body
                   | _ => True
                   end)
        (postToWorkerWithFailover host body).
Proof.
  unfold postToWorkerWithFailover.
  apply emits_bind; [apply emits_get | intros s].
  destruct (remoteConfig _) as [config |]; [| apply emits_throw].
  apply emits_bind.
  - eapply emits_weaken; [| apply emits_failoverLoop].
    intros ev H; destruct ev; simpl in *; tauto.
  - intros [data | errors]; [apply emits_ret |].
    apply emits_bind; [apply emits_logEvent; exact I | intros _].
    apply emits_throw.
Qed.

End FailoverFootprint.

(** *** HTTP 429 *)

Lemma doRequest_responded host url body s res took :
  fetch host (requestsOf (events s)) (mkRequest url body)
  = mkReply (Responded res) took ->
  doRequest host url body s
  = (Return res,
     advance host (now s + Z.of_N took) (emit (EFetch (mkRequest url body)) s)).
Proof. intros H. unfold doRequest. rewrite H. reflexivity. Qed.

Lemma tryEndpoint_remediate host body urls i url s res errorData took :
  fetch host (requestsOf (events s)) (mkRequest url body)
  = mkReply (Responded res) took ->
  ok res = false ->
  parsed res = inl errorData ->
  reachesRemediation res errorData ->
  tryEndpoint host body urls i url s
  = remediate host url i urls body res errorData
      (advance host (now s + Z.of_N took) (emit (EFetch (mkRequest url body)) s)).
Proof.
  intros Hf Hok Hp (Hc1 & Hc2 & Hm). unfold tryEndpoint.
  erewrite run_bind_return by (by apply doRequest_responded).
  unfold handleResponse.
  rewrite Hok, Hp. simpl negb. cbv iota zeta.
  fold (classifiedError res errorData).
  rewrite !bool_decide_eq_false_2 by done. reflexivity.
Qed.

Lemma rateLimitRemediation_429 host url i urls body res errorData s :
  status res = 429 ->
  0 <= rateLimitErrorCount (manager s) ->
  rateLimitRemediation host url i urls body res errorData s
  = (Throw rateLimitThreshold,
     emit thresholdLog
       (set_manager
          (fun m => with_rateLimitErrorCount (rateLimitErrorCount m + 1) m) s)).
Proof.
  intros Hs Hc. unfold rateLimitRemediation. rewrite Hs. simpl (429 =? 429).
  cbv iota. rewrite run_bind. simpl. rewrite run_bind. simpl.
  destruct (Z.geb_spec (rateLimitErrorCount (manager s) + 1) 1); [| lia].
  reflexivity.
Qed.

Lemma jsonRemediation_skip host url i urls body res errorData s :
  status res <> 400 ->
  jsonRemediation host url i urls body res errorData s
  = (Return (inr (res, errorData, body)), s).
Proof.
  intros Hs. unfold jsonRemediation.
  destruct (Z.eqb_spec (status res) 400); [done | reflexivity].
Qed.


(** *** HTTP 400 with the category [json] *)

Lemma requestsOf_app a b : requestsOf (a ++ b) = requestsOf a ++ requestsOf b.
Proof. unfold requestsOf. apply omap_app. Qed.

Lemma requestsOf_quiet new : Forall quiet new -> requestsOf new = [].
Proof.
  induction 1 as [| ev new Hq _ IH]; [done |].
  destruct ev; simpl in *; done.
Qed.

Lemma requests_quiet s s' :
  extends quiet s s' -> requestsOf (events s') = requestsOf (events s).
Proof.
  intros (new & -> & Hq). by rewrite requestsOf_app, requestsOf_quiet.
Qed.

Lemma requests_fetchesOnly urls ws s s' :
  extends (fetchesOnly urls ws) s s' ->
  exists later,
    requestsOf (events s') = later ++ requestsOf (events s) /\
    Forall (fun req => reqUrl req ∈ urls /\ words (reqBody req) = ws) later.
Proof.
  intros (new & -> & Hf). exists (requestsOf new).
  split; [apply requestsOf_app |].
  induction Hf as [| ev new Hev _ IH]; [constructor |].
  destruct ev; simpl in *; try done. by constructor.
Qed.

#[global] Instance sameManager_preorder : PreOrder sameManager.
Proof. split; [done | intros s1 s2 s3 H1 H2; unfold sameManager in *; congruence]. Qed.

Section JsonRemediationFacts.
Variable host : Host.

Ltac same_manager :=
  repeat match goal with
    | |- preserves sameManager (bind _ _) =>
        apply (preserves_bind sameManager); [| intros ?]
    | |- preserves sameManager (ret _) => apply (preserves_ret sameManager)
    | |- preserves sameManager (throw _) => apply (preserves_throw sameManager)
    | |- preserves sameManager get => apply (preserves_get sameManager)
    | |- preserves sameManager (when _ _) => apply (preserves_when sameManager)
    | |- preserves sameManager (attempt _) => apply (preserves_attempt sameManager)
    | |- preserves sameManager (modify _) =>
        apply preserves_modify; intros ?; reflexivity
    | |- preserves sameManager (logEvent _ _) =>
        apply preserves_modify; intros ?; reflexivity
    | |- preserves sameManager saveSettings =>
        apply preserves_modify; intros ?; reflexivity
    | |- preserves sameManager (if ?b then _ else _) => destruct b
    | |- preserves sameManager (match ?x with _ => _ end) => destruct x
    | |- preserves sameManager _ => progress cbv zeta
    end.

Lemma sameManager_doRequest url body : preserves sameManager (doRequest host url body).
Proof. intros s. unfold doRequest. destruct (outcome _); reflexivity. Qed.

Lemma sameManager_promoteIfBackup url i urls :
  preserves sameManager (promoteIfBackup host url i urls).
Proof. unfold promoteIfBackup, updateEndpointConfig. same_manager. Qed.

Lemma sameManager_retryInPlace url i urls body res errorData :
  preserves sameManager (retryInPlace host url i urls body res errorData).
Proof.
  unfold retryInPlace. same_manager;
    first [apply sameManager_doRequest | apply sameManager_promoteIfBackup].
Qed.

Lemma sameManager_failWith res errorData :
  preserves sameManager (failWith res errorData).
Proof. unfold failWith. same_manager. Qed.

(** An in-place retry makes exactly one request, with the body it is given. *)
Lemma retryInPlace_requests url i urls body res errorData s :
  requestsOf (events (retryInPlace host url i urls body res errorData s).2)
  = mkRequest url body :: requestsOf (events s).
Proof.
  unfold retryInPlace. rewrite run_bind. unfold attempt, doRequest.
  destruct (outcome _) as [res' | e]; [| reflexivity].
  cbv iota beta. destruct (negb (ok res')).
  - destruct (parsed res'); reflexivity.
  - destruct (parsed res') as [data | syn]; [| reflexivity].
    rewrite run_bind.
    match goal with |- context [promoteIfBackup host url i urls ?s0] =>
      pose proof (emits_promoteIfBackup host url i urls s0) as Hq;
      destruct (promoteIfBackup host url i urls s0) as [[[] | e |] s1]
    end; simpl in *; apply requests_quiet in Hq; rewrite Hq; reflexivity.
Qed.

Lemma emits_failWith_quiet res errorData : emits quiet (failWith res errorData).
Proof.
  unfold failWith. destruct (_ && _); [| apply emits_throw].
  apply emits_bind; [apply emits_get | intros s].
  apply emits_bind; [apply emits_logEvent; exact I | intros _; apply emits_throw].
Qed.

(** With the rate-limit counter at zero or more, the rate-limit
    remediation makes no request, keeps the JSON counter and never
    returns data: it throws on a 429 and hands on otherwise. *)
Lemma rateLimitRemediation_inert url i urls body res errorData s :
  0 <= rateLimitErrorCount (manager s) ->
  let out := rateLimitRemediation host url i urls body res errorData s in
  requestsOf (events out.2) = requestsOf (events s) /\
  jsonErrorCount (manager out.2) = jsonErrorCount (manager s) /\
  (out.1 = Throw rateLimitThreshold \/
   (out.1 = Return (inr (res, errorData)) /\ out.2 = s)).
Proof.
  intros Hc. destruct (Z.eq_dec (status res) 429) as [Hs | Hs].
  - cbv zeta. rewrite rateLimitRemediation_429 by done. simpl. auto.
  - cbv zeta. unfold rateLimitRemediation.
    destruct (Z.eqb_spec (status res) 429); [done |]. simpl. auto.
Qed.

End JsonRemediationFacts.

Lemma failoverLoop_cons host body urls i url rest errors s :
  failoverLoop host body urls i (url :: rest) errors s
  = match tryEndpoint host body urls i url s with
    | (Return data, s1) => (Return (inl data), s1)
    | (Throw e, s1) =>
        let s2 := emit (endpointFailedLog url e) s1 in
        if isEscalation (eeCategory (endpointError url e))
                        (eeMessage (endpointError url e))
        then (Throw e, s2)
        else failoverLoop host body urls (S i) rest
               (errors ++ [endpointError url e]) s2
    | (Diverge, s1) => (Diverge, s1)
    end.
Proof.
  simpl. unfold tryCatch. rewrite run_bind.
  destruct (tryEndpoint host body urls i url s) as [[data | e |] s1]; try reflexivity.
  rewrite run_bind. simpl. destruct (isEscalation _ _); reflexivity.
Qed.

(** After the attempt at [url], the loop only talks to the endpoints that
    follow it; an escalated failure of the attempt ends the loop. *)
Lemma failoverLoop_after_endpoint host body urls i url rest errors s :
  let ep := tryEndpoint host body urls i url s in
  let out := failoverLoop host body urls i (url :: rest) errors s in
  (exists later,
      requestsOf (events out.2) = later ++ requestsOf (events ep.2) /\
      Forall (fun req => reqUrl req ∈ rest) later) /\
  (forall e, ep.1 = Throw e ->
             isEscalation (eeCategory (endpointError url e))
                          (eeMessage (endpointError url e)) = true ->
             out.1 = Throw e /\
             events out.2 = endpointFailedLog url e :: events ep.2).
Proof.
  intros ep out. subst out. rewrite failoverLoop_cons. fold ep.
  destruct ep as [[data | e |] s1]; simpl.
  - split; [exists []; split; [done | constructor] | intros e; discriminate].
  - destruct (isEscalation _ _) eqn:Hesc.
    + split; [exists []; split; [done | constructor] |].
      intros e' [= <-] _. done.
    + split; [| intros e' [= <-]; congruence].
      destruct (requests_fetchesOnly _ _ _ _
                  (emits_failoverLoop host body urls (S i) rest
                     (errors ++ [endpointError url e])
                     (emit (endpointFailedLog url e) s1)))
        as (later & Hl & Hall).
      exists later. split; [exact Hl |].
      eapply Forall_impl; [exact Hall | by intros req [? _]].
  - split; [exists []; split; [done | constructor] | intros e; discriminate].
Qed.

(** *** Exhausting the endpoint list *)

Lemma startsWith_app p s : startsWith (p ++ s) p = true.
Proof.
  induction p as [| a p IH]; simpl; [by destruct s |].
  by rewrite N.eqb_refl, IH.
Qed.

Lemma includes_here s needle : startsWith s needle = true -> includes s needle = true.
Proof. intros H. destruct s; simpl in *; by rewrite H. Qed.

Lemma includes_app_r a s needle :
  includes s needle = true -> includes (a ++ s) needle = true.
Proof.
  intros H. induction a as [| c a IH]; [done |].
  simpl. rewrite IH. apply orb_true_r.
Qed.

Lemma includes_join sep parts idx p :
  parts !! idx = Some p -> includes (join sep parts) p = true.
Proof.
  revert idx. induction parts as [| q parts IH]; intros idx H; [done |].
  destruct idx as [| idx]; simpl in H.
  - inversion H; subst. destruct parts as [| r parts]; simpl.
    + apply includes_here. rewrite <- (app_nil_r p) at 1. apply startsWith_app.
    + apply includes_here, startsWith_app.
  - destruct parts as [| r parts]; [done |].
    change (join sep (q :: r :: parts)) with (q ++ sep ++ join sep (r :: parts)).
    apply includes_app_r, includes_app_r. by eapply IH.
Qed.

Lemma tryEndpoint_first_request host body urls i url s :
  exists later,
    requestsOf (events (tryEndpoint host body urls i url s).2)
    = later ++ mkRequest url body :: requestsOf (events s).
Proof.
  unfold tryEndpoint. rewrite run_bind. unfold doRequest.
  destruct (outcome _) as [res | e]; [| by exists []].
  match goal with |- context [handleResponse host body urls i url res ?s0] =>
    destruct (requests_fetchesOnly _ _ _ _
                (emits_handleResponse host body urls i url res s0))
      as (later & Hl & _)
  end.
  exists later. rewrite Hl. reflexivity.
Qed.

(** When the loop comes to the end of [rest], it has added one entry per
    endpoint, in order: what that endpoint's attempt threw, which was not an
    escalation; and each endpoint was sent the request. *)
Lemma failoverLoop_exhausted host body urls rest :
  forall i errors s errors' s',
    failoverLoop host body urls i rest errors s = (Return (inr errors'), s') ->
    exists failures,
      errors' = errors ++ failures /\
      eeUrl <$> failures = rest /\
      (forall k er,
          failures !! k = Some er ->
          exists e st st',
            tryEndpoint host body urls (i + k) (eeUrl er) st = (Throw e, st') /\
            er = endpointError (eeUrl er) e /\
            isEscalation (eeCategory er) (eeMessage er) = false) /\
      (exists later,
          requestsOf (events s') = later ++ requestsOf (events s) /\
          forall url, url ∈ rest -> mkRequest url body ∈ later).
Proof.
  induction rest as [| url rest IH]; intros i errors s errors' s' Hrun.
  - simpl in Hrun. inversion Hrun; subst. exists [].
    rewrite app_nil_r. split; [done |]. split; [done |].
    split; [intros k er; by rewrite lookup_nil |].
    exists []. split; [done |]. intros url Hin. by apply elem_of_nil in Hin.
  - rewrite failoverLoop_cons in Hrun.
    destruct (tryEndpoint_first_request host body urls i url s) as (l1 & Hl1).
    destruct (tryEndpoint host body urls i url s) as [[data | e |] s1] eqn:Hep;
      [discriminate | | discriminate].
    cbv zeta in Hrun.
    destruct (isEscalation _ _) eqn:Hesc; [discriminate |].
    destruct (IH _ _ _ _ _ Hrun) as (failures & -> & Hurls & Hall & later & Hl & Hin).
    exists (endpointError url e :: failures).
    split; [by rewrite <- app_assoc |].
    split; [rewrite fmap_cons, Hurls; reflexivity |]. split.
    + intros [| k] er Hk; simpl in Hk.
      * inversion Hk; subst. exists e, s, s1. rewrite Nat.add_0_r. done.
      * destruct (Hall k er Hk) as (e' & st & st' & H1 & H2 & H3).
        exists e', st, st'. by replace (i + S k)%nat with (S i + k)%nat by lia.
    + exists (later ++ l1 ++ [mkRequest url body]). split.
      * rewrite Hl. simpl in Hl1 |- *. rewrite Hl1.
        rewrite <- !app_assoc. reflexivity.
      * intros u Hu. apply elem_of_cons in Hu as [-> | Hu].
        -- rewrite !elem_of_app. right. right. by apply list_elem_of_singleton.
        -- apply elem_of_app. left. by apply Hin.
Qed.

(** C5, as the code has it.  When the loop has gone through the whole
    ordered list without an answer and without an escalation, the client
    writes one error-level log line that enumerates the endpoints in order,
    each with its URL, the message it failed with and that message's
    category, and then throws an error whose message is just
    "All worker endpoints failed".  Every endpoint was sent the request, and
    the entry of each is what its attempt threw. *)
Theorem C5_all_endpoints_failed (host : Host) (body : RequestBody) (s : St)
    (config : Endpoints) (errors : list EndpointError) (s1 : St) :
  remoteConfig (settings (plugin s)) = Some config ->
  failoverLoop host body (endpointUrls host config) 0 (endpointUrls host config) [] s
  = (Return (inr errors), s1) ->
  postToWorkerWithFailover host body s
  = (Throw allEndpointsFailed,
     emit (ELog (js "All worker endpoints failed. Summary:" ++ newline
                 ++ summaryText errors) Error) s1) /\
  eeUrl <$> errors = endpointUrls host config /\
  (forall idx er,
      errors !! idx = Some er ->
      includes (summaryText errors)
        (showZ (Z.of_nat idx + 1) ++ js ") " ++ eeUrl er ++ js " -> "
         ++ eeMessage er ++ js " [" ++ categoryName (eeCategory er) ++ js "]")
      = true /\
      mkRequest (eeUrl er) body ∈ requestsOf (events s1) /\
      exists e st st',
        tryEndpoint host body (endpointUrls host config) idx (eeUrl er) st
        = (Throw e, st') /\
        eeMessage er = orElse (errMessage e) (errToString e) /\
        eeCategory er = ErrorClassifier.categorizeError e).
Proof.
  intros Hcfg Hloop.
  destruct (failoverLoop_exhausted _ _ _ _ _ _ _ _ _ Hloop)
    as (failures & Herr & Hurls & Hall & later & Hl & Hin).
  simpl in Herr. subst failures.
  split; [| split; [done |]].
  - unfold postToWorkerWithFailover. rewrite run_bind. unfold get at 1.
    cbv beta iota. rewrite Hcfg. cbv zeta. rewrite run_bind, Hloop. reflexivity.
  - intros idx er Hidx. split; [| split].
    + unfold summaryText. apply (includes_join _ _ idx).
      rewrite list_lookup_imap, Hidx. reflexivity.
    + rewrite Hl. apply elem_of_app. left. apply Hin.
      rewrite <- Hurls. apply list_elem_of_fmap. exists er. split; [done |].
      by eapply list_elem_of_lookup_2.
    + destruct (Hall idx er Hidx) as (e & st & st' & H1 & H2 & _).
      exists e, st, st'. split; [exact H1 |]. rewrite H2 at 1 2. done.
Qed.

(** ** The batch loop *)

(** *** Batches are made of the words they are cut from *)

Lemma elem_of_insertByScore x w sorted :
  x ∈ insertByScore w sorted <-> x = w \/ x ∈ sorted.
Proof.
  induction sorted as [| y sorted IH]; simpl.
  - rewrite list_elem_of_singleton, elem_of_nil. tauto.
  - destruct (score w <? score y); rewrite !elem_of_cons, ?IH; tauto.
Qed.

Lemma elem_of_prioritizeWords x ws : x ∈ prioritizeWords ws <-> x ∈ ws.
Proof.
  induction ws as [| w ws IH]; simpl; [done |].
  rewrite elem_of_insertByScore, elem_of_cons, IH. tauto.
Qed.

Lemma slices_subseteq fuel n ws : Forall (fun batch => batch ⊆ ws) (slices fuel n ws).
Proof.
  revert ws. induction fuel as [| fuel IH]; intros ws; destruct ws as [| w ws];
    simpl; try constructor.
  - apply sublist_subseteq, sublist_take.
  - eapply Forall_impl; [apply IH |]. intros batch Hb x Hx.
    apply Hb in Hx. by eapply subseteq_drop.
Qed.

Lemma createOptimizedBatches_subseteq s ws batches :
  createOptimizedBatches s ws = Some batches ->
  Forall (fun batch => batch ⊆ ws) batches.
Proof.
  unfold createOptimizedBatches. destruct ws as [| w ws]; [intros [= <-]; constructor |].
  destruct (_ <=? 0); [done |]. intros Heq. inversion Heq as [Hb]. clear Heq Hb.
  exact (slices_subseteq (length (w :: ws)) _ (w :: ws)).
Qed.

(** *** Relations that the whole manager respects *)

(** The proofs about a run follow one pattern: a relation between the state
    before and after that no step of the manager breaks.  It has to be a
    preorder that does not look at the plugin's and the manager's fields nor
    at the clock, that accepts every silent event, a request whose words
    satisfy [okWords], the hand-over of the current [allResults] to the
    table, and an entry being set in [allResults]. *)
Section Frame.
Variable host : Host.
Context (R : relation St) `{!PreOrder R}.
Variable okWords : list (list N) -> Prop.
Hypothesis R_plugin : forall f s, R s (set_plugin f s).
Hypothesis R_manager : forall f s, R s (set_manager f s).
Hypothesis R_advance : forall to s, R s (advance host to s).
Hypothesis R_emit : forall ev s, silent ev -> R s (emit ev s).
Hypothesis R_save : forall s, R s (emit (ESaveTable (allResults s)) s).
Hypothesis R_fetch :
  forall url body s, okWords (words body) -> R s (emit (EFetch (mkRequest url body)) s).
Hypothesis R_result : forall k v s, R s (set_allResults (mapSet k v) s).
Hypothesis okWords_mono : forall ws ws', ws ⊆ ws' -> okWords ws' -> okWords ws.

Lemma frame_logEvent message level : preserves R (logEvent message level).
Proof. apply preserves_modify. intros s. by apply R_emit. Qed.

Lemma frame_logDetailed message level : preserves R (logDetailed message level).
Proof.
  apply (preserves_bind R); [apply (preserves_get R) | intros s].
  apply (preserves_when R), frame_logEvent.
Qed.

Lemma frame_delay ms : preserves R (delay host ms).
Proof.
  intros s. unfold delay; simpl. etrans; [| apply R_advance]. by apply R_emit.
Qed.

Lemma frame_doRequest url body :
  okWords (words body) -> preserves R (doRequest host url body).
Proof.
  intros Hok s. unfold doRequest.
  assert (R s (advance host
                 (now s + Z.of_N (elapsed (fetch host (requestsOf (events s))
                                             (mkRequest url body))))
                 (emit (EFetch (mkRequest url body)) s)))
    by (etrans; [by apply R_fetch | apply R_advance]).
  destruct (outcome _); done.
Qed.

Ltac frame_step :=
  match goal with
  | |- preserves R (bind _ _) => apply (preserves_bind R); [| intros ?]
  | |- preserves R (ret _) => apply (preserves_ret R)
  | |- preserves R (throw _) => apply (preserves_throw R)
  | |- preserves R diverge => apply (preserves_diverge R)
  | |- preserves R get => apply (preserves_get R)
  | |- preserves R (gets _) => apply (preserves_gets R)
  | |- preserves R (when _ _) => apply (preserves_when R)
  | |- preserves R (attempt _) => apply (preserves_attempt R)
  | |- preserves R (tryCatch _ _) => apply (preserves_tryCatch R); [| intros ?]
  | |- preserves R (forEach _ _) => apply (preserves_forEach R); intros ?
  | |- preserves R (logEvent _ _) => apply frame_logEvent
  | |- preserves R (logDetailed _ _) => apply frame_logDetailed
  | |- preserves R (delay _ _) => apply frame_delay
  | |- preserves R saveSettings =>
      apply preserves_modify; intros ?; by apply R_emit
  | |- preserves R saveCacheStore =>
      apply preserves_modify; intros ?; by apply R_emit
  | |- preserves R (recordUsageStats _ _) =>
      apply preserves_modify; intros ?; by apply R_emit
  | |- preserves R (modify (set_manager _)) =>
      apply preserves_modify; intros ?; apply R_manager
  | |- preserves R (modify (set_plugin _)) =>
      apply preserves_modify; intros ?; apply R_plugin
  | |- preserves R (modify (emit _)) =>
      apply preserves_modify; intros ?; by apply R_emit
  | |- preserves R (modify (set_allResults (mapSet _ _))) =>
      apply preserves_modify; intros ?; apply R_result
  | |- preserves R (modify (fun s => set_manager _ s)) =>
      apply preserves_modify; intros ?; apply R_manager
  | |- preserves R (modify (fun s => set_plugin _ s)) =>
      apply preserves_modify; intros ?; apply R_plugin
  | |- preserves R (if ?b then _ else _) => destruct b
  | |- preserves R (match ?x with _ => _ end) => destruct x
  | |- preserves R _ => progress cbv zeta
  end.

Ltac frame_go := repeat frame_step.

Lemma frame_promoteIfBackup url i urls :
  preserves R (promoteIfBackup host url i urls).
Proof. unfold promoteIfBackup, updateEndpointConfig. frame_go. Qed.

Lemma frame_retryInPlace url i urls body res errorData :
  okWords (words body) ->
  preserves R (retryInPlace host url i urls body res errorData).
Proof.
  intros Hok. unfold retryInPlace. frame_go;
    first [by apply frame_doRequest | apply frame_promoteIfBackup].
Qed.

Lemma frame_jsonRemediation url i urls body res errorData :
  okWords (words body) ->
  preserves R (jsonRemediation host url i urls body res errorData).
Proof.
  intros Hok. unfold jsonRemediation. frame_go.
  by apply (frame_retryInPlace url i urls
              (mkRequestBody (words body) (sourceLang body) (targetLang body)
                             (model body) false)).
Qed.

Lemma frame_rateLimitRemediation url i urls body res errorData :
  okWords (words body) ->
  preserves R (rateLimitRemediation host url i urls body res errorData).
Proof.
  intros Hok. unfold rateLimitRemediation. frame_go; by apply frame_retryInPlace.
Qed.

Lemma frame_failWith res errorData : preserves R (failWith res errorData).
Proof. unfold failWith. frame_go. Qed.

Lemma frame_remediate url i urls body res errorData :
  okWords (words body) ->
  preserves R (remediate host url i urls body res errorData).
Proof.
  intros Hok s. unfold remediate. rewrite run_bind.
  pose proof (frame_jsonRemediation url i urls body res errorData Hok s) as H1.
  destruct (jsonRemediation host url i urls body res errorData s)
    as [[[d | [[res1 ed1] body1]] | e |] s1] eqn:Hj; simpl in H1 |- *; try done.
  etrans; [exact H1 |].
  apply jsonRemediation_words in Hj. rewrite <- Hj in Hok.
  clear H1. revert s1.
  apply (preserves_bind R); [by apply frame_rateLimitRemediation | intros r2].
  destruct r2 as [d | [res2 ed2]]; [apply (preserves_ret R) | apply frame_failWith].
Qed.

Lemma frame_handleResponse body urls i url res :
  okWords (words body) ->
  preserves R (handleResponse host body urls i url res).
Proof.
  intros Hok. unfold handleResponse.
  destruct (negb (ok res)).
  - destruct (parsed res) as [errorData | syn]; [| frame_go].
    cbv zeta. destruct (_ || _); [frame_go |].
    destruct (bool_decide _); [frame_go |].
    by apply frame_remediate.
  - frame_go. apply frame_promoteIfBackup.
Qed.

Lemma frame_tryEndpoint body urls i url :
  okWords (words body) -> preserves R (tryEndpoint host body urls i url).
Proof.
  intros Hok. unfold tryEndpoint.
  apply (preserves_bind R); [by apply frame_doRequest | intros res].
  by apply frame_handleResponse.
Qed.

Lemma frame_failoverLoop body urls i rest errors :
  okWords (words body) -> preserves R (failoverLoop host body urls i rest errors).
Proof.
  intros Hok. revert i errors.
  induction rest as [| url rest IH]; intros i errors; simpl; [frame_go |].
  apply (preserves_tryCatch R).
  - apply (preserves_bind R); [by apply frame_tryEndpoint | intros ?; frame_go].
  - intros e. apply (preserves_bind R); [apply frame_logEvent | intros _].
    destruct (isEscalation _ _); [frame_go | apply IH].
Qed.

Lemma frame_postToWorkerWithFailover body :
  okWords (words body) -> preserves R (postToWorkerWithFailover host body).
Proof.
  intros Hok. unfold postToWorkerWithFailover.
  apply (preserves_bind R); [frame_go | intros s].
  destruct (remoteConfig _); [| frame_go].
  apply (preserves_bind R); [by apply frame_failoverLoop | intros r].
  frame_go.
Qed.

Lemma frame_callCloudflareWorkerDirect ws sourceLang targetLang :
  okWords ws -> preserves R (callCloudflareWorkerDirect host ws sourceLang targetLang).
Proof.
  intros Hok. unfold callCloudflareWorkerDirect.
  apply (preserves_bind R); [frame_go | intros _].
  apply (preserves_bind R); [frame_go | intros s].
  apply (preserves_tryCatch R).
  - apply (preserves_bind R); [by apply frame_postToWorkerWithFailover | intros data].
    frame_go.
  - intros e. frame_go.
Qed.

Lemma frame_getCachedResult word : preserves R (getCachedResult word).
Proof. intros s. apply R_plugin. Qed.

Lemma frame_setCachedResult word data : preserves R (setCachedResult word data).
Proof. apply preserves_modify. intros s. apply R_plugin. Qed.

Lemma frame_partitionByCache ws hits misses :
  preserves R (partitionByCache ws hits misses).
Proof.
  revert hits misses. induction ws as [| w ws IH]; intros hits misses; simpl.
  - frame_go.
  - apply (preserves_bind R); [apply frame_getCachedResult | intros cached].
    destruct cached as [result |]; [destruct (isValidTranslation result) |]; apply IH.
Qed.

(** The words that a cache partition puts aside come from its input. *)
Lemma partitionByCache_misses ws :
  forall hits misses s hits' misses' s',
    partitionByCache ws hits misses s = (Return (hits', misses'), s') ->
    misses' ⊆ misses ++ ws.
Proof.
  induction ws as [| w ws IH]; intros hits misses s hits' misses' s' Hrun.
  - simpl in Hrun. inversion Hrun; subst. by rewrite app_nil_r.
  - simpl in Hrun. rewrite run_bind in Hrun. unfold getCachedResult in Hrun at 1.
    cbv beta iota zeta in Hrun.
    destruct (Cache.getCachedResult _ _ _ w).1 as [[result |] | e |]; [| | done | done].
    + destruct (isValidTranslation result).
      * apply IH in Hrun. intros x Hx. apply Hrun in Hx.
        rewrite elem_of_app in Hx |- *. rewrite elem_of_cons. tauto.
      * apply IH in Hrun. intros x Hx. apply Hrun in Hx.
        rewrite !elem_of_app, ?list_elem_of_singleton in Hx.
        rewrite elem_of_app, elem_of_cons. tauto.
    + apply IH in Hrun. intros x Hx. apply Hrun in Hx.
      rewrite !elem_of_app, ?list_elem_of_singleton in Hx.
      rewrite elem_of_app, elem_of_cons. tauto.
Qed.

Lemma frame_processSingleBatchWithRetry batch sourceLang targetLang :
  okWords batch ->
  preserves R (processSingleBatchWithRetry host batch sourceLang targetLang).
Proof.
  intros Hok s. unfold processSingleBatchWithRetry. rewrite run_bind.
  pose proof (frame_partitionByCache batch [] [] s) as H1.
  destruct (partitionByCache batch [] [] s) as [[[hits misses] | e |] s1] eqn:Hp;
    simpl in H1 |- *; try done.
  etrans; [exact H1 |]. clear H1.
  apply partitionByCache_misses in Hp. simpl in Hp.
  destruct (bool_decide _); [reflexivity |].
  revert s1.
  apply (preserves_bind R).
  - apply frame_callCloudflareWorkerDirect. by eapply okWords_mono.
  - intros newResults. frame_go. apply frame_setCachedResult.
Qed.

Lemma frame_acquireSlot : preserves R (acquireSlot host).
Proof.
  intros s. unfold acquireSlot.
  generalize (S (length (AdvancedRateLimiter.requests (rateLimiter (manager s))))).
  generalize (rateLimiter (manager s)). intros rl fuel.
  assert (Hgen : forall rl s0,
             match AdvancedRateLimiter.acquireSlot now
                     (fun ms w => (delay host ms w).2) getMaxRequests fuel rl s0 with
             | Some (_, s') => R s0 s'
             | None => True
             end).
  { induction fuel as [| fuel IH]; intros rl0 s0; [done |].
    rewrite acquireSlot_round. cbv zeta.
    destruct (_ >=? _); [| reflexivity].
    set (rl1 := AdvancedRateLimiter.cleanupOldRequests _ _).
    set (s1 := (delay host _ s0).2).
    specialize (IH rl1 s1).
    destruct (AdvancedRateLimiter.acquireSlot _ _ _ fuel rl1 s1) as [[rl2 s2] |];
      [| done].
    etrans; [| exact IH]. apply frame_delay. }
  specialize (Hgen rl s).
  destruct (AdvancedRateLimiter.acquireSlot _ _ _ fuel rl s) as [[rl' s'] |];
    simpl; [| reflexivity].
  etrans; [exact Hgen | apply R_manager].
Qed.

Lemma frame_savePartialResultsToTable : preserves R (savePartialResultsToTable host).
Proof.
  intros s. unfold savePartialResultsToTable. rewrite run_bind.
  unfold get at 1. cbv beta iota.
  destruct (tableWriteError host (events s)) as [error |].
  - match goal with
    | |- R s (?m s).2 => assert (Hm : preserves R m) by frame_go; apply Hm
    end.
  - rewrite run_bind. unfold modify at 1. cbv beta iota.
    etrans; [apply R_save |]. apply frame_logEvent.
Qed.

Lemma frame_completeOperation status reason :
  preserves R (completeOperation status reason).
Proof.
  intros s. unfold completeOperation.
  destruct (OperationSummaryManager.completeOperation _ _ _).1; apply R_plugin.
Qed.

Lemma frame_updateProgress n1 n2 n3 n4 :
  preserves R (updateProgress host n1 n2 n3 n4).
Proof. unfold updateProgress. frame_go. Qed.

Lemma frame_clearProgress : preserves R (clearProgress host).
Proof. unfold clearProgress. frame_go. Qed.

Lemma frame_guarded {A} (operation : M A) :
  preserves R operation -> preserves R (guarded operation).
Proof.
  intros Hop s. unfold guarded, CircuitBreaker.execute.
  destruct (CircuitBreaker.enter _ _); simpl; try apply R_manager.
  specialize (Hop s).
  destruct (operation s) as [[x | e |] s1]; simpl in *;
    (etrans; [exact Hop | apply R_manager]).
Qed.

Lemma frame_batchOperation batch i totalBatches wordsLength sourceLang targetLang :
  okWords batch ->
  preserves R (batchOperation host batch i totalBatches wordsLength
                              sourceLang targetLang).
Proof.
  intros Hok. unfold batchOperation.
  apply (preserves_bind R); [frame_go | intros s0].
  apply (preserves_bind R); [frame_go | intros _].
  apply (preserves_bind R); [frame_go | intros s1].
  destruct (cancelRequested (plugin s1)); [frame_go |].
  apply (preserves_bind R);
    [apply (preserves_when R), frame_acquireSlot | intros _].
  apply (preserves_bind R);
    [by apply frame_processSingleBatchWithRetry | intros batchResults].
  apply (preserves_bind R).
  { apply (preserves_forEach R). intros entry.
    apply (preserves_bind R); [frame_go | intros _; apply frame_setCachedResult]. }
  intros _. frame_go;
    first [apply frame_savePartialResultsToTable | apply frame_updateProgress].
Qed.

Lemma frame_networkBackoffWait : preserves R (networkBackoffWait host).
Proof. unfold networkBackoffWait. frame_go. Qed.

Lemma frame_reportBatchFailure batch i e :
  preserves R (reportBatchFailure host batch i e).
Proof.
  unfold reportBatchFailure. frame_go. apply frame_savePartialResultsToTable.
Qed.

Lemma frame_retrySameBatch i category count :
  preserves R (retrySameBatch host i category count).
Proof. unfold retrySameBatch. frame_go. apply frame_networkBackoffWait. Qed.

Lemma frame_countNonModelFailure i : preserves R (countNonModelFailure i).
Proof. unfold countNonModelFailure. frame_go; apply frame_completeOperation. Qed.

Lemma frame_decideBatchFailure batch i e :
  preserves R (decideBatchFailure host batch i e).
Proof.
  unfold decideBatchFailure. cbv zeta.
  destruct (isMixedScriptError _); [frame_go |].
  destruct (bool_decide _); [frame_go; apply frame_completeOperation |].
  destruct (isThresholdAbort _); [frame_go; apply frame_completeOperation |].
  destruct (isOperationWideFailure _ _); [frame_go; apply frame_completeOperation |].
  apply (preserves_bind R); [frame_go | intros s].
  destruct (_ && _); [apply frame_retrySameBatch | apply frame_countNonModelFailure].
Qed.

Lemma frame_handleBatchFailure batch i e :
  preserves R (handleBatchFailure host batch i e).
Proof.
  unfold handleBatchFailure.
  apply (preserves_bind R);
    [apply frame_reportBatchFailure | intros _; apply frame_decideBatchFailure].
Qed.

Lemma frame_batchLoop fuel batches wordsLength sourceLang targetLang :
  Forall okWords batches ->
  forall i, preserves R (batchLoop host fuel batches i wordsLength sourceLang targetLang).
Proof.
  intros Hok. induction fuel as [| fuel IH]; intros i; simpl; [frame_go |].
  destruct (batches !! i) as [batch |] eqn:Hb; [| frame_go].
  assert (okWords batch)
    by (rewrite Forall_forall in Hok; apply Hok; by eapply list_elem_of_lookup_2).
  apply (preserves_bind R).
  - apply (preserves_tryCatch R).
    + apply (preserves_bind R); [| intros _; frame_go].
      by apply frame_guarded, frame_batchOperation.
    + intros e. apply frame_handleBatchFailure.
  - intros [|]; apply IH.
Qed.

Lemma frame_runBatches fuel ws uncached sourceLang targetLang :
  okWords uncached ->
  preserves R (runBatches host fuel ws uncached sourceLang targetLang).
Proof.
  intros Hok. unfold runBatches. cbv zeta.
  apply (preserves_bind R); [frame_go | intros s].
  destruct (createOptimizedBatches s (prioritizeWords uncached)) as [batches |] eqn:Hb;
    [| frame_go].
  apply createOptimizedBatches_subseteq in Hb.
  apply (preserves_bind R); [frame_go | intros _].
  apply (preserves_bind R).
  - apply frame_batchLoop. eapply Forall_impl; [exact Hb |].
    intros batch Hsub. eapply okWords_mono; [| exact Hok].
    intros x Hx. apply elem_of_prioritizeWords. by apply Hsub.
  - intros _. frame_go;
      first [apply frame_savePartialResultsToTable | apply frame_clearProgress].
Qed.

End Frame.

(** *** Words that the cache answers *)

Lemma trim_nil_length s : trim s = [] <-> jsLength (trim s) = 0.
Proof.
  unfold jsLength. split; [by intros -> |].
  destruct (trim s); [done | simpl; lia].
Qed.

(** A valid translation is not the all-empty one. *)
Lemma valid_not_empty result :
  isValidTranslation result = true -> isEmptyTranslation result = false.
Proof.
  unfold isValidTranslation, isEmptyTranslation, blank.
  destruct (falsy (translation result)) eqn:Hf; [done |].
  destruct (jsLength (trim (translation result)) <? 1) eqn:Hl; [done |].
  intros _. simpl. apply Z.ltb_ge in Hl.
  rewrite bool_decide_eq_false_2; [done |].
  intros Hnil. apply trim_nil_length in Hnil. lia.
Qed.

Lemma mapGet_mapSet_eq {V} (k : list N) (v : V) m : mapGet k (mapSet k v m) = Some v.
Proof.
  induction m as [| [k' v'] m IH]; simpl.
  - by rewrite decide_True.
  - destruct (decide (k = k')) as [-> | Hne]; simpl.
    + by rewrite decide_True.
    + by rewrite decide_False.
Qed.

Lemma mapGet_mapSet_ne {V} (k k0 : list N) (v : V) m :
  k <> k0 -> mapGet k (mapSet k0 v m) = mapGet k m.
Proof.
  intros Hne. induction m as [| [k' v'] m IH]; simpl.
  - by rewrite decide_False.
  - destruct (decide (k0 = k')) as [-> | Hne']; simpl.
    + by rewrite !decide_False.
    + destruct (decide (k = k')); [done | exact IH].
Qed.

Lemma mapGet_mapSet_is_Some {V} (k k0 : list N) (v : V) m :
  is_Some (mapGet k m) -> is_Some (mapGet k (mapSet k0 v m)).
Proof.
  intros H. destruct (decide (k = k0)) as [-> | Hne].
  - rewrite mapGet_mapSet_eq. by eexists.
  - by rewrite mapGet_mapSet_ne.
Qed.

Lemma getCachedResult_hit W entry s :
  servedBy W entry s ->
  isValidTranslation (Cache.data entry) = true ->
  exists s',
    getCachedResult W s = (Return (Some (Cache.data entry)), s') /\
    servedBy W entry s'.
Proof.
  intros [Hlook Hfresh] Hvalid.
  unfold getCachedResult, Cache.getCachedResult, Cache.get.
  rewrite Hlook.
  destruct (Z.gtb_spec (now s - Cache.ts entry)
              (Cache.ttlMs (cacheTTLHours (settings (plugin s))))); [lia |].
  rewrite (valid_not_empty _ Hvalid). simpl.
  eexists. split; [reflexivity |]. split; simpl; done.
Qed.

(** A lookup changes the store only by deleting an own entry that has
    expired. *)
Lemma getCachedResult_store cacheTTLHours now cacheStore word :
  (Cache.getCachedResult cacheTTLHours now cacheStore word).2 = cacheStore
  \/ exists entry,
       Cache.get cacheStore (toLowerCase word) = Cache.FoundEntry entry /\
       now - Cache.ts entry > Cache.ttlMs cacheTTLHours /\
       (Cache.getCachedResult cacheTTLHours now cacheStore word).2
       = Cache.remove cacheStore (toLowerCase word).
Proof.
  unfold Cache.getCachedResult.
  destruct (Cache.get cacheStore (toLowerCase word)) as [entry | n | result | |];
    try (by left).
  - destruct (Z.gtb_spec (now - Cache.ts entry) (Cache.ttlMs cacheTTLHours)).
    + right. exists entry. split; [done |]. split; [lia | done].
    + left. by destruct (isEmptyTranslation (Cache.data entry)).
  - left. by destruct (n =? 0).
Qed.

Lemma getCachedResult_keeps W entry w s :
  servedBy W entry s -> servedBy W entry (getCachedResult w s).2.
Proof.
  intros [Hlook Hfresh]. unfold getCachedResult. cbn [snd].
  destruct (getCachedResult_store (cacheTTLHours (settings (plugin s))) (now s)
              (cacheStore (plugin s)) w) as [-> | (e & Hget & Hexp & ->)].
  - split; [| done]. cbn. by destruct (plugin s).
  - split; [| done]. cbn.
    destruct (decide (toLowerCase w = toLowerCase W)) as [Heq | Hne].
    + unfold Cache.get in Hget. rewrite Heq, Hlook in Hget.
      injection Hget as <-. lia.
    + by rewrite lookup_delete_ne.
Qed.

Lemma partitionByCache_keeps W entry ws :
  forall hits misses s,
    servedBy W entry s -> servedBy W entry (partitionByCache ws hits misses s).2.
Proof.
  induction ws as [| w ws IH]; intros hits misses s Hs; [done |].
  cbn [partitionByCache]. rewrite run_bind.
  pose proof (getCachedResult_keeps W entry w s Hs) as Hs'.
  destruct (getCachedResult w s) as [[[result |] | e |] s1]; cbn [snd] in *;
    [| | done | done].
  - destruct (isValidTranslation result); by apply IH.
  - by apply IH.
Qed.

(** The split of [processWordsInBatches]: when it returns, a word that the
    cache serves is in the map of hits, with the cached result, and not among
    the misses. *)
Lemma partitionByCache_served W entry ws :
  isValidTranslation (Cache.data entry) = true ->
  forall hits misses s hits' misses' s',
    servedBy W entry s ->
    W ∉ misses ->
    W ∈ ws \/ mapGet W hits = Some (Cache.data entry) ->
    partitionByCache ws hits misses s = (Return (hits', misses'), s') ->
    (W ∉ misses') /\ mapGet W hits' = Some (Cache.data entry).
Proof.
  intros Hvalid. induction ws as [| w ws IH];
    intros hits misses s hits' misses' s' Hs Hm Hin Hrun.
  - destruct Hin as [Hin | Hin]; [by apply elem_of_nil in Hin |].
    cbn in Hrun. by injection Hrun as <- <- <-.
  - cbn [partitionByCache] in Hrun. rewrite run_bind in Hrun.
    destruct (decide (w = W)) as [-> | Hne].
    + destruct (getCachedResult_hit W entry s Hs Hvalid) as (s1 & Hhit & Hs').
      rewrite Hhit, Hvalid in Hrun.
      refine (IH _ _ _ _ _ _ Hs' Hm _ Hrun).
      right. apply mapGet_mapSet_eq.
    + pose proof (getCachedResult_keeps W entry w s Hs) as Hs'.
      assert (Hin' : W ∈ ws \/ mapGet W hits = Some (Cache.data entry)).
      { destruct Hin as [Hin | Hin]; [| by right].
        apply elem_of_cons in Hin as [-> | Hin]; [done | by left]. }
      assert (Hm' : W ∉ misses ++ [w]).
      { rewrite elem_of_app, list_elem_of_singleton. intros [? | ?]; [done | congruence]. }
      destruct (getCachedResult w s) as [[[result |] | e |] s1] eqn:Hg;
        cbn [snd] in Hs'; [| | done | done].
      * destruct (isValidTranslation result).
        -- refine (IH _ _ _ _ _ _ Hs' Hm _ Hrun).
           destruct Hin' as [? | Hg']; [by left | right].
           by rewrite mapGet_mapSet_ne.
        -- exact (IH _ _ _ _ _ _ Hs' Hm' Hin' Hrun).
      * exact (IH _ _ _ _ _ _ Hs' Hm' Hin' Hrun).
Qed.

#[global] Instance keepsKey_preorder W : PreOrder (keepsKey W).
Proof.
  split; [intros s H; exact H | intros s1 s2 s3 H1 H2 H; apply H2, H1, H].
Qed.

Lemma startRun_effect s :
  exists s0,
    startRun s = (Return tt, s0) /\
    plugin s0 = plugin s /\ now s0 = now s /\
    extends isLog s s0 /\
    jsonErrorCount (manager s0) = 0 /\ rateLimitErrorCount (manager s0) = 0.
Proof.
  unfold startRun. rewrite run_bind. unfold modify at 1. cbv beta iota.
  rewrite run_bind. unfold get at 1. cbv beta iota.
  destruct (_ && _); simpl.
  - unfold logDetailed. rewrite run_bind. unfold modify at 1. cbv beta iota.
    rewrite run_bind. unfold get at 1. cbv beta iota.
    destruct (bool_decide _); simpl.
    + eexists. split; [reflexivity |]. repeat split; try done.
      eexists [_]. split; [reflexivity |]. by repeat constructor.
    + eexists. split; [reflexivity |]. repeat split; try done.
      by apply extends_same_events.
  - eexists. split; [reflexivity |]. repeat split; try done.
    by apply extends_same_events.
Qed.

Lemma returnsAllResults_bind {A} (m : M A) k :
  (forall a, returnsAllResults (k a)) -> returnsAllResults (bind m k).
Proof.
  intros Hk s results. unfold bind.
  destruct (m s) as [[a | e |] s1]; simpl; [apply Hk | done | done].
Qed.

Lemma returnsAllResults_runBatches host fuel ws uncached sourceLang targetLang :
  returnsAllResults (runBatches host fuel ws uncached sourceLang targetLang).
Proof.
  unfold runBatches. cbv zeta.
  apply returnsAllResults_bind. intros s.
  destruct (createOptimizedBatches _ _); [| by intros ? ?].
  do 6 (apply returnsAllResults_bind; intros ?).
  intros t results. unfold gets. simpl. congruence.
Qed.

(** X3 ([processWordsInBatches], the split by the cache): a word [W] of
    the input list that the cache holds, as an own entry under the lower-cased
    word, valid and no older than the time to live, is never sent: however the
    run ends, none of its requests carries [W].  If the split at the start
    of the run returns, it puts [W] with the cached result into the result
    map and not among the words to translate; and [W] is a key of the
    results that the run returns, if it returns. *)
Theorem cached_word_never_requested (host : Host) (fuel : nat)
    (wordList : list (list N))
    (sourceLang targetLang : list N) (s : St) (W : list N) (entry : Cache.Entry) :
  W ∈ wordList ->
  Cache.own (cacheStore (plugin s)) !! toLowerCase W = Some entry ->
  isValidTranslation (Cache.data entry) = true ->
  now s - Cache.ts entry <= Cache.ttlMs (cacheTTLHours (settings (plugin s))) ->
  let out := processWordsInBatches host fuel wordList sourceLang targetLang s in
  (exists later,
      requestsOf (events out.2) = later ++ requestsOf (events s) /\
      Forall (fun req => W ∉ words (reqBody req)) later) /\
  (forall s0 hits misses s1,
      startRun s = (Return tt, s0) ->
      partitionByCache wordList [] [] s0 = (Return (hits, misses), s1) ->
      mapGet W hits = Some (Cache.data entry) /\ (W ∉ misses)) /\
  (forall results, out.1 = Return results -> is_Some (mapGet W results)).
Proof.
  intros Hin Hlook Hvalid Hfresh out.
  destruct (startRun_effect s) as (s0 & Hstart & Hp0 & Hn0 & Hq0 & _).
  assert (Hs0 : servedBy W entry s0) by (unfold servedBy; by rewrite Hp0, Hn0).
  assert (Hserved : forall hits misses s1,
             partitionByCache wordList [] [] s0 = (Return (hits, misses), s1) ->
             mapGet W hits = Some (Cache.data entry) /\ (W ∉ misses)).
  { intros hits misses s1 Hsplit.
    destruct (partitionByCache_served W entry wordList Hvalid [] [] s0 hits misses s1
                Hs0) as [Hmiss Hhit];
      [apply not_elem_of_nil | by left | exact Hsplit | done]. }
  pose proof (frame_partitionByCache (extends (notRequested W))
                (fun f s => extends_set_plugin _ f s) wordList [] [] s0) as Hquiet.
  assert (Hstep : out = match partitionByCache wordList [] [] s0 with
                        | (Return split, s1) =>
                            runBatches host fuel wordList split.2 sourceLang targetLang
                              (set_allResults (fun _ => split.1) s1)
                        | (Throw e, s1) => (Throw e, s1)
                        | (Diverge, s1) => (Diverge, s1)
                        end).
  { subst out. unfold processWordsInBatches.
    rewrite run_bind, Hstart. rewrite run_bind.
    by destruct (partitionByCache wordList [] [] s0) as [[split | e |] s1]. }
  assert (Hlogs : extends (notRequested W) s s0).
  { eapply extends_weaken; [| exact Hq0]. by intros []. }
  assert (Hreq : extends (notRequested W) s out.2).
  { rewrite Hstep.
    destruct (partitionByCache wordList [] [] s0) as [[[hits misses] | e |] s1] eqn:Hsplit;
      cbn [snd] in Hquiet; [| by etrans | by etrans].
    destruct (Hserved hits misses s1 eq_refl) as [Hhit Hmiss].
    etrans; [exact Hlogs |]. etrans; [exact Hquiet |].
    etrans; [apply (extends_set_allResults _ (fun _ => hits) s1) |].
    apply (frame_runBatches host (extends (notRequested W)) (fun ws => W ∉ ws));
      try (intros; first [ apply extends_set_plugin | apply extends_set_manager
                         | apply extends_advance | apply extends_set_allResults ]).
    - intros ev s' Hq. apply extends_emit. by destruct ev.
    - intros s'. by apply extends_emit.
    - intros url body s' Hok. by apply extends_emit.
    - intros ws ws' Hsub Hnot Hw. by apply Hnot, Hsub.
    - exact Hmiss. }
  split; [| split].
  - destruct Hreq as (new & Hnew & Hall). exists (requestsOf new).
    split; [by rewrite Hnew, requestsOf_app |].
    clear Hnew. induction Hall as [| ev new Hev _ IH]; [constructor |].
    destruct ev; simpl in *; try done. by constructor.
  - intros s0' hits misses s1 Hstart' Hsplit.
    rewrite Hstart in Hstart'. injection Hstart' as <-. by apply (Hserved _ _ s1).
  - intros results Hres. rewrite Hstep in Hres.
    destruct (partitionByCache wordList [] [] s0) as [[[hits misses] | e |] s1] eqn:Hsplit;
      [| done | done].
    destruct (Hserved hits misses s1 eq_refl) as [Hhit Hmiss].
    cbn [fst snd] in Hres.
    set (s2 := set_allResults (fun _ => hits) s1) in *.
    assert (Hkey : is_Some (mapGet W (allResults
               (runBatches host fuel wordList misses sourceLang targetLang s2).2))).
    { apply (frame_runBatches host (keepsKey W) (fun _ => True));
        try (intros; first [ by intros ? | exact I ]).
      - intros k v s' Hk. simpl. by apply mapGet_mapSet_is_Some.
      - simpl. rewrite Hhit. by eexists. }
    rewrite (returnsAllResults_runBatches host fuel wordList misses sourceLang
               targetLang s2 results Hres). exact Hkey.
Qed.

(** *** Aborting a run *)

#[global] Instance onlyLogs_preorder : PreOrder onlyLogs.
Proof.
  split.
  - intros s. split; [done | reflexivity].
  - intros s1 s2 s3 [H1 E1] [H2 E2]. split; [congruence | by etrans].
Qed.


Lemma noThrow_ret {A} (a : A) : noThrow (ret a).
Proof. intros s e s'. discriminate. Qed.

Lemma noThrow_get : noThrow get.
Proof. intros s e s'. discriminate. Qed.

Lemma noThrow_modify f : noThrow (modify f).
Proof. intros s e s'. discriminate. Qed.

Lemma noThrow_bind {A B} (m : M A) (k : A -> M B) :
  noThrow m -> (forall a, noThrow (k a)) -> noThrow (bind m k).
Proof.
  intros Hm Hk s e s'. unfold bind.
  destruct (m s) as [[a | e1 |] s1] eqn:Hms; [apply Hk | | discriminate].
  by apply Hm in Hms.
Qed.

Lemma noThrow_when b (m : M unit) : noThrow m -> noThrow (when b m).
Proof. intros Hm. destruct b; [done | apply noThrow_ret]. Qed.

Lemma noThrow_tryCatch {A} (m : M A) h :
  (forall e, noThrow (h e)) -> noThrow (tryCatch m h).
Proof.
  intros Hh s e s'. unfold tryCatch.
  destruct (m s) as [[a | e1 |] s1]; [discriminate | apply Hh | discriminate].
Qed.

Lemma noThrow_logEvent message level : noThrow (logEvent message level).
Proof. apply noThrow_modify. Qed.

Lemma noThrow_logDetailed message level : noThrow (logDetailed message level).
Proof.
  apply noThrow_bind; [apply noThrow_get | intros s].
  apply noThrow_when, noThrow_logEvent.
Qed.

Lemma noThrow_delay host ms : noThrow (delay host ms).
Proof. intros s e s'. discriminate. Qed.





Section AbortFacts.
Variable host : Host.










Lemma mapSize_pos {K V} (m : list (K * V)) : (mapSize m >? 0) = false -> m = [].
Proof.
  unfold mapSize. destruct m; [done |]. simpl length.
  intros H. rewrite Z.gtb_ltb in H. apply Z.ltb_ge in H. lia.
Qed.

(** How [savePartialResultsToTable] ends. *)
Lemma savePartialResultsToTable_done s :
  tableWriteError host (events s) = None ->
  exists line,
    savePartialResultsToTable host s
    = (Return tt, emit (ELog line Success) (emit (ESaveTable (allResults s)) s)).
Proof.
  intros Hok. unfold savePartialResultsToTable, bind at 1, get. cbv beta iota.
  rewrite Hok. eexists. reflexivity.
Qed.

Lemma savePartialResultsToTable_failed s error :
  tableWriteError host (events s) = Some error ->
  savePartialResultsToTable host s = (Throw error, emit (saveFailedLog error) s).
Proof.
  intros Herr. unfold savePartialResultsToTable, bind at 1, get. cbv beta iota.
  by rewrite Herr.
Qed.

(** The first half of the [catch]: it returns, and what has been gathered has
    been written to the table, or the write has failed and that is logged. *)
Lemma reportBatchFailure_flushes batch i e s :
  exists s1, reportBatchFailure host batch i e s = (Return tt, s1) /\ flushed host s1.
Proof.
  unfold reportBatchFailure. cbv zeta.
  rewrite run_bind. unfold logEvent at 1, modify at 1. cbv beta iota.
  rewrite run_bind. unfold recordUsageStats at 1, modify at 1. cbv beta iota.
  rewrite run_bind. unfold modify at 1. cbv beta iota.
  rewrite run_bind. unfold get at 1. cbv beta iota.
  match goal with |- context [when _ _ ?s0] => set (sa := s0) end.
  change (allResults sa) with (allResults s).
  destruct (mapSize (allResults s) >? 0) eqn:Hsize.
  - unfold when, tryCatch. rewrite run_bind.
    destruct (tableWriteError host (events sa)) as [saveError |] eqn:Herr.
    + rewrite (savePartialResultsToTable_failed sa saveError Herr).
      unfold logEvent, modify. eexists. split; [reflexivity |].
      right. eexists [_], (events sa). split; last first.
      { right. exists saveError. split; [done | reflexivity]. }
      by repeat constructor.
    + destruct (savePartialResultsToTable_done sa Herr) as (line & ->).
      unfold logDetailed. rewrite run_bind. unfold get at 1. cbv beta iota.
      destruct (bool_decide _); unfold when, logEvent, modify, ret.
      * eexists. split; [reflexivity |].
        right. eexists [_; _], _. split; last first.
        { left. reflexivity. }
        by repeat constructor.
      * eexists. split; [reflexivity |].
        right. eexists [_], _. split; last first.
        { left. reflexivity. }
        by repeat constructor.
  - unfold when, ret. eexists. split; [reflexivity |].
    left. by apply mapSize_pos.
Qed.


(** On either threshold sentinel the [catch] of the batch loop does not go
    on to another batch: it throws. *)
Lemma handleBatchFailure_sentinel batch i e s :
  e = rateLimitThreshold \/ e = jsonThreshold ->
  exists e' s', handleBatchFailure host batch i e s = (Throw e', s').
Proof.
  intros He. unfold handleBatchFailure. rewrite run_bind.
  destruct (reportBatchFailure_flushes batch i e s) as (s1 & -> & _).
  unfold decideBatchFailure. cbv zeta.
  assert (Hcond : isMixedScriptError (errMessage e) = false /\
                  bool_decide (ErrorClassifier.categorizeError e = MODEL) = false /\
                  isThresholdAbort (errMessage e) = true)
    by (destruct He as [-> | ->]; vm_compute; done).
  destruct Hcond as (-> & -> & ->).
  rewrite run_bind. unfold logEvent at 1, modify at 1. cbv beta iota.
  rewrite run_bind. unfold completeOperation.
  destruct (OperationSummaryManager.completeOperation _ _ _).1 eqn:Hdone.
  - unfold throw. by eexists _, _.
  - by eexists _, _.
  - unfold OperationSummaryManager.completeOperation in Hdone.
    simpl in Hdone. destruct (operationSummaryManager _); discriminate.
Qed.



End AbortFacts.

#[global] Instance keepsSaved_preorder : PreOrder keepsSaved.
Proof.
  split.
  - intros s. split; [intros k; reflexivity |].
    exists []. split; [done |]. intros r k Hin. by apply elem_of_nil in Hin.
  - intros s1 s2 s3 [K1 (n1 & E1 & S1)] [K2 (n2 & E2 & S2)].
    split; [intros k; etrans; [apply K1 | apply K2] |].
    exists (n2 ++ n1). split; [by rewrite E2, E1, app_assoc |].
    intros r k Hin Hk. apply elem_of_app in Hin as [Hin | Hin].
    + by eapply S2.
    + apply K2. by eapply S1.
Qed.





(** *** The bounded loops of the model are long enough *)

Lemma slices_concat fuel n ws :
  (0 < n)%nat -> (length ws <= fuel)%nat -> concat (slices fuel n ws) = ws.
Proof.
  intros Hn. revert ws. induction fuel as [| fuel IH]; intros ws Hlen.
  - destruct ws; [done | simpl in Hlen; lia].
  - destruct ws as [| w ws]; [done |].
    change (slices (S fuel) n (w :: ws))
      with (take n (w :: ws) :: slices fuel n (drop n (w :: ws))).
    rewrite concat_cons, IH; [apply take_drop |].
    rewrite length_drop. simpl in Hlen |- *. lia.
Qed.

(** With a positive batch size the batches are the words, in order. *)
Lemma createOptimizedBatches_covers s ws :
  0 < match adaptiveBatchController (manager s) with
      | Some controller => AdaptiveBatchController.getBatchSize controller
      | None => batchSize (settings (plugin s))
      end ->
  exists batches,
    createOptimizedBatches s ws = Some batches /\ concat batches = ws.
Proof.
  intros Hpos. unfold createOptimizedBatches.
  set (size := match adaptiveBatchController (manager s) with
               | Some controller => AdaptiveBatchController.getBatchSize controller
               | None => batchSize (settings (plugin s))
               end) in *.
  destruct ws as [| w ws]; [by exists [] |].
  destruct (Z.leb_spec size 0) as [Hle | Hgt]; [lia |].
  eexists. split; [reflexivity |]. apply slices_concat; [lia | done].
Qed.

(** The manager's [acquireSlot] always comes back: its ceiling is at least
    one request and its timers sleep at least as long as asked. *)
Lemma acquireSlot_total host s : exists s', acquireSlot host s = (Return tt, s').
Proof.
  unfold acquireSlot.
  destruct (acquireSlot_returns now (fun ms w => (delay host ms w).2) getMaxRequests)
    with (fuel := S (length (AdvancedRateLimiter.requests (rateLimiter (manager s)))))
         (rl := rateLimiter (manager s)) (w := s)
    as (rl' & s' & -> & _).
  - intros ms w. unfold delay; simpl. lia.
  - intros ms w. reflexivity.
  - unfold getMaxRequests. lia.
  - eapply Nat.le_lt_trans; [apply cleanup_length | lia].
  - by eexists.
Qed.

(** *** Runs on concrete networks *)

Lemma cached_word_never_requested_witness :
  let out := processWordsInBatches echoHost 5 [js "Hello"; js "world"]
               (js "en") (js "ar") cachedState in
  (exists later,
      requestsOf (events out.2) = later ++ [] /\
      Forall (fun req => js "Hello" ∉ words (reqBody req)) later) /\
  mapGet (js "Hello") (allResults out.2) = Some (goodResult (js "hello")) /\
  (fun req => words (reqBody req)) <$> requestsOf (events out.2) = [[js "world"]].
Proof.
  intros out.
  destruct (cached_word_never_requested echoHost 5 [js "Hello"; js "world"]
              (js "en") (js "ar") cachedState (js "Hello")
              (Cache.mkEntry 1000 (goodResult (js "hello"))))
    as (Hreq & _ & _).
  - apply elem_of_cons. by left.
  - vm_compute. reflexivity.
  - vm_compute. reflexivity.
  - vm_compute. discriminate.
  - split; [exact Hreq |]. split; vm_compute; reflexivity.
Defined.

(** C3.  A run over the words "hello" and "constructor", the first of them
    freshly cached with a valid result: the lookup of "constructor" in the
    plain object that holds the cache finds the member that every object
    inherits, [isEmptyTranslation] reads a field of its missing [data], and
    the TypeError leaves [processWordsInBatches] from the split at its
    start.  No request is made, and no result is returned: the cached
    "hello" is not served. *)
Theorem C3_inherited_word_aborts_run :
  Cache.own (cacheStore (plugin cachedState)) !! toLowerCase (js "hello")
  = Some (Cache.mkEntry 1000 (goodResult (js "hello"))) /\
  isValidTranslation (goodResult (js "hello")) = true /\
  inheritedWordRun.1 = Throw Cache.undefinedResult /\
  requestsOf (events inheritedWordRun.2) = [] /\
  allResults inheritedWordRun.2 = [].
Proof.
  split; [vm_compute; reflexivity |]. split; [vm_compute; reflexivity |].
  split; [vm_compute; reflexivity |]. split; vm_compute; reflexivity.
Qed.




(** *** The two thresholds *)

(** C1, as the code has it.  When an endpoint answers HTTP 429 with a
    failure envelope that reaches the remediations, the session rate-limit
    counter goes up by one and, being then at least 1, the client logs that
    the threshold is reached and throws RATE_LIMIT_THRESHOLD.  The endpoint
    loop rethrows it: no further endpoint is tried.  The trace grows by the
    one request and two log lines only: the endpoint is not retried, nothing
    sleeps, and the configured requests-per-minute stay as they were.  The
    [catch] of the batch loop, given the sentinel, throws in its turn: the
    run is over. *)
Theorem C1_first_429_aborts (host : Host) (body : RequestBody)
    (urls : list (list N)) (i : nat) (url : list N) (rest : list (list N))
    (errors : list EndpointError) (s : St) (res : Response)
    (errorData : Envelope) (took : N) :
  fetch host (requestsOf (events s)) (mkRequest url body)
  = mkReply (Responded res) took ->
  status res = 429 ->
  parsed res = inl errorData ->
  reachesRemediation res errorData ->
  0 <= rateLimitErrorCount (manager s) ->
  exists s',
    failoverLoop host body urls i (url :: rest) errors s
    = (Throw rateLimitThreshold, s') /\
    events s'
    = [ELog (js "Endpoint failed (" ++ url ++ js "): RATE_LIMIT_THRESHOLD (rate_limit)")
            Warning;
       thresholdLog;
       EFetch (mkRequest url body)] ++ events s /\
    rateLimitErrorCount (manager s') = rateLimitErrorCount (manager s) + 1 /\
    settings (plugin s') = settings (plugin s) /\
    forall batch k t,
    exists e' t', handleBatchFailure host batch k rateLimitThreshold t = (Throw e', t').
Proof.
  intros Hf Hs Hp Hreach Hc.
  assert (Hok : ok res = false) by (unfold ok; rewrite Hs; reflexivity).
  eexists. split.
  - simpl. unfold tryCatch. rewrite run_bind.
    rewrite (tryEndpoint_remediate _ _ _ _ _ _ _ _ _ Hf Hok Hp Hreach).
    unfold remediate. rewrite run_bind.
    rewrite jsonRemediation_skip by lia.
    rewrite run_bind.
    rewrite rateLimitRemediation_429 by (simpl; done).
    cbv iota beta. rewrite run_bind. simpl logEvent. unfold logEvent, modify.
    cbv iota beta.
    change (endpointError url rateLimitThreshold)
      with (mkEndpointError url (js "RATE_LIMIT_THRESHOLD") RATE_LIMIT).
    simpl eeCategory. simpl eeMessage.
    change (isEscalation RATE_LIMIT (js "RATE_LIMIT_THRESHOLD")) with true.
    cbv iota. reflexivity.
  - simpl. split; [reflexivity |]. split; [reflexivity |]. split; [reflexivity |].
    intros batch k t. apply handleBatchFailure_sentinel. by left.
Qed.

(** C4, as the code has it.  An endpoint answers HTTP 400 with a failure
    envelope of structured category [json] that reaches the remediations.
    Then the session JSON-error counter goes up by one.  If it is then 2 or
    more, the client throws JSON_THRESHOLD after that single request, the
    endpoint loop rethrows it, and the [catch] of the batch loop, given the
    sentinel, throws in its turn.  Otherwise, if the request still has
    useJSONFormat on, the same endpoint gets exactly one more request, with
    useJSONFormat off, and whatever the loop requests afterwards goes to the
    later endpoints; if useJSONFormat is already off there is no second
    request to this endpoint. *)
Theorem C4_json_400 (host : Host) (body : RequestBody) (urls : list (list N))
    (i : nat) (url : list N) (rest : list (list N))
    (errors : list EndpointError) (s : St) (res : Response)
    (errorData : Envelope) (took : N) :
  fetch host (requestsOf (events s)) (mkRequest url body)
  = mkReply (Responded res) took ->
  status res = 400 ->
  parsed res = inl errorData ->
  envErrorCategory errorData = categoryName JSON ->
  reachesRemediation res errorData ->
  0 <= rateLimitErrorCount (manager s) ->
  let ep := tryEndpoint host body urls i url s in
  let out := failoverLoop host body urls i (url :: rest) errors s in
  let count := jsonErrorCount (manager s) + 1 in
  jsonErrorCount (manager ep.2) = count /\
  (2 <= count ->
   ep.1 = Throw jsonThreshold /\
   out.1 = Throw jsonThreshold /\
   events out.2
   = [endpointFailedLog url jsonThreshold; jsonThresholdLog;
      EFetch (mkRequest url body)] ++ events s /\
   forall batch k t,
   exists e' t', handleBatchFailure host batch k jsonThreshold t = (Throw e', t')) /\
  (count < 2 ->
   exists later,
     requestsOf (events out.2)
     = later
       ++ (if bodyUseJSONFormat body
           then [mkRequest url (withoutJSONFormat body); mkRequest url body]
           else [mkRequest url body])
       ++ requestsOf (events s) /\
     Forall (fun req => reqUrl req ∈ rest) later).
Proof.
  intros Hf Hs Hp Hcat Hreach Hrl ep out count.
  assert (Hok : ok res = false) by (unfold ok; rewrite Hs; reflexivity).
  pose proof (failoverLoop_after_endpoint host body urls i url rest errors s)
    as [Hlater Hesc].
  fold ep out in Hlater, Hesc.
  set (s0 := advance host (now s + Z.of_N took) (emit (EFetch (mkRequest url body)) s)).
  set (s1 := set_manager (fun m => with_jsonErrorCount (jsonErrorCount m + 1) m) s0).
  assert (Hep : ep = remediate host url i urls body res errorData s0)
    by (by apply tryEndpoint_remediate).
  assert (Hjson :
    jsonRemediation host url i urls body res errorData s0
    = if count >=? 2 then (Throw jsonThreshold, emit jsonThresholdLog s1)
      else if bodyUseJSONFormat body then
        match retryInPlace host url i urls (withoutJSONFormat body) res errorData
                (emit (ELog (js "JSON validate failed " ++ rightArrow
                             ++ js " retrying without JSON response_format for this attempt")
                            Warning) s1) with
        | (Return (inl data), s2) => (Return (inl data), s2)
        | (Return (inr (res', errorData')), s2) =>
            (Return (inr (res', errorData', withoutJSONFormat body)), s2)
        | (Throw e, s2) => (Throw e, s2)
        | (Diverge, s2) => (Diverge, s2)
        end
      else (Return (inr (res, errorData, body)), s1)).
  { unfold jsonRemediation. rewrite Hs, Hcat.
    rewrite bool_decide_eq_true_2 by done.
    change ((400 =? 400) && true) with true. cbv iota.
    unfold bind at 1. unfold modify. cbv beta iota.
    unfold bind at 1. unfold get. cbv beta iota. fold s1.
    change (jsonErrorCount (manager s1)) with count.
    destruct (count >=? 2); [reflexivity |].
    destruct (bodyUseJSONFormat body); [| reflexivity].
    unfold bind at 1. unfold logEvent, modify. cbv beta iota.
    unfold bind at 1. fold (withoutJSONFormat body).
    destruct (retryInPlace _ _ _ _ _ _ _ _) as [[[d | [r e]] | e |] s2]; reflexivity. }
  unfold remediate in Hep. rewrite run_bind, Hjson in Hep.
  destruct (Z.geb_spec count 2) as [Hge | Hlt].
  - (* the threshold *)
    assert (Hep' : ep = (Throw jsonThreshold, emit jsonThresholdLog s1)) by exact Hep.
    split; [by rewrite Hep' |]. split; [| lia]. intros _.
    destruct (Hesc jsonThreshold) as [Ho1 Ho2];
      [by rewrite Hep' | vm_compute; reflexivity |].
    split; [by rewrite Hep' |]. split; [done |].
    split; [rewrite Ho2, Hep'; reflexivity |].
    intros batch k t. apply handleBatchFailure_sentinel. by right.
  - destruct (bodyUseJSONFormat body) eqn:Hflag.
    + (* one more request, without the JSON format *)
      set (s1' := emit _ s1) in Hep.
      pose proof (retryInPlace_requests host url i urls (withoutJSONFormat body)
                    res errorData s1') as Hreq.
      pose proof (sameManager_retryInPlace host url i urls (withoutJSONFormat body)
                    res errorData s1') as Hman.
      unfold sameManager in Hman.
      destruct (retryInPlace host url i urls (withoutJSONFormat body) res errorData s1')
        as [[[data | [res' ed']] | e |] s2]; simpl in Hreq, Hman.
      * split; [rewrite Hep; simpl; by rewrite Hman |]. split; [lia |]. intros _.
        destruct Hlater as (later & Hl & Hall). exists later. split; [| done].
        rewrite Hl, Hep. simpl. by rewrite Hreq.
      * rewrite run_bind in Hep.
        destruct (rateLimitRemediation_inert host url i urls (withoutJSONFormat body)
                    res' ed' s2) as (Hr1 & Hr2 & Hr3).
        { rewrite Hman. simpl. done. }
        assert (Hq : requestsOf (events ep.2) = requestsOf (events s2) /\
                     jsonErrorCount (manager ep.2) = jsonErrorCount (manager s2)).
        { destruct (rateLimitRemediation host url i urls (withoutJSONFormat body)
                      res' ed' s2) as [[[d | [r e]] | e |] s3] eqn:Hrl';
            simpl in Hr1, Hr2, Hr3; destruct Hr3 as [Hr3 | [Hr3 Hr4]];
            try discriminate; try (rewrite Hep; simpl; done).
          inversion Hr3; subst.
          rewrite Hep.
          pose proof (emits_failWith_quiet res' ed' s2) as Hfq.
          pose proof (sameManager_failWith res' ed' s2) as Hfm.
          unfold sameManager in Hfm.
          split; [by apply requests_quiet | by rewrite Hfm]. }
        destruct Hq as [Hq1 Hq2].
        split; [rewrite Hq2, Hman; reflexivity |]. split; [lia |]. intros _.
        destruct Hlater as (later & Hl & Hall). exists later. split; [| done].
        rewrite Hl, Hq1, Hreq. reflexivity.
      * split; [rewrite Hep; simpl; by rewrite Hman |]. split; [lia |]. intros _.
        destruct Hlater as (later & Hl & Hall). exists later. split; [| done].
        rewrite Hl, Hep. simpl. by rewrite Hreq.
      * split; [rewrite Hep; simpl; by rewrite Hman |]. split; [lia |]. intros _.
        destruct Hlater as (later & Hl & Hall). exists later. split; [| done].
        rewrite Hl, Hep. simpl. by rewrite Hreq.
    + (* the flag is already off: no second request *)
      rewrite run_bind in Hep.
      destruct (rateLimitRemediation_inert host url i urls body res errorData s1)
        as (Hr1 & Hr2 & Hr3); [simpl; done |].
      assert (Hq : requestsOf (events ep.2) = requestsOf (events s1) /\
                   jsonErrorCount (manager ep.2) = jsonErrorCount (manager s1)).
      { destruct (rateLimitRemediation host url i urls body res errorData s1)
          as [[[d | [r e]] | e |] s3] eqn:Hrl';
          simpl in Hr1, Hr2, Hr3; destruct Hr3 as [Hr3 | [Hr3 Hr4]];
          try discriminate; try (rewrite Hep; simpl; done).
        inversion Hr3; subst.
        rewrite Hep.
        pose proof (emits_failWith_quiet res errorData s1) as Hfq.
        pose proof (sameManager_failWith res errorData s1) as Hfm.
        unfold sameManager in Hfm.
        split; [by apply requests_quiet | by rewrite Hfm]. }
      destruct Hq as [Hq1 Hq2].
      split; [rewrite Hq2; reflexivity |]. split; [lia |]. intros _.
      destruct Hlater as (later & Hl & Hall). exists later. split; [| done].
      rewrite Hl, Hq1. reflexivity.
Qed.

(** *** The failover client on concrete networks *)

Lemma C1_first_429_aborts_witness :
  exists s',
    failoverLoop rateLimitedHost (helloBody true) [urlA; urlB] 0 [urlA; urlB] []
      (stateWith twoEndpoints true)
    = (Throw rateLimitThreshold, s') /\
    requestsOf (events s') = [mkRequest urlA (helloBody true)] /\
    rateLimitErrorCount (manager s') = 1 /\
    requestsPerMinute (settings (plugin s')) = 15.
Proof.
  destruct (C1_first_429_aborts rateLimitedHost (helloBody true) [urlA; urlB] 0
              urlA [urlB] [] (stateWith twoEndpoints true)
              (failureResponse 429 (js "Rate limit reached, try again in 2s") [])
              (failureEnvelope (js "Rate limit reached, try again in 2s") []) 0)
    as (s' & Hrun & Hev & Hcount & Hset & _).
  - reflexivity.
  - reflexivity.
  - reflexivity.
  - repeat split; vm_compute; discriminate.
  - simpl. lia.
  - exists s'. split; [exact Hrun |]. split; [by rewrite Hev |].
    split; [exact Hcount | by rewrite Hset].
Defined.

(** C1 as the claim words it fails: the very first 429 of a run ends the
    operation with the sentinel.  One request was made, so the endpoint was
    not retried; nothing slept; the requests-per-minute are still 15. *)
Lemma C1_counterexample :
  rateLimitedRun.1 = Throw (newError (js "RATE_LIMIT_THRESHOLD")) /\
  requestsOf (events rateLimitedRun.2) = [mkRequest urlA (helloBody true)] /\
  Forall (fun ev => match ev with
                    | ESleep _ | ESaveSettings => False
                    | _ => True
                    end) (events rateLimitedRun.2) /\
  requestsPerMinute (settings (plugin rateLimitedRun.2)) = 15 /\
  rateLimitErrorCount (manager rateLimitedRun.2) = 1.
Proof.
  split; [vm_compute; reflexivity |]. split; [vm_compute; reflexivity |].
  split; [| split; vm_compute; reflexivity].
  unfold rateLimitedRun. vm_compute. repeat constructor.
Qed.

Lemma C4_json_400_witness :
  (exists later,
      requestsOf
        (events (failoverLoop jsonFailingHost (helloBody true) [urlA; urlB] 0
                   [urlA; urlB] [] (stateWith twoEndpoints true)).2)
      = later ++ [mkRequest urlA (withoutJSONFormat (helloBody true));
                  mkRequest urlA (helloBody true)] /\
      Forall (fun req => reqUrl req ∈ [urlB]) later) /\
  (failoverLoop jsonFailingHost (helloBody true) [urlA; urlB] 0 [urlA; urlB] []
     (stateWith twoEndpoints true)).1 = Throw jsonThreshold.
Proof.
  split; [| vm_compute; reflexivity].
  destruct (C4_json_400 jsonFailingHost (helloBody true) [urlA; urlB] 0 urlA [urlB]
              [] (stateWith twoEndpoints true)
              (failureResponse 400 (js "json_validate_failed") (js "json"))
              (failureEnvelope (js "json_validate_failed") (js "json")) 0)
    as (_ & _ & Hfirst).
  - reflexivity.
  - reflexivity.
  - reflexivity.
  - reflexivity.
  - repeat split; vm_compute; discriminate.
  - simpl. lia.
  - destruct Hfirst as (later & Hl & Hall); [simpl; lia |].
    exists later. split; [| exact Hall].
    rewrite Hl. reflexivity.
Defined.

(** C4 as the claim words it fails twice over.  A request that already has
    useJSONFormat off is not retried at the endpoint that answers 400/json:
    each endpoint gets one request and the second 400 reaches the threshold.
    And a 400/json envelope whose text names a capacity problem is thrown
    as such before the counter is touched. *)
Lemma C4_counterexample :
  let run := postToWorkerWithFailover jsonFailingHost (helloBody false)
               (stateWith twoEndpoints false) in
  let capacityRun := postToWorkerWithFailover jsonCapacityHost (helloBody true)
                       (stateWith twoEndpoints true) in
  requestsOf (events run.2)
  = [mkRequest urlB (helloBody false); mkRequest urlA (helloBody false)] /\
  run.1 = Throw (newError (js "JSON_THRESHOLD")) /\
  jsonErrorCount (manager capacityRun.2) = 0 /\
  capacityRun.1 = Throw (newError (js "model is over capacity")) /\
  requestsOf (events capacityRun.2) = [mkRequest urlA (helloBody true)].
Proof. repeat split; vm_compute; reflexivity. Qed.

Lemma C5_all_endpoints_failed_witness :
  serverDownRun.1 = Throw allEndpointsFailed /\
  head (events serverDownRun.2)
  = Some (ELog (js "All worker endpoints failed. Summary:" ++ newline
                ++ js "1) https://a.example/ -> HTTP 500: boom [server]" ++ newline
                ++ js "2) https://b.example/ -> HTTP 500: boom [server]") Error) /\
  includes (summaryText serverDownErrors)
           (js "2) https://b.example/ -> HTTP 500: boom [server]") = true.
Proof.
  pose (run := failoverLoop serverDownHost (helloBody true) [urlA; urlB] 0
                 [urlA; urlB] [] (stateWith twoEndpoints true)).
  destruct (C5_all_endpoints_failed serverDownHost (helloBody true)
              (stateWith twoEndpoints true) (mkEndpoints urlA [urlB])
              serverDownErrors run.2 eq_refl)
    as (Hrun & _ & Hlines).
  - vm_compute. reflexivity.
  - split; [unfold serverDownRun; by rewrite Hrun |].
    split; [vm_compute; reflexivity |].
    apply (Hlines 1%nat (mkEndpointError urlB (js "HTTP 500: boom") SERVER)).
    reflexivity.
Defined.

(** C5 as the claim words it fails: the failure that is raised carries the
    fixed message only, and neither an endpoint's message nor its category
    nor its URL. *)
Lemma C5_counterexample :
  serverDownRun.1 = Throw (newError (js "All worker endpoints failed")) /\
  includes (js "All worker endpoints failed") (js "HTTP 500: boom") = false /\
  includes (js "All worker endpoints failed") (categoryName SERVER) = false /\
  includes (js "All worker endpoints failed") urlA = false.
Proof. repeat split; vm_compute; reflexivity. Qed.

(* ===================================================================== *)
(** * Further properties of the engine                                   *)
(* ===================================================================== *)

(** ** CircuitBreaker *)

Lemma cb_closed_below n cb :
  CircuitBreaker.reachable n cb ->
  CircuitBreaker.name cb = n /\
  (CircuitBreaker.state cb = CircuitBreaker.CLOSED ->
   CircuitBreaker.failureCount cb < CircuitBreaker.failureThreshold).
Proof.
  induction 1 as [| cb cb' Hr [Hname IH] Hstep]; [by split |].
  destruct Hstep as [now cb cb' He | cb | now cb].
  - unfold CircuitBreaker.enter in He. destruct (CircuitBreaker.state cb) eqn:Hs.
    + inversion He; subst. split; [done | auto].
    + destruct (now - CircuitBreaker.lastFailureTime cb >? CircuitBreaker.resetTimeout);
        inversion He; subst. by split.
    + inversion He; subst. split; [done | intros; congruence].
  - by split.
  - split; [done |]. unfold CircuitBreaker.onFailure; simpl.
    destruct (Z.geb_spec (CircuitBreaker.failureCount cb + 1)
                CircuitBreaker.failureThreshold); [done |].
    intros _. lia.
Qed.

(** X1.  In every state a breaker can reach, it is closed exactly when
    fewer than three failures have been counted since the last success;
    and then [execute] lets the call through: the operation runs, a
    success resets the count and a failure adds one to it. *)
Theorem breaker_closed_iff_below_threshold {W A : Type} (n : list N)
    (clock : W -> Z) (op : W -> Result A * W) (cb : CircuitBreaker.t) (w : W) :
  CircuitBreaker.reachable n cb ->
  (CircuitBreaker.state cb = CircuitBreaker.CLOSED <->
   CircuitBreaker.failureCount cb < 3) /\
  (CircuitBreaker.failureCount cb < 3 ->
   CircuitBreaker.execute clock op cb w
   = match op w with
     | (Return v, w') => (Return v, CircuitBreaker.onSuccess cb, w')
     | (Throw e, w') => (Throw e, CircuitBreaker.onFailure (clock w') cb, w')
     | (Diverge, w') => (Diverge, cb, w')
     end).
Proof.
  intros Hr. destruct (cb_closed_below _ _ Hr) as [_ Hlt].
  destruct (cb_reachable_inv _ _ Hr) as [_ Hge].
  unfold CircuitBreaker.failureThreshold in *.
  assert (Hiff : CircuitBreaker.state cb = CircuitBreaker.CLOSED <->
                 CircuitBreaker.failureCount cb < 3).
  { split; [done |]. intros Hc.
    destruct (decide (CircuitBreaker.state cb = CircuitBreaker.CLOSED)) as [| Hne];
      [done |]. specialize (Hge Hne). lia. }
  split; [done |]. intros Hc. apply Hiff in Hc.
  unfold CircuitBreaker.execute, CircuitBreaker.enter. rewrite Hc.
  destruct (op w) as [[v | e |] w']; done.
Qed.

Lemma breaker_closed_iff_below_threshold_witness :
  CircuitBreaker.state
    (CircuitBreaker.onFailure 7 (CircuitBreaker.create (js "TranslationService")))
  = CircuitBreaker.CLOSED /\
  CircuitBreaker.execute id countingOp
    (CircuitBreaker.onFailure 7 (CircuitBreaker.create (js "TranslationService"))) 8
  = (Return tt,
     CircuitBreaker.mk (js "TranslationService") 0 7 CircuitBreaker.CLOSED, 9).
Proof.
  destruct (breaker_closed_iff_below_threshold (js "TranslationService") id
              countingOp
              (CircuitBreaker.onFailure 7
                 (CircuitBreaker.create (js "TranslationService"))) 8)
    as [Hiff Hrun].
  - eapply CircuitBreaker.reach_step;
      [apply CircuitBreaker.reach_create | apply CircuitBreaker.step_failure].
  - split; [apply Hiff; simpl; lia |].
    rewrite Hrun by (simpl; lia). reflexivity.
Defined.

(** ** ExponentialBackoff *)

(** X2.  While attempts are left (fewer than five made), [wait] counts
    the attempt and sleeps 1000 * 2^attempts ms, which is at most 16000
    ms: the cap of 30000 ms is never what [wait] sleeps.  From the fifth
    attempt on it throws and leaves the counter alone. *)
Theorem backoff_wait_schedule (b : ExponentialBackoff.t) :
  0 <= ExponentialBackoff.attemptCount b ->
  (ExponentialBackoff.attemptCount b < 5 ->
   ExponentialBackoff.wait b
   = (Return (1000 * 2 ^ ExponentialBackoff.attemptCount b),
      ExponentialBackoff.mk (ExponentialBackoff.attemptCount b + 1)) /\
   1000 <= 1000 * 2 ^ ExponentialBackoff.attemptCount b <= 16000) /\
  (5 <= ExponentialBackoff.attemptCount b ->
   ExponentialBackoff.wait b
   = (Throw (newError (js "Maximum backoff attempts reached")), b) /\
   ExponentialBackoff.getCurrentDelay b = 30000).
Proof.
  intros Hnn. unfold ExponentialBackoff.wait, ExponentialBackoff.getCurrentDelay,
    ExponentialBackoff.maxAttempts, ExponentialBackoff.baseDelay,
    ExponentialBackoff.maxDelay.
  split.
  - intros Hlt.
    destruct (Z.geb_spec (ExponentialBackoff.attemptCount b) 5); [lia |].
    assert (Hpow : 1 <= 2 ^ ExponentialBackoff.attemptCount b <= 16).
    { assert (Hc : ExponentialBackoff.attemptCount b = 0
                   \/ ExponentialBackoff.attemptCount b = 1
                   \/ ExponentialBackoff.attemptCount b = 2
                   \/ ExponentialBackoff.attemptCount b = 3
                   \/ ExponentialBackoff.attemptCount b = 4) by lia.
      destruct Hc as [-> | [-> | [-> | [-> | ->]]]]; simpl; lia. }
    split; [| lia]. f_equal. f_equal. lia.
  - intros Hge.
    destruct (Z.geb_spec (ExponentialBackoff.attemptCount b) 5); [| lia].
    split; [done |].
    assert (Hpow : 2 ^ 5 <= 2 ^ ExponentialBackoff.attemptCount b)
      by (apply Z.pow_le_mono_r; lia).
    change (2 ^ 5) with 32 in Hpow. lia.
Qed.

Lemma backoff_wait_schedule_witness :
  ExponentialBackoff.wait (ExponentialBackoff.mk 4)
  = (Return 16000, ExponentialBackoff.mk 5) /\
  ExponentialBackoff.wait (ExponentialBackoff.mk 5)
  = (Throw (newError (js "Maximum backoff attempts reached")),
     ExponentialBackoff.mk 5).
Proof.
  destruct (backoff_wait_schedule (ExponentialBackoff.mk 4)) as [Hgo _];
    [simpl; lia |].
  destruct (backoff_wait_schedule (ExponentialBackoff.mk 5)) as [_ Hstop];
    [simpl; lia |].
  split.
  - destruct Hgo as [Hrun _]; [simpl; lia |]. exact Hrun.
  - destruct Hstop as [Hrun _]; [simpl; lia |]. exact Hrun.
Defined.

(** ** ErrorClassifier *)

(** X4.  An error that carries the status 429 is classified as a capacity,
    a model-capacity, a model or a rate-limit error, whatever its text:
    never as a JSON, network, server, parse or validation error. *)
Theorem status_429_category (e : JsError) :
  errStatus e = Some 429 ->
  ErrorClassifier.categorizeError e ∈ [CAPACITY; MODEL_CAPACITY; MODEL; RATE_LIMIT].
Proof.
  intros Hstatus. unfold ErrorClassifier.categorizeError. rewrite Hstatus.
  cbv zeta.
  change (ErrorClassifier.statusIs (Some 429) 429) with true.
  rewrite orb_true_r.
  repeat match goal with
         | |- context [if ?b then _ else _] => destruct b
         end; apply list_elem_of_In; simpl; auto 10.
Qed.

Lemma status_429_category_witness :
  ErrorClassifier.categorizeError
    (mkJsError (js "Error") (js "HTTP 429") (Some 429))
  ∈ [CAPACITY; MODEL_CAPACITY; MODEL; RATE_LIMIT].
Proof. apply status_429_category. reflexivity. Defined.

(** ** OperationSummaryManager *)

Section JsMapFacts.
Context {K V : Type} `{EqDecision K}.
Implicit Types (k : K) (v : V) (m : list (K * V)).

Lemma mapGet_set_same k v m : mapGet k (mapSet k v m) = Some v.
Proof.
  induction m as [| [k' v'] m IH]; simpl.
  - by rewrite decide_True.
  - destruct (decide (k = k')) as [-> | Hne]; simpl.
    + by rewrite decide_True.
    + by rewrite decide_False.
Qed.

Lemma mapGet_set_other k k' v m :
  k <> k' -> mapGet k' (mapSet k v m) = mapGet k' m.
Proof.
  intros Hne. induction m as [| [k0 v0] m IH]; simpl.
  - by rewrite decide_False.
  - destruct (decide (k = k0)) as [-> | Hne0]; simpl.
    + by rewrite !decide_False.
    + destruct (decide (k' = k0)); [done | apply IH].
Qed.

Lemma mapGet_none_keys k m : mapGet k m = None <-> k ∉ m.*1.
Proof.
  induction m as [| [k0 v0] m IH]; simpl.
  - split; [intros _; apply not_elem_of_nil | done].
  - destruct (decide (k = k0)) as [-> | Hne].
    + split; [done |]. intros Hnot. exfalso. apply Hnot. apply elem_of_cons. by left.
    + rewrite IH. rewrite not_elem_of_cons. tauto.
Qed.

Lemma mapSet_keys k v m :
  (mapSet k v m).*1 = if bool_decide (k ∈ m.*1) then m.*1 else m.*1 ++ [k].
Proof.
  induction m as [| [k0 v0] m IH]; [done |].
  cbn [mapSet]. rewrite (fmap_cons fst (k0, v0) m). cbn [fst].
  destruct (decide (k = k0)) as [-> | Hne].
  - rewrite fmap_cons. cbn [fst].
    rewrite bool_decide_eq_true_2; [done | apply elem_of_cons; by left].
  - rewrite fmap_cons. cbn [fst]. rewrite IH.
    destruct (bool_decide (k ∈ m.*1)) eqn:Hin.
    + apply bool_decide_eq_true_1 in Hin.
      rewrite bool_decide_eq_true_2; [done | apply elem_of_cons; by right].
    + apply bool_decide_eq_false_1 in Hin.
      rewrite bool_decide_eq_false_2; [done |].
      rewrite not_elem_of_cons. done.
Qed.

End JsMapFacts.

Lemma getSuggestion_inj c1 c2 :
  ErrorClassifier.getSuggestion c1 [] = ErrorClassifier.getSuggestion c2 [] ->
  c1 = c2.
Proof.
  destruct c1, c2; intros Heq; try reflexivity; vm_compute in Heq; discriminate.
Qed.

Lemma recordCalls_snoc calls call m :
  recordCalls (calls ++ [call]) m = recordCall call (recordCalls calls m).
Proof. unfold recordCalls. by rewrite foldl_app. Qed.

Lemma sumZ_snoc {A} (f : A -> Z) l x :
  sumZ (f <$> l ++ [x]) = sumZ (f <$> l) + f x.
Proof.
  unfold sumZ. rewrite fmap_app, foldr_app. simpl.
  generalize (f <$> l). intros zs. induction zs as [| z zs IH]; simpl; lia.
Qed.

Lemma filter_snoc_length {A} (f : A -> bool) l x :
  Z.of_nat (length (List.filter f (l ++ [x])))
  = Z.of_nat (length (List.filter f l)) + (if f x then 1 else 0).
Proof.
  rewrite List.filter_app, length_app. simpl. destruct (f x); simpl; lia.
Qed.

(** X5.  After [startOperation], however the batch loop records successes
    and failures, the summary counts every call: the successes, the
    failures, the words of both, and for each error category the failures
    classified so.  The categories appear once each, in the order in which
    they first occurred, and the suggestions are theirs, one for each, in
    the same order. *)
Theorem summary_counts_every_call (id : list N) (total : Z)
    (calls : list RecordCall) :
  exists s,
    recordCalls calls (OperationSummaryManager.startOperation id total) = Some s /\
    OperationSummaryManager.operationId s = id /\
    OperationSummaryManager.totalWords s = total /\
    OperationSummaryManager.successCount s
    = Z.of_nat (length (List.filter isSuccessCall calls)) /\
    OperationSummaryManager.failureCount s
    = Z.of_nat (length (List.filter (fun call => negb (isSuccessCall call)) calls)) /\
    OperationSummaryManager.processedWords s = sumZ (callWords <$> calls) /\
    (forall category,
        default 0 (mapGet category (OperationSummaryManager.errorCategories s))
        = Z.of_nat (length (List.filter (failsWith category) calls))) /\
    NoDup (OperationSummaryManager.errorCategories s).*1 /\
    OperationSummaryManager.suggestions s
    = (fun category => ErrorClassifier.getSuggestion category [])
        <$> (OperationSummaryManager.errorCategories s).*1.
Proof.
  induction calls as [| call calls IH] using rev_ind.
  - eexists. split; [reflexivity |]. simpl.
    repeat split; try done. apply NoDup_nil_2.
  - destruct IH as (s & Hrun & Hid & Htotal & Hok & Hfail & Hwords & Hcat & Hnd & Hsug).
    rewrite recordCalls_snoc, Hrun.
    destruct call as [words | error words]; simpl.
    + eexists. split; [reflexivity |]. simpl.
      rewrite !filter_snoc_length, sumZ_snoc. simpl.
      repeat split; try done; try lia.
      intros category. rewrite filter_snoc_length. simpl. rewrite Hcat. lia.
    + eexists. split; [reflexivity |]. simpl.
      rewrite !filter_snoc_length, sumZ_snoc. simpl.
      set (category := ErrorClassifier.categorizeError error).
      split; [done |]. split; [done |]. split; [lia |]. split; [lia |].
      split; [lia |]. split; [| split].
      * intros c. rewrite filter_snoc_length. simpl. fold category.
        destruct (decide (category = c)) as [<- | Hne].
        -- rewrite mapGet_set_same, bool_decide_eq_true_2 by done. simpl.
           rewrite <- Hcat. lia.
        -- rewrite mapGet_set_other, bool_decide_eq_false_2 by done.
           rewrite Hcat. lia.
      * rewrite mapSet_keys. destruct (bool_decide _) eqn:Hin; [done |].
        apply bool_decide_eq_false_1 in Hin.
        apply NoDup_app. split; [done |]. split; [| apply NoDup_singleton].
        intros x Hx Hx'. apply list_elem_of_singleton in Hx'. by subst.
      * rewrite mapSet_keys, Hsug.
        destruct (bool_decide (category ∈ _)) eqn:Hin.
        -- apply bool_decide_eq_true_1 in Hin.
           rewrite bool_decide_eq_true_2; [done |].
           apply list_elem_of_fmap. by exists category.
        -- apply bool_decide_eq_false_1 in Hin.
           rewrite bool_decide_eq_false_2; [by rewrite fmap_app |].
           intros Hmem. apply list_elem_of_fmap in Hmem as (c & Heq & Hc).
           apply getSuggestion_inj in Heq. by subst.
Qed.

(** ** The result cache, again *)

Lemma get_set_eq cacheStore key entry :
  Cache.get (Cache.set cacheStore key entry) key = Cache.FoundEntry entry.
Proof.
  unfold Cache.set, Cache.get.
  destruct (bool_decide (key = js "__proto__")) eqn:Hkey; simpl.
  - destruct (bool_decide (Cache.own cacheStore !! key = None)) eqn:Hown; simpl.
    + apply bool_decide_eq_true in Hown. rewrite Hown. unfold Cache.inherited.
      by rewrite Hkey.
    + by rewrite lookup_insert_eq.
  - by rewrite lookup_insert_eq.
Qed.

Lemma get_set_ne cacheStore key key' entry :
  key' <> key -> key <> js "__proto__" ->
  Cache.get (Cache.set cacheStore key entry) key' = Cache.get cacheStore key'.
Proof.
  intros Hne Hkey. unfold Cache.set, Cache.get.
  rewrite (bool_decide_eq_false_2 _ Hkey). simpl.
  by rewrite lookup_insert_ne.
Qed.

Lemma own_remove_set cacheStore key entry :
  Cache.own (Cache.remove (Cache.set cacheStore key entry) key)
  = delete key (Cache.own cacheStore).
Proof.
  unfold Cache.remove, Cache.set.
  destruct (_ && _); simpl; [done | apply delete_insert_eq].
Qed.

(** X6.  What [setCachedResult] stores, [getCachedResult] gives back for
    every spelling of the word that has the same lower case, as long as no
    more than the time to live has passed: the stored result, or nothing
    when the stored result is the all-empty one.  Once more time has passed
    the lookup misses and deletes the key, so that the own entries are
    those from before the store without that key.  Unless it was the key
    [__proto__] that was stored, lookups of words with another lower case
    are not affected by the store. *)
Theorem cache_set_then_get (cacheTTLHours : option Z) (t0 t1 : Z)
    (cacheStore : Cache.Store) (word word' : list N)
    (data : GroqTranslationResult) :
  let stored := Cache.setCachedResult t0 cacheStore word data in
  (toLowerCase word' = toLowerCase word ->
   t1 - t0 <= Cache.ttlMs cacheTTLHours ->
   Cache.getCachedResult cacheTTLHours t1 stored word'
   = (Return (if isEmptyTranslation data then None else Some data), stored)) /\
  (toLowerCase word' = toLowerCase word ->
   t1 - t0 > Cache.ttlMs cacheTTLHours ->
   Cache.getCachedResult cacheTTLHours t1 stored word'
   = (Return None,
      Cache.mkStore (delete (toLowerCase word) (Cache.own cacheStore))
                    (Cache.proto stored))) /\
  (toLowerCase word' <> toLowerCase word ->
   toLowerCase word <> js "__proto__" ->
   (Cache.getCachedResult cacheTTLHours t1 stored word').1
   = (Cache.getCachedResult cacheTTLHours t1 cacheStore word').1).
Proof.
  intros stored. subst stored.
  unfold Cache.getCachedResult, Cache.setCachedResult.
  split; [| split].
  - intros -> Hfresh. rewrite get_set_eq. simpl.
    destruct (Z.gtb_spec (t1 - t0) (Cache.ttlMs cacheTTLHours)); [lia |].
    by destruct (isEmptyTranslation data).
  - intros -> Hold. rewrite get_set_eq. simpl.
    destruct (Z.gtb_spec (t1 - t0) (Cache.ttlMs cacheTTLHours)); [| lia].
    f_equal. rewrite <- own_remove_set with (entry := Cache.mkEntry t0 data).
    reflexivity.
  - intros Hne Hkey. rewrite get_set_ne by done.
    destruct (Cache.get cacheStore (toLowerCase word')) as [entry | n | result | |];
      try done.
    + destruct (t1 - Cache.ts entry >? Cache.ttlMs cacheTTLHours); [done |].
      by destruct (isEmptyTranslation (Cache.data entry)).
    + by destruct (n =? 0).
Qed.

(** X7.  The hourly cleanup removes exactly the own entries that a lookup
    at that instant would treat as expired: what is left are the entries no
    older than the time to live, on the same prototype; every lookup of a
    word whose lower case names nothing that the store inherits answers as
    it would have without the cleanup; and a second cleanup at the same
    instant finds nothing to remove. *)
Theorem cache_cleanup_keeps_answers (cacheTTLHours : option Z) (now : Z)
    (cacheStore : Cache.Store) :
  let swept := removeExpired cacheTTLHours now cacheStore in
  (forall key entry,
      Cache.own swept.1 !! key = Some entry <->
      Cache.own cacheStore !! key = Some entry /\
      now - Cache.ts entry <= Cache.ttlMs cacheTTLHours) /\
  Cache.proto swept.1 = Cache.proto cacheStore /\
  (forall word,
      Cache.inherited (Cache.proto cacheStore) (toLowerCase word) = Cache.NotFound ->
      (Cache.getCachedResult cacheTTLHours now swept.1 word).1
      = (Cache.getCachedResult cacheTTLHours now cacheStore word).1) /\
  0 <= swept.2 /\
  removeExpired cacheTTLHours now swept.1 = (swept.1, 0).
Proof.
  intros swept. subst swept. unfold removeExpired. cbv zeta. cbn [fst snd].
  set (ttl := Cache.ttlMs cacheTTLHours).
  set (kept := filter (fun kv : list N * Cache.Entry => ~ now - Cache.ts kv.2 > ttl)
                      (Cache.own cacheStore)).
  assert (Hkept : forall key entry,
             kept !! key = Some entry <->
             Cache.own cacheStore !! key = Some entry /\ now - Cache.ts entry <= ttl).
  { intros key entry. unfold kept. rewrite map_lookup_filter_Some. simpl.
    split; intros [H1 H2]; (split; [done | lia]). }
  cbn [Cache.own Cache.proto].
  split; [exact Hkept |]. split; [done |]. split; [| split].
  - intros word Hplain. unfold Cache.getCachedResult, Cache.get. fold ttl.
    cbn [Cache.own Cache.proto]. rewrite Hplain.
    destruct (Cache.own cacheStore !! toLowerCase word) as [entry |] eqn:Hstore.
    + destruct (Z.gtb_spec (now - Cache.ts entry) ttl) as [Hold | Hfresh].
      * destruct (kept !! toLowerCase word) as [entry' |] eqn:Hk; [| done].
        apply Hkept in Hk as [Hk1 Hk2]. rewrite Hstore in Hk1.
        inversion Hk1; subst. lia.
      * assert (Hk : kept !! toLowerCase word = Some entry) by (by apply Hkept).
        rewrite Hk.
        destruct (Z.gtb_spec (now - Cache.ts entry) ttl); [lia |].
        by destruct (isEmptyTranslation (Cache.data entry)).
    + destruct (kept !! toLowerCase word) as [entry' |] eqn:Hk; [| done].
      apply Hkept in Hk as [Hk1 _]. congruence.
  - lia.
  - assert (Heq : filter (fun kv : list N * Cache.Entry =>
                            ~ now - Cache.ts kv.2 > ttl) kept = kept).
    { apply map_eq. intros key. apply option_eq. intros entry.
      rewrite map_lookup_filter_Some. simpl. rewrite Hkept. intuition lia. }
    rewrite Heq. f_equal. lia.
Qed.

(** The condition on the word is needed: an expired entry stored under
    [constructor] is a miss while it is there, and once the cleanup has
    removed it the lookup finds the member that every object inherits. *)
Lemma cleanup_uncovers_inherited_member :
  let cacheStore :=
    Cache.plain (<[js "constructor" := Cache.mkEntry 0 helloResult]> ∅) in
  let now := 100000000 in
  (Cache.getCachedResult (Some 24) now cacheStore (js "Constructor")).1
  = Return None /\
  (Cache.getCachedResult (Some 24) now
     (removeExpired (Some 24) now cacheStore).1 (js "Constructor")).1
  = Throw Cache.undefinedResult.
Proof. split; vm_compute; reflexivity. Qed.

(** ** AdvancedRateLimiter, again *)

Lemma acquireSlot_window {W : Type} (clock : W -> Z) (delay : Z -> W -> W)
    (getMaxRequests : W -> Z) fuel rl w rl' w' :
  AdvancedRateLimiter.acquireSlot clock delay getMaxRequests fuel rl w
  = Some (rl', w') ->
  Z.of_nat (length (AdvancedRateLimiter.requests rl')) <= getMaxRequests w' /\
  Forall (fun time => clock w' - time < AdvancedRateLimiter.windowMs)
         (AdvancedRateLimiter.requests rl') /\
  last (AdvancedRateLimiter.requests rl') = Some (clock w').
Proof.
  revert rl w. induction fuel as [| fuel IH]; intros rl w Hrun; [discriminate |].
  rewrite acquireSlot_round in Hrun. cbv zeta in Hrun.
  assert (Hwithin :
            Forall (fun time => clock w - time < AdvancedRateLimiter.windowMs)
                   (AdvancedRateLimiter.requests
                      (AdvancedRateLimiter.cleanupOldRequests (clock w) rl))).
  { apply Forall_forall. intros x Hx. apply list_elem_of_filter in Hx. tauto. }
  remember (AdvancedRateLimiter.cleanupOldRequests (clock w) rl) as rl1 eqn:Hrl1.
  clear Hrl1.
  destruct (Z.geb_spec (Z.of_nat (length (AdvancedRateLimiter.requests rl1)))
              (getMaxRequests w)) as [Hfull | Hfree].
  - by apply IH in Hrun.
  - injection Hrun as <- <-. cbn [AdvancedRateLimiter.requests].
    rewrite length_app. cbn [length].
    split; [lia |]. split; [| apply last_snoc].
    apply Forall_app. split; [exact Hwithin |].
    apply Forall_singleton. unfold AdvancedRateLimiter.windowMs. lia.
Qed.

(** X8.  Whenever the manager's [acquireSlot] returns, the slot just taken
    is stamped with the current time, all the slots on record lie within
    the last 60000 ms, and there are no more of them than the ceiling
    max(1, min(requestsPerMinute, cap)), where the cap is 60 for a
    high-limit model and 30 otherwise: the limiter never lets more than 60
    requests, or 30, into one window. *)
Theorem rate_limiter_never_exceeds_ceiling (host : Host) (s s' : St) :
  acquireSlot host s = (Return tt, s') ->
  let admitted := AdvancedRateLimiter.requests (rateLimiter (manager s')) in
  Z.of_nat (length admitted) <= getMaxRequests s' /\
  1 <= getMaxRequests s' <= 60 /\
  (groqModel (settings (plugin s')) ∉ highLimitModels (settings (plugin s')) ->
   getMaxRequests s' <= 30) /\
  Forall (fun time => now s' - time < 60000) admitted /\
  last admitted = Some (now s').
Proof.
  intros Hrun admitted. subst admitted. unfold acquireSlot in Hrun.
  destruct (AdvancedRateLimiter.acquireSlot _ _ _ _ _ _) as [[rl' s1] |] eqn:Hslot;
    [| discriminate].
  inversion Hrun; subst. apply acquireSlot_window in Hslot as (Hlen & Hall & Hlast).
  simpl. split; [exact Hlen |].
  unfold getMaxRequests, getMaxRequestsPerMinute. simpl.
  split; [| split; [| split; [exact Hall | exact Hlast]]].
  - destruct (bool_decide _); lia.
  - intros Hnot. rewrite bool_decide_eq_false_2 by done. lia.
Qed.

Lemma rate_limiter_never_exceeds_ceiling_witness :
  let s' := (acquireSlot echoHost (stateWith None true)).2 in
  let admitted := AdvancedRateLimiter.requests (rateLimiter (manager s')) in
  Z.of_nat (length admitted) <= getMaxRequests s' /\
  1 <= getMaxRequests s' <= 60 /\
  (groqModel (settings (plugin s')) ∉ highLimitModels (settings (plugin s')) ->
   getMaxRequests s' <= 30) /\
  Forall (fun time => now s' - time < 60000) admitted /\
  last admitted = Some (now s').
Proof.
  exact (rate_limiter_never_exceeds_ceiling echoHost (stateWith None true)
           (acquireSlot echoHost (stateWith None true)).2 eq_refl).
Defined.

(** ** The order and the cut of the batches *)

Lemma insertByScore_descending w sorted :
  descending sorted -> descending (insertByScore w sorted).
Proof.
  induction sorted as [| x rest IH]; intros Hd; simpl.
  - split; [constructor | done].
  - destruct Hd as [Hall Hrest].
    destruct (Z.ltb_spec (score w) (score x)) as [Hlt | Hge]; simpl.
    + split; [| by apply IH].
      apply Forall_forall. intros y Hy. apply elem_of_insertByScore in Hy as [-> | Hy];
        [lia |]. rewrite Forall_forall in Hall. by apply Hall.
    + split; [| by split].
      constructor; [lia |]. eapply Forall_impl; [exact Hall |]. simpl. intros y Hy. lia.
Qed.

Lemma descending_lookup l i j a b :
  descending l -> (i < j)%nat -> l !! i = Some a -> l !! j = Some b ->
  score b <= score a.
Proof.
  revert i j. induction l as [| x rest IH]; intros i j Hd Hij Ha Hb; [done |].
  destruct Hd as [Hall Hrest]. destruct j as [| j]; [lia |].
  destruct i as [| i]; simpl in Ha, Hb.
  - inversion Ha; subst. rewrite Forall_forall in Hall. apply Hall.
    by eapply list_elem_of_lookup_2.
  - apply (IH i j); [done | lia | done | done].
Qed.

Lemma insertByScore_perm w sorted : insertByScore w sorted ≡ₚ w :: sorted.
Proof.
  induction sorted as [| x rest IH]; simpl; [done |].
  destruct (score w <? score x); [| done].
  rewrite IH. apply Permutation_swap.
Qed.

Lemma insertByScore_filter (k : Z) w sorted :
  filter (fun x => score x = k) (insertByScore w sorted)
  = filter (fun x => score x = k) (w :: sorted).
Proof.
  induction sorted as [| x rest IH]; simpl; [done |].
  destruct (Z.ltb_spec (score w) (score x)) as [Hlt | Hge]; [| done].
  rewrite filter_cons, IH, !filter_cons.
  destruct (decide (score x = k)) as [Hx | Hx];
    destruct (decide (score w = k)) as [Hw | Hw]; try done. lia.
Qed.

(** X9.  [prioritizeWords] is a stable sort by descending score: its result
    is a rearrangement of the words, no word comes before a word of a
    higher score, every word with a code unit above 0x7F comes before
    every pure ASCII word, and words of equal score keep the order they
    had. *)
Theorem prioritizeWords_stable_sort (words : list (list N)) :
  prioritizeWords words ≡ₚ words /\
  (forall i j a b,
      (i < j)%nat ->
      prioritizeWords words !! i = Some a ->
      prioritizeWords words !! j = Some b ->
      score b <= score a) /\
  (forall i j a b,
      prioritizeWords words !! i = Some a ->
      prioritizeWords words !! j = Some b ->
      existsb (fun c => (127 <? c)%N) a = true ->
      existsb (fun c => (127 <? c)%N) b = false ->
      (i < j)%nat) /\
  (forall k : Z,
      filter (fun w => score w = k) (prioritizeWords words)
      = filter (fun w => score w = k) words).
Proof.
  assert (Hsorted : forall i j a b,
             (i < j)%nat ->
             prioritizeWords words !! i = Some a ->
             prioritizeWords words !! j = Some b ->
             score b <= score a).
  { intros i j a b. apply descending_lookup.
    induction words as [| w words IH]; simpl; [done |].
    by apply insertByScore_descending. }
  split; [| split; [exact Hsorted | split]]; cycle 1.
  - intros i j a b Ha Hb Hna Hnb.
    destruct (decide (i < j)%nat) as [| Hge]; [done | exfalso].
    assert (Hscore : score a <= score b).
    { destruct (decide (i = j)) as [-> | Hne].
      - rewrite Ha in Hb. inversion Hb; subst. lia.
      - apply (Hsorted j i b a); [lia | done | done]. }
    unfold score in Hscore. rewrite Hna, Hnb in Hscore.
    unfold jsLength in Hscore. lia.
  - clear Hsorted. intros k. induction words as [| w words IH]; [done |].
    cbn [prioritizeWords foldr]. fold (prioritizeWords words).
    rewrite insertByScore_filter, !filter_cons, IH. done.
  - clear Hsorted. induction words as [| w words IH]; simpl; [done |].
    rewrite insertByScore_perm. by rewrite IH.
Qed.

Lemma slices_nil_iff fuel n ws :
  (length ws <= fuel)%nat -> slices fuel n ws = [] <-> ws = [].
Proof.
  intros Hlen. destruct fuel, ws; simpl in *; try done. lia.
Qed.

Lemma slices_shape fuel n ws :
  (0 < n)%nat -> (length ws <= fuel)%nat ->
  Forall (fun batch => 0 < length batch <= n)%nat (slices fuel n ws) /\
  (forall i batch,
      slices fuel n ws !! i = Some batch ->
      (S i < length (slices fuel n ws))%nat ->
      length batch = n) /\
  Z.of_nat (length (slices fuel n ws))
  = (Z.of_nat (length ws) + Z.of_nat n - 1) / Z.of_nat n.
Proof.
  intros Hn. revert ws. induction fuel as [| fuel IH]; intros ws Hlen.
  - destruct ws; [| simpl in Hlen; lia]. simpl.
    split; [constructor |]. split; [done |].
    symmetry. apply Z.div_small. lia.
  - destruct ws as [| w ws].
    { simpl. split; [constructor |]. split; [done |].
      symmetry. apply Z.div_small. lia. }
    change (slices (S fuel) n (w :: ws))
      with (take n (w :: ws) :: slices fuel n (drop n (w :: ws))).
    assert (Hdrop : (length (drop n (w :: ws)) <= fuel)%nat).
    { rewrite length_drop. simpl in Hlen |- *. lia. }
    destruct (IH (drop n (w :: ws)) Hdrop) as (Hall & Hfull & Hcount).
    split; [| split].
    + constructor; [| done]. rewrite length_take. simpl. lia.
    + intros i batch Hi Hmore. destruct i as [| i]; simpl in Hi, Hmore.
      * inversion Hi; subst. rewrite length_take.
        destruct (decide (length (w :: ws) <= n)%nat) as [Hshort | Hlong]; [| lia].
        assert (Hnil : drop n (w :: ws) = []) by (by apply drop_ge).
        rewrite Hnil in Hmore. destruct fuel; simpl in Hmore; lia.
      * apply (Hfull i); [done | lia].
    + change (length (take n (w :: ws) :: slices fuel n (drop n (w :: ws))))
        with (S (length (slices fuel n (drop n (w :: ws))))).
      rewrite Nat2Z.inj_succ, Hcount, length_drop.
      remember (length (w :: ws)) as len eqn:Hl.
      assert (Hpos : (0 < len)%nat) by (subst len; simpl; lia). clear Hl.
      destruct (decide (len <= n)%nat) as [Hshort | Hlong].
      * replace (Z.of_nat (len - n)) with 0 by lia.
        rewrite (Z.div_small (0 + Z.of_nat n - 1)) by lia.
        apply (Z.div_unique _ _ _ (Z.of_nat len - 1)); lia.
      * replace (Z.of_nat len + Z.of_nat n - 1)
          with (Z.of_nat (len - n) + Z.of_nat n - 1 + 1 * Z.of_nat n) by lia.
        rewrite Z.div_add by lia. lia.
Qed.

(** X10.  [createOptimizedBatches] cuts the words into consecutive batches
    of the batch size in force (the adaptive controller's, or else the
    configured one): put end to end the batches are the words, no batch is
    empty or longer than the size, every batch but the last is full, and
    there are ceil(words / size) of them.  Without words there are no
    batches; with words and a size of zero or less the loop of the source
    never ends. *)
Theorem createOptimizedBatches_shape (s : St) (words : list (list N)) :
  let size :=
    match adaptiveBatchController (manager s) with
    | Some controller => AdaptiveBatchController.getBatchSize controller
    | None => batchSize (settings (plugin s))
    end in
  (words = [] -> createOptimizedBatches s words = Some []) /\
  (words <> [] -> size <= 0 -> createOptimizedBatches s words = None) /\
  (0 < size ->
   exists batches,
     createOptimizedBatches s words = Some batches /\
     concat batches = words /\
     Forall (fun batch => 0 < Z.of_nat (length batch) <= size) batches /\
     (forall i batch,
         batches !! i = Some batch ->
         (S i < length batches)%nat ->
         Z.of_nat (length batch) = size) /\
     Z.of_nat (length batches) = (Z.of_nat (length words) + size - 1) / size).
Proof.
  intros size. unfold createOptimizedBatches. fold size.
  split; [by intros -> |]. split.
  - intros Hne Hle. destruct words; [done |].
    destruct (Z.leb_spec size 0); [done | lia].
  - intros Hpos. destruct words as [| w ws].
    + exists []. split; [done |]. split; [done |]. split; [constructor |].
      split; [done |]. simpl. symmetry. apply Z.div_small. lia.
    + destruct (Z.leb_spec size 0) as [Hle | Hgt]; [lia |].
      eexists. split; [reflexivity |].
      destruct (slices_shape (length (w :: ws)) (Z.to_nat size) (w :: ws))
        as (Hall & Hfull & Hcount); [lia | done |].
      split; [apply slices_concat; [lia | done] |].
      split; [| split].
      * eapply Forall_impl; [exact Hall |]. simpl. intros batch Hb. lia.
      * intros i batch Hi Hmore. rewrite (Hfull i batch Hi Hmore). lia.
      * rewrite Hcount. rewrite Z2Nat.id by lia. done.
Qed.

(** ** The endpoint list and the promotion of a backup *)

Lemma dedupe_from (acc l : list (list N)) :
  NoDup acc ->
  NoDup (foldl (fun urls u => if bool_decide (u ∈ urls) then urls else urls ++ [u])
               acc l) /\
  (forall x,
      x ∈ foldl (fun urls u => if bool_decide (u ∈ urls) then urls else urls ++ [u])
                acc l
      <-> x ∈ acc \/ x ∈ l) /\
  (acc <> [] ->
   head (foldl (fun urls u => if bool_decide (u ∈ urls) then urls else urls ++ [u])
               acc l) = head acc).
Proof.
  revert acc. induction l as [| u l IH]; intros acc Hnd; simpl.
  - split; [done |]. split; [| done]. intros x. rewrite elem_of_nil. tauto.
  - destruct (bool_decide (u ∈ acc)) eqn:Hin.
    + apply bool_decide_eq_true_1 in Hin.
      destruct (IH acc Hnd) as (H1 & H2 & H3). split; [done |]. split; [| done].
      intros x. rewrite H2, elem_of_cons. split; [tauto |].
      intros [? | [-> | ?]]; tauto.
    + apply bool_decide_eq_false_1 in Hin.
      assert (Hnd' : NoDup (acc ++ [u])).
      { apply NoDup_app. split; [done |]. split; [| apply NoDup_singleton].
        intros x Hx Hx'. apply list_elem_of_singleton in Hx'. by subst. }
      destruct (IH (acc ++ [u]) Hnd') as (H1 & H2 & H3). split; [done |]. split.
      * intros x. rewrite H2, elem_of_app, list_elem_of_singleton, elem_of_cons. tauto.
      * intros Hne. rewrite H3 by (by destruct acc). by destruct acc.
Qed.

Lemma dedupe_spec (l : list (list N)) :
  NoDup (dedupe l) /\ (forall x, x ∈ dedupe l <-> x ∈ l) /\
  (forall x rest, l = x :: rest -> head (dedupe l) = Some x).
Proof.
  unfold dedupe. destruct (dedupe_from [] l (NoDup_nil_2)) as (H1 & H2 & _).
  split; [done |]. split.
  - intros x. rewrite H2, elem_of_nil. tauto.
  - intros x rest ->. simpl.
    destruct (dedupe_from [x] rest) as (_ & _ & H3); [apply NoDup_singleton |].
    by rewrite H3.
Qed.

Lemma elem_of_List_filter {A} (f : A -> bool) l x :
  x ∈ List.filter f l <-> x ∈ l /\ f x = true.
Proof. rewrite !list_elem_of_In. apply filter_In. Qed.

(** X11.  The endpoint list that the failover client walks holds each URL
    once; its members are exactly the non-empty https URLs among the
    primary and the backups of the remote configuration; and when the
    primary is one of them it is tried first. *)
Theorem endpointUrls_distinct_https (host : Host) (config : Endpoints) :
  NoDup (endpointUrls host config) /\
  (forall u,
      u ∈ endpointUrls host config <->
      u ∈ primary config :: backups config /\ u <> [] /\
      isValidHttps host u = true) /\
  (primary config <> [] -> isValidHttps host (primary config) = true ->
   head (endpointUrls host config) = Some (primary config)).
Proof.
  unfold endpointUrls. cbv zeta.
  set (raw := List.filter truthy (primary config :: backups config)).
  destruct (dedupe_spec (List.filter (isValidHttps host) raw)) as (Hnd & Hin & Hhead).
  split; [done |]. split.
  - intros u. rewrite Hin. unfold raw. rewrite !elem_of_List_filter.
    unfold truthy, falsy. destruct u; simpl; intuition congruence.
  - intros Hne Hvalid. unfold raw in *. simpl in *.
    destruct (primary config) as [| c p] eqn:Hp; [done |]. simpl in *.
    rewrite Hvalid in *. eapply Hhead. reflexivity.
Qed.

Lemma length_take_le {A} (l : list A) n : (length (take n l) <= n)%nat.
Proof. rewrite length_take. lia. Qed.

Lemma updateEndpointConfig_run (host : Host) (successfulUrl : list N)
    (currentIndex : nat) (allUrls : list (list N)) (s : St) :
  (0 < currentIndex)%nat ->
  exists s' line,
    updateEndpointConfig host successfulUrl currentIndex allUrls s = (Return tt, s') /\
    events s' = [ELog line Warning; ESaveSettings] ++ events s /\
    activeWorkerUrl (settings (plugin s')) = successfulUrl /\
    (length (backupWorkerUrls (settings (plugin s'))) <= 3)%nat /\
    NoDup (backupWorkerUrls (settings (plugin s'))) /\
    (successfulUrl ∉ backupWorkerUrls (settings (plugin s'))) /\
    ([] ∉ backupWorkerUrls (settings (plugin s'))) /\
    (forall u,
        u ∈ backupWorkerUrls (settings (plugin s')) ->
        u = activeWorkerUrl (settings (plugin s)) \/
        (u ∈ backupWorkerUrls (settings (plugin s)) /\ isValidHttps host u = true)) /\
    remoteConfig (settings (plugin s')) = remoteConfig (settings (plugin s)) /\
    manager s' = manager s.
Proof.
  intros Hpos. unfold updateEndpointConfig.
  unfold bind at 1. unfold get at 1. cbv beta iota zeta.
  set (originalBackups :=
         List.filter (isValidHttps host) (backupWorkerUrls (settings (plugin s)))).
  set (rotated :=
         List.filter
           (fun u => truthy u && negb (bool_decide (u = successfulUrl)))
           (drop (currentIndex - 1 + 1) originalBackups
            ++ take (currentIndex - 1) originalBackups
            ++ [activeWorkerUrl (settings (plugin s))])).
  destruct (dedupe_spec rotated) as (Hnd & Hin & _).
  assert (Hmem : forall u, u ∈ take 3 (dedupe rotated) -> u ∈ rotated).
  { intros u Hu. apply Hin. eapply subseteq_take. exact Hu. }
  assert (Hrot : forall u, u ∈ rotated ->
             u <> [] /\ u <> successfulUrl /\
             (u = activeWorkerUrl (settings (plugin s)) \/
              (u ∈ backupWorkerUrls (settings (plugin s))
               /\ isValidHttps host u = true))).
  { intros u Hu. unfold rotated in Hu. apply elem_of_List_filter in Hu as [Hu Hok].
    apply andb_true_iff in Hok as [Ht Hn].
    split; [by destruct u |]. split.
    - apply negb_true_iff in Hn. by apply bool_decide_eq_false_1 in Hn.
    - rewrite !elem_of_app, list_elem_of_singleton in Hu.
      destruct Hu as [Hu | [Hu | ->]]; [right | right | by left].
      + apply subseteq_drop in Hu. unfold originalBackups in Hu.
        by apply elem_of_List_filter in Hu.
      + apply subseteq_take in Hu. unfold originalBackups in Hu.
        by apply elem_of_List_filter in Hu. }
  eexists _, _. split; [reflexivity |]. cbn.
  split; [reflexivity |]. split; [reflexivity |].
  split; [apply length_take_le |].
  split; [eapply sublist_NoDup; [exact Hnd | apply sublist_take] |].
  split; [intros Hu; apply Hmem, Hrot in Hu; tauto |].
  split; [intros Hu; apply Hmem, Hrot in Hu; tauto |].
  split; [intros u Hu; apply Hmem, Hrot in Hu; tauto |].
  split; reflexivity.
Qed.

(** X12.  Promoting the endpoint at a positive index makes it the active
    URL and writes at most three backups: distinct, non-empty, none of
    them the promoted URL, each of them either the URL that was active or
    an https URL that was a backup.  The settings are saved and one line
    is logged.  The remote configuration is left as it was, so the order
    in which the next request walks the endpoints does not change. *)
Theorem updateEndpointConfig_result (host : Host) (successfulUrl : list N)
    (currentIndex : nat) (allUrls : list (list N)) (s : St) :
  (0 < currentIndex)%nat ->
  exists s' line,
    updateEndpointConfig host successfulUrl currentIndex allUrls s = (Return tt, s') /\
    events s' = [ELog line Warning; ESaveSettings] ++ events s /\
    activeWorkerUrl (settings (plugin s')) = successfulUrl /\
    (length (backupWorkerUrls (settings (plugin s'))) <= 3)%nat /\
    NoDup (backupWorkerUrls (settings (plugin s'))) /\
    (successfulUrl ∉ backupWorkerUrls (settings (plugin s'))) /\
    ([] ∉ backupWorkerUrls (settings (plugin s'))) /\
    (forall u,
        u ∈ backupWorkerUrls (settings (plugin s')) ->
        u = activeWorkerUrl (settings (plugin s)) \/
        (u ∈ backupWorkerUrls (settings (plugin s)) /\ isValidHttps host u = true)) /\
    remoteConfig (settings (plugin s')) = remoteConfig (settings (plugin s)) /\
    manager s' = manager s.
Proof. apply updateEndpointConfig_run. Qed.

Lemma updateEndpointConfig_result_witness :
  exists s' line,
    updateEndpointConfig echoHost urlB 1 [urlA; urlB] promotionState = (Return tt, s') /\
    events s' = [ELog line Warning; ESaveSettings] ++ events promotionState /\
    activeWorkerUrl (settings (plugin s')) = urlB /\
    (length (backupWorkerUrls (settings (plugin s'))) <= 3)%nat /\
    NoDup (backupWorkerUrls (settings (plugin s'))) /\
    (urlB ∉ backupWorkerUrls (settings (plugin s'))) /\
    ([] ∉ backupWorkerUrls (settings (plugin s'))) /\
    (forall u,
        u ∈ backupWorkerUrls (settings (plugin s')) ->
        u = activeWorkerUrl (settings (plugin promotionState)) \/
        (u ∈ backupWorkerUrls (settings (plugin promotionState))
         /\ isValidHttps echoHost u = true)) /\
    remoteConfig (settings (plugin s')) = remoteConfig (settings (plugin promotionState)) /\
    manager s' = manager promotionState.
Proof.
  apply (updateEndpointConfig_result echoHost urlB 1 [urlA; urlB] promotionState).
  lia.
Defined.

(** ** Strings: parts, white space and lower case *)

Lemma startsWith_app_l s b needle :
  startsWith s needle = true -> startsWith (s ++ b) needle = true.
Proof.
  revert s. induction needle as [| a needle IH]; intros s H.
  - by destruct s, b.
  - destruct s as [| c s]; [done |]. simpl in *.
    apply andb_true_iff in H as [-> H]. by rewrite IH.
Qed.

Lemma includes_app_l s b needle :
  includes s needle = true -> includes (s ++ b) needle = true.
Proof.
  induction s as [| c s IH]; intros H.
  - simpl in H. rewrite orb_false_r in H. apply includes_here.
    by apply (startsWith_app_l [] b).
  - cbn [includes] in H. apply orb_true_iff in H as [H | H].
    + apply includes_here. by apply (startsWith_app_l (c :: s) b).
    + rewrite <- app_comm_cons. cbn [includes]. rewrite IH by done.
      apply orb_true_r.
Qed.

Lemma startsWith_spec s p : startsWith s p = true <-> exists v, s = p ++ v.
Proof.
  revert s. induction p as [| a p IH]; intros s.
  - split; [intros _; by exists s | intros _; by destruct s].
  - destruct s as [| c s]; simpl.
    + split; [done | intros (v & Hv); discriminate].
    + rewrite andb_true_iff, N.eqb_eq, IH. split.
      * intros [-> (v & ->)]. by exists v.
      * intros (v & Hv). injection Hv as -> ->. split; [done | by exists v].
Qed.

Lemma includes_spec s n : includes s n = true <-> exists u v, s = u ++ n ++ v.
Proof.
  split.
  - induction s as [| c s IH]; cbn [includes]; intros H.
    + rewrite orb_false_r in H. apply startsWith_spec in H as (v & ->).
      by exists [], v.
    + apply orb_true_iff in H as [H | H].
      * apply startsWith_spec in H as (v & ->). by exists [], v.
      * destruct (IH H) as (u & v & ->). by exists (c :: u), v.
  - intros (u & v & ->). apply includes_app_r, includes_here, startsWith_app.
Qed.

Lemma includes_rev s n : includes s n = true -> includes (rev s) (rev n) = true.
Proof.
  intros H. apply includes_spec in H as (u & v & ->). apply includes_spec.
  exists (rev v), (rev u). by rewrite !rev_app_distr, <- app_assoc.
Qed.

Lemma includes_trimStart y c n :
  isWhiteSpace c = false ->
  includes y (c :: n) = true -> includes (trimStart y) (c :: n) = true.
Proof.
  intros Hc. induction y as [| d y IH]; [done |].
  cbn [trimStart]. destruct (isWhiteSpace d) eqn:Hd; [| done].
  cbn [includes startsWith]. intros H. apply IH.
  destruct (N.eqb_spec c d) as [-> | _]; [congruence |]. exact H.
Qed.

(** A needle that neither starts nor ends with white space is in the
    trimmed string when it is in the string. *)
Lemma includes_trim y n c n' l r :
  n = c :: n' -> isWhiteSpace c = false ->
  rev n = l :: r -> isWhiteSpace l = false ->
  includes y n = true -> includes (trim y) n = true.
Proof.
  intros Hn Hc Hrev Hl H. unfold trim, trimEnd.
  rewrite <- (rev_involutive n). apply includes_rev. rewrite Hrev.
  apply includes_trimStart; [done |]. rewrite <- Hrev. apply includes_rev.
  rewrite Hn. apply includes_trimStart; [done |]. by rewrite <- Hn.
Qed.

Lemma trimStart_split s :
  exists a, s = a ++ trimStart s /\ Forall (fun c => isWhiteSpace c = true) a.
Proof.
  induction s as [| c s (a & Hs & Ha)]; [by exists [] |].
  cbn [trimStart]. destruct (isWhiteSpace c) eqn:Hc; [| by exists []].
  exists (c :: a). split; [simpl; by rewrite <- Hs | by constructor].
Qed.

(** A string is what [trim] makes of it, between white space. *)
Lemma trim_split s :
  exists a b,
    s = a ++ trim s ++ b /\
    Forall (fun c => isWhiteSpace c = true) a /\
    Forall (fun c => isWhiteSpace c = true) b.
Proof.
  destruct (trimStart_split s) as (a & Hs & Ha).
  destruct (trimStart_split (rev (trimStart s))) as (b & Hb & Hwb).
  exists a, (rev b). split; [| split; [done | by apply List.Forall_rev]].
  unfold trim, trimEnd. rewrite <- rev_app_distr, <- Hb, rev_involutive. exact Hs.
Qed.

(** White space has no case: its code units are code points of their own,
    not cased, and lower case leaves them as they are. *)
Lemma whiteSpace_inert c :
  isWhiteSpace c = true ->
  isHighSurrogate c = false /\ isLowSurrogate c = false /\ isCased c = false /\
  (c =? capitalSigma)%N = false /\ lowerPoint c = [c] /\ codeUnits c = [c].
Proof.
  intros H.
  assert (Hc : In c [9; 10; 11; 12; 13; 32; 160; 5760; 8192; 8193; 8194; 8195;
                     8196; 8197; 8198; 8199; 8200; 8201; 8202; 8232; 8233; 8239;
                     8287; 12288; 65279]%N).
  { unfold isWhiteSpace in H.
    rewrite !orb_true_iff, !andb_true_iff, !N.leb_le, !N.eqb_eq in H.
    simpl. lia. }
  simpl in Hc.
  repeat (destruct Hc as [<- | Hc]; [vm_compute; repeat split; reflexivity |]).
  destruct Hc.
Qed.

Lemma codePoints_cons c s :
  codePoints (c :: s)
  = match s with
    | d :: s'' =>
        if isHighSurrogate c && isLowSurrogate d
        then (65536 + (c - 55296) * 1024 + (d - 56320))%N :: codePoints s''
        else c :: codePoints s
    | [] => [c]
    end.
Proof. by destruct s. Qed.

Lemma codePoints_prefix a x :
  Forall (fun c => isHighSurrogate c = false) a ->
  codePoints (a ++ x) = a ++ codePoints x.
Proof.
  induction 1 as [| c a Hc _ IH]; [done |].
  rewrite <- app_comm_cons, codePoints_cons, Hc.
  destruct (a ++ x) as [| d rest] eqn:Heq.
  - apply app_eq_nil in Heq as [-> ->]. done.
  - cbn [andb]. by rewrite IH.
Qed.

Lemma codePoints_suffix t b :
  Forall (fun c => isWhiteSpace c = true) b ->
  codePoints (t ++ b) = codePoints t ++ b.
Proof.
  intros Hb.
  assert (Hplain : codePoints b = b).
  { rewrite <- (app_nil_r b) at 1. rewrite codePoints_prefix; [apply app_nil_r |].
    eapply Forall_impl; [exact Hb |]. intros c Hc. by apply whiteSpace_inert. }
  assert (Hall : forall n t, (length t <= n)%nat ->
                             codePoints (t ++ b) = codePoints t ++ b).
  { clear t. induction n as [| n IH]; intros t Hlen.
    - destruct t; [exact Hplain | simpl in Hlen; lia].
    - destruct t as [| c [| d t]]; [exact Hplain | |].
      + change ([c] ++ b) with (c :: b). rewrite codePoints_cons.
        destruct b as [| d b']; [done |].
        apply Forall_cons in Hb as [Hd _].
        apply whiteSpace_inert in Hd as (_ & -> & _).
        rewrite andb_false_r, Hplain. done.
      + rewrite <- !app_comm_cons.
        rewrite (codePoints_cons c (d :: t ++ b)), (codePoints_cons c (d :: t)).
        destruct (isHighSurrogate c && isLowSurrogate d).
        * rewrite IH by (simpl in Hlen; lia). done.
        * change (d :: t ++ b) with ((d :: t) ++ b).
          rewrite IH by (simpl in Hlen |- *; lia). done. }
  by apply (Hall (length t)).
Qed.

Lemma lowerFrom_prefix a before y :
  Forall (fun c => (c =? capitalSigma)%N = false) a ->
  lowerFrom before (a ++ y)
  = flat_map lowerPoint a ++ lowerFrom (rev a ++ before) y.
Proof.
  intros Ha. revert before. induction Ha as [| c a Hc _ IH]; intros before; [done |].
  cbn [app lowerFrom flat_map rev]. rewrite Hc, IH, <- !app_assoc. done.
Qed.

Lemma lowerPoint_whiteSpace b :
  Forall (fun c => isWhiteSpace c = true) b -> flat_map lowerPoint b = b.
Proof.
  induction 1 as [| c b Hc _ IH]; [done |]. cbn [flat_map]. rewrite IH.
  apply whiteSpace_inert in Hc as (_ & _ & _ & _ & -> & _). done.
Qed.

Lemma codeUnits_whiteSpace b :
  Forall (fun c => isWhiteSpace c = true) b -> flat_map codeUnits b = b.
Proof.
  induction 1 as [| c b Hc _ IH]; [done |]. cbn [flat_map]. rewrite IH.
  apply whiteSpace_inert in Hc as (_ & _ & _ & _ & _ & ->). done.
Qed.

Lemma whiteSpace_not_sigma b :
  Forall (fun c => isWhiteSpace c = true) b ->
  Forall (fun c => (c =? capitalSigma)%N = false) b.
Proof.
  intros Hb. eapply Forall_impl; [exact Hb |]. intros c Hc. by apply whiteSpace_inert.
Qed.

Lemma casedNext_whiteSpace p b :
  Forall (fun c => isWhiteSpace c = true) b -> casedNext (p ++ b) = casedNext p.
Proof.
  intros Hb. induction p as [| c p IH].
  - induction Hb as [| c b Hc _ IH]; [done |]. cbn [app casedNext].
    apply whiteSpace_inert in Hc as (_ & _ & -> & _).
    by destruct (isCaseIgnorable c).
  - cbn [app casedNext]. by rewrite IH.
Qed.

Lemma lowerFrom_suffix before p b :
  Forall (fun c => isWhiteSpace c = true) b ->
  lowerFrom before (p ++ b) = lowerFrom before p ++ b.
Proof.
  intros Hb. revert before. induction p as [| c p IH]; intros before.
  - cbn [app lowerFrom]. rewrite <- (app_nil_r b) at 1.
    rewrite lowerFrom_prefix by by apply whiteSpace_not_sigma.
    cbn [lowerFrom]. by rewrite app_nil_r, lowerPoint_whiteSpace.
  - cbn [app lowerFrom]. unfold finalSigma.
    by rewrite casedNext_whiteSpace, IH, app_assoc.
Qed.

Lemma lowerFrom_context before1 before2 p :
  (forall q, casedNext (q ++ before1) = casedNext (q ++ before2)) ->
  lowerFrom before1 p = lowerFrom before2 p.
Proof.
  revert before1 before2. induction p as [| c p IH]; intros before1 before2 H; [done |].
  cbn [lowerFrom]. unfold finalSigma. pose proof (H []) as Hnow. cbn [app] in Hnow.
  rewrite Hnow. f_equal.
  apply IH. intros q. specialize (H (q ++ [c])). by rewrite <- !app_assoc in H.
Qed.

(** Lower case leaves the white space around a string alone, and what it
    makes of the string between does not depend on it. *)
Lemma toLowerCase_padded a t b :
  Forall (fun c => isWhiteSpace c = true) a ->
  Forall (fun c => isWhiteSpace c = true) b ->
  toLowerCase (a ++ t ++ b) = a ++ toLowerCase t ++ b.
Proof.
  intros Ha Hb. unfold toLowerCase.
  rewrite codePoints_prefix
    by (eapply Forall_impl; [exact Ha |]; intros c Hc; by apply whiteSpace_inert).
  rewrite codePoints_suffix by done.
  rewrite lowerFrom_prefix by by apply whiteSpace_not_sigma.
  rewrite lowerFrom_suffix by done.
  rewrite lowerPoint_whiteSpace by done.
  rewrite (lowerFrom_context (rev a ++ []) []).
  - rewrite !flat_map_app.
    by rewrite (codeUnits_whiteSpace a), (codeUnits_whiteSpace b).
  - intros q. rewrite !app_nil_r. apply casedNext_whiteSpace.
    by apply List.Forall_rev.
Qed.

(** Code units at the head of a string that are neither high surrogates
    nor capital sigmas are lowered one by one. *)
Lemma toLowerCase_prefix a x :
  Forall (fun c => isHighSurrogate c = false /\ (c =? capitalSigma)%N = false) a ->
  toLowerCase (a ++ x)
  = flat_map codeUnits (flat_map lowerPoint a)
    ++ flat_map codeUnits (lowerFrom (rev a ++ []) (codePoints x)).
Proof.
  intros Ha. unfold toLowerCase.
  rewrite codePoints_prefix by (eapply Forall_impl; [exact Ha |]; by intros c []).
  rewrite lowerFrom_prefix by (eapply Forall_impl; [exact Ha |]; by intros c []).
  apply flat_map_app.
Qed.

(** ** The vocabulary table *)

(** *** Facts about strings *)

(** *** The extraction of the words to translate *)

#[global] Instance onlyInfoLogged_preorder : PreOrder onlyInfoLogged.
Proof.
  split.
  - intros s. repeat split. exists []. by split.
  - intros s1 s2 s3 (Hp1 & Hm1 & Hn1 & Hr1 & new1 & He1 & Hf1)
                    (Hp2 & Hm2 & Hn2 & Hr2 & new2 & He2 & Hf2).
    repeat split; try congruence.
    exists (new2 ++ new1). split; [rewrite He2, He1; by rewrite app_assoc |].
    by apply Forall_app.
Qed.

Lemma logDetailed_info message s :
  exists s', logDetailed message Info s = (Return tt, s') /\ onlyInfoLogged s s'.
Proof.
  unfold logDetailed, bind, get, when, logEvent, modify, ret.
  destruct (bool_decide _).
  - eexists. split; [reflexivity |]. repeat split.
    exists [ELog message Info]. split; [done |]. constructor; [by eexists | done].
  - eexists. split; [reflexivity | reflexivity].
Qed.

Lemma extractable_later failedWords row rows w :
  extractable failedWords rows w -> extractable failedWords (row :: rows) w.
Proof.
  intros (r & Hr & Hrest). exists r. split; [| exact Hrest].
  apply elem_of_cons. by right.
Qed.

Lemma extractRows_spec rows sourceLang targetLang :
  forall isFirstDataRow words s,
  exists found s',
    PluginTable.extractRows rows isFirstDataRow words sourceLang targetLang s
    = (Return (words ++ found), s') /\
    Forall (extractable (failedWordsInCurrentOperation (plugin s)) rows) found /\
    onlyInfoLogged s s'.
Proof.
  induction rows as [| row rest IH]; intros flag words s.
  - exists [], s. simpl. rewrite app_nil_r. split; [done |]. split; [done | reflexivity].
  - assert (Hskip : forall flag' s1,
               onlyInfoLogged s s1 ->
               exists found s',
                 PluginTable.extractRows rest flag' words sourceLang targetLang s1
                 = (Return (words ++ found), s') /\
                 Forall (extractable (failedWordsInCurrentOperation (plugin s))
                                     (row :: rest)) found /\
                 onlyInfoLogged s s').
    { intros flag' s1 Hs1. destruct (IH flag' words s1) as (found & s' & Hrun & Hall & Hlog).
      exists found, s'. split; [done |]. split; [| by etrans].
      destruct Hs1 as (Hp & _). rewrite Hp in Hall.
      eapply Forall_impl; [exact Hall |]. intros w. apply extractable_later. }
    cbn [PluginTable.extractRows].
    destruct (falsy (trim row) || negb (includes row [pipe])); [by apply Hskip |].
    destruct (PluginTable.isSeparatorRow row) eqn:Hsep; [by apply Hskip |].
    destruct (length (PluginTable.splitTableRow row) <? 2)%nat eqn:Hlen;
      [by apply Hskip |].
    apply Nat.ltb_ge in Hlen.
    destruct (flag && PluginTable.isHeaderRow row).
    { rewrite run_bind.
      destruct (logDetailed_info (js "Skipping table header row") s) as (s1 & -> & Hs1).
      by apply Hskip. }
    set (sourceWord := PluginTable.trimmedCell (PluginTable.splitTableRow row) 1).
    destruct (falsy sourceWord) eqn:Hfalsy; [by apply Hskip |].
    destruct (PluginTable.isHeaderRow row) eqn:Hhead; [by apply Hskip |].
    destruct (bool_decide (sourceWord = [])) eqn:Hempty; [by apply Hskip |].
    destruct (includes sourceWord (js "#")) eqn:Hhash; [by apply Hskip |].
    destruct (isDigits sourceWord) eqn:Hdigits; [by apply Hskip |].
    cbn [orb]. rewrite run_bind. unfold get at 1. cbv beta iota.
    destruct (bool_decide (toLowerCase sourceWord
                           ∈ failedWordsInCurrentOperation (plugin s))) eqn:Hfailed.
    { rewrite run_bind.
      destruct (logDetailed_info
                  (js "Skipping word that failed in current operation: "
                   ++ dquote ++ sourceWord ++ dquote) s) as (s1 & -> & Hs1).
      by apply Hskip. }
    destruct (isAlreadyComplete _ _ _ _) eqn:Hcomplete; [by apply Hskip |].
    destruct (PluginTable.needsProcessing _ _ _ _ _ _ _) eqn:Hneeds; [| by apply Hskip].
    destruct (IH false (words ++ [sourceWord]) s) as (found & s' & Hrun & Hall & Hlog).
    exists (sourceWord :: found), s'. split; [| split; [| done]].
    + rewrite Hrun. by rewrite <- app_assoc.
    + constructor.
      * exists row. split; [apply elem_of_cons; by left |]. cbv zeta.
        fold sourceWord. split; [done |]. split; [done |]. split; [done |].
        split; [done |]. apply bool_decide_eq_false_1 in Hempty, Hfailed.
        split; [done |]. split; [done |]. split; [done |].
        split; [| split; [done | done]].
        unfold PluginTable.needsProcessing in Hneeds.
        destruct (includes sourceWord (js "---")); [| done].
        rewrite ?orb_true_r in Hneeds. cbn in Hneeds.
        rewrite ?orb_true_r in Hneeds. done.
      * eapply Forall_impl; [exact Hall |]. intros w. apply extractable_later.
Qed.

Lemma extractWords_run rows sourceLang targetLang s :
  exists words s',
    PluginTable.extractWordsNeedingProcessing rows sourceLang targetLang s
    = (Return words, s') /\
    Forall (extractable (failedWordsInCurrentOperation (plugin s)) rows) words /\
    onlyInfoLogged s s'.
Proof.
  unfold PluginTable.extractWordsNeedingProcessing. rewrite run_bind.
  destruct (extractRows_spec rows sourceLang targetLang true [] s)
    as (words & s1 & -> & Hall & Hs1).
  cbn [app]. rewrite run_bind.
  destruct (logDetailed_info
              (js "Total words needing processing: "
               ++ showZ (Z.of_nat (length words))) s1) as (s2 & -> & Hs2).
  exists words, s2. split; [reflexivity |]. split; [done | by etrans].
Qed.

(** X13.  [extractWordsNeedingProcessing] never throws and changes nothing
    but the log, to which it adds informational lines only.  Every word it
    returns is the trimmed second cell of a row with at least two cells
    that is neither a separator nor a header row; the word is not empty,
    not a number, free of [#] and of [---]; it is not, in lower case, among
    the words that already failed in the current operation; and at least
    one of the four cells after it is empty or [---]. *)
Theorem extractWordsNeedingProcessing_sound (rows : list (list N))
    (sourceLang targetLang : list N) (s : St) :
  exists words s',
    PluginTable.extractWordsNeedingProcessing rows sourceLang targetLang s
    = (Return words, s') /\
    Forall (extractable (failedWordsInCurrentOperation (plugin s)) rows) words /\
    onlyInfoLogged s s'.
Proof. apply extractWords_run. Qed.

Lemma extractable_no_indicator failedWords rows w indicator :
  extractable failedWords rows w ->
  indicator ∈ PluginTable.headerIndicators ->
  includes (toLowerCase w) indicator = false.
Proof.
  intros (row & _ & Hlen & Hw & _ & Hhead & _) Hind.
  unfold PluginTable.isHeaderRow in Hhead.
  set (cells := PluginTable.splitTableRow row) in *.
  destruct (bool_decide (length cells = 0%nat)) eqn:H0.
  { apply bool_decide_eq_true_1 in H0. lia. }
  apply orb_false_iff in Hhead as [Hhead _].
  destruct (includes (toLowerCase w) indicator) eqn:Hinc; [| done].
  exfalso. apply not_true_iff_false in Hhead. apply Hhead.
  apply existsb_exists. exists indicator. split; [by apply list_elem_of_In |].
  apply orb_true_iff. right.
  unfold PluginTable.trimmedCell in Hw.
  destruct (cells !! 1%nat) as [c1 |] eqn:Hc1.
  - simpl in Hw |- *.
    assert (Htight :
              forallb (fun n => match n, rev n with
                                | c :: _, l :: _ =>
                                    negb (isWhiteSpace c) && negb (isWhiteSpace l)
                                | _, _ => false
                                end) PluginTable.headerIndicators = true)
      by (vm_compute; reflexivity).
    rewrite forallb_forall in Htight.
    apply list_elem_of_In, Htight in Hind.
    destruct indicator as [| c n']; [discriminate |].
    destruct (rev (c :: n')) as [| l r] eqn:Hrev; [discriminate |].
    apply andb_true_iff in Hind as [Hc Hl]. apply negb_true_iff in Hc, Hl.
    apply (includes_trim _ (c :: n') c n' l r); [done | done | done | done |].
    destruct (trim_split c1) as (a & b & Hsplit & Ha & Hb).
    rewrite Hsplit, toLowerCase_padded by done.
    apply includes_app_r, includes_app_l. by rewrite <- Hw.
  - apply lookup_ge_None in Hc1. lia.
Qed.

(** X14.  A word is never returned for translation when, in lower case,
    it contains one of the header indicators of the plugin ([#], [num],
    [no.], [word], [source], [trans], [def], [ex], ...): its row counts as
    a header row.  So a row whose word is, say, [Next] or [define] stays
    untranslated. *)
Theorem extraction_skips_header_like_words (rows : list (list N))
    (sourceLang targetLang : list N) (s s' : St) (words : list (list N))
    (w indicator : list N) :
  PluginTable.extractWordsNeedingProcessing rows sourceLang targetLang s
  = (Return words, s') ->
  w ∈ words ->
  indicator ∈ PluginTable.headerIndicators ->
  includes (toLowerCase w) indicator = false.
Proof.
  intros Hrun Hw Hind.
  destruct (extractWords_run rows sourceLang targetLang s)
    as (words' & s1 & Hrun' & Hall & _).
  rewrite Hrun in Hrun'. inversion Hrun'; subst.
  rewrite Forall_forall in Hall.
  eapply extractable_no_indicator; [by apply Hall | done].
Qed.

Lemma extraction_skips_header_like_words_witness :
  (PluginTable.extractWordsNeedingProcessing vocabularyRows (js "en") (js "ar")
     (stateWith None true)).1 = Return [js "cat"] /\
  includes (toLowerCase (js "cat")) (js "ex") = false.
Proof.
  split; [vm_compute; reflexivity |].
  apply (extraction_skips_header_like_words vocabularyRows (js "en") (js "ar")
           (stateWith None true)
           (PluginTable.extractWordsNeedingProcessing vocabularyRows (js "en")
              (js "ar") (stateWith None true)).2
           [js "cat"] (js "cat") (js "ex")).
  - vm_compute. reflexivity.
  - apply list_elem_of_singleton. reflexivity.
  - apply list_elem_of_In. vm_compute. tauto.
Defined.

(** *** Writing results into the table *)

Lemma filled_not_unfilled s : filled s = negb (unfilled s).
Proof.
  unfold filled, unfilled, truthy.
  destruct (falsy s), (bool_decide (trim s = [])),
    (bool_decide (trim s = js "---")); reflexivity.
Qed.

Lemma fillField_filled old found : filled old = true -> fillField old found = old.
Proof.
  intros Hf. rewrite filled_not_unfilled in Hf. apply negb_true_iff in Hf.
  unfold fillField. by rewrite Hf.
Qed.

(** X15.  [updateTableWithPartialResults] never throws and gives back one
    line for each line it was given, joined by line feeds; besides that it
    logs at most one informational line.  A line that is blank, has no
    pipe, has fewer than two cells, has an empty second cell, or is a
    separator or header row comes back as it was.  A row whose four cells
    after the word are all filled in is written back from its own cells,
    whatever the results say. *)
Theorem updateTableWithPartialResults_keeps_lines (originalRows : list (list N))
    (results : list (list N * GroqTranslationResult))
    (sourceLang targetLang : list N) (s : St) :
  let newRows := (fun row => (updateRowWithPartialResults results row).1)
                   <$> originalRows in
  length newRows = length originalRows /\
  (exists s',
      updateTableWithPartialResults originalRows results sourceLang targetLang s
      = (Return (join newline newRows), s') /\
      (s' = s \/ exists line, s' = emit (ELog line Info) s)) /\
  (forall i row,
      originalRows !! i = Some row ->
      trim row = []
      \/ includes row [pipe] = false
      \/ (length (ManagerTable.splitTableRow row) < 2)%nat
      \/ trim (default [] (ManagerTable.splitTableRow row !! 1%nat)) = []
      \/ ManagerTable.isSeparatorRow row = true
      \/ ManagerTable.isHeaderRow row = true ->
      newRows !! i = Some row) /\
  (forall row,
      let parts := ManagerTable.splitTableRow row in
      isAlreadyComplete (default [] (parts !! 2%nat)) (default [] (parts !! 3%nat))
                        (default [] (parts !! 4%nat)) (default [] (parts !! 5%nat))
      = true ->
      updateRowWithPartialResults results row
      = updateRowWithPartialResults [] row).
Proof.
  intros newRows. split; [| split; [| split]].
  - unfold newRows. apply length_fmap.
  - unfold updateTableWithPartialResults. cbv zeta.
    unfold bind, when, logEvent, modify, ret.
    replace (fst <$> (updateRowWithPartialResults results <$> originalRows))
      with newRows by (unfold newRows; by rewrite <- list_fmap_compose).
    destruct (_ >? 0).
    + eexists. split; [reflexivity |]. right. by eexists.
    + eexists. split; [reflexivity |]. by left.
  - intros i row Hi Hcase. unfold newRows. rewrite list_lookup_fmap, Hi. simpl.
    f_equal. unfold updateRowWithPartialResults.
    destruct (falsy (trim row)) eqn:Hblank; [done |].
    destruct (includes row [pipe]) eqn:Hpipe; [| done]. simpl.
    destruct (Nat.ltb_spec (length (ManagerTable.splitTableRow row)) 2) as [| Hlen];
      [done |].
    destruct (falsy (trim (default [] (ManagerTable.splitTableRow row !! 1%nat))))
      eqn:Hword; [done |].
    destruct (ManagerTable.isSeparatorRow row) eqn:Hsep; [done |].
    destruct (ManagerTable.isHeaderRow row) eqn:Hhead; [done |].
    exfalso. destruct Hcase as [H | [H | [H | [H | [H | H]]]]]; try done.
    + by rewrite H in Hblank.
    + lia.
    + by rewrite H in Hword.
  - intros row parts Hcomplete. subst parts. unfold updateRowWithPartialResults.
    destruct (falsy (trim row)); [done |].
    destruct (negb (includes row [pipe])); [done |].
    destruct (length (ManagerTable.splitTableRow row) <? 2)%nat; [done |].
    destruct (_ || _ || _); [done |].
    unfold isAlreadyComplete in Hcomplete.
    apply andb_true_iff in Hcomplete as [Hcomplete H5].
    apply andb_true_iff in Hcomplete as [Hcomplete H4].
    apply andb_true_iff in Hcomplete as [H2 H3].
    destruct (findResult results _) as [foundResult |]; simpl.
    + rewrite !fillField_filled by done.
      rewrite !bool_decide_eq_true_2 by done. done.
    + done.
Qed.

(** ** Version comparison *)

Section VersionFacts.
Context {num : Type}.
Variable Number : jsstring -> option num.
Variable zero : num.
Variable isZero : num -> bool.
Variable lt : num -> num -> bool.
Hypothesis lt_asym : forall x y, lt x y = true -> lt y x = false.

Lemma lt_irrefl x : lt x x = false.
Proof. destruct (lt x x) eqn:H; [| done]. by rewrite (lt_asym _ _ H) in H. Qed.

Lemma compareFrom_swap aParts bParts i turns :
  compareFrom zero isZero lt aParts bParts i turns
  = - compareFrom zero isZero lt bParts aParts i turns.
Proof.
  revert i. induction turns as [| turns IH]; intros i; [done |]. simpl.
  destruct (lt (partOrZero zero isZero bParts i) (partOrZero zero isZero aParts i))
    eqn:Hgt.
  - by rewrite (lt_asym _ _ Hgt).
  - destruct (lt (partOrZero zero isZero aParts i) (partOrZero zero isZero bParts i));
      [done | apply IH].
Qed.

Lemma compareFrom_range aParts bParts i turns :
  compareFrom zero isZero lt aParts bParts i turns ∈ [-1; 0; 1].
Proof.
  revert i. induction turns as [| turns IH]; intros i; simpl.
  - apply list_elem_of_In. simpl. tauto.
  - destruct (lt _ _); [apply list_elem_of_In; simpl; tauto |].
    destruct (lt _ _); [apply list_elem_of_In; simpl; tauto | apply IH].
Qed.

Lemma compareFrom_same parts i turns :
  compareFrom zero isZero lt parts parts i turns = 0.
Proof.
  revert i. induction turns as [| turns IH]; intros i; [done |]. simpl.
  by rewrite lt_irrefl, IH.
Qed.

Lemma compareFrom_ext aParts aParts' bParts i turns :
  (forall j, partOrZero zero isZero aParts j = partOrZero zero isZero aParts' j) ->
  compareFrom zero isZero lt aParts bParts i turns
  = compareFrom zero isZero lt aParts' bParts i turns.
Proof.
  intros Hext. revert i. induction turns as [| turns IH]; intros i; [done |]. simpl.
  by rewrite Hext, IH.
Qed.

Lemma partOrZero_beyond parts j :
  (length parts <= j)%nat -> partOrZero zero isZero parts j = zero.
Proof. intros Hj. unfold partOrZero. by rewrite lookup_ge_None_2. Qed.

Lemma compareFrom_more aParts bParts i turns extra :
  (length aParts <= i + turns)%nat -> (length bParts <= i + turns)%nat ->
  compareFrom zero isZero lt aParts bParts i (turns + extra)
  = compareFrom zero isZero lt aParts bParts i turns.
Proof.
  revert i. induction turns as [| turns IH]; intros i Ha Hb.
  - simpl. revert i Ha Hb. induction extra as [| extra IHe]; intros i Ha Hb; [done |].
    simpl. rewrite !partOrZero_beyond by lia. rewrite lt_irrefl.
    apply IHe; lia.
  - simpl. rewrite IH by lia. done.
Qed.

End VersionFacts.

Lemma splitOn_not_nil sep s : splitOn sep s <> [].
Proof.
  destruct s as [| c s]; simpl; [done |].
  destruct (c =? sep)%N; [done |]. by destruct (splitOn sep s).
Qed.

Lemma splitOn_app sep a b :
  splitOn sep (a ++ sep :: b) = splitOn sep a ++ splitOn sep b.
Proof.
  induction a as [| c a IH]; simpl.
  - by rewrite N.eqb_refl.
  - destruct (c =? sep)%N; [by rewrite IH |]. rewrite IH.
    pose proof (splitOn_not_nil sep a). by destruct (splitOn sep a).
Qed.

Lemma compareVersions_swap {num : Type}
    (Number : list N -> option num) (zero : num) (isZero : num -> bool)
    (lt : num -> num -> bool) (a b : list N) :
  (forall x y, lt x y = true -> lt y x = false) ->
  compareVersions Number zero isZero lt a b
  = - compareVersions Number zero isZero lt b a.
Proof.
  intros Hasym. unfold compareVersions.
  rewrite (Nat.max_comm (length (Number <$> splitOn fullStop b))).
  by apply compareFrom_swap.
Qed.

(** X16.  When [<] on the host's numbers is asymmetric, [compareVersions]
    answers -1, 0 or 1, a version compares equal to itself, and comparing
    two versions the other way round flips the sign of the answer. *)
Theorem compareVersions_antisymmetric {num : Type}
    (Number : list N -> option num) (zero : num) (isZero : num -> bool)
    (lt : num -> num -> bool) (a b : list N) :
  (forall x y, lt x y = true -> lt y x = false) ->
  compareVersions Number zero isZero lt a b ∈ [-1; 0; 1] /\
  compareVersions Number zero isZero lt a a = 0 /\
  compareVersions Number zero isZero lt a b
  = - compareVersions Number zero isZero lt b a.
Proof.
  intros Hasym. unfold compareVersions. split; [| split].
  - apply compareFrom_range.
  - by apply compareFrom_same.
  - by apply compareVersions_swap.
Qed.

Lemma compareVersions_antisymmetric_witness :
  compareVersions decimalNumber 0 (Z.eqb 0) Z.ltb (js "1.10.0") (js "1.9")
  ∈ [-1; 0; 1] /\
  compareVersions decimalNumber 0 (Z.eqb 0) Z.ltb (js "1.10.0") (js "1.10.0") = 0 /\
  compareVersions decimalNumber 0 (Z.eqb 0) Z.ltb (js "1.10.0") (js "1.9")
  = - compareVersions decimalNumber 0 (Z.eqb 0) Z.ltb (js "1.9") (js "1.10.0").
Proof.
  apply compareVersions_antisymmetric.
  intros x y Hxy. apply Z.ltb_lt in Hxy. apply Z.ltb_ge. lia.
Defined.

(** X17.  A part that is missing counts as zero: when the host reads [0]
    as a zero, appending [.0] to a version changes none of its
    comparisons, on either side. *)
Theorem compareVersions_trailing_zero {num : Type}
    (Number : list N -> option num) (zero : num) (isZero : num -> bool)
    (lt : num -> num -> bool) (a b : list N) (z : num) :
  (forall x y, lt x y = true -> lt y x = false) ->
  Number (js "0") = Some z ->
  isZero z = true ->
  compareVersions Number zero isZero lt (a ++ js ".0") b
  = compareVersions Number zero isZero lt a b /\
  compareVersions Number zero isZero lt b (a ++ js ".0")
  = compareVersions Number zero isZero lt b a.
Proof.
  intros Hasym Hz Hzero.
  assert (Hleft : compareVersions Number zero isZero lt (a ++ js ".0") b
                  = compareVersions Number zero isZero lt a b).
  { unfold compareVersions.
    change (a ++ js ".0") with (a ++ fullStop :: js "0").
    rewrite splitOn_app. change (splitOn fullStop (js "0")) with [js "0"].
    rewrite fmap_app. cbn [fmap list_fmap]. rewrite Hz.
    set (aParts := Number <$> splitOn fullStop a).
    set (bParts := Number <$> splitOn fullStop b).
    rewrite length_app. cbn [length].
    assert (Hext : forall j, partOrZero zero isZero (aParts ++ [Some z]) j
                             = partOrZero zero isZero aParts j).
    { intros j. unfold partOrZero.
      destruct (decide (j < length aParts)%nat) as [Hlt | Hge].
      - by rewrite lookup_app_l.
      - rewrite lookup_app_r by lia. rewrite (lookup_ge_None_2 aParts) by lia.
        destruct (j - length aParts)%nat; simpl; [by rewrite Hzero | done]. }
    rewrite (compareFrom_ext zero isZero lt _ aParts) by exact Hext.
    destruct (decide (length aParts < length bParts)%nat) as [Hlt | Hge].
    - by rewrite !Nat.max_r by lia.
    - rewrite !Nat.max_l by lia. rewrite Nat.add_comm.
      change (1 + length aParts)%nat with (S (length aParts)).
      replace (S (length aParts)) with (length aParts + 1)%nat by lia.
      apply compareFrom_more; [done | lia | lia]. }
  split; [exact Hleft |].
  rewrite (compareVersions_swap Number zero isZero lt b (a ++ js ".0")) by done.
  rewrite (compareVersions_swap Number zero isZero lt b a) by done.
  by rewrite Hleft.
Qed.

Lemma compareVersions_trailing_zero_witness :
  compareVersions decimalNumber 0 (Z.eqb 0) Z.ltb (js "1.2" ++ js ".0") (js "1.10")
  = compareVersions decimalNumber 0 (Z.eqb 0) Z.ltb (js "1.2") (js "1.10") /\
  compareVersions decimalNumber 0 (Z.eqb 0) Z.ltb (js "1.10") (js "1.2" ++ js ".0")
  = compareVersions decimalNumber 0 (Z.eqb 0) Z.ltb (js "1.10") (js "1.2").
Proof.
  apply (compareVersions_trailing_zero decimalNumber 0 (Z.eqb 0) Z.ltb
           (js "1.2") (js "1.10") 0).
  - intros x y Hxy. apply Z.ltb_lt in Hxy. apply Z.ltb_ge. lia.
  - reflexivity.
  - reflexivity.
Defined.

(** ** The failover client, again *)

Lemma includes_model_prefix x :
  includes (toLowerCase (js "Model Not Available: " ++ x)) (js "model") = true.
Proof.
  rewrite toLowerCase_prefix.
  - replace (flat_map codeUnits (flat_map lowerPoint (js "Model Not Available: ")))
      with (js "model" ++ js " not available: ") by (vm_compute; reflexivity).
    rewrite <- app_assoc. apply includes_here, startsWith_app.
  - apply Forall_forall. intros c Hc. apply list_elem_of_In in Hc.
    assert (Hall : forallb (fun c => negb (isHighSurrogate c)
                                     && negb (c =? capitalSigma)%N)
                     (js "Model Not Available: ") = true)
      by (vm_compute; reflexivity).
    rewrite forallb_forall in Hall. apply Hall in Hc.
    apply andb_true_iff in Hc as [H1 H2]. by apply negb_true_iff in H1, H2.
Qed.

Lemma categorizeError_mentions_model e :
  includes (if falsy (errMessage e) then toLowerCase (errToString e)
            else toLowerCase (errMessage e)) (js "model") = true ->
  ErrorClassifier.categorizeError e = CAPACITY
  \/ ErrorClassifier.categorizeError e = MODEL_CAPACITY
  \/ ErrorClassifier.categorizeError e = MODEL.
Proof.
  intros Hmodel. unfold ErrorClassifier.categorizeError. cbv zeta.
  rewrite Hmodel.
  destruct (_ || _ || _ || _); [by left |].
  destruct (_ || _); [right; by left |].
  cbn [orb]. right; by right.
Qed.

Lemma modelNotAvailable_escalates url errorData :
  isEscalation (eeCategory (endpointError url (modelNotAvailable errorData)))
               (eeMessage (endpointError url (modelNotAvailable errorData))) = true.
Proof.
  unfold endpointError. cbn [eeCategory eeMessage].
  destruct (categorizeError_mentions_model (modelNotAvailable errorData))
    as [-> | [-> | ->]]; [| reflexivity | reflexivity | reflexivity].
  unfold modelNotAvailable, newError. cbn [errMessage].
  change (falsy (js "Model Not Available: "
                 ++ orElse (envError errorData)
                      (js "The selected model is not accessible"))) with false.
  cbv iota. apply includes_model_prefix.
Qed.

Lemma tryEndpoint_worker_model host body urls i url s res errorData took :
  fetch host (requestsOf (events s)) (mkRequest url body)
  = mkReply (Responded res) took ->
  ok res = false ->
  parsed res = inl errorData ->
  ErrorClassifier.categorizeError (classifiedError res errorData) <> CAPACITY ->
  ErrorClassifier.categorizeError (classifiedError res errorData) <> MODEL_CAPACITY ->
  envErrorCategory errorData = categoryName MODEL ->
  tryEndpoint host body urls i url s
  = (Throw (modelNotAvailable errorData),
     emit (ELog (js "Model " ++ dquote ++ groqModel (settings (plugin s)) ++ dquote
                 ++ js " is not available (worker). Stopping operation.") Error)
       (advance host (now s + Z.of_N took) (emit (EFetch (mkRequest url body)) s))).
Proof.
  intros Hf Hok Hp Hc1 Hc2 Hm. unfold tryEndpoint.
  erewrite run_bind_return by (by apply doRequest_responded).
  unfold handleResponse.
  rewrite Hok, Hp. simpl negb. cbv iota zeta.
  fold (classifiedError res errorData).
  rewrite !bool_decide_eq_false_2 by done.
  rewrite bool_decide_eq_true_2 by done. cbn [orb]. cbv iota.
  reflexivity.
Qed.

(** X18.  When an endpoint answers with a failure envelope whose
    structured category is [model], and the error is not classified as a
    capacity error, the client logs that the model is not available and
    throws [Model Not Available: ...] after that single request; the
    endpoint loop logs the failure and rethrows it.  No other endpoint is
    asked, and neither the manager's counters nor the settings change. *)
Theorem worker_model_error_stops_failover (host : Host) (body : RequestBody)
    (urls : list (list N)) (i : nat) (url : list N) (rest : list (list N))
    (errors : list EndpointError) (s : St) (res : Response)
    (errorData : Envelope) (took : N) :
  fetch host (requestsOf (events s)) (mkRequest url body)
  = mkReply (Responded res) took ->
  ok res = false ->
  parsed res = inl errorData ->
  ErrorClassifier.categorizeError (classifiedError res errorData) <> CAPACITY ->
  ErrorClassifier.categorizeError (classifiedError res errorData) <> MODEL_CAPACITY ->
  envErrorCategory errorData = categoryName MODEL ->
  exists s',
    failoverLoop host body urls i (url :: rest) errors s
    = (Throw (modelNotAvailable errorData), s') /\
    events s'
    = [endpointFailedLog url (modelNotAvailable errorData);
       ELog (js "Model " ++ dquote ++ groqModel (settings (plugin s)) ++ dquote
             ++ js " is not available (worker). Stopping operation.") Error;
       EFetch (mkRequest url body)] ++ events s /\
    manager s' = manager s /\
    settings (plugin s') = settings (plugin s).
Proof.
  intros Hf Hok Hp Hc1 Hc2 Hm.
  rewrite failoverLoop_cons.
  rewrite (tryEndpoint_worker_model _ _ _ _ _ _ _ _ _ Hf Hok Hp Hc1 Hc2 Hm).
  cbv zeta. rewrite modelNotAvailable_escalates.
  eexists. split; [reflexivity |]. split; [reflexivity |]. split; reflexivity.
Qed.

Lemma worker_model_error_stops_failover_witness :
  exists s',
    failoverLoop modelDeniedHost (helloBody true) [urlA; urlB] 0 [urlA; urlB] []
      (stateWith twoEndpoints true)
    = (Throw (modelNotAvailable
                (failureEnvelope (js "The model does not exist") (js "model"))), s') /\
    requestsOf (events s') = [mkRequest urlA (helloBody true)].
Proof.
  destruct (worker_model_error_stops_failover modelDeniedHost (helloBody true)
              [urlA; urlB] 0 urlA [urlB] [] (stateWith twoEndpoints true)
              (failureResponse 404 (js "The model does not exist") (js "model"))
              (failureEnvelope (js "The model does not exist") (js "model")) 0)
    as (s' & Hrun & Hev & _).
  - reflexivity.
  - reflexivity.
  - reflexivity.
  - vm_compute. discriminate.
  - vm_compute. discriminate.
  - reflexivity.
  - exists s'. split; [exact Hrun |]. rewrite Hev. reflexivity.
Defined.

Lemma requestsOf_cons_log message level evs :
  requestsOf (ELog message level :: evs) = requestsOf evs.
Proof. reflexivity. Qed.

Lemma tryEndpoint_good host body urls i url s res data took :
  fetch host (requestsOf (events s)) (mkRequest url body)
  = mkReply (Responded res) took ->
  ok res = true ->
  parsed res = inl data ->
  tryEndpoint host body urls i url s
  = bind (promoteIfBackup host url i urls) (fun _ => ret data)
      (advance host (now s + Z.of_N took) (emit (EFetch (mkRequest url body)) s)).
Proof.
  intros Hf Hok Hp. unfold tryEndpoint.
  erewrite run_bind_return by (by apply doRequest_responded).
  unfold handleResponse. rewrite Hok, Hp. reflexivity.
Qed.

(** X19.  The first endpoint that answers with a 2xx status and a body
    that parses ends the failover: its data is returned after that one
    request and no later endpoint is asked; the manager's fields are not
    touched.  If it is the first of the list, or automatic switching is
    off, nothing else happens; if it is a later one and automatic
    switching is on, it becomes the active URL and leaves the backups. *)
Theorem first_good_answer_ends_failover (host : Host) (body : RequestBody)
    (urls : list (list N)) (i : nat) (url : list N) (rest : list (list N))
    (errors : list EndpointError) (s : St) (res : Response) (data : Envelope)
    (took : N) :
  fetch host (requestsOf (events s)) (mkRequest url body)
  = mkReply (Responded res) took ->
  ok res = true ->
  parsed res = inl data ->
  exists s',
    failoverLoop host body urls i (url :: rest) errors s = (Return (inl data), s') /\
    requestsOf (events s') = mkRequest url body :: requestsOf (events s) /\
    manager s' = manager s /\
    (i = 0%nat \/ autoEndpointSwitch (settings (plugin s)) = false ->
     s' = advance host (now s + Z.of_N took) (emit (EFetch (mkRequest url body)) s)) /\
    ((0 < i)%nat -> autoEndpointSwitch (settings (plugin s)) = true ->
     activeWorkerUrl (settings (plugin s')) = url /\
     (url ∉ backupWorkerUrls (settings (plugin s')))).
Proof.
  intros Hf Hok Hp. rewrite failoverLoop_cons.
  rewrite (tryEndpoint_good _ _ _ _ _ _ _ _ _ Hf Hok Hp).
  rewrite run_bind. unfold promoteIfBackup. rewrite run_bind.
  unfold get at 1. cbv beta iota.
  set (s0 := advance host (now s + Z.of_N took) (emit (EFetch (mkRequest url body)) s)).
  assert (Hauto : autoEndpointSwitch (settings (plugin s0))
                  = autoEndpointSwitch (settings (plugin s))) by reflexivity.
  rewrite Hauto.
  destruct (Nat.ltb_spec 0 i) as [Hpos | Hzero];
    destruct (autoEndpointSwitch (settings (plugin s))) eqn:Hswitch; cbn [andb when].
  - destruct (updateEndpointConfig_run host url i urls s0 Hpos)
      as (s' & line & -> & Hev & Hactive & _ & _ & Hnot & _ & _ & _ & Hmanager).
    exists s'. split; [reflexivity |]. split; [by rewrite Hev |].
    split; [by rewrite Hmanager |]. split; [intros [-> | ?]; [lia | done] |].
    intros _ _. by split.
  - exists s0. split; [reflexivity |]. split; [reflexivity |]. split; [reflexivity |].
    split; [done | done].
  - exists s0. split; [reflexivity |]. split; [reflexivity |]. split; [reflexivity |].
    split; [done | intros; lia].
  - exists s0. split; [reflexivity |]. split; [reflexivity |]. split; [reflexivity |].
    split; [done | done].
Qed.

Lemma first_good_answer_ends_failover_witness :
  exists s',
    failoverLoop echoHost (helloBody true) [urlA; urlB] 1 [urlB] []
      promotionState
    = (Return (inl (mkEnvelope [] [] [] true
                      [(js "hello", goodResult (js "hello"))])), s') /\
    requestsOf (events s') = [mkRequest urlB (helloBody true)] /\
    activeWorkerUrl (settings (plugin s')) = urlB /\
    (urlB ∉ backupWorkerUrls (settings (plugin s'))).
Proof.
  destruct (first_good_answer_ends_failover echoHost (helloBody true) [urlA; urlB]
              1 urlB [] [] promotionState
              (successResponse [js "hello"])
              (mkEnvelope [] [] [] true [(js "hello", goodResult (js "hello"))]) 0)
    as (s' & Hrun & Hreq & _ & _ & Hpromoted).
  - reflexivity.
  - reflexivity.
  - reflexivity.
  - exists s'. split; [exact Hrun |]. split; [exact Hreq |].
    apply Hpromoted; [lia | reflexivity].
Defined.

(** ** The batch loop, again *)

Lemma throwsOnly_noThrow {A} P (m : M A) : noThrow m -> throwsOnly P m.
Proof. intros Hm s e s' Hrun. by apply Hm in Hrun. Qed.

Lemma throwsOnly_bind {A B} P (m : M A) (k : A -> M B) :
  throwsOnly P m -> (forall a, throwsOnly P (k a)) -> throwsOnly P (bind m k).
Proof.
  intros Hm Hk s e s'. unfold bind.
  destruct (m s) as [[a | e1 |] s1] eqn:Hms; [apply Hk | | discriminate].
  intros [= <- <-]. by eapply Hm.
Qed.

Lemma throwsOnly_tryCatch {A} P (m : M A) h :
  (forall e, throwsOnly P (h e)) -> throwsOnly P (tryCatch m h).
Proof.
  intros Hh s e s'. unfold tryCatch.
  destruct (m s) as [[a | e1 |] s1]; [discriminate | apply Hh | discriminate].
Qed.

Section AbortEnds.
Variable host : Host.

Lemma completeOperation_clears status reason s :
  operationSummaryManager (plugin (completeOperation status reason s).2) = None.
Proof.
  unfold completeOperation, OperationSummaryManager.completeOperation.
  destruct (operationSummaryManager (plugin s)) as [summary |]; reflexivity.
Qed.

Lemma throwsOnly_abort {A} message level status reason e :
  throwsOnly noOperationLeft
    (bind (logEvent message level)
          (fun _ => bind (completeOperation status reason) (fun _ => @throw A e))).
Proof.
  intros s e' s'. rewrite run_bind. unfold logEvent at 1, modify at 1.
  cbv beta iota. rewrite run_bind.
  pose proof (completeOperation_clears status reason
                (emit (ELog message level) s)) as Hclear.
  destruct (completeOperation status reason (emit (ELog message level) s))
    as [[[] | e1 |] s1]; simpl in Hclear.
  - intros [= <- <-]. by left.
  - intros [= <- <-]. by left.
  - discriminate.
Qed.

Lemma throwsOnly_networkBackoffWait :
  throwsOnly noOperationLeft (networkBackoffWait host).
Proof.
  intros s e s'. unfold networkBackoffWait. rewrite run_bind.
  unfold get at 1. cbv beta iota zeta.
  unfold ExponentialBackoff.wait.
  destruct (_ >=? _).
  - cbn [fst]. intros [= <- <-]. by right.
  - cbn [fst snd]. intros Hrun. exfalso. revert Hrun.
    apply noThrow_bind; [apply noThrow_modify | intros _; apply noThrow_delay].
Qed.

Lemma throwsOnly_retrySameBatch i category count :
  throwsOnly noOperationLeft (retrySameBatch host i category count).
Proof.
  unfold retrySameBatch. cbv zeta.
  apply throwsOnly_bind; [apply throwsOnly_noThrow, noThrow_modify | intros _].
  apply throwsOnly_bind.
  - destruct (bool_decide (category = NETWORK)).
    + apply throwsOnly_bind; [apply throwsOnly_networkBackoffWait | intros _].
      apply throwsOnly_noThrow.
      apply noThrow_bind; [apply noThrow_get | intros s; apply noThrow_logDetailed].
    + apply throwsOnly_noThrow. destruct (bool_decide _); [| apply noThrow_ret].
      apply noThrow_bind; [apply noThrow_modify | intros _].
      apply noThrow_bind; [apply noThrow_logDetailed | intros _; apply noThrow_delay].
  - intros _. apply throwsOnly_noThrow.
    apply noThrow_bind; [apply noThrow_logDetailed | intros _; apply noThrow_ret].
Qed.

Lemma throwsOnly_countNonModelFailure i :
  throwsOnly noOperationLeft (countNonModelFailure i).
Proof.
  unfold countNonModelFailure.
  apply throwsOnly_bind; [apply throwsOnly_noThrow, noThrow_modify | intros _].
  apply throwsOnly_bind; [apply throwsOnly_noThrow, noThrow_get | intros s1].
  cbv zeta.
  apply throwsOnly_bind; [apply throwsOnly_noThrow, noThrow_modify | intros _].
  apply throwsOnly_bind; [apply throwsOnly_noThrow, noThrow_get | intros s2].
  destruct (_ >=? _).
  - apply throwsOnly_abort.
  - apply throwsOnly_noThrow.
    apply noThrow_bind; [apply noThrow_logDetailed | intros _; apply noThrow_ret].
Qed.

Lemma throwsOnly_decideBatchFailure batch i e :
  throwsOnly noOperationLeft (decideBatchFailure host batch i e).
Proof.
  unfold decideBatchFailure. cbv zeta.
  destruct (isMixedScriptError _).
  { apply throwsOnly_noThrow.
    apply noThrow_bind; [apply noThrow_logDetailed | intros _].
    apply noThrow_bind; [apply noThrow_modify | intros _; apply noThrow_ret]. }
  destruct (bool_decide _); [apply throwsOnly_abort |].
  destruct (isThresholdAbort _); [apply throwsOnly_abort |].
  destruct (isOperationWideFailure _ _); [apply throwsOnly_abort |].
  apply throwsOnly_bind; [apply throwsOnly_noThrow, noThrow_get | intros s].
  destruct (_ && _).
  - apply throwsOnly_retrySameBatch.
  - apply throwsOnly_countNonModelFailure.
Qed.

Lemma throwsOnly_handleBatchFailure batch i e :
  throwsOnly noOperationLeft (handleBatchFailure host batch i e).
Proof.
  intros s e' s'. unfold handleBatchFailure. rewrite run_bind.
  destruct (reportBatchFailure_flushes host batch i e s) as (s1 & -> & _).
  apply throwsOnly_decideBatchFailure.
Qed.

Lemma throwsOnly_batchLoop fuel batches wordsLength sourceLang targetLang :
  forall i,
    throwsOnly noOperationLeft
      (batchLoop host fuel batches i wordsLength sourceLang targetLang).
Proof.
  induction fuel as [| fuel IH]; intros i; simpl; [intros s e s'; discriminate |].
  destruct (batches !! i) as [batch |]; [| apply throwsOnly_noThrow, noThrow_ret].
  apply throwsOnly_bind.
  - apply throwsOnly_tryCatch. intros e. apply throwsOnly_handleBatchFailure.
  - intros next. destruct next; apply IH.
Qed.

Lemma throwsOnly_runBatches fuel ws uncached sourceLang targetLang :
  throwsOnly noOperationLeft (runBatches host fuel ws uncached sourceLang targetLang).
Proof.
  unfold runBatches. cbv zeta.
  apply throwsOnly_bind; [apply throwsOnly_noThrow, noThrow_get | intros s].
  destruct (createOptimizedBatches _ _) as [batches |];
    [| intros s0 e s'; discriminate].
  apply throwsOnly_bind; [apply throwsOnly_noThrow, noThrow_logDetailed | intros _].
  apply throwsOnly_bind; [apply throwsOnly_batchLoop | intros _].
  apply throwsOnly_noThrow.
  apply noThrow_bind; [apply noThrow_get | intros s2].
  apply noThrow_bind.
  { apply noThrow_when, noThrow_tryCatch. intros e2. apply noThrow_logEvent. }
  intros _. apply noThrow_bind; [apply noThrow_logEvent | intros _].
  apply noThrow_bind.
  { unfold clearProgress. apply noThrow_when.
    apply noThrow_bind; [apply noThrow_modify | intros _; apply noThrow_modify]. }
  intros _. apply noThrow_bind; [apply noThrow_modify | intros _].
  intros s3 e3 s4. discriminate.
Qed.

End AbortEnds.

Lemma getCachedResult_summary w s :
  operationSummaryManager (plugin (getCachedResult w s).2)
  = operationSummaryManager (plugin s).
Proof. reflexivity. Qed.

Lemma getCachedResult_error w s e :
  (getCachedResult w s).1 = Throw e -> e = Cache.undefinedResult.
Proof.
  unfold getCachedResult, Cache.getCachedResult. cbn [fst].
  destruct (Cache.get _ _) as [entry | n | result | |]; cbn [fst].
  - destruct (_ >? _); [discriminate |].
    destruct (isEmptyTranslation _); discriminate.
  - destruct (n =? 0); cbn [fst]; [discriminate | congruence].
  - congruence.
  - congruence.
  - discriminate.
Qed.

(** The split by the cache throws nothing but the [TypeError] of a lookup
    that finds an inherited member, and leaves the operation summary as
    it was. *)
Lemma partitionByCache_throws ws :
  forall hits misses s e s',
    partitionByCache ws hits misses s = (Throw e, s') ->
    e = Cache.undefinedResult /\
    operationSummaryManager (plugin s') = operationSummaryManager (plugin s).
Proof.
  induction ws as [| w ws IH]; intros hits misses s e s' Hrun; [discriminate |].
  cbn [partitionByCache] in Hrun. rewrite run_bind in Hrun.
  pose proof (getCachedResult_summary w s) as Hsum.
  pose proof (getCachedResult_error w s) as Herr.
  destruct (getCachedResult w s) as [[[result |] | e1 |] s1]; cbn [fst snd] in *.
  - destruct (isValidTranslation result); apply IH in Hrun as [-> ->]; by rewrite Hsum.
  - apply IH in Hrun as [-> ->]. by rewrite Hsum.
  - injection Hrun as <- <-. by rewrite (Herr e1 eq_refl).
  - discriminate.
Qed.

(** X20.  Whenever [processWordsInBatches] throws, one of three things
    has happened.  The error is that of an exhausted network backoff.  Or
    it is the [TypeError] of a cache lookup thrown by the split at the
    start, which no [catch] of the run encloses: then the operation summary
    is as it was.  Or the [catch] of the batch loop has already closed the
    operation summary, so that the [completeOperation('failed', ...)] with
    which the caller's own [catch] begins finds no operation and throws
    [No operation in progress]. *)
Theorem abort_leaves_no_operation (host : Host) (fuel : nat)
    (wordList : list (list N)) (sourceLang targetLang : list N)
    (s : St) (e : JsError) (s' : St) :
  processWordsInBatches host fuel wordList sourceLang targetLang s = (Throw e, s') ->
  e = backoffExhausted \/
  ((exists s0, startRun s = (Return tt, s0) /\
               partitionByCache wordList [] [] s0 = (Throw e, s')) /\
   e = Cache.undefinedResult /\
   operationSummaryManager (plugin s') = operationSummaryManager (plugin s)) \/
  (operationSummaryManager (plugin s') = None /\
   forall status reason,
     OperationSummaryManager.completeOperation status reason
       (operationSummaryManager (plugin s'))
     = (Throw (newError (js "No operation in progress")), None)).
Proof.
  unfold processWordsInBatches. rewrite run_bind.
  destruct (startRun_effect s) as (s0 & Hstart & Hplugin & _). rewrite Hstart.
  rewrite run_bind.
  destruct (partitionByCache wordList [] [] s0) as [[split | e1 |] s1] eqn:Hsplit.
  - rewrite run_bind. unfold modify at 1. cbv beta iota.
    intros Hrun.
    apply throwsOnly_runBatches in Hrun as [Hnone | ->]; [right; right | by left].
    split; [done |]. intros status reason. by rewrite Hnone.
  - intros Hrun. injection Hrun as <- <-. right. left.
    destruct (partitionByCache_throws _ _ _ _ _ _ Hsplit) as [He Hsum].
    split; [by exists s0 |]. split; [done |]. by rewrite Hsum, Hplugin.
  - discriminate.
Qed.

Lemma abort_leaves_no_operation_witness :
  modelGoneRun.1
  = Throw (newError (js "Model Not Available: The model does not exist")) /\
  operationSummaryManager (plugin oneWordBatches) <> None /\
  operationSummaryManager (plugin modelGoneRun.2) = None /\
  OperationSummaryManager.completeOperation OperationSummaryManager.failed
    (js "Model Not Available: The model does not exist")
    (operationSummaryManager (plugin modelGoneRun.2))
  = (Throw (newError (js "No operation in progress")), None).
Proof.
  assert (Hrun : modelGoneRun
                 = (Throw (newError (js "Model Not Available: The model does not exist")),
                    modelGoneRun.2)) by (vm_compute; reflexivity).
  destruct (abort_leaves_no_operation modelGoneHost 5
              [js "hello"; js "world"] (js "en") (js "ar") oneWordBatches _ _ Hrun)
    as [Hbackoff | [(_ & Hsplit & _) | [Hnone Hthrows]]].
  - discriminate.
  - discriminate.
  - split; [by rewrite Hrun |]. split; [discriminate |]. split; [exact Hnone |].
    apply Hthrows.
Defined.

Lemma logDetailed_cases message level s :
  logDetailed message level s = (Return tt, s)
  \/ logDetailed message level s = (Return tt, emit (ELog message level) s).
Proof.
  unfold logDetailed, bind, get, when, logEvent, modify, ret.
  destruct (bool_decide _); [by right | by left].
Qed.

Section BatchFailureFacts.
Variable host : Host.

(** The first half of the [catch] in full: it returns, it records the
    failure in the summary, and it leaves the manager, the failed words,
    the cancel flag and the settings alone; it makes no request. *)
Lemma reportBatchFailure_run batch i e s :
  exists s1,
    reportBatchFailure host batch i e s = (Return tt, s1) /\
    manager s1 = manager s /\
    failedWordsInCurrentOperation (plugin s1)
    = failedWordsInCurrentOperation (plugin s) /\
    settings (plugin s1) = settings (plugin s) /\
    operationSummaryManager (plugin s1)
    = OperationSummaryManager.recordFailure e (Z.of_nat (length batch))
        (operationSummaryManager (plugin s)) /\
    requestsOf (events s1) = requestsOf (events s).
Proof.
  unfold reportBatchFailure. cbv zeta.
  rewrite run_bind. unfold logEvent at 1, modify at 1. cbv beta iota.
  rewrite run_bind. unfold recordUsageStats at 1, modify at 1. cbv beta iota.
  rewrite run_bind. unfold modify at 1. cbv beta iota.
  rewrite run_bind. unfold get at 1. cbv beta iota.
  match goal with |- context [when _ _ ?s0] => set (sa := s0) end.
  change (allResults sa) with (allResults s).
  destruct (mapSize (allResults s) >? 0).
  - unfold when, tryCatch. rewrite run_bind.
    destruct (tableWriteError host (events sa)) as [saveError |] eqn:Herr.
    + rewrite (savePartialResultsToTable_failed host sa saveError Herr).
      unfold logEvent, modify. eexists. split; [reflexivity |]. by repeat split.
    + destruct (savePartialResultsToTable_done host sa Herr) as (line & ->).
      destruct (logDetailed_cases
                  (floppyDisk ++ js " Saved " ++ showZ (mapSize (allResults s))
                   ++ js " partial results before failure") Warning
                  (emit (ELog line Success) (emit (ESaveTable (allResults sa)) sa)))
        as [-> | ->];
        (eexists; split; [reflexivity |]; by repeat split).
  - unfold when, ret. eexists. split; [reflexivity |]. by repeat split.
Qed.

Lemma elem_of_failed_batch (batch : list (list N)) (failedWords : gset (list N)) x :
  x ∈ foldl (fun acc word => {[toLowerCase word]} ∪ acc) failedWords batch
  <-> x ∈ failedWords \/ exists word, word ∈ batch /\ x = toLowerCase word.
Proof.
  revert failedWords. induction batch as [| w batch IH]; intros failedWords; simpl.
  - split; [by left |]. intros [? | (word & Hw & _)]; [done |].
    by apply elem_of_nil in Hw.
  - rewrite IH, elem_of_union, elem_of_singleton. split.
    + intros [[-> | ?] | (word & Hw & ->)].
      * right. exists w. split; [apply elem_of_cons; by left | done].
      * by left.
      * right. exists word. split; [apply elem_of_cons; by right | done].
    + intros [? | (word & Hw & ->)]; [left; by right |].
      apply elem_of_cons in Hw as [-> | Hw]; [left; by left |].
      right. by exists word.
Qed.

Lemma handleBatchFailure_mixed batch i e s :
  includes (errMessage e) (js "mixed-script validation") = true ->
  exists s',
    handleBatchFailure host batch i e s = (Return NextBatch, s') /\
    manager s' = manager s /\
    requestsOf (events s') = requestsOf (events s) /\
    (forall x,
        x ∈ failedWordsInCurrentOperation (plugin s') <->
        x ∈ failedWordsInCurrentOperation (plugin s)
        \/ exists word, word ∈ batch /\ x = toLowerCase word).
Proof.
  intros Hmixed. unfold handleBatchFailure. rewrite run_bind.
  destruct (reportBatchFailure_run batch i e s) as (s1 & -> & Hm & Hfailed & _ & _ & Hreq).
  unfold decideBatchFailure. cbv zeta.
  unfold isMixedScriptError. rewrite Hmixed. cbn [orb]. cbv iota.
  rewrite run_bind.
  destruct (logDetailed_cases
              (warningSign
               ++ js " Mixed-script validation failed for batch - skipping and continuing")
              Warning s1) as [-> | ->];
    (eexists; split; [reflexivity |]; split; [exact Hm |]; split; [exact Hreq |];
     intros x; cbn; rewrite elem_of_failed_batch, Hfailed; reflexivity).
Qed.

End BatchFailureFacts.

(** X21.  When a batch fails with an error whose message speaks of
    [mixed-script validation], the [catch] of the batch loop does not
    abort and does not retry: it goes on to the next batch, having added
    the lower-cased words of the batch to the words that failed in the
    current operation.  It makes no request and leaves the manager's
    counters alone.  A later extraction from the table then returns none
    of these words, however they are capitalised there. *)
Theorem mixed_script_failure_skips_batch (host : Host) (batch : list (list N))
    (i : nat) (e : JsError) (s : St) :
  includes (errMessage e) (js "mixed-script validation") = true ->
  exists s',
    handleBatchFailure host batch i e s = (Return NextBatch, s') /\
    manager s' = manager s /\
    requestsOf (events s') = requestsOf (events s) /\
    (forall x,
        x ∈ failedWordsInCurrentOperation (plugin s') <->
        x ∈ failedWordsInCurrentOperation (plugin s)
        \/ exists word, word ∈ batch /\ x = toLowerCase word) /\
    (forall rows sourceLang targetLang words s'' word w,
        PluginTable.extractWordsNeedingProcessing rows sourceLang targetLang s'
        = (Return words, s'') ->
        word ∈ batch -> w ∈ words ->
        toLowerCase w <> toLowerCase word).
Proof.
  intros Hmixed.
  destruct (handleBatchFailure_mixed host batch i e s Hmixed)
    as (s' & Hrun & Hm & Hreq & Hfailed).
  exists s'. split; [done |]. split; [done |]. split; [done |]. split; [done |].
  intros rows sourceLang targetLang words s'' word w Hext Hword Hw Heq.
  destruct (extractWords_run rows sourceLang targetLang s')
    as (words' & s1 & Hext' & Hall & _).
  rewrite Hext in Hext'. inversion Hext'; subst.
  rewrite Forall_forall in Hall. destruct (Hall w Hw) as (row & _ & Hrow).
  cbv zeta in Hrow. destruct Hrow as (_ & _ & _ & _ & _ & _ & _ & _ & Hnot & _).
  apply Hnot. apply Hfailed. right. by exists word.
Qed.

Lemma mixed_script_failure_skips_batch_witness :
  exists s',
    handleBatchFailure echoHost [js "Cat"; [201; 99; 111; 108; 101]%N] 0
      (newError (js "HTTP 422: mixed-script validation failed"))
      (stateWith None true)
    = (Return NextBatch, s') /\
    js "cat" ∈ failedWordsInCurrentOperation (plugin s') /\
    [233; 99; 111; 108; 101]%N ∈ failedWordsInCurrentOperation (plugin s') /\
    (PluginTable.extractWordsNeedingProcessing vocabularyRows (js "en") (js "ar")
       s').1 = Return [].
Proof.
  destruct (mixed_script_failure_skips_batch echoHost
              [js "Cat"; [201; 99; 111; 108; 101]%N] 0
              (newError (js "HTTP 422: mixed-script validation failed"))
              (stateWith None true))
    as (s' & Hrun & _ & _ & Hfailed & _).
  - vm_compute. reflexivity.
  - exists s'. split; [exact Hrun |]. split; [| split].
    + apply Hfailed. right. exists (js "Cat").
      split; [apply elem_of_cons; by left | vm_compute; reflexivity].
    + apply Hfailed. right. exists [201; 99; 111; 108; 101]%N.
      split; [apply elem_of_cons; right; apply list_elem_of_singleton; reflexivity
             | vm_compute; reflexivity].
    + assert (Hs' : s' = (handleBatchFailure echoHost
                            [js "Cat"; [201; 99; 111; 108; 101]%N] 0
                            (newError (js "HTTP 422: mixed-script validation failed"))
                            (stateWith None true)).2) by (by rewrite Hrun).
      rewrite Hs'. vm_compute. reflexivity.
Defined.

Section CancelFacts.
Variable host : Host.

Lemma batchOperation_cancelled batch i totalBatches wordsLength sourceLang
    targetLang s :
  cancelRequested (plugin s) = true ->
  exists s1,
    batchOperation host batch i totalBatches wordsLength sourceLang targetLang s
    = (Throw operationCancelled, s1) /\
    manager s1 = manager s /\
    operationSummaryManager (plugin s1) = operationSummaryManager (plugin s) /\
    requestsOf (events s1) = requestsOf (events s).
Proof.
  intros Hcancel. unfold batchOperation.
  rewrite run_bind. unfold get at 1. cbv beta iota.
  rewrite run_bind.
  destruct (lastBackoffUntilTs (manager s) >? now s); unfold when.
  - rewrite run_bind.
    destruct (logDetailed_cases
                (js "Global backoff in effect, waiting "
                 ++ showZ (ceilSeconds (lastBackoffUntilTs (manager s) - now s))
                 ++ js "s") Warning s) as [-> | ->];
      unfold delay; cbv beta iota; rewrite run_bind; unfold get at 1;
      cbv beta iota; cbn [plugin advance emit cancelRequested with_cancelRequested];
      rewrite Hcancel; cbn [orb]; rewrite run_bind;
      match goal with
      | |- context [logDetailed ?m ?l ?st] =>
          destruct (logDetailed_cases m l st) as [-> | ->]
      end; (eexists; split; [reflexivity |]; by repeat split).
  - unfold ret. rewrite run_bind. unfold get at 1. cbv beta iota.
    rewrite Hcancel. rewrite run_bind.
    destruct (logDetailed_cases
                (js "Cancellation requested - stopping batch processing") Warning s)
      as [-> | ->]; (eexists; split; [reflexivity |]; by repeat split).
Qed.

Lemma guarded_cancelled batch i totalBatches wordsLength sourceLang targetLang s :
  cancelRequested (plugin s) = true ->
  CircuitBreaker.state (circuitBreaker (manager s)) <> CircuitBreaker.OPEN ->
  exists s1,
    guarded (batchOperation host batch i totalBatches wordsLength sourceLang targetLang) s
    = (Throw operationCancelled, s1) /\
    CircuitBreaker.failureCount (circuitBreaker (manager s1))
    = CircuitBreaker.failureCount (circuitBreaker (manager s)) + 1 /\
    operationSummaryManager (plugin s1) = operationSummaryManager (plugin s) /\
    requestsOf (events s1) = requestsOf (events s).
Proof.
  intros Hcancel Hopen. unfold guarded, CircuitBreaker.execute.
  assert (Henter : CircuitBreaker.enter (now s) (circuitBreaker (manager s))
                   = Return (circuitBreaker (manager s))).
  { unfold CircuitBreaker.enter.
    by destruct (CircuitBreaker.state (circuitBreaker (manager s))). }
  rewrite Henter.
  destruct (batchOperation_cancelled batch i totalBatches wordsLength sourceLang
              targetLang s Hcancel) as (s1 & -> & Hm & Hsum & Hreq).
  eexists. split; [reflexivity |]. cbn. by repeat split.
Qed.

Lemma handleBatchFailure_cancelled batch i s :
  exists e' s',
    handleBatchFailure host batch i operationCancelled s = (Throw e', s') /\
    manager s' = manager s /\
    requestsOf (events s') = requestsOf (events s) /\
    operationSummaryManager (plugin s') = None /\
    (operationSummaryManager (plugin s) <> None -> e' = operationCancelled).
Proof.
  unfold handleBatchFailure. rewrite run_bind.
  destruct (reportBatchFailure_run host batch i operationCancelled s)
    as (s1 & -> & Hm & _ & _ & Hsum & Hreq).
  unfold decideBatchFailure. cbv zeta.
  change (isMixedScriptError (errMessage operationCancelled)) with false.
  change (bool_decide (ErrorClassifier.categorizeError operationCancelled = MODEL))
    with false.
  change (isThresholdAbort (errMessage operationCancelled)) with false.
  change (isOperationWideFailure
            (ErrorClassifier.categorizeError operationCancelled)
            (errMessage operationCancelled)) with true.
  cbv iota. rewrite run_bind. unfold logEvent at 1, modify at 1. cbv beta iota.
  rewrite run_bind. unfold completeOperation.
  cbn [plugin emit operationSummaryManager]. rewrite Hsum.
  destruct (operationSummaryManager (plugin s)) as [summary |].
  - eexists _, _. split; [reflexivity |]. by repeat split.
  - eexists _, _. split; [reflexivity |]. by repeat split.
Qed.

End CancelFacts.

(** X22.  When cancellation has been requested and the circuit breaker is
    not open, the next turn of the batch loop ends the run: the batch is
    not sent, no request is made, and the loop throws.  The circuit
    breaker counts the cancellation as one more failure, and the [catch]
    treats [OPERATION_CANCELLED] as an operation-wide failure: it closes
    the operation summary and rethrows.  If a summary was open, what is
    thrown is [OPERATION_CANCELLED]. *)
Theorem cancelled_run_stops (host : Host) (fuel : nat)
    (batches : list (list (list N))) (i : nat) (batch : list (list N))
    (wordsLength : Z) (sourceLang targetLang : list N) (s : St) :
  batches !! i = Some batch ->
  cancelRequested (plugin s) = true ->
  CircuitBreaker.state (circuitBreaker (manager s)) <> CircuitBreaker.OPEN ->
  exists e s',
    batchLoop host (S fuel) batches i wordsLength sourceLang targetLang s
    = (Throw e, s') /\
    requestsOf (events s') = requestsOf (events s) /\
    CircuitBreaker.failureCount (circuitBreaker (manager s'))
    = CircuitBreaker.failureCount (circuitBreaker (manager s)) + 1 /\
    operationSummaryManager (plugin s') = None /\
    (operationSummaryManager (plugin s) <> None -> e = operationCancelled).
Proof.
  intros Hbatch Hcancel Hopen. cbn [batchLoop]. rewrite Hbatch.
  rewrite run_bind. unfold tryCatch at 1. rewrite run_bind.
  destruct (guarded_cancelled host batch i (length batches) wordsLength sourceLang
              targetLang s Hcancel Hopen) as (s1 & -> & Hcount & Hsum & Hreq).
  destruct (handleBatchFailure_cancelled host batch i s1)
    as (e' & s' & -> & Hm & Hreq' & Hnone & He).
  exists e', s'. split; [reflexivity |]. split; [congruence |].
  split; [by rewrite Hm |]. split; [done |].
  intros Hsome. apply He. by rewrite Hsum.
Qed.

Lemma cancelled_run_stops_witness :
  exists s',
    batchLoop echoHost 1 [[js "hello"]] 0 1 (js "en") (js "ar") cancelledState
    = (Throw operationCancelled, s') /\
    requestsOf (events s') = [] /\
    CircuitBreaker.failureCount (circuitBreaker (manager s')) = 1.
Proof.
  destruct (cancelled_run_stops echoHost 0 [[js "hello"]] 0 [js "hello"] 1
              (js "en") (js "ar") cancelledState)
    as (e & s' & Hrun & Hreq & Hcount & _ & He).
  - reflexivity.
  - reflexivity.
  - discriminate.
  - exists s'. rewrite <- He by discriminate.
    split; [exact Hrun |]. split; [exact Hreq | exact Hcount].
Defined.

(** *** Rows that are written can be read back *)

Lemma trimStart_nonws h t : isWhiteSpace h = false -> trimStart (h :: t) = h :: t.
Proof. intros Hh. simpl. by rewrite Hh. Qed.

Lemma trimStart_ws_app a s :
  Forall (fun c => isWhiteSpace c = true) a -> trimStart (a ++ s) = trimStart s.
Proof. induction 1 as [| c a Hc _ IH]; [done |]. simpl. by rewrite Hc. Qed.

Lemma trimStart_app_nonws y c a :
  isWhiteSpace c = false -> trimStart (y ++ c :: a) = trimStart y ++ c :: a.
Proof.
  intros Hc. induction y as [| d y IH]; simpl; [by rewrite Hc |].
  destruct (isWhiteSpace d); [exact IH | done].
Qed.

Lemma trimStart_all_ws a :
  Forall (fun c => isWhiteSpace c = true) a -> trimStart a = [].
Proof. induction 1 as [| c a Hc _ IH]; [done |]. simpl. by rewrite Hc. Qed.

Lemma trimEnd_app_nonws a c y :
  isWhiteSpace c = false -> trimEnd (a ++ c :: y) = a ++ c :: trimEnd y.
Proof.
  intros Hc. unfold trimEnd.
  replace (rev (a ++ c :: y)) with (rev y ++ c :: rev a).
  - rewrite trimStart_app_nonws by done.
    rewrite rev_app_distr. simpl. rewrite rev_involutive.
    by rewrite <- app_assoc.
  - rewrite rev_app_distr. simpl. by rewrite <- app_assoc.
Qed.

Lemma trimEnd_all_ws a :
  Forall (fun c => isWhiteSpace c = true) a -> trimEnd a = [].
Proof.
  intros Ha. unfold trimEnd. rewrite trimStart_all_ws; [done |].
  apply Forall_forall. intros x Hx. rewrite Forall_forall in Ha. apply Ha.
  apply list_elem_of_In. apply in_rev. by apply list_elem_of_In.
Qed.

Lemma trimEnd_app_ws s b :
  Forall (fun c => isWhiteSpace c = true) b -> trimEnd (s ++ b) = trimEnd s.
Proof.
  intros Hb. unfold trimEnd. rewrite rev_app_distr. f_equal.
  apply trimStart_ws_app. apply Forall_forall. intros x Hx.
  rewrite Forall_forall in Hb. apply Hb.
  apply list_elem_of_In. apply in_rev. by apply list_elem_of_In.
Qed.

(** A string from which [trim] has nothing to take. *)
Lemma trimStart_head s :
  trimStart s = [] \/ exists h t, trimStart s = h :: t /\ isWhiteSpace h = false.
Proof.
  induction s as [| c s IH]; [by left |]. simpl.
  destruct (isWhiteSpace c) eqn:Hc; [exact IH |]. right. by exists c, s.
Qed.

Lemma trimEnd_last s :
  trimEnd s = [] \/ exists i l, trimEnd s = i ++ [l] /\ isWhiteSpace l = false.
Proof.
  unfold trimEnd. destruct (trimStart_head (rev s)) as [-> | (h & t & -> & Hh)];
    [by left |].
  right. exists (rev t), h. by split.
Qed.

Lemma trim_shape x :
  trim x = []
  \/ (exists h t, trim x = h :: t /\ isWhiteSpace h = false)
     /\ (exists i l, trim x = i ++ [l] /\ isWhiteSpace l = false).
Proof.
  unfold trim. destruct (trimEnd_last (trimStart x)) as [-> | Hlast]; [by left |].
  right. split; [| exact Hlast].
  destruct (trimStart_head x) as [Hnil | (h & t & Hs & Hh)].
  - rewrite Hnil in Hlast. destruct Hlast as (i & l & Hl & _).
    by destruct i.
  - rewrite Hs. pose proof (trimEnd_app_nonws [] h t Hh) as Heq.
    simpl in Heq. rewrite Heq. by exists h, (trimEnd t).
Qed.

(** What [trim] gives, padded with white space, trims to itself. *)
Lemma trim_padded a x b :
  Forall (fun c => isWhiteSpace c = true) a ->
  Forall (fun c => isWhiteSpace c = true) b ->
  trim (a ++ trim x ++ b) = trim x.
Proof.
  intros Ha Hb. destruct (trim_shape x) as [-> | [(h & t & Hh & Hws) (i & l & Hl & Hwl)]].
  - unfold trim. rewrite trimStart_all_ws; [done |]. by apply Forall_app.
  - unfold trim at 1. rewrite trimStart_ws_app by done.
    rewrite Hh. rewrite <- app_comm_cons, trimStart_nonws by done.
    rewrite app_comm_cons, <- Hh, Hl, <- app_assoc. simpl.
    rewrite trimEnd_app_nonws by done. by rewrite trimEnd_all_ws.
Qed.

Lemma escapePipes_app a b : escapePipes (a ++ b) = escapePipes a ++ escapePipes b.
Proof. unfold escapePipes. apply flat_map_app. Qed.

Lemma isWhiteSpace_not_pipe c : isWhiteSpace c = true -> (c =? pipe)%N = false.
Proof.
  intros Hc. destruct (N.eqb_spec c pipe) as [-> | ]; [| done].
  vm_compute in Hc. discriminate.
Qed.

Lemma isWhiteSpace_not_backslash c :
  isWhiteSpace c = true -> (c =? backslash)%N = false.
Proof.
  intros Hc. destruct (N.eqb_spec c backslash) as [-> | ]; [| done].
  vm_compute in Hc. discriminate.
Qed.

Lemma escapePipes_ws c :
  isWhiteSpace c = true -> escapePipes [c] = [c].
Proof. intros Hc. unfold escapePipes. simpl. by rewrite isWhiteSpace_not_pipe. Qed.

Lemma escapePipes_nonws c :
  isWhiteSpace c = false ->
  (exists h t, escapePipes [c] = h :: t /\ isWhiteSpace h = false) /\
  (exists i l, escapePipes [c] = i ++ [l] /\ isWhiteSpace l = false).
Proof.
  intros Hc. unfold escapePipes. simpl.
  destruct (N.eqb_spec c pipe) as [-> | Hne]; simpl.
  - split; [by exists backslash, [pipe] | by exists [backslash], pipe].
  - split; [by exists c, [] | by exists [], c].
Qed.

Lemma trimStart_escapePipes x : trimStart (escapePipes x) = escapePipes (trimStart x).
Proof.
  induction x as [| c x IH]; [done |].
  cbn [trimStart]. destruct (isWhiteSpace c) eqn:Hc.
  - rewrite <- IH. unfold escapePipes. cbn [flat_map].
    rewrite isWhiteSpace_not_pipe by done. cbn [app trimStart]. by rewrite Hc.
  - unfold escapePipes. cbn [flat_map].
    destruct (N.eqb_spec c pipe) as [-> | Hp]; [done |].
    cbn [app trimStart]. by rewrite Hc.
Qed.

Lemma trimEnd_escapePipes x : trimEnd (escapePipes x) = escapePipes (trimEnd x).
Proof.
  induction x as [| c x IH] using rev_ind; [done |].
  rewrite escapePipes_app. destruct (isWhiteSpace c) eqn:Hc.
  - rewrite escapePipes_ws by done.
    rewrite !trimEnd_app_ws by (by repeat constructor). exact IH.
  - rewrite (trimEnd_app_nonws x c [] Hc).
    change (trimEnd []) with (@nil N). rewrite escapePipes_app.
    destruct (escapePipes_nonws c Hc) as [_ (i & l & -> & Hl)].
    rewrite app_assoc. rewrite (trimEnd_app_nonws _ l [] Hl). done.
Qed.

Lemma escapeTableCell_cellText c :
  escapeTableCell c = escapePipes (cellText c).
Proof.
  unfold escapeTableCell, cellText. destruct c as [| u c]; [done |].
  cbn [falsy]. fold (escapePipes (u :: c)).
  set (text := u :: c).
  assert (Hswap : (fun v => if (v =? lineFeed)%N then space else v) <$> escapePipes text
                  = escapePipes ((fun v => if (v =? lineFeed)%N then space else v) <$> text)).
  { generalize text. clear. intros text.
    induction text as [| v text IH]; [done |].
    change (v :: text) with ([v] ++ text).
    rewrite escapePipes_app, !fmap_app, escapePipes_app, IH. f_equal.
    unfold escapePipes. simpl.
    destruct (N.eqb_spec v pipe) as [-> | Hp]; [done |].
    destruct (N.eqb_spec v lineFeed) as [-> | Hl]; [done |].
    simpl. destruct (N.eqb_spec v pipe); [done |]. simpl.
    by destruct (N.eqb_spec v lineFeed). }
  rewrite Hswap. unfold trim. by rewrite trimStart_escapePipes, trimEnd_escapePipes.
Qed.

Lemma escapePipes_shape x :
  trim x = []
  \/ (exists h t, escapePipes (trim x) = h :: t /\ isWhiteSpace h = false)
     /\ (exists i l, escapePipes (trim x) = i ++ [l] /\ isWhiteSpace l = false).
Proof.
  destruct (trim_shape x) as [Hnil | [(h & t & Hh & Hws) (i & l & Hl & Hwl)]];
    [by left | right]. split.
  - rewrite Hh. change (h :: t) with ([h] ++ t). rewrite escapePipes_app.
    destruct (escapePipes_nonws h Hws) as [(h' & t' & -> & Hh') _].
    by exists h', (t' ++ escapePipes t).
  - rewrite Hl, escapePipes_app.
    destruct (escapePipes_nonws l Hwl) as [_ (i' & l' & -> & Hl')].
    exists (escapePipes i ++ i'), l'. by rewrite app_assoc.
Qed.

Lemma elem_of_trimStart u s : u ∈ trimStart s -> u ∈ s.
Proof.
  induction s as [| c s IH]; [done |]. simpl.
  destruct (isWhiteSpace c); [| done]. intros Hu. right. by apply IH.
Qed.

Lemma elem_of_trim u s : u ∈ trim s -> u ∈ s.
Proof.
  unfold trim, trimEnd. intros Hu. apply elem_of_trimStart.
  apply list_elem_of_In, in_rev, list_elem_of_In. apply elem_of_trimStart.
  by apply list_elem_of_In, in_rev, list_elem_of_In.
Qed.

Lemma cellText_no_backslash c : (backslash ∉ c) -> (backslash ∉ cellText c).
Proof.
  intros Hc Hin. apply Hc. unfold cellText in Hin. apply elem_of_trim in Hin.
  apply list_elem_of_fmap in Hin as (v & Hv & Hvin).
  destruct (v =? lineFeed)%N; [discriminate | by subst].
Qed.

Lemma splitCells_plain c rest cells cur :
  c <> backslash -> c <> pipe ->
  PluginTable.splitCells (c :: rest) cells cur false
  = PluginTable.splitCells rest cells (cur ++ [c]) false.
Proof.
  intros Hb Hp. cbn [PluginTable.splitCells].
  destruct (N.eqb_spec c backslash); [done |]. by destruct (N.eqb_spec c pipe).
Qed.

Lemma splitCells_space rest cells cur :
  PluginTable.splitCells (space :: rest) cells cur false
  = PluginTable.splitCells rest cells (cur ++ [space]) false.
Proof. by apply splitCells_plain. Qed.

Lemma splitCells_pipe rest cells cur :
  PluginTable.splitCells (pipe :: rest) cells cur false
  = PluginTable.splitCells rest (cells ++ [trim cur]) [] false.
Proof. reflexivity. Qed.

Lemma splitCells_escaped n rest cells cur :
  (backslash ∉ n) ->
  PluginTable.splitCells (escapePipes n ++ rest) cells cur false
  = PluginTable.splitCells rest cells (cur ++ n) false.
Proof.
  revert cur. induction n as [| c n IH]; intros cur Hn.
  - by rewrite app_nil_r.
  - apply not_elem_of_cons in Hn as [Hc Hn].
    change (c :: n) with ([c] ++ n) at 1. rewrite escapePipes_app, <- app_assoc.
    replace (cur ++ c :: n) with ((cur ++ [c]) ++ n) by (by rewrite <- app_assoc).
    rewrite <- IH by done.
    unfold escapePipes at 1. cbn [flat_map].
    destruct (N.eqb_spec c pipe) as [-> | Hp]; [reflexivity |].
    cbn [app]. by apply splitCells_plain.
Qed.

Lemma unlessEmpty_nil : unlessEmpty [] = [].
Proof. reflexivity. Qed.

Lemma unlessEmpty_cons s : s <> [] -> unlessEmpty s = [s].
Proof. by destruct s. Qed.

(** The cells after the first, read from the trimmed inside of a row. *)
Lemma splitCells_tail xs x cells :
  Forall (fun y => backslash ∉ trim y) xs -> (backslash ∉ trim x) ->
  let done :=
    PluginTable.splitCells
      (trimEnd (rowInside (escapePipes <$> (trim <$> xs)) (escapePipes (trim x))))
      cells [] false in
  (if (0 <? length done.2)%nat then done.1 ++ [trim done.2] else done.1)
  = cells ++ (trim <$> xs) ++ unlessEmpty (trim x).
Proof.
  intros Hxs Hx. revert cells.
  induction Hxs as [| y xs Hy Hxs IH]; intros cells.
  - cbn [fmap list_fmap rowInside].
    destruct (escapePipes_shape x) as [Hnil | [_ (i & l & Hl & Hwl)]].
    + rewrite Hnil. cbn. by rewrite app_nil_r.
    + assert (Hne : trim x <> []).
      { intros Hnil. rewrite Hnil in Hl. by destruct i. }
      rewrite unlessEmpty_cons by done.
      replace ([space] ++ escapePipes (trim x) ++ [space])
        with (([space] ++ i) ++ l :: [space])
        by (by rewrite Hl, <- !app_assoc).
      rewrite trimEnd_app_nonws by done.
      change (trimEnd [space]) with (@nil N).
      rewrite <- app_assoc, <- Hl. cbn [app].
      rewrite splitCells_space.
      rewrite <- (app_nil_r (escapePipes (trim x))).
      rewrite splitCells_escaped by done.
      cbn [PluginTable.splitCells fst snd].
      pose proof (trim_padded [space] x []) as Hpad.
      rewrite app_nil_r in Hpad. cbn [app] in *.
      rewrite Hpad by (by repeat constructor). reflexivity.
  - rewrite !fmap_cons. cbn [rowInside].
    rewrite trimEnd_app_nonws by done.
    rewrite <- !app_assoc. cbn [app].
    rewrite splitCells_space.
    rewrite splitCells_escaped by done.
    rewrite splitCells_space, splitCells_pipe.
    rewrite app_nil_l, <- app_assoc.
    rewrite (trim_padded [space] y [space]) by (by repeat constructor).
    cbv zeta in IH. rewrite IH. by rewrite <- app_assoc.
Qed.

(** A row between its two outer pipes. *)
Lemma row_between_pipes (inside : jsstring) :
  let row := pipe :: inside ++ [pipe] in
  trim row = row /\ startsWith row [pipe] = true /\ endsWith row [pipe] = true
  /\ sliceInner row = inside.
Proof.
  cbv zeta. split; [| split; [| split]].
  - unfold trim. rewrite trimStart_nonws by done.
    rewrite app_comm_cons. rewrite (trimEnd_app_nonws (pipe :: inside) pipe []) by done.
    reflexivity.
  - by destruct inside.
  - unfold endsWith. rewrite app_comm_cons, rev_app_distr. cbn [rev app].
    by destruct (rev inside).
  - unfold sliceInner. cbn [length drop].
    rewrite length_app. cbn [length].
    replace (S (length inside + 1) - 2)%nat with (length inside) by lia.
    apply take_app_length.
Qed.

Lemma tableRow_inside c1 c2 c3 c4 c5 c6 :
  tableRow c1 c2 c3 c4 c5 c6
  = pipe :: rowInside (escapeTableCell <$> [c1; c2; c3; c4; c5])
                      (escapeTableCell c6) ++ [pipe].
Proof.
  unfold tableRow.
  change (js "| ") with [pipe; space].
  change (js " | ") with [space; pipe; space].
  change (js " |") with [space; pipe].
  cbn [fmap list_fmap rowInside].
  repeat (cbn [app]; rewrite <- ?app_assoc). reflexivity.
Qed.

Lemma plugin_cells_written x0 xs x :
  Forall (fun y => backslash ∉ trim y) (x0 :: xs) -> (backslash ∉ trim x) ->
  PluginTable.splitTableRow
    (pipe :: rowInside (escapePipes <$> (trim <$> x0 :: xs)) (escapePipes (trim x))
          ++ [pipe])
  = (trim <$> x0 :: xs) ++ unlessEmpty (trim x).
Proof.
  intros Hxs Hx. apply Forall_cons in Hxs as [Hx0 Hxs].
  unfold PluginTable.splitTableRow.
  destruct (row_between_pipes
              (rowInside (escapePipes <$> (trim <$> x0 :: xs)) (escapePipes (trim x))))
    as (-> & -> & -> & ->).
  cbn [negb orb]. rewrite !fmap_cons. cbn [rowInside].
  assert (Hcontent :
    trim (([space] ++ escapePipes (trim x0) ++ [space])
          ++ pipe :: rowInside (escapePipes <$> (trim <$> xs)) (escapePipes (trim x)))
    = trimStart ([space] ++ escapePipes (trim x0) ++ [space])
      ++ pipe :: trimEnd (rowInside (escapePipes <$> (trim <$> xs))
                                    (escapePipes (trim x)))).
  { unfold trim. rewrite trimStart_app_nonws by done.
    by rewrite trimEnd_app_nonws. }
  rewrite Hcontent. clear Hcontent.
  pose proof (splitCells_tail xs x [trim x0] Hxs Hx) as Htail. cbv zeta in Htail.
  destruct (escapePipes_shape x0) as [Hnil | [(h & t & Hh & Hws) _]].
  - rewrite Hnil. change (trimStart ([space] ++ escapePipes [] ++ [space])) with (@nil N).
    cbn [app]. rewrite splitCells_pipe. change (trim []) with (@nil N).
    rewrite Hnil in Htail. exact Htail.
  - assert (Hstart : trimStart ([space] ++ escapePipes (trim x0) ++ [space])
                     = escapePipes (trim x0) ++ [space]).
    { cbn [app trimStart]. change (isWhiteSpace space) with true. cbv iota.
      rewrite Hh. rewrite <- app_comm_cons. by apply trimStart_nonws. }
    rewrite Hstart, <- app_assoc.
    rewrite splitCells_escaped by done. cbn [app].
    rewrite splitCells_space, splitCells_pipe.
    pose proof (trim_padded [] x0 [space]) as Hpad. cbn [app] in Hpad.
    rewrite Hpad by (by repeat constructor). exact Htail.
Qed.

(** X23 (plugin [splitTableRow] after [escapeTableCell]): a row written from
    six cells that hold no backslash is read back, by the plugin's
    [splitTableRow], as the first five cells' texts (line feeds as spaces,
    trimmed; pipes kept), followed by the sixth cell's text unless that is
    empty: a row whose last cell is empty is read back with five cells. *)
Theorem plugin_reads_back_written_row c1 c2 c3 c4 c5 c6 :
  Forall (fun c => backslash ∉ c) [c1; c2; c3; c4; c5; c6] ->
  PluginTable.splitTableRow (tableRow c1 c2 c3 c4 c5 c6)
  = [cellText c1; cellText c2; cellText c3; cellText c4; cellText c5]
    ++ unlessEmpty (cellText c6).
Proof.
  intros Hcells.
  assert (Htexts : Forall (fun c => backslash ∉ cellText c) [c1; c2; c3; c4; c5; c6]).
  { eapply Forall_impl; [exact Hcells |]. intros c. apply cellText_no_backslash. }
  rewrite tableRow_inside. cbn [fmap list_fmap].
  rewrite !escapeTableCell_cellText.
  set (f := fun u : N => if (u =? lineFeed)%N then space else u).
  apply (plugin_cells_written (f <$> c1) [f <$> c2; f <$> c3; f <$> c4; f <$> c5]
           (f <$> c6)).
  - repeat (apply Forall_cons in Htexts as [? Htexts]). by repeat constructor.
  - repeat (apply Forall_cons in Htexts as [? Htexts]). done.
Qed.

Lemma plugin_reads_back_written_row_witness :
  Forall (fun c => backslash ∉ c)
         [js "1"; js "a|b"; [32; 120; 10; 121; 32]%N; js "----"; js ""; js ""]
  /\ PluginTable.splitTableRow
       (tableRow (js "1") (js "a|b") [32; 120; 10; 121; 32]%N (js "----") (js "") (js ""))
     = [js "1"; js "a|b"; js "x y"; js "----"; js ""].
Proof.
  assert (Hcells : Forall (fun c => backslash ∉ c)
            [js "1"; js "a|b"; [32; 120; 10; 121; 32]%N; js "----"; js ""; js ""]).
  { apply (bool_decide_unpack _). vm_compute. exact I. }
  split; [exact Hcells |].
  exact (plugin_reads_back_written_row _ _ _ _ _ _ Hcells).
Defined.

(** *** The manager's reader and the rows its writer makes *)

Lemma escapePipes_plain n : (pipe ∉ n) -> escapePipes n = n.
Proof.
  induction n as [| c n IH]; [done |]. intros Hn.
  apply not_elem_of_cons in Hn as [Hc Hn].
  unfold escapePipes. cbn [flat_map]. fold (escapePipes n).
  destruct (N.eqb_spec c pipe); [done |]. by rewrite IH.
Qed.

Lemma splitOn_plain sep s : (sep ∉ s) -> splitOn sep s = [s].
Proof.
  induction s as [| c s IH]; [done |]. intros Hs.
  apply not_elem_of_cons in Hs as [Hc Hs]. cbn [splitOn].
  destruct (N.eqb_spec c sep); [done |]. by rewrite IH.
Qed.

Lemma cellText_no_pipe c : (pipe ∉ c) -> (pipe ∉ cellText c).
Proof.
  intros Hc Hin. apply Hc. unfold cellText in Hin. apply elem_of_trim in Hin.
  apply list_elem_of_fmap in Hin as (v & Hv & Hvin).
  destruct (v =? lineFeed)%N; [discriminate | by subst].
Qed.

Lemma trimStart_idem s : trimStart (trimStart s) = trimStart s.
Proof.
  induction s as [| c s IH]; [done |]. cbn [trimStart].
  destruct (isWhiteSpace c) eqn:Hc; [exact IH |]. by apply trimStart_nonws.
Qed.

Lemma manager_tail xs x :
  Forall (fun y => pipe ∉ trim y) xs -> (pipe ∉ trim x) ->
  trim <$> splitOn pipe (trimEnd (rowInside (trim <$> xs) (trim x)))
  = (trim <$> xs) ++ [trim x].
Proof.
  intros Hxs Hx. induction Hxs as [| y xs Hy Hxs IH].
  - cbn [fmap list_fmap rowInside app].
    destruct (trim_shape x) as [Hnil | [_ (i & l & Hl & Hwl)]].
    + rewrite Hnil. reflexivity.
    + assert (Hend : trimEnd (space :: trim x ++ [space]) = space :: trim x).
      { rewrite Hl.
        replace (space :: (i ++ [l]) ++ [space]) with ((space :: i) ++ l :: [space])
          by (cbn [app]; by rewrite <- app_assoc).
        by rewrite trimEnd_app_nonws. }
      rewrite Hend. rewrite splitOn_plain.
      * pose proof (trim_padded [space] x []) as Hpad.
        rewrite app_nil_r in Hpad. cbn [app] in Hpad.
        cbn [fmap list_fmap]. by rewrite Hpad by (by repeat constructor).
      * by apply not_elem_of_cons.
  - rewrite !fmap_cons. cbn [rowInside].
    rewrite trimEnd_app_nonws by done. rewrite splitOn_app.
    rewrite splitOn_plain.
    + rewrite fmap_app. cbn [fmap list_fmap] in *. rewrite IH.
      by rewrite (trim_padded [space] y [space]) by (by repeat constructor).
    + rewrite !elem_of_app, !list_elem_of_singleton. intros [? | [? | ?]]; done.
Qed.

Lemma manager_cells_written x0 xs x :
  Forall (fun y => pipe ∉ trim y) (x0 :: xs) -> (pipe ∉ trim x) ->
  ManagerTable.splitTableRow
    (pipe :: rowInside (trim <$> x0 :: xs) (trim x) ++ [pipe])
  = (trim <$> x0 :: xs) ++ [trim x].
Proof.
  intros Hxs Hx. apply Forall_cons in Hxs as [Hx0 Hxs].
  unfold ManagerTable.splitTableRow.
  destruct (row_between_pipes (rowInside (trim <$> x0 :: xs) (trim x)))
    as (-> & -> & -> & ->).
  cbn [negb orb]. rewrite !fmap_cons. cbn [rowInside].
  assert (Hcontent :
    trim (([space] ++ trim x0 ++ [space]) ++ pipe :: rowInside (trim <$> xs) (trim x))
    = trimStart ([space] ++ trim x0 ++ [space])
      ++ pipe :: trimEnd (rowInside (trim <$> xs) (trim x))).
  { unfold trim at 1. rewrite trimStart_app_nonws by done.
    by rewrite trimEnd_app_nonws. }
  rewrite Hcontent. clear Hcontent. rewrite splitOn_app, fmap_app.
  rewrite (manager_tail xs x Hxs Hx).
  rewrite splitOn_plain.
  - cbn [fmap list_fmap app]. f_equal.
    unfold trim at 1. rewrite trimStart_idem.
    apply (trim_padded [space] x0 [space]); by repeat constructor.
  - intros Hin. apply elem_of_trimStart in Hin.
    rewrite !elem_of_app, !list_elem_of_singleton in Hin.
    destruct Hin as [? | [? | ?]]; done.
Qed.

Lemma manager_row_cells c1 c2 c3 c4 c5 c6 :
  Forall (fun c => pipe ∉ c) [c1; c2; c3; c4; c5; c6] ->
  ManagerTable.splitTableRow (tableRow c1 c2 c3 c4 c5 c6)
  = cellText <$> [c1; c2; c3; c4; c5; c6].
Proof.
  intros Hcells.
  assert (Htexts : Forall (fun c => pipe ∉ cellText c) [c1; c2; c3; c4; c5; c6]).
  { eapply Forall_impl; [exact Hcells |]. intros c. apply cellText_no_pipe. }
  rewrite tableRow_inside. cbn [fmap list_fmap].
  rewrite !escapeTableCell_cellText.
  repeat (apply Forall_cons in Htexts as [? Htexts]).
  rewrite !escapePipes_plain by done.
  set (f := fun u : N => if (u =? lineFeed)%N then space else u).
  apply (manager_cells_written (f <$> c1) [f <$> c2; f <$> c3; f <$> c4; f <$> c5]
           (f <$> c6)); [by repeat constructor | done].
Qed.

(** X24 (manager [splitTableRow] after [escapeTableCell]): a row written
    from six cells that hold no pipe is read back, by the manager's
    [splitTableRow], as the six cells' texts (line feeds as spaces, trimmed),
    an empty last cell included. *)
Theorem manager_reads_back_written_row c1 c2 c3 c4 c5 c6 :
  Forall (fun c => pipe ∉ c) [c1; c2; c3; c4; c5; c6] ->
  ManagerTable.splitTableRow (tableRow c1 c2 c3 c4 c5 c6)
  = cellText <$> [c1; c2; c3; c4; c5; c6].
Proof. apply manager_row_cells. Qed.

Lemma manager_reads_back_written_row_witness :
  Forall (fun c => pipe ∉ c)
         [js "1"; js "cat"; [32; 120; 10; 121; 32]%N; js "a\b"; js ""; js ""]
  /\ ManagerTable.splitTableRow
       (tableRow (js "1") (js "cat") [32; 120; 10; 121; 32]%N (js "a\b") (js "") (js ""))
     = [js "1"; js "cat"; js "x y"; js "a\b"; js ""; js ""].
Proof.
  assert (Hcells : Forall (fun c => pipe ∉ c)
            [js "1"; js "cat"; [32; 120; 10; 121; 32]%N; js "a\b"; js ""; js ""]).
  { apply (bool_decide_unpack _). vm_compute. exact I. }
  split; [exact Hcells |].
  exact (manager_reads_back_written_row _ _ _ _ _ _ Hcells).
Defined.

Lemma countUnit_app u a b : countUnit u (a ++ b) = (countUnit u a + countUnit u b)%nat.
Proof. unfold countUnit. by rewrite filter_app, length_app. Qed.

Lemma countUnit_cons u c s :
  countUnit u (c :: s) = ((if (c =? u)%N then 1 else 0) + countUnit u s)%nat.
Proof.
  unfold countUnit. rewrite filter_cons.
  destruct (N.eqb_spec c u); destruct (decide (c = u)); done.
Qed.

Lemma countUnit_rev u s : countUnit u (rev s) = countUnit u s.
Proof.
  induction s as [| c s IH]; [done |]. cbn [rev].
  rewrite countUnit_app, IH, !countUnit_cons. unfold countUnit at 2. simpl. lia.
Qed.

Lemma countUnit_trimStart s : countUnit pipe (trimStart s) = countUnit pipe s.
Proof.
  induction s as [| c s IH]; [done |]. cbn [trimStart].
  destruct (isWhiteSpace c) eqn:Hc; [| done].
  rewrite countUnit_cons, IH. by rewrite isWhiteSpace_not_pipe.
Qed.

Lemma countUnit_trim s : countUnit pipe (trim s) = countUnit pipe s.
Proof.
  unfold trim, trimEnd.
  by rewrite countUnit_rev, countUnit_trimStart, countUnit_rev, countUnit_trimStart.
Qed.

Lemma countUnit_escapePipes s : countUnit pipe (escapePipes s) = countUnit pipe s.
Proof.
  induction s as [| c s IH]; [done |].
  change (c :: s) with ([c] ++ s). rewrite escapePipes_app, !countUnit_app, IH.
  f_equal. unfold escapePipes. cbn [flat_map].
  by destruct (N.eqb_spec c pipe) as [-> | ].
Qed.

Lemma countUnit_escapeTableCell c :
  countUnit pipe (escapeTableCell c) = countUnit pipe c.
Proof.
  rewrite escapeTableCell_cellText, countUnit_escapePipes. unfold cellText.
  rewrite countUnit_trim. induction c as [| v c IH]; [done |].
  rewrite fmap_cons, !countUnit_cons, IH. f_equal.
  destruct (N.eqb_spec v lineFeed) as [-> | ]; done.
Qed.

Lemma length_splitOn sep s : length (splitOn sep s) = S (countUnit sep s).
Proof.
  induction s as [| c s IH]; [done |]. rewrite countUnit_cons. cbn [splitOn].
  destruct (N.eqb_spec c sep); cbn [length]; [by rewrite IH |].
  destruct (splitOn sep s); [done |]. exact IH.
Qed.

Lemma countUnit_rowInside cells last :
  countUnit pipe (rowInside cells last)
  = (length cells + sum_list (countUnit pipe <$> cells) + countUnit pipe last)%nat.
Proof.
  induction cells as [| cell cells IH]; cbn [rowInside length fmap list_fmap sum_list sum_list_with].
  - rewrite !countUnit_app. change (countUnit pipe [space]) with 0%nat. lia.
  - rewrite countUnit_app, (countUnit_cons pipe pipe), IH, !countUnit_app.
    change (countUnit pipe [space]) with 0%nat.
    change (pipe =? pipe)%N with true. unfold id. lia.
Qed.

(** X25 (manager [splitTableRow] after [escapeTableCell]): the manager's
    [splitTableRow] reads a row written from six cells as six cells and one
    more for every pipe in them: it splits at the pipes that
    [escapeTableCell] has escaped. *)
Theorem manager_splits_at_escaped_pipes c1 c2 c3 c4 c5 c6 :
  length (ManagerTable.splitTableRow (tableRow c1 c2 c3 c4 c5 c6))
  = (6 + countUnit pipe c1 + countUnit pipe c2 + countUnit pipe c3
     + countUnit pipe c4 + countUnit pipe c5 + countUnit pipe c6)%nat.
Proof.
  rewrite tableRow_inside. unfold ManagerTable.splitTableRow.
  destruct (row_between_pipes
              (rowInside (escapeTableCell <$> [c1; c2; c3; c4; c5])
                         (escapeTableCell c6))) as (-> & -> & -> & ->).
  cbn [negb orb]. rewrite length_fmap, length_splitOn, countUnit_trim.
  rewrite countUnit_rowInside. cbn [fmap list_fmap sum_list sum_list_with length].
  rewrite !countUnit_escapeTableCell. unfold id. lia.
Qed.

(** *** The rows that the Anki sync takes *)

Lemma sliceInner_between {A} (a b : A) (m : list A) : sliceInner (a :: m ++ [b]) = m.
Proof.
  unfold sliceInner. cbn [length drop]. rewrite length_app. cbn [length].
  replace (S (length m + 1) - 2)%nat with (length m) by lia.
  apply take_app_length.
Qed.

Lemma sync_cells xs x :
  Forall (fun y => pipe ∉ trim y) xs -> (pipe ∉ trim x) ->
  trim <$> splitOn pipe (rowInside (trim <$> xs) (trim x)) = (trim <$> xs) ++ [trim x].
Proof.
  intros Hxs Hx. induction Hxs as [| y xs Hy Hxs IH].
  - cbn [fmap list_fmap rowInside]. rewrite splitOn_plain.
    + cbn [fmap list_fmap].
      by rewrite (trim_padded [space] x [space]) by (by repeat constructor).
    + rewrite !elem_of_app, !list_elem_of_singleton. intros [? | [? | ?]]; done.
  - rewrite !fmap_cons. cbn [rowInside]. rewrite splitOn_app, splitOn_plain.
    + rewrite fmap_app. cbn [fmap list_fmap] in *. rewrite IH.
      by rewrite (trim_padded [space] y [space]) by (by repeat constructor).
    + rewrite !elem_of_app, !list_elem_of_singleton. intros [? | [? | ?]]; done.
Qed.

Lemma parseTableRow_written c1 c2 c3 c4 c5 c6 :
  Forall (fun c => pipe ∉ c) [c1; c2; c3; c4; c5; c6] ->
  includes (tableRow c1 c2 c3 c4 c5 c6) (js "---") = false ->
  isDataRow (tableRow c1 c2 c3 c4 c5 c6) = true
  /\ parseTableRow (tableRow c1 c2 c3 c4 c5 c6)
     = Some (cellText <$> [c1; c2; c3; c4; c5; c6]).
Proof.
  intros Hcells Hrow.
  assert (Htexts : Forall (fun c => pipe ∉ cellText c) [c1; c2; c3; c4; c5; c6]).
  { eapply Forall_impl; [exact Hcells |]. intros c. apply cellText_no_pipe. }
  unfold isDataRow, parseTableRow. revert Hrow. rewrite tableRow_inside.
  destruct (row_between_pipes
              (rowInside (escapeTableCell <$> [c1; c2; c3; c4; c5])
                         (escapeTableCell c6))) as (-> & -> & _ & _).
  intros ->. split.
  - cbn [negb andb]. apply Nat.ltb_lt.
    cbn [fmap list_fmap rowInside]. repeat (rewrite ?length_app; cbn [length]). lia.
  - f_equal. cbn [splitOn]. change (pipe =? pipe)%N with true. cbv iota.
    rewrite splitOn_app. cbn [splitOn]. rewrite fmap_cons, fmap_app.
    cbn [fmap list_fmap]. change (trim []) with (@nil N).
    rewrite sliceInner_between.
    rewrite !escapeTableCell_cellText.
    repeat (apply Forall_cons in Htexts as [? Htexts]).
    rewrite !escapePipes_plain by done.
    set (f := fun u : N => if (u =? lineFeed)%N then space else u).
    apply (sync_cells [f <$> c1; f <$> c2; f <$> c3; f <$> c4; f <$> c5] (f <$> c6));
      [by repeat constructor | done].
Qed.

Lemma rowInside_holds cells last cell :
  cell ∈ cells ++ [last] -> exists a b, rowInside cells last = a ++ cell ++ b.
Proof.
  induction cells as [| c cells IH]; intros Hin.
  - apply list_elem_of_singleton in Hin as ->. by exists [space], [space].
  - rewrite <- app_comm_cons in Hin. apply elem_of_cons in Hin as [-> | Hin].
    + cbn [rowInside]. exists [space], ([space] ++ pipe :: rowInside cells last).
      by rewrite <- !app_assoc.
    + destruct (IH Hin) as (a & b & Heq). cbn [rowInside]. rewrite Heq.
      exists (([space] ++ c ++ [space]) ++ pipe :: a), b.
      by rewrite <- !app_assoc.
Qed.

Lemma orElse_nil s : orElse s [] = s.
Proof. by destruct s. Qed.

(** X26 ([syncWithAnki] with [isDataRow], [parseTableRow], [isValidFront]):
    a row written from six cells that hold no pipe, and in which [---] does
    not occur, leads the Anki sync to a note when the cell of the front
    column has a text that is neither empty nor a number: the front of the
    note is that text and its four fields are the texts of the third to the
    sixth cell.  A header row that meets these conditions is taken like any
    other row. *)
Theorem sync_takes_written_row (frontColumn : Z) c1 c2 c3 c4 c5 c6 front :
  Forall (fun c => pipe ∉ c) [c1; c2; c3; c4; c5; c6] ->
  includes (tableRow c1 c2 c3 c4 c5 c6) (js "---") = false ->
  1 <= frontColumn ->
  (cellText <$> [c1; c2; c3; c4; c5; c6]) !! Z.to_nat (frontColumn - 1) = Some front ->
  front <> [] -> isDigits front = false ->
  noteOfLine frontColumn (tableRow c1 c2 c3 c4 c5 c6)
  = Some (front, cellText c3, cellText c4, cellText c5, cellText c6).
Proof.
  intros Hcells Hrow Hk Hfront Hne Hdigits.
  destruct (parseTableRow_written c1 c2 c3 c4 c5 c6 Hcells Hrow) as [Hdata Hparse].
  unfold noteOfLine. rewrite Hdata, Hparse. cbn [negb].
  pose proof (lookup_lt_Some _ _ _ Hfront) as Hlt. rewrite length_fmap in Hlt.
  cbn [length] in Hlt.
  rewrite length_fmap. cbn [length].
  destruct (Z.geb_spec (Z.of_nat 6) frontColumn) as [_ | Hbad]; [| lia].
  unfold cellAt. destruct (Z.ltb_spec (frontColumn - 1) 0) as [Hbad | _]; [lia |].
  rewrite Hfront.
  assert (Hin : front ∈ cellText <$> [c1; c2; c3; c4; c5; c6]).
  { by eapply list_elem_of_lookup_2. }
  apply list_elem_of_fmap in Hin as (c & Hc & Hcin).
  assert (Htrim : trim front = front).
  { rewrite Hc. unfold cellText. pose proof (trim_padded [] ((fun u => if (u =? lineFeed)%N then space else u) <$> c) []) as Hpad.
    rewrite app_nil_r in Hpad. apply Hpad; constructor. }
  assert (Hhyphens : includes front (js "---") = false).
  { destruct (includes front (js "---")) eqn:Hinc; [| done].
    rewrite tableRow_inside in Hrow.
    assert (Hcell : escapeTableCell c
                    ∈ (escapeTableCell <$> [c1; c2; c3; c4; c5]) ++ [escapeTableCell c6]).
    { change ((escapeTableCell <$> [c1; c2; c3; c4; c5]) ++ [escapeTableCell c6])
        with (escapeTableCell <$> [c1; c2; c3; c4; c5; c6]).
      apply list_elem_of_fmap. by exists c. }
    destruct (rowInside_holds _ _ _ Hcell) as (a & b & Heq).
    rewrite Heq in Hrow.
    assert (Hplain : escapeTableCell c = front).
    { rewrite escapeTableCell_cellText, <- Hc. apply escapePipes_plain.
      rewrite Hc. apply cellText_no_pipe.
      rewrite Forall_forall in Hcells. by apply Hcells. }
    rewrite Hplain in Hrow.
    assert (Hyes : includes (pipe :: (a ++ front ++ b) ++ [pipe]) (js "---") = true).
    { apply (includes_app_r [pipe]). rewrite <- !app_assoc.
      apply includes_app_r. by apply includes_app_l. }
    congruence. }
  unfold isValidFront. rewrite Htrim, Hhyphens, Hdigits.
  destruct front as [| u front]; [done |]. cbn [falsy truthy negb andb].
  by rewrite !orElse_nil.
Qed.

Lemma sync_takes_written_row_witness :
  noteOfLine 2 (tableRow (js "#") (js "Word") (js "Translation") (js "Definition")
                         (js "Example") (js "Translated Example"))
  = Some (js "Word", js "Translation", js "Definition", js "Example",
          js "Translated Example").
Proof.
  apply (sync_takes_written_row 2 (js "#") (js "Word") (js "Translation")
           (js "Definition") (js "Example") (js "Translated Example") (js "Word")).
  - apply (bool_decide_unpack _). vm_compute. exact I.
  - vm_compute. reflexivity.
  - lia.
  - reflexivity.
  - discriminate.
  - vm_compute. reflexivity.
Defined.

(** *** Updating the table a second time *)

Lemma trim_idem x : trim (trim x) = trim x.
Proof.
  pose proof (trim_padded [] x []) as Hpad. rewrite app_nil_r in Hpad.
  apply Hpad; constructor.
Qed.

Lemma fmap_lineFeed_free (p : jsstring) :
  (lineFeed ∉ p) -> (fun u => if (u =? lineFeed)%N then space else u) <$> p = p.
Proof.
  induction p as [| c p IH]; [done |]. intros Hp.
  apply not_elem_of_cons in Hp as [Hc Hp]. rewrite fmap_cons, IH by done.
  by destruct (N.eqb_spec c lineFeed).
Qed.

Lemma cellText_no_lineFeed x : lineFeed ∉ cellText x.
Proof.
  intros Hin. unfold cellText in Hin. apply elem_of_trim in Hin.
  apply list_elem_of_fmap in Hin as (v & Hv & _).
  destruct (N.eqb_spec v lineFeed); [discriminate | done].
Qed.

Lemma cellText_idem x : cellText (cellText x) = cellText x.
Proof.
  unfold cellText at 1. rewrite fmap_lineFeed_free by apply cellText_no_lineFeed.
  apply trim_idem.
Qed.

Lemma cellText_readCell p : readCell p -> cellText p = p.
Proof.
  intros (Htrim & _ & Hlf). unfold cellText. by rewrite fmap_lineFeed_free.
Qed.

Lemma readCell_nil : readCell [].
Proof. split; [done |]. split; apply not_elem_of_nil. Qed.

Lemma elem_of_splitOn sep s p x : p ∈ splitOn sep s -> x ∈ p -> x ∈ s.
Proof.
  revert p. induction s as [| c s IH]; intros p Hp Hx.
  - apply list_elem_of_singleton in Hp as ->. by apply elem_of_nil in Hx.
  - cbn [splitOn] in Hp. destruct (c =? sep)%N.
    + apply elem_of_cons in Hp as [-> | Hp]; [by apply elem_of_nil in Hx |].
      right. by apply (IH p).
    + destruct (splitOn sep s) as [| part parts] eqn:Hs.
      * apply list_elem_of_singleton in Hp as ->.
        apply list_elem_of_singleton in Hx as ->. by left.
      * apply elem_of_cons in Hp as [-> | Hp].
        -- apply elem_of_cons in Hx as [-> | Hx]; [by left |].
           right. apply (IH part); [by left | done].
        -- right. apply (IH p); [by right | done].
Qed.

Lemma splitOn_no_sep sep s p : p ∈ splitOn sep s -> sep ∉ p.
Proof.
  revert p. induction s as [| c s IH]; intros p Hp.
  - apply list_elem_of_singleton in Hp as ->. apply not_elem_of_nil.
  - cbn [splitOn] in Hp. destruct (N.eqb_spec c sep) as [-> | Hc].
    + apply elem_of_cons in Hp as [-> | Hp]; [apply not_elem_of_nil | by apply IH].
    + destruct (splitOn sep s) as [| part parts] eqn:Hs.
      * apply list_elem_of_singleton in Hp as ->.
        apply not_elem_of_cons. split; [done | apply not_elem_of_nil].
      * apply elem_of_cons in Hp as [-> | Hp].
        -- apply not_elem_of_cons. split; [done |]. apply IH. by left.
        -- apply IH. by right.
Qed.

Lemma manager_parts_read row p :
  (lineFeed ∉ row) -> p ∈ ManagerTable.splitTableRow row -> readCell p.
Proof.
  intros Hrow Hp. unfold ManagerTable.splitTableRow in Hp.
  destruct (negb (startsWith (trim row) [pipe]) || negb (endsWith (trim row) [pipe]));
    [by apply elem_of_nil in Hp |].
  apply list_elem_of_fmap in Hp as (q & -> & Hq).
  split; [apply trim_idem |]. split.
  - intros Hin. apply elem_of_trim in Hin. by apply (splitOn_no_sep _ _ _ Hq).
  - intros Hin. apply elem_of_trim in Hin. apply Hrow.
    apply (elem_of_splitOn _ _ _ _ Hq) in Hin.
    apply elem_of_trim in Hin. unfold sliceInner in Hin.
    apply subseteq_take in Hin. apply subseteq_drop in Hin.
    by apply elem_of_trim.
Qed.

Lemma manager_part_read row i :
  (lineFeed ∉ row) -> readCell (default [] (ManagerTable.splitTableRow row !! i)).
Proof.
  intros Hrow. destruct (ManagerTable.splitTableRow row !! i) as [p |] eqn:Hp.
  - apply (manager_parts_read row); [done |]. by eapply list_elem_of_lookup_2.
  - apply readCell_nil.
Qed.

Lemma readCell_trim p : readCell p -> readCell (trim p).
Proof. intros Hp. destruct Hp as (Htrim & Hrest). rewrite Htrim. by split. Qed.

Lemma mapGet_elem {V} (k : jsstring) (m : list (jsstring * V)) v :
  mapGet k m = Some v -> (k, v) ∈ m.
Proof.
  induction m as [| [k' v'] m IH]; [done |]. cbn [mapGet].
  destruct (decide (k = k')) as [-> | ].
  - intros [= ->]. by left.
  - intros H. right. by apply IH.
Qed.

Lemma findResult_elem results w r :
  findResult results w = Some r -> exists k, (k, r) ∈ results.
Proof.
  unfold findResult. destruct (mapGet w results) as [found |] eqn:Hget.
  - intros [= ->]. exists w. by apply mapGet_elem.
  - destruct (List.find _ results) as [[k v] |] eqn:Hfind; [| done].
    intros [= ->]. exists k. apply find_some in Hfind as [Hin _].
    by apply list_elem_of_In.
Qed.

Lemma fill_again old found :
  cellText old = old ->
  cellText (fillField (cellText (fillField old found)) found)
  = cellText (fillField old found).
Proof.
  intros Hold. unfold fillField at 2 3.
  destruct (unfilled old && truthy found && truthy (trim found)) eqn:Hfill.
  - unfold fillField.
    destruct (unfilled (cellText found) && truthy found && truthy (trim found));
      [done | apply cellText_idem].
  - rewrite Hold. unfold fillField. by rewrite Hfill.
Qed.

Lemma fillField_no_pipe old found :
  (pipe ∉ old) -> (pipe ∉ found) -> pipe ∉ fillField old found.
Proof. intros. unfold fillField. by destruct (_ && _ && _). Qed.

Lemma tableRow_texts a1 a2 a3 a4 a5 a6 b1 b2 b3 b4 b5 b6 :
  cellText a1 = cellText b1 -> cellText a2 = cellText b2 ->
  cellText a3 = cellText b3 -> cellText a4 = cellText b4 ->
  cellText a5 = cellText b5 -> cellText a6 = cellText b6 ->
  tableRow a1 a2 a3 a4 a5 a6 = tableRow b1 b2 b3 b4 b5 b6.
Proof.
  intros H1 H2 H3 H4 H5 H6. unfold tableRow. rewrite !escapeTableCell_cellText.
  by rewrite H1, H2, H3, H4, H5, H6.
Qed.

(** What one turn of the update gives: the row itself, or a row written
    from cells read from it, filled from the result found for its word. *)
Lemma update_shape results row :
  (lineFeed ∉ row) ->
  updateRowWithPartialResults results row = (row, false)
  \/ exists num word a3 a4 a5 a6,
       readCell num /\ readCell word /\ readCell a3 /\ readCell a4
       /\ readCell a5 /\ readCell a6
       /\ (updateRowWithPartialResults results row).1
          = match findResult results word with
            | Some r =>
                tableRow num word (fillField a3 (translation r))
                         (fillField a4 (definition r))
                         (fillField a5 (exampleSource r))
                         (fillField a6 (exampleTarget r))
            | None => tableRow num word a3 a4 a5 a6
            end.
Proof.
  intros Hrow. unfold updateRowWithPartialResults.
  destruct (falsy (trim row)); [by left |].
  destruct (negb (includes row [pipe])); [by left |].
  destruct (length (ManagerTable.splitTableRow row) <? 2)%nat; [by left |].
  destruct (falsy (trim (default [] (ManagerTable.splitTableRow row !! 1%nat)))
            || ManagerTable.isSeparatorRow row || ManagerTable.isHeaderRow row);
    [by left |].
  right.
  exists (default [] (ManagerTable.splitTableRow row !! 0%nat)),
         (trim (default [] (ManagerTable.splitTableRow row !! 1%nat))),
         (default [] (ManagerTable.splitTableRow row !! 2%nat)),
         (default [] (ManagerTable.splitTableRow row !! 3%nat)),
         (default [] (ManagerTable.splitTableRow row !! 4%nat)),
         (default [] (ManagerTable.splitTableRow row !! 5%nat)).
  repeat (split; [first [by apply manager_part_read
                        | by apply readCell_trim, manager_part_read] |]).
  by destruct (findResult results _).
Qed.

(** The turn of the update on a row that was written. *)
Lemma update_written results num word a3 a4 a5 a6 :
  readCell num -> readCell word ->
  Forall (fun c => pipe ∉ c) [a3; a4; a5; a6] ->
  let row := tableRow num word a3 a4 a5 a6 in
  (updateRowWithPartialResults results row).1 = row
  \/ (updateRowWithPartialResults results row).1
     = match findResult results word with
       | Some r =>
           tableRow num word (fillField (cellText a3) (translation r))
                    (fillField (cellText a4) (definition r))
                    (fillField (cellText a5) (exampleSource r))
                    (fillField (cellText a6) (exampleTarget r))
       | None => tableRow num word (cellText a3) (cellText a4) (cellText a5)
                          (cellText a6)
       end.
Proof.
  intros Hnum Hword Hfields row.
  assert (Hparts : ManagerTable.splitTableRow row
                   = [num; word; cellText a3; cellText a4; cellText a5; cellText a6]).
  { unfold row. rewrite manager_row_cells.
    - cbn [fmap list_fmap]. by rewrite (cellText_readCell num), (cellText_readCell word).
    - pose proof Hnum as (_ & ? & _). pose proof Hword as (_ & ? & _).
      apply Forall_cons; split; [done |]. apply Forall_cons; split; [done |].
      exact Hfields. }
  unfold updateRowWithPartialResults. rewrite Hparts.
  destruct (falsy (trim row)); [by left |].
  destruct (negb (includes row [pipe])); [by left |].
  change (length [num; word; cellText a3; cellText a4; cellText a5; cellText a6] <? 2)%nat
    with false. cbv iota.
  change ([num; word; cellText a3; cellText a4; cellText a5; cellText a6] !! 0%nat)
    with (Some num).
  change ([num; word; cellText a3; cellText a4; cellText a5; cellText a6] !! 1%nat)
    with (Some word).
  change ([num; word; cellText a3; cellText a4; cellText a5; cellText a6] !! 2%nat)
    with (Some (cellText a3)).
  change ([num; word; cellText a3; cellText a4; cellText a5; cellText a6] !! 3%nat)
    with (Some (cellText a4)).
  change ([num; word; cellText a3; cellText a4; cellText a5; cellText a6] !! 4%nat)
    with (Some (cellText a5)).
  change ([num; word; cellText a3; cellText a4; cellText a5; cellText a6] !! 5%nat)
    with (Some (cellText a6)).
  cbn [default from_option id].
  destruct Hword as (Htrim & _). rewrite Htrim.
  destruct (falsy word || ManagerTable.isSeparatorRow row || ManagerTable.isHeaderRow row);
    [by left |].
  right. by destruct (findResult results word).
Qed.

(** X27 ([updateTableWithPartialResults], one turn of its loop): when the
    results hold no pipe, updating a line (with no line feed in it) a second
    time with the same results gives the row the first update gave: the
    update of a row is idempotent. *)
Theorem manager_update_idempotent results row :
  (lineFeed ∉ row) ->
  Forall (fun kv => pipeFree kv.2) results ->
  (updateRowWithPartialResults results
     (updateRowWithPartialResults results row).1).1
  = (updateRowWithPartialResults results row).1.
Proof.
  intros Hrow Hresults.
  destruct (update_shape results row Hrow)
    as [Hsame | (num & word & a3 & a4 & a5 & a6 & Hnum & Hword & H3 & H4 & H5 & H6 & Hnew)].
  { rewrite Hsame. cbn [fst]. by rewrite Hsame. }
  rewrite Hnew. clear Hnew.
  destruct (findResult results word) as [r |] eqn:Hfound.
  - assert (Hr : pipeFree r).
    { destruct (findResult_elem _ _ _ Hfound) as (k & Hin).
      rewrite Forall_forall in Hresults. apply (Hresults (k, r) Hin). }
    destruct Hr as (Hr3 & Hr4 & Hr5 & Hr6).
    destruct (update_written results num word
                (fillField a3 (translation r)) (fillField a4 (definition r))
                (fillField a5 (exampleSource r)) (fillField a6 (exampleTarget r))
                Hnum Hword) as [Hsame | Hagain].
    + destruct H3 as (_ & ? & _), H4 as (_ & ? & _), H5 as (_ & ? & _),
        H6 as (_ & ? & _).
      repeat constructor; by apply fillField_no_pipe.
    + exact Hsame.
    + rewrite Hagain, Hfound.
      apply tableRow_texts; try reflexivity;
        apply fill_again; by apply cellText_readCell.
  - destruct (update_written results num word a3 a4 a5 a6 Hnum Hword)
      as [Hsame | Hagain].
    + destruct H3 as (_ & ? & _), H4 as (_ & ? & _), H5 as (_ & ? & _),
        H6 as (_ & ? & _). by repeat constructor.
    + exact Hsame.
    + rewrite Hagain, Hfound.
      apply tableRow_texts; try reflexivity; apply cellText_idem.
Qed.

Lemma manager_update_idempotent_witness :
  let results :=
    [(js "cat", mkResult (js "gato") (js "un animal") (js "The cat.") (js "El gato."))] in
  let row := js "| 1 | cat |  |  |  |  |" in
  (lineFeed ∉ row)
  /\ Forall (fun kv => pipeFree kv.2) results
  /\ (updateRowWithPartialResults results row).1
     = js "| 1 | cat | gato | un animal | The cat. | El gato. |"
  /\ (updateRowWithPartialResults results
        (updateRowWithPartialResults results row).1).1
     = (updateRowWithPartialResults results row).1.
Proof.
  intros results row.
  assert (Hrow : lineFeed ∉ row).
  { apply (bool_decide_unpack _). vm_compute. exact I. }
  assert (Hresults : Forall (fun kv => pipeFree kv.2) results).
  { repeat constructor; apply (bool_decide_unpack _); vm_compute; exact I. }
  split; [exact Hrow |]. split; [exact Hresults |].
  split; [vm_compute; reflexivity |].
  exact (manager_update_idempotent results row Hrow Hresults).
Defined.

(** *** Numbering the rows *)

Lemma isTableLine_nil : isTableLine [] = false.
Proof. reflexivity. Qed.

(** What every turn of the loops of [renumberTable] keeps. *)
Lemma renumberFrom_spec (fuel : nat) :
  forall (lines : list (list N)) (rowNumber : option Z) (total : Z),
    (length lines <= fuel)%nat ->
    (forall n, rowNumber = Some n -> 1 <= n) ->
    let done := renumberFrom lines rowNumber total in
    length done.1 = length lines /\
    total <= done.2 <= total + Z.of_nat (length lines) /\
    forall i line,
      lines !! i = Some line ->
      done.1 !! i = Some line
      \/ (isTableLine line = true /\ isSeparatorLine line = false
          /\ (6 <= length (rowCells line))%nat
          /\ exists n, 1 <= n /\ done.1 !! i = Some (numberedRow n (rowCells line))).
Proof.
  induction fuel as [| fuel IH]; intros lines rowNumber total Hfuel Hpos.
  { destruct lines; [| simpl in Hfuel; lia]. cbn. repeat split; try lia. done. }
  destruct lines as [| line rest].
  { cbn. repeat split; try lia. done. }
  cbn [length] in Hfuel.
  assert (Houter :
    let done :=
      match rest with
      | next :: rest' =>
          if isTableLine line && isTableLine next && isSeparatorLine next then
            let after := renumberFrom rest' (Some 1) total in
            (line :: next :: after.1, after.2)
          else
            let after := renumberFrom rest None total in
            (line :: after.1, after.2)
      | [] =>
          let next := [] in
          if isTableLine line && isTableLine next && isSeparatorLine next then
            ([line; next], total)
          else ([line], total)
      end in
    length done.1 = length (line :: rest) /\
    total <= done.2 <= total + Z.of_nat (length (line :: rest)) /\
    forall i l,
      (line :: rest) !! i = Some l ->
      done.1 !! i = Some l
      \/ (isTableLine l = true /\ isSeparatorLine l = false
          /\ (6 <= length (rowCells l))%nat
          /\ exists n, 1 <= n /\ done.1 !! i = Some (numberedRow n (rowCells l)))).
  { cbv zeta. destruct rest as [| next rest'].
    - rewrite isTableLine_nil, andb_false_r. cbn [andb fst snd length].
      repeat split; try lia. intros [| i] l Hl; [by left | done].
    - destruct (isTableLine line && isTableLine next && isSeparatorLine next).
      + destruct (IH rest' (Some 1) total) as (Hlen & Hcount & Hlines).
        { cbn [length] in Hfuel. lia. }
        { intros n [= <-]. lia. }
        cbn [fst snd length] in *. rewrite Hlen.
        repeat split; try lia.
        intros [| [| i]] l Hl; [by left | by left |]. apply (Hlines i l Hl).
      + destruct (IH (next :: rest') None total) as (Hlen & Hcount & Hlines).
        { cbn [length] in *. lia. }
        { done. }
        cbn [fst snd length] in *. rewrite Hlen.
        repeat split; try lia.
        intros [| i] l Hl; [by left |]. apply (Hlines i l Hl). }
  cbn [renumberFrom]. destruct rowNumber as [n |]; [| exact Houter].
  destruct (isTableLine line) eqn:Htable; [| exact Houter].
  clear Houter. pose proof (Hpos n eq_refl) as Hn.
  destruct (isSeparatorLine line) eqn:Hsep.
  - destruct (IH rest (Some n) total) as (Hlen & Hcount & Hlines);
      [lia | done |].
    cbn [fst snd length] in *. rewrite Hlen. repeat split; try lia.
    intros [| i] l Hl; [by left |]. apply (Hlines i l Hl).
  - destruct (6 <=? length (rowCells line))%nat eqn:Hcells.
    + destruct (IH rest (Some (n + 1)) (total + 1)) as (Hlen & Hcount & Hlines).
      { lia. }
      { intros k [= <-]. lia. }
      cbn [fst snd length] in *. rewrite Hlen. repeat split; try lia.
      intros [| i] l Hl; [| apply (Hlines i l Hl)].
      injection Hl as <-. right. apply Nat.leb_le in Hcells.
      repeat split; try done. by exists n.
    + destruct (IH rest (Some n) total) as (Hlen & Hcount & Hlines);
        [lia | done |].
      cbn [fst snd length] in *. rewrite Hlen. repeat split; try lia.
      intros [| i] l Hl; [by left |]. apply (Hlines i l Hl).
Qed.

(** X28 ([renumberTable]): renumbering gives one line for each line, in
    place.  A line comes back as it was, or else, being a row of a table
    that is no separator and has six cells or more, as the row written from
    its own cells with a number from 1 on in the first; a line that does not
    start with a pipe, a separator line, and a row of fewer than six cells
    always come back as they were.  No more rows are counted as renumbered
    than there are lines. *)
Theorem renumberTable_keeps_lines (lines : list (list N)) :
  let done := renumberFrom lines None 0 in
  length done.1 = length lines /\
  0 <= done.2 <= Z.of_nat (length lines) /\
  (forall i line,
      lines !! i = Some line ->
      done.1 !! i = Some line
      \/ exists n, 1 <= n /\ done.1 !! i = Some (numberedRow n (rowCells line))) /\
  (forall i line,
      lines !! i = Some line ->
      isTableLine line = false \/ isSeparatorLine line = true
      \/ (length (rowCells line) < 6)%nat ->
      done.1 !! i = Some line).
Proof.
  destruct (renumberFrom_spec (length lines) lines None 0) as (Hlen & Hcount & Hlines);
    [lia | done |].
  cbv zeta in *. repeat split; try lia.
  - intros i line Hi.
    destruct (Hlines i line Hi) as [Hsame | (_ & _ & _ & n & Hn & Hnew)];
      [by left | right; by exists n].
  - intros i line Hi Hkeep.
    destruct (Hlines i line Hi) as [Hsame | (Htable & Hsep & Hcells & _)]; [done |].
    destruct Hkeep as [? | [? | ?]]; [congruence | congruence | lia].
Qed.

Lemma renumberFrom_leaves_table after n total :
  (forall l, head after = Some l -> isTableLine l = false) ->
  renumberFrom after (Some n) total = renumberFrom after None total.
Proof.
  intros Hafter. destruct after as [| l after]; [done |].
  cbn [renumberFrom]. by rewrite (Hafter l eq_refl).
Qed.

Lemma renumberFrom_rows rows after n total :
  Forall numberedKind rows ->
  (forall l, head after = Some l -> isTableLine l = false) ->
  renumberFrom (rows ++ after) (Some n) total
  = (imap (fun k row => numberedRow (n + Z.of_nat k) (rowCells row)) rows
     ++ (renumberFrom after None (total + Z.of_nat (length rows))).1,
     (renumberFrom after None (total + Z.of_nat (length rows))).2).
Proof.
  intros Hrows Hafter. revert n total.
  induction Hrows as [| row rows (Htable & Hsep & Hcells) _ IH]; intros n total.
  - cbn [app imap length]. rewrite renumberFrom_leaves_table by done.
    rewrite Z.add_0_r. by destruct (renumberFrom after None total).
  - rewrite <- app_comm_cons. cbn [renumberFrom]. rewrite Htable, Hsep.
    apply Nat.leb_le in Hcells. rewrite Hcells. rewrite IH. cbn [fst snd imap length].
    replace (total + 1 + Z.of_nat (length rows))
      with (total + Z.of_nat (S (length rows))) by lia.
    rewrite Z.add_0_r. rewrite <- app_comm_cons. f_equal. f_equal. f_equal.
    apply imap_ext. intros k row' _. cbn. f_equal. lia.
Qed.

(** X29 ([renumberTable]): in a table whose header line is followed by a
    separator line and whose rows, up to the first line that does not start
    with a pipe, are no separators and have six cells or more, the header
    and the separator stay as they are and the rows are written anew with
    the numbers 1, 2, 3, ... in the first cell, in their order; each of
    them is counted, and the lines after the table are treated as if the
    file began there. *)
Theorem renumberTable_numbers_rows (header separator : list N)
    (rows after : list (list N)) (total : Z) :
  isTableLine header = true ->
  isSeparatorLine separator = true ->
  Forall numberedKind rows ->
  (forall l, head after = Some l -> isTableLine l = false) ->
  renumberFrom (header :: separator :: rows ++ after) None total
  = (header :: separator
       :: imap (fun k row => numberedRow (1 + Z.of_nat k) (rowCells row)) rows
     ++ (renumberFrom after None (total + Z.of_nat (length rows))).1,
     (renumberFrom after None (total + Z.of_nat (length rows))).2).
Proof.
  intros Hheader Hseparator Hrows Hafter.
  assert (Htable : isTableLine separator = true).
  { unfold isSeparatorLine in Hseparator. unfold isTableLine.
    by destruct (startsWith (trim separator) [pipe]). }
  cbn [renumberFrom]. rewrite Hheader, Htable, Hseparator. cbn [andb].
  by rewrite renumberFrom_rows.
Qed.

Lemma renumberTable_numbers_rows_witness :
  renumberFrom
    ([js "| # | Word | Translation | Definition | Example | Translated |";
      js "|---|---|---|---|---|---|";
      js "| 7 | cat | gato | | | |";
      js "|  | dog |  |  |  |  |"] ++ [js ""; js "| only | four | cells | here |"])
    None 0
  = ([js "| # | Word | Translation | Definition | Example | Translated |";
      js "|---|---|---|---|---|---|";
      js "| 1 | cat | gato |  |  |  |";
      js "| 2 | dog |  |  |  |  |";
      js ""; js "| only | four | cells | here |"], 2).
Proof.
  apply (renumberTable_numbers_rows
           (js "| # | Word | Translation | Definition | Example | Translated |")
           (js "|---|---|---|---|---|---|")
           [js "| 7 | cat | gato | | | |"; js "|  | dog |  |  |  |  |"]
           [js ""; js "| only | four | cells | here |"] 0).
  - vm_compute. reflexivity.
  - vm_compute. reflexivity.
  - repeat constructor; vm_compute; try reflexivity; lia.
  - intros l [= <-]. vm_compute. reflexivity.
Defined.

(** *** Numbering the rows a second time *)

Lemma js_String c s : js (String c s) = Ascii.N_of_ascii c :: js s.
Proof. reflexivity. Qed.

Lemma uint_digits d :
  forallb (fun c => (48 <=? c)%N && (c <=? 57)%N)
          (js (DecimalString.NilEmpty.string_of_uint d)) = true.
Proof.
  unfold js. induction d; [done | ..];
    cbn [DecimalString.NilEmpty.string_of_uint String.list_ascii_of_string
         fmap list_fmap forallb];
    by rewrite IHd.
Qed.

Lemma showZ_digits z : 0 <= z -> isDigits (showZ z) = true.
Proof.
  intros Hz. unfold showZ, isDigits.
  assert (Hd : forall d,
             truthy (js (DecimalString.NilZero.string_of_uint d))
             && forallb (fun c => (48 <=? c)%N && (c <=? 57)%N)
                        (js (DecimalString.NilZero.string_of_uint d)) = true).
  { intros d. pose proof (uint_digits d) as Hall.
    destruct d; [reflexivity | ..];
      cbv beta iota delta [DecimalString.NilZero.string_of_uint];
      rewrite Hall; reflexivity. }
  destruct z as [| p | p]; [reflexivity | | lia].
  cbn [Z.to_int DecimalString.NilZero.string_of_int]. apply Hd.
Qed.

Lemma trim_tight s : (forall c, c ∈ s -> isWhiteSpace c = false) -> trim s = s.
Proof.
  intros Hs. destruct s as [| h t]; [done |].
  unfold trim. rewrite trimStart_nonws by (apply Hs; by left).
  destruct (exists_last (l := h :: t)) as (i & l & Heq); [done |].
  rewrite Heq. rewrite (trimEnd_app_nonws i l []); [done |].
  apply Hs. rewrite Heq. apply elem_of_app. right. by left.
Qed.

Lemma isDigits_units s c :
  isDigits s = true -> c ∈ s -> (48 <= c)%N /\ (c <= 57)%N.
Proof.
  unfold isDigits. intros Hs Hc. apply andb_true_iff in Hs as [_ Hs].
  rewrite forallb_forall in Hs. apply list_elem_of_In in Hc.
  specialize (Hs c Hc). apply andb_true_iff in Hs as [H1 H2].
  split; [by apply N.leb_le | by apply N.leb_le].
Qed.

Lemma isDigits_tidy s : isDigits s = true -> tidy s.
Proof.
  intros Hs. split.
  - apply trim_tight. intros c Hc. destruct (isDigits_units s c Hs Hc) as [H1 H2].
    unfold isWhiteSpace.
    repeat match goal with
           | |- context [(?a <=? ?b)%N] => destruct (N.leb_spec a b)
           | |- context [(?a =? ?b)%N] => destruct (N.eqb_spec a b)
           end; try reflexivity; lia.
  - intros Hc. destruct (isDigits_units s pipe Hs Hc) as [_ H2].
    unfold pipe in H2. lia.
Qed.

Lemma isDigits_not_separator s : isDigits s = true -> isSeparatorCell s = false.
Proof.
  intros Hs. destruct s as [| c rest]; [done |].
  destruct (isDigits_units (c :: rest) c Hs) as [H1 H2]; [by left |].
  unfold isSeparatorCell.
  destruct (N.eqb_spec c colon) as [-> | _]; [unfold colon in H2; lia |].
  cbn [skipHyphens].
  destruct (N.eqb_spec c hyphen) as [-> | _]; [unfold hyphen in H1; lia |].
  reflexivity.
Qed.

Lemma sliceInner_elem {A} (l : list A) x : x ∈ sliceInner l -> x ∈ l.
Proof.
  unfold sliceInner. intros Hx. apply subseteq_take in Hx. by apply subseteq_drop in Hx.
Qed.

Lemma sliceInner_fmap {A B} (f : A -> B) (l : list A) :
  f <$> sliceInner l = sliceInner (f <$> l).
Proof. unfold sliceInner. by rewrite fmap_take, fmap_drop, length_fmap. Qed.

Lemma rowCells_tidy row : Forall tidy (rowCells row).
Proof.
  apply Forall_forall. intros c Hc. unfold rowCells in Hc.
  apply sliceInner_elem in Hc. apply list_elem_of_fmap in Hc as (q & -> & Hq).
  split; [apply trim_idem |]. intros Hin. apply elem_of_trim in Hin.
  by apply (splitOn_no_sep _ _ _ Hq).
Qed.

Lemma join_cons_ne sep p (l : list (list N)) :
  l <> [] -> join sep (p :: l) = p ++ sep ++ join sep l.
Proof. by destruct l. Qed.

Lemma join_rowInside xs x :
  [space] ++ join (js " | ") (xs ++ [x]) ++ [space] = rowInside xs x.
Proof.
  induction xs as [| c xs IH]; [done |].
  change ((c :: xs) ++ [x]) with (c :: (xs ++ [x])).
  rewrite join_cons_ne by (by destruct xs).
  cbn [rowInside]. rewrite <- IH.
  change (js " | ") with ([space] ++ pipe :: [space]).
  by rewrite <- !app_assoc.
Qed.

Lemma tidy_fmap_trim cs : Forall tidy cs -> trim <$> cs = cs.
Proof.
  induction 1 as [| c cs [Hc _] _ IH]; [done |]. by rewrite fmap_cons, Hc, IH.
Qed.

(** A row that is written from cells is read back as these cells. *)
Lemma written_row cs :
  cs <> [] -> Forall tidy cs ->
  let row := js "| " ++ join (js " | ") cs ++ js " |" in
  isTableLine row = true /\ rowCells row = cs
  /\ trim <$> sliceInner (splitOn pipe (trim row)) = cs.
Proof.
  intros Hne Hcs row.
  destruct (exists_last Hne) as (xs & x & ->).
  assert (Hrow : row = pipe :: rowInside xs x ++ [pipe]).
  { unfold row. rewrite <- join_rowInside.
    change (js "| ") with ([pipe] ++ [space]).
    change (js " |") with ([space] ++ [pipe]).
    by rewrite <- !app_assoc. }
  destruct (row_between_pipes (rowInside xs x)) as (Htrim & Hstart & _ & _).
  cbv zeta in Htrim, Hstart. rewrite <- Hrow in Htrim, Hstart.
  assert (Hread : rowCells row = xs ++ [x]).
  { unfold rowCells. rewrite Htrim, Hrow. cbn [splitOn].
    change (pipe =? pipe)%N with true. cbv iota.
    rewrite splitOn_app. cbn [splitOn]. rewrite fmap_cons, fmap_app.
    cbn [fmap list_fmap]. change (trim []) with (@nil N).
    rewrite sliceInner_between.
    apply Forall_app in Hcs as [Hxs Hx]. rewrite Forall_singleton in Hx.
    pose proof (sync_cells xs x) as Hsync.
    rewrite (tidy_fmap_trim xs Hxs) in Hsync. destruct Hx as [Hx1 Hx2].
    rewrite Hx1 in Hsync. apply Hsync; [| done].
    eapply Forall_impl; [exact Hxs |]. intros c [Hc1 Hc2]. by rewrite Hc1. }
  split; [| split].
  - unfold isTableLine. by rewrite Htrim.
  - exact Hread.
  - rewrite sliceInner_fmap. exact Hread.
Qed.

Lemma insert_first_again {A} (v : A) (l : list A) :
  <[0%nat := v]> (<[0%nat := v]> l) = <[0%nat := v]> l.
Proof. by destruct l. Qed.

(** A row that has been numbered is numbered the same way again. *)
Lemma numberedRow_again n cells :
  1 <= n -> (6 <= length cells)%nat -> Forall tidy cells ->
  let row := numberedRow n cells in
  isTableLine row = true /\ isSeparatorLine row = false
  /\ (6 <= length (rowCells row))%nat
  /\ numberedRow n (rowCells row) = row.
Proof.
  intros Hn Hlen Hcells row.
  assert (Hdigits : isDigits (showZ n) = true) by (apply showZ_digits; lia).
  destruct cells as [| c0 cells]; [cbn in Hlen; lia |].
  assert (Hcs : Forall tidy (showZ n :: cells)).
  { apply Forall_cons in Hcells as [_ Hcells].
    apply Forall_cons. split; [by apply isDigits_tidy | done]. }
  destruct (written_row (showZ n :: cells)) as (Htable & Hread & Hsep); [done | done |].
  cbv zeta in Htable, Hread, Hsep.
  change (js "| " ++ join (js " | ") (showZ n :: cells) ++ js " |") with row
    in Htable, Hread, Hsep.
  split; [exact Htable |]. split; [| split].
  - unfold isSeparatorLine. unfold isTableLine in Htable. rewrite Htable.
    cbn [negb]. rewrite Hsep. cbn [length forallb].
    rewrite (isDigits_not_separator _ Hdigits).
    by rewrite andb_false_r.
  - rewrite Hread. exact Hlen.
  - rewrite Hread. reflexivity.
Qed.

Lemma renumberFrom_outer_head line rest total :
  exists pushed, (renumberFrom (line :: rest) None total).1 = line :: pushed.
Proof.
  cbn [renumberFrom]. destruct rest as [| next rest'].
  - rewrite isTableLine_nil, andb_false_r. cbn [andb fst]. by eexists.
  - destruct (isTableLine line && isTableLine next && isSeparatorLine next);
      cbn [fst]; by eexists.
Qed.

Lemma renumberFrom_again (fuel : nat) :
  forall (lines : list (list N)) (rowNumber : option Z) (total total' : Z),
    (length lines <= fuel)%nat ->
    (forall n, rowNumber = Some n -> 1 <= n) ->
    renumberFrom (renumberFrom lines rowNumber total).1 rowNumber total'
    = ((renumberFrom lines rowNumber total).1,
       total' + ((renumberFrom lines rowNumber total).2 - total)).
Proof.
  induction fuel as [| fuel IH]; intros lines rowNumber total total' Hfuel Hpos.
  { destruct lines; [| simpl in Hfuel; lia]. cbn. f_equal. lia. }
  destruct lines as [| line rest].
  { cbn. f_equal. lia. }
  cbn [length] in Hfuel.
  assert (Houter :
    renumberFrom (renumberFrom (line :: rest) None total).1 None total'
    = ((renumberFrom (line :: rest) None total).1,
       total' + ((renumberFrom (line :: rest) None total).2 - total))).
  { cbn [renumberFrom]. destruct rest as [| next rest'].
    - rewrite isTableLine_nil, andb_false_r. cbn [andb fst snd renumberFrom].
      rewrite isTableLine_nil, andb_false_r. cbn [andb]. f_equal. lia.
    - destruct (isTableLine line && isTableLine next && isSeparatorLine next) eqn:Hcond.
      + pose proof (IH rest' (Some 1) total total') as Hagain.
        set (after := renumberFrom rest' (Some 1) total) in *.
        cbn [fst snd renumberFrom]. rewrite Hcond, Hagain.
        * reflexivity.
        * cbn [length] in Hfuel. lia.
        * intros n [= <-]. lia.
      + pose proof (IH (next :: rest') None total total') as Hagain.
        destruct (renumberFrom_outer_head next rest' total) as (pushed & Hhead).
        set (after := renumberFrom (next :: rest') None total) in *.
        cbn [fst snd]. rewrite Hhead in *. cbn [renumberFrom].
        rewrite Hcond. cbn [renumberFrom] in Hagain. rewrite Hagain.
        * reflexivity.
        * cbn [length] in *. lia.
        * done. }
  destruct rowNumber as [n |]; [| exact Houter].
  destruct (isTableLine line) eqn:Htable.
  2: { assert (Hleave : forall t,
         renumberFrom (line :: rest) (Some n) t = renumberFrom (line :: rest) None t).
       { intros t. apply renumberFrom_leaves_table. by intros l [= <-]. }
       rewrite Hleave.
       destruct (renumberFrom_outer_head line rest total) as (pushed & Hhead).
       rewrite Hhead in *.
       rewrite renumberFrom_leaves_table by (by intros l [= <-]).
       exact Houter. }
  clear Houter. pose proof (Hpos n eq_refl) as Hn.
  cbn [renumberFrom]. rewrite Htable.
  destruct (isSeparatorLine line) eqn:Hsep.
  - pose proof (IH rest (Some n) total total') as Hagain.
    set (after := renumberFrom rest (Some n) total) in *.
    cbn [fst snd renumberFrom]. rewrite Htable, Hsep, Hagain; [done | lia | done].
  - destruct (6 <=? length (rowCells line))%nat eqn:Hcells.
    + pose proof (IH rest (Some (n + 1)) (total + 1) (total' + 1)) as Hagain.
      set (after := renumberFrom rest (Some (n + 1)) (total + 1)) in *.
      apply Nat.leb_le in Hcells.
      destruct (numberedRow_again n (rowCells line) Hn Hcells (rowCells_tidy line))
        as (Htable' & Hsep' & Hcells' & Hsame).
      cbv zeta in Htable', Hsep', Hcells', Hsame.
      apply Nat.leb_le in Hcells'.
      cbn [fst snd renumberFrom]. rewrite Htable', Hsep', Hcells', Hsame, Hagain.
      * cbn [fst snd]. f_equal. lia.
      * lia.
      * intros k [= <-]. lia.
    + pose proof (IH rest (Some n) total total') as Hagain.
      set (after := renumberFrom rest (Some n) total) in *.
      cbn [fst snd renumberFrom]. rewrite Htable, Hsep, Hcells, Hagain;
        [done | lia | done].
Qed.

(** X30 ([renumberTable]): numbering the rows of the lines that a
    numbering has given changes nothing: every line stays as it is, and the
    same number of rows is counted. *)
Theorem renumberTable_idempotent (lines : list (list N)) :
  renumberFrom (renumberFrom lines None 0).1 None 0 = renumberFrom lines None 0.
Proof.
  rewrite (renumberFrom_again (length lines) lines None 0 0); [| lia | done].
  destruct (renumberFrom lines None 0) as [pushed total]. cbn [fst snd].
  f_equal. lia.
Qed.
